(* ===== verification/_CoqProject ===== *)
-Q . S2P
Prelude.v
MachineInt.v
Scalar.v
FloatValid.v
FloatRound.v
FloatError.v
FloatModel.v
Pipe.v
TriIndex.v
Overflow.v
Packed.v
Blocking.v
Kernel.v
KernelLoop.v
Spec.v
Correctness.v
Frames.v
Safety.v
Pipeline.v
Schedule.v
Determinacy.v
Backpressure.v
Stream.v
Events.v
Accuracy.v
Ideal.v
KernelTree.v
