(* ===== verification/Prelude.v ===== *)
(** * Verification of the diagonal-reciprocal kernel (DiagReciprocal.hpp)

    The program is one stage of the MVDR beamforming pipeline of the oneAPI
    samples: [SubmitDiagReciprocalKernel] in
    [src/DirectProgramming/DPC++FPGA/ReferenceDesigns/mvdr_beamforming/src/DiagReciprocal.hpp].
    The kernel reads the upper-triangular factor R of a QR decomposition from
    an input pipe, element by element in packed row-major order, keeps two
    [int] counters [row] and [col] that reconstruct the coordinates of the
    element just read, and writes [1 / entry.real()] to an output pipe each
    time the coordinates are diagonal.  It performs
    [total_reads = num_rows * (num_rows + 1) / 2] iterations.

    ** Files, in dependency order

    - [Prelude] (this file): tactics, the hint databases, integer intervals
      as lists ([zrange]), triangular numbers ([tri]), iteration ([iter_n]),
      the list lemmas the components share, and relations lifted to
      options and pairs.
    - [MachineInt]: the integer types of the kernel.  [size_t] is an
      unsigned 64-bit integer and [int] a signed 32-bit one; both are [Z]
      with the wrap-around written out ([wrap], [swrap]).  It holds the
      conversions the C++ code performs implicitly ([int_of_size] at the
      initialisation of [total_reads], [size_of_int] in [col == num_rows])
      and the definition [total_reads] of line 21.
    - [Scalar]: the element type.  [ComplexType] (declared in
      mvdr_complex.hpp, which is not part of the sources) is a pair of
      scalars; the class [Scalar] is the interface of the scalar type
      (the constant one and division), and [binary32] is its IEEE-754 single
      precision instance, built on the Standard Library's [SpecFloat].
      [recip_real] is the expression [1 / entry.real()] of line 30.
    - [FloatValid]: well-formedness of floating-point numbers
      ([valid_binary] of [SpecFloat]) and its preservation by division.
    - [FloatRound]: the rounding of a quotient, in integers: [located]
      places the exact quotient between two consecutive mantissas,
      [nearest_int] says which of the two the rounding picks, and
      [rounded] states what each result of the rounding says of the
      quotient.
    - [FloatError]: the same in rational numbers: [magnitude], the value
      of a finite number; [nearest], no valid number of the format is
      nearer; [rounds_to], correct rounding to nearest; the overflow
      [threshold].
    - [FloatModel]: the standard model of floating-point arithmetic
      ([standard_model]): the error relative to the exact quotient is at
      most the unit roundoff.
    - [Pipe]: the pipes.  The class [Pipe] is what the kernel assumes of its
      two template parameters [RMatrixInPipe] and [RDiagRecipVectorOutPipe]:
      a blocking [read], a blocking [write], and the FIFO laws that relate
      them to the abstract contents of the pipe.  Instances: an unbounded
      FIFO and a FIFO of bounded capacity.  Pipes are compared up to what
      they hold ([pipe_equiv]); [read] and [write] respect it.
    - [TriIndex]: the position tracker.  [position] is the pair of counters,
      [pos_init] lines 22-23, [on_diag] the test of line 29, [advance] the
      update of lines 33-38 (with the machine arithmetic of [MachineInt]).
      The reference enumeration [tri_indices] lists the coordinates of the
      packed upper triangle; [rank] is the index of a coordinate in it.
    - [Overflow]: [overflows], an iteration performs a signed increment
      that leaves the range of [int] (undefined in C++), and for which
      [num_rows] that happens.
    - [Packed]: the packed stream as a list: [diag_elems] selects the
      elements of a stream that sit at diagonal coordinates, [packed_diag]
      takes the head of each row; the two agree on [tri_indices].
    - [Blocking]: the monad in which the kernel body is written: a state
      monad over the machine configuration whose computations either
      return, or suspend on an empty input pipe or a full output pipe.
    - [Kernel]: the kernel itself: [config] (the locals [i], [row], [col]
      and the two pipes), [loop_body] (lines 27-38), [incr_i] and
      [kernel_loop] (the [for] loop of lines 25-39, with fuel), and
      [SubmitDiagReciprocalKernel] (lines 18-44); what one iteration
      writes ([emit_at]) and what the first iterations write ([written]).
    - [KernelLoop]: the loop, forwards: [runs_to] composes iterations, and
      each way the loop can end (exit, empty input, full output) is
      derived from the configuration at the head of an iteration.
    - [Spec]: the abstract specification: an upper-triangular matrix as a
      function of its coordinates, its packing [pack] and its [diagonal];
      [spec_output] on matrices and [kernel_output] on streams, and the
      lemmas that relate them to what the loop emits.
    - [Correctness]: the theorems on an invocation: for
      [num_rows <= 65535], refinement of the specification, the outcome on
      a complete stream, on a short stream and on a full output pipe; for
      every [num_rows] below [2^31 - 1], what the invocation does with the
      loop bound that line 21 computes.
    - [Frames]: the stage re-invoked once per matrix ([run_frames]), each
      invocation on the pipes the previous one left; what happens to a
      frame that lost an element.
    - [Safety]: the loop, backwards: a postcondition that holds of every
      outcome for every [num_rows] and every pipe ([kernel_loop_post]),
      from which the fuel is never exhausted and no invocation reads more
      than [total_reads] elements.
    - [Pipeline]: the kernel as a thread with program points ([kthread]:
      before the read of line 27, before the write of line 30, after the
      loop), one pipe operation per step ([kstep]); the pipeline as a
      transition system ([step], and the function [sys_step] of the
      scheduled component) in which a producer, the kernel and a consumer
      interleave over two pipes; the invariant [inv] of the reachable
      states.  The producer and the consumer are not in the sources: they
      are modelled from the specification as a stage that writes a given
      stream and a stage that reads whatever arrives.
    - [Schedule]: progress, the measure that every step decreases, the
      count of the pipe operations of a run ([upstream], [downstream]),
      and the theorems on the schedules of the pipeline.
    - [Determinacy]: the states of the pipeline up to their pipes
      ([sys_equiv]), of which the transitions are morphisms; two
      different components commute ([step_diamond]); confluence up to an
      equivalence, from the strong confluence theorem of the Standard
      Library.
    - [Backpressure]: how far the kernel and the producer can run ahead of
      the consumer.
    - [Stream]: the pipeline over several matrices: the producer sends the
      packings back to back and the stage is submitted again ([invoke])
      each time it has returned, while the producer and the consumer go
      on ([sstep], and the function [stream_step] of the move).  Its
      invariant [sinv] cuts the stream into the frames of the invocations
      that have returned and the rest, of which [inv] holds.
    - [Events]: the event that line 43 returns: [event_complete], the
      invocation of a submission has returned.
    - [Accuracy]: [Correctness], [Schedule], [FloatError] and
      [FloatModel] composed: the values written by an invocation, and the
      values received by the consumer at the end of every schedule of the
      pipeline, are the reciprocals of the diagonal rounded to nearest.
    - [Ideal]: the instance [exact] of [Scalar], the rational numbers with
      exact division: the same kernel run over it computes the exact
      reciprocals, which the single-precision run approximates
      ([approximates]).
    - [KernelTree]: the kernel as an interaction tree ([kernel_tree]) over
      the events [ReadIn] and [WriteOut], its loop as [ITree.iter], so
      without fuel; the interpreter [run_tree] that runs a tree against
      two pipes; the program of the rows [rows_tree], which has no
      counter.

    ** What is proved

    - Bounds ([MachineInt], [Correctness], [Overflow]): for
      [num_rows <= 65535] the value of [total_reads] is the triangular
      number; from [num_rows = 65536] to 92681 the conversion to [int]
      wraps to a negative number and the loop body never runs; from 92682
      to 113511 it wraps around to a small positive number and the
      invocation returns after that many reads only; for every [num_rows]
      below [2^31 - 1] the invocation treats the elements it takes as the
      beginning of the packed triangle, and beyond 65535 never reaches the
      last row.  A signed increment overflows in some iteration if and
      only if [num_rows > 2^31 - 1] and [total_reads = 2^31 - 1], as for
      [num_rows = 3461111898]: the loop bound is the only arithmetic that
      goes wrong below [2^31 - 1] rows.
    - Position tracker ([TriIndex]): for every [num_rows] below [2^31 - 1],
      [advance] computes the mathematical update and preserves
      [1 <= row <= col <= num_rows]; the sequence of positions it visits
      is the enumeration [tri_indices]; [rank] and [unrank] are inverse
      and the counters after [k] iterations are [unrank k].
    - Kernel ([Correctness], [Frames], [Safety]): functional behaviour on
      every branch (complete input, short input, full output pipe), the
      number of reads and writes, the value of each output, independence
      of successive invocations on any number of frames, the completion
      of a frame that lost an element with the head of the next one,
      dependence of the output on the real parts of the diagonal only,
      refinement of the abstract specification; for every [num_rows],
      termination within the fuel and the bound on what is read.
    - Scalars ([Scalar]): the reciprocal at the special values of IEEE-754
      (zeros give infinities of the same sign, infinities give zeros, NaN
      gives NaN) and its sign; ([FloatValid]) a quotient is a well-formed
      number of its format, a lemma the accuracy proofs start from and not
      a property of the kernel, since it holds of any division;
      ([FloatRound], [FloatError]) the reciprocal of a finite number is
      the exact quotient rounded to nearest, in single and in double
      precision: within half a unit of the last place, with no valid
      number of the format nearer and ties to the even mantissa, when
      finite; an infinity exactly from the overflow threshold on; never a
      zero for a valid number; ([FloatModel]) for a real part between
      [2 ^ -126] and [2 ^ 126] in single precision, [2 ^ -1022] and
      [2 ^ 1022] in double precision, a normal number within the unit
      roundoff ([2 ^ -24], [2 ^ -53]) times the exact quotient of it;
      ([Accuracy]) so are the values the kernel writes for the diagonal of
      a matrix, and the values the consumer receives whatever the
      schedule of the pipeline; ([Ideal]) the single-precision invocation
      approximates, value by value, the invocation over the rationals.
    - Pipeline ([Pipeline], [Schedule]): the thread refines the monadic
      kernel; with pipes of depth at least one, no reachable state is a
      deadlock, no pipe holds more than its depth, every schedule has at
      most [2 * length xs + 4 * total_reads] steps, every maximal
      schedule ends with the specified output received after exactly
      [num_rows * (num_rows + 1) + 2 * num_rows] steps, what is received
      before is a prefix of it, a stream that is too short ends in a
      stall of the kernel in its read, and a stream that is too long
      leaves its excess in the input pipe.
    - Determinacy ([Determinacy]): for every [num_rows], stream, pipes
      and state, two schedules can be continued until they meet up to
      [sys_equiv], and the state in which nothing can move is unique up
      to it: the outcome of the pipeline, well-formed stream or not, does
      not depend on the schedule.
    - Flow control ([Backpressure]): when the consumer has taken [c]
      values and the output pipe has depth [dout], the kernel has read at
      most the elements up to the head of row [c + dout + 1], and the
      producer has sent at most the depth of the input pipe more.
    - Stream ([Stream]): with the packings of several matrices sent back
      to back and the stage submitted again after each return, whatever
      the interleaving of the producer, the kernel, the consumer and the
      submissions, a finished state stays reachable, nothing else is
      stuck, and there the consumer holds the outputs of the matrices in
      order; no schedule is longer than the measure of the first state;
      the stream is confluent as the pipeline is.  For a stream that is
      not a whole number of frames ([stream_outcome]), a stuck state has
      every submission returned and the elements in excess left to the
      producer and the input pipe, or an invocation waiting in its read
      inside the last, partial frame.
    - Events ([Events]): when the event of a submission is complete, the
      kernel has taken the frames of this submission and of those before
      it entirely and has written all their reciprocals; in the finished
      state every event is complete.
    - Interaction tree ([KernelTree]): for [num_rows <= 65535] the tree of
      the kernel is equal up to silent steps to the program of the rows;
      for every [num_rows], run against the pipes it ends as the monadic
      kernel ends.

    ** Bounds and fuel

    The loop is modelled with fuel, a natural number that bounds the number
    of iterations.  [SubmitDiagReciprocalKernel] supplies
    [Z.to_nat (total_reads num_rows)] of it, which is the exact number of
    iterations of the [for] loop (the loop counter [i] runs from [0] to
    [total_reads]); the theorems show that the loop never runs out of fuel.
    The bound [num_rows <= 65535] in the theorems is the largest value for
    which [num_rows * (num_rows + 1) / 2] fits a 32-bit [int]; the bound
    [num_rows < int_max = 2^31 - 1] is the largest for which the counters,
    which go up to [num_rows + 1], fit one.  The thread
    of [Pipeline] performs at most two pipe operations per iteration, so
    [krun] is run with [2 * Z.to_nat (total_reads num_rows)] of fuel.  The
    interpreter [run_tree] visits at most three nodes per iteration (the
    read, the write, the silent step of [ITree.iter]) and one at the exit,
    so [3 * Z.to_nat (total_reads num_rows) + 1] of fuel is enough for it.
    The tree [kernel_tree] and the relations [step] and [sstep] have no
    fuel: termination of the pipeline is the theorem that bounds the
    length of its runs.  The theorems on rounding hold for every precision
    [0 < prec] and every [emax] with [emin <= emax - prec]; they are
    stated for single precision (24, 128) and double precision (53, 1024),
    where the literal [1] is checked to convert exactly.

    ** What is not modelled

    The SYCL runtime ([queue::submit], [handler::single_task], the returned
    [event]) is a library that the sources only call.  It is represented by
    the behaviour of the submitted task, by the order in which the tasks of
    successive submissions start ([Stream]) and by the completion of their
    events ([Events]); out-of-order queues, several devices and the host
    program that waits on the events are not represented.
    The FPGA pipe hardware is represented by the [Pipe] interface; timing,
    initiation intervals and the clock are not represented.  The stages
    around the kernel are represented by their streams only.  In [Stream]
    an invocation starts when the previous one has returned: the kernel is
    one hardware instance, and two invocations of it never run at once.
    The imaginary part of an element is carried but never inspected, as in the
    code.  Of the element type only IEEE-754 binary formats with rounding
    to nearest even, and the rationals as their exact counterpart, are
    modelled: the header that declares it (mvdr_complex.hpp) is not part
    of the sources.  The lines of
    DiagReciprocal.hpp outside the function (the include guard, the
    includes and the comments, lines 1-12 and 45-47) have no behaviour to
    model. *)

From Stdlib Require Import ZArith List Lia Bool Arith.
From Stdlib Require Import Relations Morphisms RelationClasses.
Import ListNotations.

#[local] Open Scope Z_scope.

(** ** Tactics *)

(** Invert a hypothesis and clean up. *)
Ltac inv H := inversion H; subst; clear H.

(** Case analysis on the first [if]/[match] scrutinee of the goal. *)
Ltac break_if :=
  match goal with
  | |- context [if ?b then _ else _] =>
      let E := fresh "E" in destruct b eqn:E
  end.

(** Turn boolean comparisons on [Z] in the context into propositions. *)
Ltac zbool :=
  repeat match goal with
    | H : (_ =? _) = true |- _ => apply Z.eqb_eq in H
    | H : (_ =? _) = false |- _ => apply Z.eqb_neq in H
    | H : (_ <? _) = true |- _ => apply Z.ltb_lt in H
    | H : (_ <? _) = false |- _ => apply Z.ltb_ge in H
    | H : (_ <=? _) = true |- _ => apply Z.leb_le in H
    | H : (_ <=? _) = false |- _ => apply Z.leb_gt in H
    end.

(** [lia] after exposing the meaning of division and modulo. *)
Ltac zdiv := Z.div_mod_to_equations; nia.

(** The hint database of the development: resolution hints for the
    side conditions (ranges, lengths) that recur in the proofs. *)
Create HintDb diag discriminated.

(** Rewriting database for list lengths. *)
Create Rewrite HintDb list_len.
#[export] Hint Rewrite @length_app @length_map @length_firstn @length_skipn
  @length_combine : list_len.

(** ** Iteration *)

Section Iter.
Context {A : Type}.
Variable f : A -> A.

(** [iter_n n x] applies [f] to [x], [n] times. *)
Fixpoint iter_n (n : nat) (x : A) : A :=
  match n with
  | O => x
  | S n' => iter_n n' (f x)
  end.

Lemma iter_n_add (a b : nat) (x : A) :
  iter_n (a + b) x = iter_n b (iter_n a x).
Proof. revert x; induction a as [|a IH]; intros x; simpl; auto. Qed.

Lemma iter_n_succ_r (n : nat) (x : A) :
  iter_n (S n) x = f (iter_n n x).
Proof.
  replace (S n) with (n + 1)%nat by lia.
  rewrite iter_n_add. reflexivity.
Qed.

(** [trajectory n x] lists [x], [f x], ... : the [n] first iterates. *)
Fixpoint trajectory (n : nat) (x : A) : list A :=
  match n with
  | O => []
  | S n' => x :: trajectory n' (f x)
  end.

Lemma trajectory_length (n : nat) (x : A) : length (trajectory n x) = n.
Proof. revert x; induction n as [|n IH]; intros x; simpl; auto. Qed.

Lemma trajectory_add (a b : nat) (x : A) :
  trajectory (a + b) x = trajectory a x ++ trajectory b (iter_n a x).
Proof.
  revert x; induction a as [|a IH]; intros x; simpl; auto.
  now rewrite IH.
Qed.

Lemma trajectory_firstn (k n : nat) (x : A) :
  (k <= n)%nat -> firstn k (trajectory n x) = trajectory k x.
Proof.
  intros H. replace n with (k + (n - k))%nat by lia.
  rewrite trajectory_add, firstn_app, trajectory_length, Nat.sub_diag.
  rewrite firstn_all2 by (rewrite trajectory_length; lia).
  simpl. apply app_nil_r.
Qed.

Lemma trajectory_nth_error (n k : nat) (x : A) :
  (k < n)%nat -> nth_error (trajectory n x) k = Some (iter_n k x).
Proof.
  revert k x; induction n as [|n IH]; intros k x Hk; [lia|].
  destruct k as [|k]; simpl; [reflexivity|].
  apply IH; lia.
Qed.

End Iter.

#[export] Hint Rewrite @trajectory_length : list_len.

(** ** Integer intervals *)

(** [zrange a n] is the list [a; a+1; ...; a+n-1]. *)
Fixpoint zrange (a : Z) (n : nat) : list Z :=
  match n with
  | O => []
  | S n' => a :: zrange (a + 1) n'
  end.

Lemma zrange_length (a : Z) (n : nat) : length (zrange a n) = n.
Proof. revert a; induction n as [|n IH]; intros a; simpl; auto. Qed.

#[export] Hint Rewrite zrange_length : list_len.

Lemma zrange_app (a : Z) (n m : nat) :
  zrange a (n + m) = zrange a n ++ zrange (a + Z.of_nat n) m.
Proof.
  revert a; induction n as [|n IH]; intros a.
  - simpl. now rewrite Z.add_0_r.
  - cbn [Nat.add zrange app]. rewrite IH. do 3 f_equal. lia.
Qed.

Lemma zrange_nth_error (a : Z) (n k : nat) :
  (k < n)%nat -> nth_error (zrange a n) k = Some (a + Z.of_nat k).
Proof.
  revert a k; induction n as [|n IH]; intros a [|k] Hk; simpl; try lia.
  - f_equal. lia.
  - rewrite IH by lia. f_equal. lia.
Qed.

Lemma zrange_In (a : Z) (n : nat) (x : Z) :
  In x (zrange a n) <-> a <= x < a + Z.of_nat n.
Proof.
  revert a; induction n as [|n IH]; intros a; simpl.
  - lia.
  - rewrite IH. lia.
Qed.

(** ** Triangular numbers *)

(** [tri n] is [0 + 1 + ... + n]: the number of entries of the upper
    triangle of an [n] x [n] matrix. *)
Fixpoint tri (n : nat) : nat :=
  match n with
  | O => O
  | S n' => (S n' + tri n')%nat
  end.

Lemma tri_double (n : nat) : (2 * tri n = n * (n + 1))%nat.
Proof. induction n as [|n IH]; simpl in *; lia. Qed.

Lemma tri_Z (n : Z) :
  0 <= n -> Z.of_nat (tri (Z.to_nat n)) = n * (n + 1) / 2.
Proof.
  intros Hn. pose proof (tri_double (Z.to_nat n)) as H.
  apply (f_equal Z.of_nat) in H.
  rewrite !Nat2Z.inj_mul, Nat2Z.inj_add, Z2Nat.id in H by lia.
  change (Z.of_nat 2) with 2 in H. change (Z.of_nat 1) with 1 in H.
  zdiv.
Qed.

(** The triangle of two rows or more has elements before its last row. *)
Lemma tri_minus_pos (n : Z) : 2 <= n -> 0 < n * (n + 1) / 2 - n.
Proof. intros H. zdiv. Qed.

(** ** Lists *)

Section Lists.
Context {A : Type}.

Lemma firstn_skipn_length (n : nat) (l : list A) :
  (n <= length l)%nat -> length (firstn n l) = n.
Proof. intros H. rewrite length_firstn. lia. Qed.

(** A list that is long enough splits at any index. *)
Lemma list_split_at (n : nat) (l : list A) :
  (n <= length l)%nat ->
  exists l1 l2, l = l1 ++ l2 /\ length l1 = n.
Proof.
  intros H. exists (firstn n l), (skipn n l). split.
  - symmetry. apply firstn_skipn.
  - now apply firstn_skipn_length.
Qed.

Lemma filter_none (p : A -> bool) (l : list A) :
  (forall x, In x l -> p x = false) -> filter p l = [].
Proof.
  induction l as [|x l IH]; intros H; simpl; auto.
  rewrite (H x) by (now left). apply IH. intros y Hy. apply H. now right.
Qed.

(** Two images of a list are related elementwise when the images of each
    element are. *)
(** A list without its last element, below the last index. *)
Lemma nth_error_removelast (l : list A) (k : nat) :
  (S k < length l)%nat -> nth_error (removelast l) k = nth_error l k.
Proof.
  intros H. rewrite removelast_firstn_len, nth_error_firstn.
  destruct (Nat.ltb_spec k (Nat.pred (length l))); [reflexivity | lia].
Qed.

Lemma length_removelast (l : list A) :
  length (removelast l) = Nat.pred (length l).
Proof. rewrite removelast_firstn_len, length_firstn. lia. Qed.

(** Two lists with prefixes of the same length are equal part by part. *)
Lemma app_inj_length (l1 l2 r1 r2 : list A) :
  length l1 = length l2 -> l1 ++ r1 = l2 ++ r2 -> l1 = l2 /\ r1 = r2.
Proof.
  revert l2; induction l1 as [|x l1 IH]; intros [|y l2] Hl E;
    try discriminate; auto.
  injection Hl as Hl. injection E as -> E.
  destruct (IH l2 Hl E) as [-> ->]. auto.
Qed.

(** Frames of one length [k]: the length of their concatenation, and the
    frames of a given concatenation. *)
Lemma length_concat_const (k : nat) (ls : list (list A)) :
  Forall (fun l => length l = k) ls -> length (concat ls) = (length ls * k)%nat.
Proof.
  induction 1 as [|l ls Hl _ IH]; simpl; [reflexivity|].
  rewrite length_app. lia.
Qed.

Lemma concat_inj_const (k : nat) (ls ls' : list (list A)) :
  Forall (fun l => length l = k) ls -> Forall (fun l => length l = k) ls' ->
  length ls = length ls' -> concat ls = concat ls' -> ls = ls'.
Proof.
  intros H; revert ls'; induction H as [|l ls Hl _ IH];
    intros [|l' ls'] H' Hn E; try discriminate; auto.
  inversion H' as [|? ? Hl' H'']; subst. simpl in E, Hn.
  destruct (app_inj_length l l' _ _ ltac:(lia) E) as [-> E'].
  f_equal. apply IH; auto.
Qed.

Lemma firstn_firstn_le (l : list A) (i j : nat) :
  (i <= j)%nat -> firstn i (firstn j l) = firstn i l.
Proof. intros H. now rewrite firstn_firstn, Nat.min_l. Qed.

(** The first frames of a stream cut into frames of one length. *)
Lemma concat_prefix_const (k : nat) (ls ls' : list (list A)) (r : list A) :
  Forall (fun l => length l = k) ls -> Forall (fun l => length l = k) ls' ->
  (length ls <= length ls')%nat -> concat ls ++ r = concat ls' ->
  ls = firstn (length ls) ls'.
Proof.
  intros H; revert ls'; induction H as [|l ls Hl _ IH];
    intros [|l' ls'] H' Hn E; simpl in Hn; try lia; auto.
  inversion H' as [|? ? Hl' H'']; subst. simpl in E. rewrite <- app_assoc in E.
  destruct (app_inj_length l l' _ _ ltac:(lia) E) as [-> E'].
  simpl. f_equal. apply IH; auto. lia.
Qed.

Lemma Forall2_map {B C : Type} (P : B -> C -> Prop) (f : A -> B) (g : A -> C)
    (l : list A) :
  (forall x, In x l -> P (f x) (g x)) -> Forall2 P (map f l) (map g l).
Proof.
  induction l as [|x l IH]; intros H; simpl; constructor.
  - apply H. now left.
  - apply IH. intros y Hy. apply H. now right.
Qed.
End Lists.

(** ** Relations lifted to options *)

Section OptionRel.
Context {A : Type} (R : relation A).

(** Two optional values are related when both are absent, or both are
    present and related. *)
Inductive option_rel : relation (option A) :=
| option_rel_Some (a b : A) : R a b -> option_rel (Some a) (Some b)
| option_rel_None : option_rel None None.

Lemma option_rel_Some_l (a : A) (o : option A) :
  option_rel (Some a) o -> exists b, o = Some b /\ R a b.
Proof. intros H. inversion H; subst. eauto. Qed.

End OptionRel.

(** Pairs related component by component. *)
Definition pair_rel {A B : Type} (RA : relation A) (RB : relation B)
  : relation (A * B) :=
  fun x y => RA (fst x) (fst y) /\ RB (snd x) (snd y).

(** [option_map] of related functions on related options. *)
Lemma option_map_rel {A B : Type} (R : relation A) (R' : relation B)
    (f g : A -> B) (o o' : option A) :
  (forall a b, R a b -> R' (f a) (g b)) ->
  option_rel R o o' -> option_rel R' (option_map f o) (option_map g o').
Proof. intros Hf [a b H|]; constructor. auto. Qed.
