(* ===== verification/MachineInt.v ===== *)
(** * MachineInt: the integer types of the kernel

    [size_t] (the template parameter [num_rows]) is an unsigned 64-bit
    integer; [int] (the locals [total_reads], [row], [col], [i]) is a signed
    32-bit integer in two's complement.  Values are integers of [Z]; every
    operation writes its wrap-around out.  The file defines the operations
    the kernel uses, the implicit conversions between the two types, the
    loop bound [total_reads], and proves the ranges in which the machine
    operations agree with the mathematical ones. *)

From Stdlib Require Import ZArith Lia Bool.
From S2P Require Import Prelude.

#[local] Open Scope Z_scope.

(** ** Widths and wrap-around *)

Definition size_bits : Z := 64.
Definition int_bits : Z := 32.

(** Reduction of an integer to an unsigned [w]-bit value. *)
Definition wrap (w z : Z) : Z := z mod 2 ^ w.

(** Reduction of an integer to a signed [w]-bit value (two's complement). *)
Definition swrap (w z : Z) : Z := (z + 2 ^ (w - 1)) mod 2 ^ w - 2 ^ (w - 1).

Definition size_max : Z := 2 ^ size_bits - 1.
Definition int_min : Z := - 2 ^ (int_bits - 1).
Definition int_max : Z := 2 ^ (int_bits - 1) - 1.

(** Membership in the two types, as booleans and as propositions. *)
Definition in_size_b (z : Z) : bool := (0 <=? z) && (z <=? size_max).
Definition in_int_b (z : Z) : bool := (int_min <=? z) && (z <=? int_max).
Definition in_size (z : Z) : Prop := 0 <= z <= size_max.
Definition in_int (z : Z) : Prop := int_min <= z <= int_max.

(** ** Operations *)

(** [size_t] arithmetic: modulo [2^64]. *)
Definition size_add (a b : Z) : Z := wrap size_bits (a + b).
Definition size_mul (a b : Z) : Z := wrap size_bits (a * b).
Definition size_div (a b : Z) : Z := a / b.

(** [int] addition; C++ leaves signed overflow undefined, the hardware
    wraps.  The theorems of the development show that the kernel stays in
    the range where the two agree. *)
Definition int_add (a b : Z) : Z := swrap int_bits (a + b).

(** Conversion of a [size_t] to [int] (the initialisation of
    [total_reads]): the value modulo [2^32], read as signed. *)
Definition int_of_size (z : Z) : Z := swrap int_bits z.

(** Conversion of an [int] to [size_t] (the usual arithmetic conversions in
    [col == num_rows] and in [num_rows + 1]): the value modulo [2^64]. *)
Definition size_of_int (z : Z) : Z := wrap size_bits z.

(** Line 21: [int total_reads = num_rows * (num_rows+1) / 2;].  The
    right-hand side is computed in [size_t], then converted to [int]. *)
Definition total_reads (num_rows : Z) : Z :=
  int_of_size
    (size_div (size_mul num_rows (size_add num_rows (size_of_int 1)))
              (size_of_int 2)).

Lemma wrap_small (w z : Z) : 0 <= z < 2 ^ w -> wrap w z = z.
Proof. intros H. unfold wrap. now apply Z.mod_small. Qed.

Lemma swrap_range (w z : Z) :
  0 < w -> - 2 ^ (w - 1) <= swrap w z < 2 ^ (w - 1).
Proof.
  intros Hw. unfold swrap.
  assert (H2 : 2 ^ w = 2 * 2 ^ (w - 1)).
  { rewrite <- Z.pow_succ_r by lia. f_equal. lia. }
  pose proof (Z.mod_pos_bound (z + 2 ^ (w - 1)) (2 ^ w)
                ltac:(apply Z.pow_pos_nonneg; lia)).
  lia.
Qed.

Lemma swrap_small (w z : Z) :
  0 < w -> - 2 ^ (w - 1) <= z < 2 ^ (w - 1) -> swrap w z = z.
Proof.
  intros Hw H. unfold swrap.
  assert (H2 : 2 ^ w = 2 * 2 ^ (w - 1)).
  { rewrite <- Z.pow_succ_r by lia. f_equal. lia. }
  rewrite Z.mod_small by lia. lia.
Qed.

(** Two integers have the same signed reduction iff they are congruent. *)
Lemma swrap_congr (w a b : Z) :
  a mod 2 ^ w = b mod 2 ^ w -> swrap w a = swrap w b.
Proof.
  intros H. unfold swrap. f_equal.
  rewrite <- (Zplus_mod_idemp_l a), <- (Zplus_mod_idemp_l b). now rewrite H.
Qed.

Lemma in_int_b_spec (z : Z) : in_int_b z = true <-> in_int z.
Proof. unfold in_int_b, in_int. rewrite andb_true_iff, !Z.leb_le. tauto. Qed.

Lemma in_size_b_spec (z : Z) : in_size_b z = true <-> in_size z.
Proof. unfold in_size_b, in_size. rewrite andb_true_iff, !Z.leb_le. tauto. Qed.

Lemma int_bounds : int_min = -2147483648 /\ int_max = 2147483647.
Proof. split; reflexivity. Qed.

Lemma size_bound : size_max = 18446744073709551615.
Proof. reflexivity. Qed.

(** ** The operations inside their range *)

Lemma int_add_in_int (a b : Z) : in_int (int_add a b).
Proof.
  unfold in_int, int_add, int_min, int_max.
  pose proof (swrap_range int_bits (a + b) eq_refl). lia.
Qed.

Lemma int_add_small (a b : Z) : in_int (a + b) -> int_add a b = a + b.
Proof.
  unfold in_int, int_min, int_max, int_add. intros H.
  apply swrap_small; [reflexivity | lia].
Qed.

Lemma int_of_size_in_int (z : Z) : in_int (int_of_size z).
Proof.
  unfold in_int, int_of_size, int_min, int_max.
  pose proof (swrap_range int_bits z eq_refl). lia.
Qed.

Lemma int_of_size_small (z : Z) : in_int z -> int_of_size z = z.
Proof.
  unfold in_int, int_min, int_max, int_of_size. intros H.
  apply swrap_small; [reflexivity | lia].
Qed.

Lemma size_of_int_small (z : Z) : 0 <= z -> in_int z -> size_of_int z = z.
Proof.
  unfold in_int, int_max, size_of_int, int_bits, size_bits.
  intros H0 H. apply wrap_small. change (2 ^ 64) with 18446744073709551616.
  change (2 ^ (32 - 1) - 1) with 2147483647 in H. lia.
Qed.

Lemma size_add_small (a b : Z) : in_size (a + b) -> size_add a b = a + b.
Proof.
  unfold in_size, size_max, size_add. intros H. apply wrap_small. lia.
Qed.

Lemma size_mul_small (a b : Z) : in_size (a * b) -> size_mul a b = a * b.
Proof.
  unfold in_size, size_max, size_mul. intros H. apply wrap_small. lia.
Qed.

#[export] Hint Resolve int_add_in_int int_of_size_in_int : diag.

(** ** The loop bound *)

(** The largest [num_rows] whose triangular number fits an [int]. *)
Definition max_rows : Z := 65535.

Lemma total_reads_in_int (n : Z) : in_int (total_reads n).
Proof. unfold total_reads. auto with diag. Qed.

(** The conversion to [int] takes the triangular number modulo [2 ^ 32]:
    [total_reads] is the value congruent to it in the range of [int]. *)
Lemma total_reads_mod (n k : Z) :
  0 <= n < 2 ^ 32 -> in_int (n * (n + 1) / 2 - k * 2 ^ 32) ->
  total_reads n = n * (n + 1) / 2 - k * 2 ^ 32.
Proof.
  change (2 ^ 32) with 4294967296. intros H Hk. unfold total_reads.
  change (size_of_int 1) with 1. change (size_of_int 2) with 2.
  assert (Hs : in_size (n + 1)) by (unfold in_size; rewrite size_bound; lia).
  rewrite (size_add_small _ _ Hs).
  assert (Hm : in_size (n * (n + 1))) by (unfold in_size; rewrite size_bound; nia).
  rewrite (size_mul_small _ _ Hm). unfold size_div, int_of_size.
  rewrite (swrap_congr _ _ (n * (n + 1) / 2 - k * 4294967296)).
  - now apply int_of_size_small.
  - change (2 ^ int_bits) with 4294967296.
    replace (n * (n + 1) / 2)
      with (n * (n + 1) / 2 - k * 4294967296 + k * 4294967296) at 1 by lia.
    apply Z.mod_add. discriminate.
Qed.

(** For [num_rows <= 65535] nothing wraps: [total_reads] is the triangular
    number. *)
Lemma total_reads_small (n : Z) :
  0 <= n <= max_rows -> total_reads n = n * (n + 1) / 2.
Proof.
  unfold max_rows. intros H. rewrite (total_reads_mod n 0); [lia|lia|].
  unfold in_int. destruct int_bounds as [-> ->]. zdiv.
Qed.

Lemma total_reads_tri (n : Z) :
  0 <= n <= max_rows -> total_reads n = Z.of_nat (tri (Z.to_nat n)).
Proof. intros H. rewrite total_reads_small, tri_Z by lia. reflexivity. Qed.

Lemma total_reads_nonneg (n : Z) : 0 <= n <= max_rows -> 0 <= total_reads n.
Proof. intros H. rewrite total_reads_tri by lia. lia. Qed.

(** From 65536 to 113511 rows the triangular number lies in
    [[2^31, 2^32 + 2^31)]: the conversion to [int] subtracts [2^32]. The
    result is negative up to 92681 rows, and a small positive number
    after. *)
Lemma total_reads_wraps (n : Z) :
  max_rows < n <= 113511 -> total_reads n = n * (n + 1) / 2 - 2 ^ 32.
Proof.
  unfold max_rows. intros H. rewrite (total_reads_mod n 1); [lia|lia|].
  unfold in_int. destruct int_bounds as [-> ->].
  change (2 ^ 32) with 4294967296. zdiv.
Qed.

(** The counters [row] and [col] go up to [num_rows + 1]: they fit an
    [int] as long as [num_rows < int_max], far beyond [max_rows]. *)
Lemma rows_in_int (n : Z) : 0 <= n <= max_rows -> 0 <= n < int_max.
Proof. unfold max_rows. destruct int_bounds as [_ ->]. lia. Qed.

#[export] Hint Resolve rows_in_int : diag.

(** Whatever [num_rows], the loop bound never exceeds the size of the
    triangle. *)
Lemma total_reads_le (n : Z) : 0 <= n -> total_reads n <= n * (n + 1) / 2.
Proof.
  intros H. destruct (Z.le_gt_cases n max_rows) as [Hle|Hgt].
  - rewrite total_reads_small; lia.
  - pose proof (total_reads_in_int n) as [_ Hmax].
    unfold max_rows in Hgt. destruct int_bounds as [_ E]. rewrite E in Hmax.
    zdiv.
Qed.

(** Beyond [max_rows] it falls short of the head of the last row. *)
Lemma total_reads_short (n : Z) :
  max_rows < n -> total_reads n < n * (n + 1) / 2 - n.
Proof.
  intros H. unfold max_rows in H.
  destruct (Z.le_gt_cases n 92681) as [Hle|Hgt].
  - rewrite total_reads_wraps by (unfold max_rows; lia).
    change (2 ^ 32) with 4294967296. zdiv.
  - pose proof (total_reads_in_int n) as [_ Hmax].
    destruct int_bounds as [_ E]. rewrite E in Hmax. zdiv.
Qed.

(** ** Theorems *)

(** C30: The loop bound inside the range.  For [num_rows] up to 65535 the
    computation of line 21 wraps nowhere: the product fits [size_t], the
    quotient fits [int], and [total_reads] is the number of elements of the
    upper triangle, [num_rows * (num_rows + 1) / 2]. *)
Theorem total_reads_exact (n : Z) :
  0 <= n <= max_rows ->
  size_mul n (size_add n (size_of_int 1)) = n * (n + 1) /\
  total_reads n = n * (n + 1) / 2 /\
  0 <= total_reads n <= int_max.
Proof.
  intros H. pose proof (total_reads_small n H) as HT.
  pose proof (total_reads_in_int n) as [_ Hmax].
  pose proof (total_reads_nonneg n H).
  repeat split; auto.
  unfold max_rows in H. change (size_of_int 1) with 1.
  rewrite size_add_small, size_mul_small;
    unfold in_size; rewrite ?size_bound; nia.
Qed.

Lemma total_reads_exact_witness :
  size_mul 3 (size_add 3 (size_of_int 1)) = 3 * (3 + 1) /\
  total_reads 3 = 3 * (3 + 1) / 2 /\
  0 <= total_reads 3 <= int_max.
Proof. apply (total_reads_exact 3). unfold max_rows; lia. Defined.

