(* ===== verification/Scalar.v ===== *)
(** * Scalar: the element type of the pipes

    The input pipe carries [ComplexType] values and the output pipe carries
    scalars.  [ComplexType] is declared in mvdr_complex.hpp, outside the
    sources: a complex number over a floating-point base type, of which the
    kernel reads the real part only.  The class [Scalar] states what the
    kernel needs of the base type: the conversion of an [int] literal and
    division.  [binary32] is the IEEE-754 single-precision instance, on the
    Standard Library's executable specification of floating-point
    arithmetic ([SpecFloat]); [binary64] is the double-precision one. *)

From Stdlib Require Import ZArith Lia Bool List Floats.SpecFloat.
From S2P Require Import Prelude.
Import ListNotations.

#[local] Open Scope Z_scope.

(** ** The interface of the base type *)

Class Scalar (F : Type) : Type := {
  (** conversion of an integer literal to the base type *)
  of_int : Z -> F;
  (** division of the base type *)
  fdiv : F -> F -> F
}.

(** ** Complex elements *)

Record ComplexType (F : Type) : Type := mkComplex {
  real : F;
  imag : F
}.

Arguments mkComplex {F} _ _.
Arguments real {F} _.
Arguments imag {F} _.

(** Line 30: the expression [1 / entry.real()].  The literal [1] is an
    [int]; the usual arithmetic conversions turn it into the base type. *)
Definition recip_real {F : Type} `{Scalar F} (entry : ComplexType F) : F :=
  fdiv (of_int 1) (real entry).

(** ** IEEE-754 instances *)

Section IEEE.
(** [prec] bits of mantissa (the implicit one included), infinities at
    exponent [emax]. *)
Variables prec emax : Z.

Definition ieee_of_int (z : Z) : spec_float :=
  binary_normalize prec emax z 0 false.

Definition ieee_scalar : Scalar spec_float :=
  {| of_int := ieee_of_int; fdiv := SFdiv prec emax |}.

(** The sign of a value; [None] for NaN. *)
Definition sign_of (x : spec_float) : option bool :=
  match x with
  | S754_zero s | S754_infinity s | S754_finite s _ _ => Some s
  | S754_nan => None
  end.

Definition is_nan (x : spec_float) : bool :=
  match x with S754_nan => true | _ => false end.

End IEEE.

Definition binary32 : Scalar spec_float := ieee_scalar 24 128.
Definition binary64 : Scalar spec_float := ieee_scalar 53 1024.

(** Single-precision elements, as in the reference design. *)
Definition float32 (m : positive) (e : Z) : spec_float := S754_finite false m e.

(** A complex element with an integer real part and a zero imaginary part,
    for the examples. *)
Definition complex_of_int `{Scalar spec_float} (re im : Z) : ComplexType spec_float :=
  mkComplex (of_int re) (of_int im).

(** ** The reciprocal in IEEE-754 arithmetic *)

(** *** Rounding never produces NaN *)

Section Rounding.
Variables prec emax : Z.

Lemma iter_pos_invariant {A : Type} (P : A -> Prop) (f : A -> A) :
  (forall x, P x -> P (f x)) ->
  forall (p : positive) (x : A), P x -> P (iter_pos f p x).
Proof.
  intros Hf p; induction p as [p IH|p IH|]; intros x Hx; simpl; auto.
Qed.

Lemma shr_1_nonneg (mrs : shr_record) :
  0 <= shr_m mrs -> 0 <= shr_m (shr_1 mrs).
Proof.
  destruct mrs as [m r s]; simpl.
  destruct m as [|[p|p|]|[p|p|]]; simpl; lia.
Qed.

Lemma shr_nonneg (mrs : shr_record) (e n : Z) :
  0 <= shr_m mrs -> 0 <= shr_m (fst (shr mrs e n)).
Proof.
  intros H. unfold shr. destruct n; simpl; auto.
  apply (iter_pos_invariant (fun x => 0 <= shr_m x)); auto using shr_1_nonneg.
Qed.

Lemma shr_fexp_nonneg (m e : Z) (l : location) :
  0 <= m -> 0 <= shr_m (fst (shr_fexp prec emax m e l)).
Proof.
  intros H. unfold shr_fexp. apply shr_nonneg.
  destruct l as [|[]]; simpl; assumption.
Qed.

Lemma round_nearest_even_nonneg (m : Z) (l : location) :
  0 <= m -> 0 <= round_nearest_even m l.
Proof.
  intros H. unfold round_nearest_even.
  destruct l as [|[]]; try destruct (Z.even m); lia.
Qed.

(** The result of a rounding of a non-negative mantissa has the sign it
    was given: it is a zero, a finite number or an infinity. *)
Lemma binary_round_aux_sign (sx : bool) (mx ex : Z) (lx : location) :
  0 <= mx ->
  sign_of (binary_round_aux prec emax sx mx ex lx) = Some sx.
Proof.
  intros H. unfold binary_round_aux.
  pose proof (shr_fexp_nonneg mx ex lx H) as H1.
  destruct (shr_fexp prec emax mx ex lx) as [mrs' e']. simpl in H1.
  pose proof (shr_fexp_nonneg _ e' loc_Exact
                (round_nearest_even_nonneg _ (loc_of_shr_record mrs') H1)) as H2.
  destruct (shr_fexp prec emax _ e' loc_Exact) as [mrs'' e'']. simpl in H2.
  destruct (shr_m mrs'') as [|p|p]; simpl; auto; [|lia].
  now destruct (e'' <=? emax - prec).
Qed.

(** The quotient of the division of two mantissas is non-negative. *)
Lemma SFdiv_core_binary_nonneg (m1 m2 : positive) (e1 e2 : Z) :
  0 <= fst (fst (SFdiv_core_binary prec emax (Zpos m1) e1 (Zpos m2) e2)).
Proof.
  unfold SFdiv_core_binary.
  set (s := _ - _ - _).
  set (m' := match s with Z0 => Zpos m1 | Zpos _ => Z.shiftl (Zpos m1) s
                   | Zneg _ => 0 end).
  assert (Hm : 0 <= m').
  { subst m'. destruct s; try lia. apply Z.shiftl_nonneg. lia. }
  pose proof (Z_div_mod m' (Zpos m2) eq_refl) as Hd.
  destruct (Z.div_eucl m' (Zpos m2)) as [q r]. simpl. nia.
Qed.

(** The sign of a quotient is the exclusive or of the signs, unless the
    quotient is NaN. *)
Lemma SFdiv_sign (x y : spec_float) :
  is_nan (SFdiv prec emax x y) = false ->
  sign_of (SFdiv prec emax x y)
    = match sign_of x, sign_of y with
      | Some sx, Some sy => Some (xorb sx sy)
      | _, _ => None
      end.
Proof.
  destruct x as [sx|sx| |sx mx ex], y as [sy|sy| |sy my ey];
    simpl; try discriminate; auto.
  intros _.
  pose proof (SFdiv_core_binary_nonneg mx my ex ey) as Hq.
  destruct (SFdiv_core_binary prec emax (Zpos mx) ex (Zpos my) ey)
    as [[mz ez] lz]. simpl in Hq.
  now apply binary_round_aux_sign.
Qed.

(** A quotient is NaN only for NaN operands, [0/0] and [inf/inf]. *)
Lemma SFdiv_nan (x y : spec_float) :
  is_nan (SFdiv prec emax x y)
  = match x, y with
    | S754_nan, _ | _, S754_nan => true
    | S754_zero _, S754_zero _ => true
    | S754_infinity _, S754_infinity _ => true
    | _, _ => false
    end.
Proof.
  destruct x as [sx|sx| |sx mx ex], y as [sy|sy| |sy my ey]; simpl; auto.
  pose proof (SFdiv_core_binary_nonneg mx my ex ey) as Hq.
  destruct (SFdiv_core_binary prec emax (Zpos mx) ex (Zpos my) ey)
    as [[mz ez] lz]. simpl in Hq.
  pose proof (binary_round_aux_sign (xorb sx sy) mz ez lz Hq) as Hs.
  now destruct (binary_round_aux prec emax (xorb sx sy) mz ez lz).
Qed.
End Rounding.

(** *** The reciprocal *)

Section Reciprocal.
Variables prec emax : Z.

(** The reciprocal of the real part, in the format [(prec, emax)]. *)
Definition ieee_recip (entry : ComplexType spec_float) : spec_float :=
  @recip_real _ (ieee_scalar prec emax) entry.

(** The literal [1] is a positive finite number of the format.  This holds
    of every format with at least one bit of mantissa and a positive
    [emax]; it is checked by evaluation for the formats in use. *)
Definition one_is_finite : Prop :=
  exists m e, ieee_of_int prec emax 1 = S754_finite false m e.

Hypothesis one_finite : one_is_finite.

Lemma ieee_recip_unfold (entry : ComplexType spec_float) :
  ieee_recip entry = SFdiv prec emax (ieee_of_int prec emax 1) (real entry).
Proof. reflexivity. Qed.

Lemma ieee_recip_zero (s : bool) (im : spec_float) :
  ieee_recip (mkComplex (S754_zero s) im) = S754_infinity s.
Proof using one_finite.
  destruct one_finite as (m & e & H1).
  now rewrite ieee_recip_unfold, H1.
Qed.

Lemma ieee_recip_infinity (s : bool) (im : spec_float) :
  ieee_recip (mkComplex (S754_infinity s) im) = S754_zero s.
Proof using one_finite.
  destruct one_finite as (m & e & H1).
  now rewrite ieee_recip_unfold, H1.
Qed.

Lemma ieee_recip_nan (entry : ComplexType spec_float) :
  is_nan (ieee_recip entry) = is_nan (real entry).
Proof using one_finite.
  destruct one_finite as (m & e & H1).
  rewrite ieee_recip_unfold, SFdiv_nan, H1.
  now destruct (real entry).
Qed.

Lemma ieee_recip_sign (entry : ComplexType spec_float) :
  sign_of (ieee_recip entry) = sign_of (real entry).
Proof using one_finite.
  pose proof (ieee_recip_nan entry) as Hn.
  destruct (is_nan (real entry)) eqn:E.
  - destruct (real entry); try discriminate.
    now destruct (ieee_recip entry).
  - rewrite ieee_recip_unfold in *. rewrite SFdiv_sign by congruence.
    destruct one_finite as (m & e & ->). simpl.
    now destruct (sign_of (real entry)) as [[]|].
Qed.
End Reciprocal.

Lemma binary32_one_finite : one_is_finite 24 128.
Proof. exists 8388608%positive, (-23). reflexivity. Qed.

Lemma binary64_one_finite : one_is_finite 53 1024.
Proof. exists 4503599627370496%positive, (-52). reflexivity. Qed.

(** ** Theorems *)

(** C39: The reciprocal at the special values.  In single precision
    [1 / real e] is the infinity of the sign of [real e] when [real e] is a
    zero (no trap: a singular diagonal is data, not an error), the zero of
    its sign when it is an infinity, and NaN exactly when it is NaN;
    in single and in double precision, whatever the element (finite or
    not, rounding to zero or overflowing to infinity included), it has
    the sign of [real e]. *)
Theorem recip_real_special_values (s : bool) (im : spec_float)
    (entry : ComplexType spec_float) :
  @recip_real _ binary32 (mkComplex (S754_zero s) im) = S754_infinity s /\
  @recip_real _ binary32 (mkComplex (S754_infinity s) im) = S754_zero s /\
  is_nan (@recip_real _ binary32 entry) = is_nan (real entry) /\
  sign_of (@recip_real _ binary32 entry) = sign_of (real entry) /\
  sign_of (@recip_real _ binary64 entry) = sign_of (real entry).
Proof.
  split; [|split; [|split; [|split]]].
  - exact (ieee_recip_zero 24 128 binary32_one_finite s im).
  - exact (ieee_recip_infinity 24 128 binary32_one_finite s im).
  - exact (ieee_recip_nan 24 128 binary32_one_finite entry).
  - exact (ieee_recip_sign 24 128 binary32_one_finite entry).
  - exact (ieee_recip_sign 53 1024 binary64_one_finite entry).
Qed.
