(* ===== verification/FloatValid.v ===== *)
(** * FloatValid: division returns well-formed floating-point numbers

    A finite number of a binary format with [prec] bits of precision is
    well formed ([valid_binary]) when its mantissa is canonical (it has
    exactly [prec] digits, or fewer at the smallest exponent) and its
    exponent is in range.  This file proves that division of the Standard
    Library's [SpecFloat] always returns a well-formed number: the
    quotient of the mantissas is computed with enough digits, the two
    shifts of the rounding make it canonical, and the range test turns an
    exponent that is too large into an infinity.  This says nothing of
    the value of the quotient: it is the fact about the result of line 30
    from which [FloatRound] and [FloatError] start when they show that the
    reciprocal is the exact quotient rounded to nearest. *)

From Stdlib Require Import ZArith Lia Bool List Floats.SpecFloat.
From S2P Require Import Prelude Scalar.
Import ListNotations.

#[local] Open Scope Z_scope.

(** ** The number of binary digits *)

Section Digits.

Lemma digits2_pos_size (p : positive) : digits2_pos p = Pos.size p.
Proof. induction p as [p IH|p IH|]; simpl; now rewrite ?IH. Qed.

Lemma Zdigits2_log2 (m : Z) : 0 < m -> Zdigits2 m = Z.log2 m + 1.
Proof.
  destruct m as [|p|p]; try lia. intros _. simpl.
  rewrite digits2_pos_size. destruct p; simpl; lia.
Qed.

Lemma Zdigits2_bounds (m : Z) :
  0 < m -> 2 ^ (Zdigits2 m - 1) <= m < 2 ^ Zdigits2 m.
Proof.
  intros H. rewrite Zdigits2_log2 by assumption.
  replace (Z.log2 m + 1 - 1) with (Z.log2 m) by lia.
  apply Z.log2_spec. assumption.
Qed.

Lemma Zdigits2_nonneg (m : Z) : 0 <= Zdigits2 m.
Proof. destruct m; simpl; lia. Qed.

Lemma Zdigits2_mono (a b : Z) : 0 <= a <= b -> Zdigits2 a <= Zdigits2 b.
Proof.
  intros H. destruct (Z.eq_dec a 0) as [->|Ha]; [apply Zdigits2_nonneg|].
  rewrite !Zdigits2_log2 by lia.
  pose proof (Z.log2_le_mono a b). lia.
Qed.

Lemma Zdigits2_shiftl (m s : Z) :
  0 < m -> 0 <= s -> Zdigits2 (Z.shiftl m s) = Zdigits2 m + s.
Proof.
  intros Hm Hs.
  assert (0 < Z.shiftl m s) by (rewrite Z.shiftl_mul_pow2 by lia; nia).
  rewrite !Zdigits2_log2, Z.log2_shiftl by lia. lia.
Qed.

Lemma Zdigits2_div_pow2 (m n : Z) :
  0 <= m -> 0 <= n -> Zdigits2 (m / 2 ^ n) = Z.max 0 (Zdigits2 m - n).
Proof.
  intros Hm Hn. destruct (Z.eq_dec m 0) as [->|Hm0].
  { rewrite Zdiv_0_l. simpl. lia. }
  rewrite <- Z.shiftr_div_pow2, (Zdigits2_log2 m) by lia.
  destruct (Z_lt_le_dec (Z.log2 m) n) as [Hlt|Hge].
  - rewrite Z.shiftr_eq_0 by lia. simpl. lia.
  - assert (0 < Z.shiftr m n).
    { pose proof (Z.shiftr_nonneg m n). pose proof (Z.shiftr_eq_0_iff m n). lia. }
    rewrite Zdigits2_log2, Z.log2_shiftr by lia. lia.
Qed.

(** When adding one adds a digit, the sum is a power of two. *)
Lemma Zdigits2_succ_pow2 (m : Z) :
  0 <= m -> Zdigits2 m < Zdigits2 (m + 1) -> m + 1 = 2 ^ Zdigits2 m.
Proof.
  intros Hm Hd. pose proof (Zdigits2_bounds (m + 1) ltac:(lia)) as [Hlo _].
  assert (Hle : 2 ^ Zdigits2 m <= 2 ^ (Zdigits2 (m + 1) - 1))
    by (apply Z.pow_le_mono_r; pose proof (Zdigits2_nonneg m); lia).
  destruct (Z.eq_dec m 0) as [->|Hm0]; [simpl in *; lia|].
  pose proof (Zdigits2_bounds m ltac:(lia)). lia.
Qed.

(** A quotient has at least the difference of the numbers of digits. *)
Lemma Zdigits2_div (a b : Z) :
  0 <= a -> 0 < b -> Zdigits2 a - Zdigits2 b <= Zdigits2 (a / b).
Proof.
  intros Ha Hb.
  pose proof (Z.log2_spec b Hb) as [_ Hlt].
  rewrite (Zdigits2_log2 b Hb).
  transitivity (Zdigits2 (a / 2 ^ (Z.log2 b + 1))).
  - rewrite Zdigits2_div_pow2 by (pose proof (Z.log2_nonneg b); lia). lia.
  - apply Zdigits2_mono. split.
    + apply Z.div_pos; [lia|]. apply Z.pow_pos_nonneg; [lia|].
      pose proof (Z.log2_nonneg b); lia.
    + apply Z.div_le_compat_l; lia.
Qed.
End Digits.

(** ** Shifts *)

Section Shift.

Lemma pow2_xO (p : positive) : 2 ^ Z.pos p~0 = 2 ^ Z.pos p * 2 ^ Z.pos p.
Proof. rewrite <- Z.pow_add_r by lia. f_equal. lia. Qed.

Lemma pow2_xI (p : positive) :
  2 ^ Z.pos p~1 = 2 * (2 ^ Z.pos p * 2 ^ Z.pos p).
Proof. rewrite <- Z.pow_add_r, <- Z.pow_succ_r by lia. f_equal. lia. Qed.

Lemma shr_1_m (mrs : shr_record) :
  0 <= shr_m mrs -> shr_m (shr_1 mrs) = shr_m mrs / 2.
Proof.
  destruct mrs as [m r s]; simpl. intros H.
  destruct m as [|[p|p|]|p]; simpl; try lia;
    try reflexivity.
  - rewrite Pos2Z.inj_xI. apply Z.div_unique with 1; lia.
  - rewrite Pos2Z.inj_xO. apply Z.div_unique with 0; lia.
Qed.

(** [p] shifts by one digit divide the mantissa by [2 ^ p]. *)
Lemma iter_shr_1_m (p : positive) (mrs : shr_record) :
  0 <= shr_m mrs ->
  0 <= shr_m (iter_pos shr_1 p mrs) /\
  shr_m (iter_pos shr_1 p mrs) = shr_m mrs / 2 ^ Zpos p.
Proof.
  revert mrs. induction p as [p IH|p IH|]; intros mrs H; simpl iter_pos.
  - pose proof (shr_1_nonneg mrs H) as H1.
    destruct (IH _ H1) as [H2 E2]. destruct (IH _ H2) as [H3 E3].
    split; [assumption|]. rewrite E3, E2, shr_1_m by assumption.
    rewrite !Z.div_div, pow2_xI by (try apply Z.pow_pos_nonneg; lia).
    reflexivity.
  - destruct (IH _ H) as [H2 E2]. destruct (IH _ H2) as [H3 E3].
    split; [assumption|]. rewrite E3, E2.
    rewrite Z.div_div, pow2_xO by (try apply Z.pow_pos_nonneg; lia).
    reflexivity.
  - split; [now apply shr_1_nonneg|]. now rewrite shr_1_m.
Qed.
End Shift.

(** ** Rounding yields canonical mantissas *)

Section Valid.
Variables prec emax : Z.
Hypothesis prec_pos : 0 < prec.

#[local] Abbreviation fexp := (fexp prec emax).

(** A mantissa with enough digits for its exponent: shifting it right to
    its canonical exponent loses no leading digit. *)
Definition good (m e : Z) : Prop := 0 <= m /\ e <= fexp (Zdigits2 m + e).

(** A mantissa at its canonical exponent. *)
Definition canon (m e : Z) : Prop := 0 <= m /\ e = fexp (Zdigits2 m + e).

Lemma fexp_mono (a b : Z) : a <= b -> fexp a <= fexp b.
Proof. unfold SpecFloat.fexp. lia. Qed.

Lemma round_nearest_even_ge (m : Z) (l : location) :
  m <= round_nearest_even m l.
Proof.
  unfold round_nearest_even. destruct l as [|[]]; try destruct (Z.even m); lia.
Qed.

(** The shift to the canonical exponent makes the mantissa canonical. *)
Lemma shr_fexp_canon (m e : Z) (l : location) :
  good m e ->
  canon (shr_m (fst (shr_fexp prec emax m e l)))
        (snd (shr_fexp prec emax m e l)).
Proof using prec_pos.
  intros [Hm He]. unfold shr_fexp, shr.
  assert (Hrec : shr_m (shr_record_of_loc m l) = m)
    by (destruct l as [|[]]; reflexivity).
  destruct (fexp (Zdigits2 m + e) - e) as [|p|p] eqn:En; simpl fst; simpl snd.
  - rewrite Hrec. split; lia.
  - destruct (iter_shr_1_m p (shr_record_of_loc m l)) as [H0 E];
      [rewrite Hrec; lia|].
    rewrite Hrec in E. split; [assumption|].
    rewrite E, Zdigits2_div_pow2 by lia.
    unfold SpecFloat.fexp in *. lia.
  - lia.
Qed.

(** Rounding up may add a digit: the mantissa still has enough. *)
Lemma round_good (m e : Z) (l : location) :
  canon m e -> good (round_nearest_even m l) e.
Proof.
  intros [Hm He]. pose proof (round_nearest_even_ge m l) as Hr.
  split; [lia|]. rewrite He at 1. apply fexp_mono.
  pose proof (Zdigits2_mono m (round_nearest_even m l)). lia.
Qed.

(** The rounding of a mantissa with enough digits is well formed. *)
Lemma binary_round_aux_valid (s : bool) (m e : Z) (l : location) :
  good m e ->
  valid_binary prec emax (binary_round_aux prec emax s m e l) = true.
Proof using prec_pos.
  intros G. unfold binary_round_aux.
  pose proof (shr_fexp_canon m e l G) as C1.
  destruct (shr_fexp prec emax m e l) as [mrs' e']. simpl in C1.
  pose proof (shr_fexp_canon _ e' loc_Exact
                (round_good _ _ (loc_of_shr_record mrs') C1)) as [H2 E2].
  destruct (shr_fexp prec emax _ e' loc_Exact) as [mrs'' e'']. simpl in H2, E2.
  destruct (shr_m mrs'') as [|p|p]; simpl; auto.
  destruct (Z.leb_spec e'' (emax - prec)); simpl; auto.
  unfold bounded, canonical_mantissa. unfold Zdigits2 in E2.
  apply andb_true_intro. split; [apply Z.eqb_eq|apply Z.leb_le]; lia.
Qed.

(** The division of two mantissas: the dividend is shifted left by [s]
    digits, then divided with remainder; the remainder gives the position
    of the quotient. *)
Lemma SFdiv_core_eq (m1 m2 : positive) (e1 e2 : Z) :
  let e' := Z.min (fexp (Zdigits2 (Zpos m1) + e1 - (Zdigits2 (Zpos m2) + e2)))
                  (e1 - e2) in
  let s := e1 - e2 - e' in
  0 <= s /\
  SFdiv_core_binary prec emax (Zpos m1) e1 (Zpos m2) e2
  = (Zpos m1 * 2 ^ s / Zpos m2, e',
     new_location (Zpos m2) (Zpos m1 * 2 ^ s mod Zpos m2)).
Proof.
  intros e' s. assert (Hs : 0 <= s) by (subst s e'; lia). split; [exact Hs|].
  unfold SFdiv_core_binary. fold e'. fold s.
  assert (Em : match s with Z0 => Zpos m1 | Zpos _ => Z.shiftl (Zpos m1) s
                       | Zneg _ => 0 end = Zpos m1 * 2 ^ s).
  { destruct s as [|p|p] eqn:Es; try lia. now rewrite Z.shiftl_mul_pow2. }
  rewrite Em. unfold Z.div, Z.modulo.
  now destruct (Z.div_eucl (Zpos m1 * 2 ^ s) (Zpos m2)).
Qed.

(** The quotient of two mantissas is computed with enough digits. *)
Lemma SFdiv_core_good (m1 m2 : positive) (e1 e2 : Z) :
  good (fst (fst (SFdiv_core_binary prec emax (Zpos m1) e1 (Zpos m2) e2)))
       (snd (fst (SFdiv_core_binary prec emax (Zpos m1) e1 (Zpos m2) e2))).
Proof using prec_pos.
  destruct (SFdiv_core_eq m1 m2 e1 e2) as [Hs ->]. cbn [fst snd].
  set (d1 := Zdigits2 (Zpos m1)). set (d2 := Zdigits2 (Zpos m2)).
  set (e' := Z.min (fexp (d1 + e1 - (d2 + e2))) (e1 - e2)) in *.
  set (s := e1 - e2 - e') in *.
  assert (Hm' : 0 < Zpos m1 * 2 ^ s /\ Zdigits2 (Zpos m1 * 2 ^ s) = d1 + s).
  { rewrite <- Z.shiftl_mul_pow2, Zdigits2_shiftl by lia.
    rewrite Z.shiftl_mul_pow2 by lia. split; [nia|reflexivity]. }
  pose proof (Zdigits2_div (Zpos m1 * 2 ^ s) (Zpos m2) ltac:(lia) eq_refl) as Hd.
  fold d2 in Hd. split; [apply Z.div_pos; lia|].
  subst s e'. unfold SpecFloat.fexp in *. lia.
Qed.

(** A quotient is a well-formed number, whatever the operands. *)
Lemma SFdiv_valid (x y : spec_float) :
  valid_binary prec emax (SFdiv prec emax x y) = true.
Proof using prec_pos.
  destruct x as [sx|sx| |sx mx ex], y as [sy|sy| |sy my ey]; simpl; auto.
  pose proof (SFdiv_core_good mx my ex ey) as G.
  destruct (SFdiv_core_binary prec emax (Zpos mx) ex (Zpos my) ey)
    as [[mz ez] lz]. simpl in G.
  now apply binary_round_aux_valid.
Qed.
(** A valid finite number has a canonical exponent within the range. *)
Lemma valid_finite (s : bool) (p : positive) (e : Z) :
  valid_binary prec emax (S754_finite s p e) = true ->
  canon (Zpos p) e /\ e <= emax - prec.
Proof.
  cbn [valid_binary]. unfold bounded, canonical_mantissa.
  intros [Hc He]%andb_prop. apply Z.eqb_eq in Hc. apply Z.leb_le in He.
  repeat split; auto; cbn [Zdigits2]; lia.
Qed.

(** Its mantissa has at most [prec] digits; exactly [prec] above the
    smallest exponent. *)
Lemma valid_digits (s : bool) (p : positive) (e : Z) :
  valid_binary prec emax (S754_finite s p e) = true ->
  Zdigits2 (Zpos p) <= prec /\ (emin prec emax < e -> Zdigits2 (Zpos p) = prec).
Proof.
  intros [[_ Hc] _]%valid_finite. unfold SpecFloat.fexp in Hc. lia.
Qed.
(** So its mantissa is below [2 ^ prec]. *)
Lemma valid_mantissa (s : bool) (p : positive) (e : Z) :
  valid_binary prec emax (S754_finite s p e) = true -> Zpos p < 2 ^ prec.
Proof using prec_pos.
  intros [Hd _]%valid_digits.
  pose proof (Zdigits2_bounds (Zpos p) eq_refl) as [_ Hp].
  pose proof (Z.pow_le_mono_r 2 _ _ eq_refl Hd). lia.
Qed.
(** Conversely, a positive mantissa at its canonical exponent, within the
    range, is a number of the format. *)
Lemma canon_valid (s : bool) (m e : Z) :
  0 < m -> canon m e -> e <= emax - prec ->
  valid_binary prec emax (S754_finite s (Z.to_pos m) e) = true.
Proof.
  intros Hm [_ Hc] He. cbn [valid_binary]. unfold bounded, canonical_mantissa.
  change (Z.pos (digits2_pos ?p)) with (Zdigits2 (Zpos p)).
  rewrite Z2Pos.id by lia.
  apply andb_true_intro. split; [apply Z.eqb_eq|apply Z.leb_le]; lia.
Qed.

(** A mantissa of [prec] digits is canonical at every exponent from the
    smallest one. *)
Lemma canon_full (m e : Z) :
  2 ^ (prec - 1) <= m < 2 ^ prec -> emin prec emax <= e -> canon m e.
Proof using prec_pos.
  intros Hm He. pose proof (Z.pow_pos_nonneg 2 (prec - 1) eq_refl ltac:(lia)).
  split; [lia|]. rewrite Zdigits2_log2 by lia.
  rewrite (Z.log2_unique m (prec - 1));
    [unfold SpecFloat.fexp; lia | lia |].
  now replace (Z.succ (prec - 1)) with prec by lia.
Qed.

(** The smallest normal number, [2 ^ (prec - 1)] at the smallest exponent,
    is a number of the format. *)
Lemma valid_min_normal :
  emin prec emax <= emax - prec ->
  valid_binary prec emax
    (S754_finite false (Z.to_pos (2 ^ (prec - 1))) (emin prec emax)) = true.
Proof using prec_pos.
  intros H. pose proof (Z.pow_pos_nonneg 2 (prec - 1) eq_refl ltac:(lia)) as Hp.
  assert (2 ^ prec = 2 * 2 ^ (prec - 1))
    by (rewrite <- Z.pow_succ_r by lia; f_equal; lia).
  apply canon_valid; [lia | apply canon_full; lia | exact H].
Qed.
End Valid.

(** ** The reciprocal of the kernel *)

(** The result of [1 / entry.real()] is well formed; the accuracy proofs
    start from this. *)
Lemma ieee_recip_valid (prec emax : Z) (entry : ComplexType spec_float) :
  0 < prec ->
  valid_binary prec emax (@recip_real _ (ieee_scalar prec emax) entry) = true.
Proof. intros H. now apply SFdiv_valid. Qed.
