(* ===== verification/FloatRound.v ===== *)
(** * FloatRound: the rounding of a quotient, in integers

    Division of [SpecFloat] divides the mantissas as integers, keeps the
    position of the remainder ([location]: exact, below, at or above the
    half), shifts the quotient to its canonical exponent while it updates
    that position, rounds to nearest with ties to even, and shifts once
    more when rounding has produced one digit too many.  This file follows
    an exact quotient [N / D] through these steps: [located m N D l] says
    that [N / D] lies in [[m, m + 1)] at position [l], and
    [rounded N D e z] states what the result [z] says of the quotient
    [N / D * 2 ^ e], as inequalities between integers: a finite result is
    within half a unit in the last place of it, a zero stands for a
    quotient of at most half the smallest positive number, an infinity for
    one of at least the largest finite number plus half a unit. *)

From Stdlib Require Import ZArith Lia Bool List Floats.SpecFloat.
From S2P Require Import Prelude Scalar FloatValid.
Import ListNotations.

#[local] Open Scope Z_scope.

(** ** The position of a quotient between two integers *)

Section Located.

(** [N / D] is [m] plus a fraction in [[0, 1)]; [l] compares the fraction
    with zero and with the half.  ([D] is positive where this is used.) *)
Definition located (m N D : Z) (l : location) : Prop :=
  match l with
  | loc_Exact => N = m * D
  | loc_Inexact Lt => 2 * m * D < 2 * N < (2 * m + 1) * D
  | loc_Inexact Eq => 2 * N = (2 * m + 1) * D
  | loc_Inexact Gt => (2 * m + 1) * D < 2 * N < (2 * m + 2) * D
  end.

(** The position computed from the remainder of a division. *)
Lemma new_location_located (D r q N : Z) :
  0 < D -> 0 <= r < D -> N = q * D + r ->
  located q N D (new_location D r).
Proof.
  intros HD Hr ->. unfold new_location, new_location_even, new_location_odd.
  destruct (Z.even D) eqn:Ev; destruct (Z.eqb_spec r 0) as [->|Hr0];
    cbn [located]; try lia.
  - destruct (Z.compare_spec (2 * r) D); cbn [located]; lia.
  - assert (Ho : Z.odd D = true) by (now rewrite <- Z.negb_even, Ev).
    apply Z.odd_spec in Ho. destruct Ho as [k ->].
    destruct (Z.compare_spec (2 * r + 1) (2 * k + 1)); cbn [located]; lia.
Qed.

Lemma loc_of_shr_record_of_loc (m : Z) (l : location) :
  loc_of_shr_record (shr_record_of_loc m l) = l /\
  shr_m (shr_record_of_loc m l) = m.
Proof. destruct l as [|[]]; split; reflexivity. Qed.

(** One shift: the unit doubles, the quotient stays. *)
Lemma located_shr_1 (mrs : shr_record) (N D : Z) :
  0 < D -> 0 <= shr_m mrs ->
  located (shr_m mrs) N D (loc_of_shr_record mrs) ->
  located (shr_m (shr_1 mrs)) N (2 * D) (loc_of_shr_record (shr_1 mrs)).
Proof.
  destruct mrs as [m r s]. cbn [shr_m]. intros HD Hm.
  destruct m as [|[p|p|]|p]; try lia; destruct r, s;
    cbn [shr_1 shr_m loc_of_shr_record located orb];
    try change (Z.pos p~1) with (2 * Z.pos p + 1);
    try change (Z.pos p~0) with (2 * Z.pos p); lia.
Qed.

(** [p] shifts: the unit is multiplied by [2 ^ p]. *)
Lemma located_iter_shr_1 (p : positive) (mrs : shr_record) (N D : Z) :
  0 < D -> 0 <= shr_m mrs ->
  located (shr_m mrs) N D (loc_of_shr_record mrs) ->
  located (shr_m (iter_pos shr_1 p mrs)) N (D * 2 ^ Zpos p)
          (loc_of_shr_record (iter_pos shr_1 p mrs)).
Proof.
  assert (Hpow : forall q, 0 < 2 ^ Z.pos q) by (intros; now apply Z.pow_pos_nonneg).
  revert mrs D. induction p as [p IH|p IH|]; intros mrs D HD Hm HL; simpl iter_pos.
  - pose proof (shr_1_nonneg mrs Hm) as H1.
    pose proof (iter_shr_1_m p _ H1) as [H2 _]. pose proof (Hpow p).
    apply located_shr_1 in HL; auto.
    apply IH in HL; [|lia|auto]. apply IH in HL; [|nia|auto].
    replace (D * 2 ^ Z.pos p~1) with (2 * D * 2 ^ Z.pos p * 2 ^ Z.pos p); auto.
    rewrite pow2_xI. ring.
  - pose proof (iter_shr_1_m p _ Hm) as [H2 _]. pose proof (Hpow p).
    apply IH in HL; auto. apply IH in HL; [|nia|auto].
    replace (D * 2 ^ Z.pos p~0) with (D * 2 ^ Z.pos p * 2 ^ Z.pos p); auto.
    rewrite pow2_xO. ring.
  - apply located_shr_1 in HL; auto.
    now replace (D * 2 ^ 1) with (2 * D) by lia.
Qed.

Lemma round_nearest_even_cases (m : Z) (l : location) :
  round_nearest_even m l = m \/ round_nearest_even m l = m + 1.
Proof.
  unfold round_nearest_even. destruct l as [|[]]; try destruct (Z.even m); auto.
Qed.

(** [nearest_int m r N D]: the quotient [N / D] lies in [[m, m + 1)] and
    [r] is the nearer of [m] and [m + 1], the even one at the half. *)
Definition nearest_int (m r N D : Z) : Prop :=
  m * D <= N < (m + 1) * D /\ (r = m \/ r = m + 1) /\
  - D <= 2 * (r * D - N) <= D /\
  (2 * Z.abs (r * D - N) = D -> Z.even r = true).

(** Rounding to nearest even picks the nearest integer. *)
Lemma round_nearest_int (m N D : Z) (l : location) :
  0 < D -> located m N D l -> nearest_int m (round_nearest_even m l) N D.
Proof.
  intros HD HL. split; [destruct l as [|[]]; cbn [located] in HL; nia|].
  split; [apply round_nearest_even_cases|].
  unfold round_nearest_even. destruct l as [|[]]; cbn [located] in HL; try lia.
  destruct (Z.even m) eqn:Ev; split; try lia; intros _; auto.
  rewrite Z.even_add, Ev. reflexivity.
Qed.
End Located.

(** ** Rounding a located quotient *)

Section Round.
Variables prec emax : Z.
Hypothesis prec_pos : 0 < prec.

#[local] Abbreviation fexp := (fexp prec emax).
#[local] Abbreviation emin := (emin prec emax).
#[local] Abbreviation good := (good prec emax).
#[local] Abbreviation canon := (canon prec emax).

(** The shift to the canonical exponent multiplies the unit by a power of
    two and keeps the quotient located. *)
Lemma shr_fexp_located (m e : Z) (l : location) (N D : Z) :
  0 < D -> 0 <= m -> located m N D l ->
  exists k, 0 <= k /\
    snd (shr_fexp prec emax m e l) = e + k /\
    located (shr_m (fst (shr_fexp prec emax m e l))) N (D * 2 ^ k)
            (loc_of_shr_record (fst (shr_fexp prec emax m e l))).
Proof.
  intros HD Hm HL. unfold shr_fexp, shr.
  destruct (loc_of_shr_record_of_loc m l) as [El Em].
  destruct (fexp (Zdigits2 m + e) - e) as [|p|p]; cbn [fst snd].
  - exists 0. rewrite El, Em, Z.mul_1_r, Z.add_0_r. auto with zarith.
  - exists (Z.pos p). repeat split; [lia|].
    apply located_iter_shr_1; rewrite ?El, ?Em; auto.
  - exists 0. rewrite El, Em, Z.mul_1_r, Z.add_0_r. auto with zarith.
Qed.

(** The shift after rounding loses nothing: it happens only when rounding
    has carried into a new digit, and then the mantissa is a power of
    two. *)
Lemma shr_fexp_round_exact (m e : Z) (l : location) :
  canon m e ->
  let r := round_nearest_even m l in
  exists j, 0 <= j /\
    snd (shr_fexp prec emax r e loc_Exact) = e + j /\
    r = shr_m (fst (shr_fexp prec emax r e loc_Exact)) * 2 ^ j.
Proof using prec_pos.
  intros [Hm He] r. pose proof (round_nearest_even_cases m l) as Hc.
  fold r in Hc. clearbody r. unfold shr_fexp, shr. cbn [shr_record_of_loc].
  destruct (fexp (Zdigits2 r + e) - e) as [|p|p] eqn:En; cbn [fst snd shr_m];
    try solve [exists 0; rewrite Z.mul_1_r, Z.add_0_r; auto with zarith].
  assert (Hd : Zdigits2 m < Zdigits2 r).
  { destruct (Z_lt_le_dec (Zdigits2 m) (Zdigits2 r)) as [|Hle]; auto.
    pose proof (fexp_mono prec emax (Zdigits2 r + e) (Zdigits2 m + e)). lia. }
  assert (Hr : r = m + 1) by (destruct Hc; [subst r; lia|assumption]).
  clear Hc. subst r.
  pose proof (Zdigits2_succ_pow2 m Hm Hd) as Hp.
  pose proof (Zdigits2_nonneg m) as H0. rewrite Hp in En |- *.
  assert (Hdig : Zdigits2 (2 ^ Zdigits2 m) = Zdigits2 m + 1).
  { rewrite Zdigits2_log2, Z.log2_pow2 by (try apply Z.pow_pos_nonneg; lia). lia. }
  rewrite Hdig in En.
  assert (Z.pos p = 1 /\ 1 <= Zdigits2 m) as [Ep H1]
    by (unfold SpecFloat.fexp in *; lia).
  assert (p = 1%positive) by lia. subst p.
  exists 1. cbn [iter_pos]. repeat split; try lia.
  rewrite shr_1_m by (cbn; apply Z.pow_nonneg; lia). cbn [shr_m].
  replace (Zdigits2 m) with (Z.succ (Zdigits2 m - 1)) at 1 2 by lia.
  rewrite Z.pow_succ_r, Z.mul_comm, Z.div_mul by lia. lia.
Qed.

(** The stages of a rounding: the shifted mantissa [m'] with the position
    [l'] of the quotient, the rounded mantissa [r], and the final mantissa
    [m''], with [r = m'' * 2 ^ j]. *)
Lemma binary_round_aux_stages (s : bool) (m e : Z) (l : location) (N D : Z) :
  0 < D -> good m e -> located m N D l ->
  exists k m' l' j m'',
    0 <= k /\ located m' N (D * 2 ^ k) l' /\ canon m' (e + k) /\
    0 <= j /\ round_nearest_even m' l' = m'' * 2 ^ j /\
    canon m'' (e + k + j) /\
    binary_round_aux prec emax s m e l
    = match m'' with
      | Z0 => S754_zero s
      | Zpos p =>
          if e + k + j <=? emax - prec
          then S754_finite s p (e + k + j) else S754_infinity s
      | Zneg _ => S754_nan
      end.
Proof using prec_pos.
  intros HD G HL. unfold binary_round_aux.
  destruct (shr_fexp_located m e l N D HD (proj1 G) HL) as (k & Hk & Ek & HL1).
  pose proof (shr_fexp_canon prec emax prec_pos m e l G) as C1.
  destruct (shr_fexp prec emax m e l) as [mrs' e']. cbn [fst snd] in *. subst e'.
  set (l' := loc_of_shr_record mrs') in *.
  destruct (shr_fexp_round_exact (shr_m mrs') (e + k) l' C1) as (j & Hj & Ej & Er).
  pose proof (shr_fexp_canon prec emax prec_pos _ (e + k) loc_Exact
                (round_good prec emax _ _ l' C1)) as C2.
  destruct (shr_fexp prec emax _ (e + k) loc_Exact) as [mrs'' e''].
  cbn [fst snd] in *. subst e''.
  exists k, (shr_m mrs'), l', j, (shr_m mrs''). repeat split; auto; apply C1 || apply C2.
Qed.
(** Overflow: when the final exponent exceeds [emax - prec], the quotient
    is at least the largest finite number plus half a unit. *)
Lemma round_overflow (m' : Z) (l' : location) (N D e j : Z) (p : positive) :
  0 < D -> located m' N D l' -> canon m' e -> 0 <= j ->
  round_nearest_even m' l' = Zpos p * 2 ^ j -> canon (Zpos p) (e + j) ->
  emin <= emax - prec -> emax - prec < e + j ->
  emax - prec <= e /\ (2 ^ (prec + 1) - 1) * D <= 2 * N \/
  emax - prec + 1 <= e /\ 2 ^ prec * D <= 2 * N.
Proof using prec_pos.
  intros HD HL [Hm C1] Hj Er [_ C2] Hmin Hov.
  destruct (round_nearest_int m' N D l' HD HL) as ([Hlow _] & _ & Hn & _).
  pose proof (Zdigits2_nonneg m') as Hd0.
  assert (Ep : Zdigits2 (Zpos p) = prec) by (unfold SpecFloat.fexp in C2; lia).
  assert (P1 : 2 ^ (prec + 1) = 2 * 2 ^ prec) by (apply Z.pow_succ_r; lia).
  assert (P0 : 2 ^ prec = 2 * 2 ^ (prec - 1))
    by (rewrite <- Z.pow_succ_r by lia; f_equal; lia).
  destruct (Z.eq_dec j 0) as [->|Hj0].
  - right. rewrite Z.add_0_r in *.
    assert (Ed : Zdigits2 m' = prec) by (unfold SpecFloat.fexp in C1; lia).
    assert (0 < m') by (destruct m'; simpl in Ed; lia).
    pose proof (Zdigits2_bounds m' ltac:(lia)) as [Hb _]. rewrite Ed in Hb.
    split; [lia|nia].
  - left. rewrite <- Z.shiftl_mul_pow2 in Er by lia.
    assert (Edr : Zdigits2 (round_nearest_even m' l') = prec + j)
      by (rewrite Er, Zdigits2_shiftl, Ep; lia).
    assert (Ed : Zdigits2 m' <= prec) by (unfold SpecFloat.fexp in C1; lia).
    destruct (round_nearest_even_cases m' l') as [E|E]; rewrite E in *; [lia|].
    pose proof (Zdigits2_succ_pow2 m' Hm ltac:(lia)) as Hp.
    assert (Hdig : Zdigits2 (2 ^ Zdigits2 m') = Zdigits2 m' + 1).
    { rewrite Zdigits2_log2, Z.log2_pow2 by (try apply Z.pow_pos_nonneg; lia). lia. }
    rewrite Hp, Hdig in Edr. assert (Zdigits2 m' = prec) as Ed' by lia.
    rewrite Ed' in Hp. split; [lia|nia].
Qed.

(** ** The result of a rounding, by cases

    [rounded_to N D e r E]: the number [r * 2 ^ E] is a rounding to
    nearest of [N / D * 2 ^ e]: at the canonical exponent [e + k] of the
    quotient, it is the nearer of the two consecutive mantissas around it.
    [rounded N D e z] reads a result [z] of the format: a finite number or
    a zero is such a rounding, an infinity stands for a quotient of at
    least the largest finite number plus half a unit.  The inequalities
    are between integers, multiplied out. *)
Definition rounded_to (N D e r E : Z) : Prop :=
  exists k j m',
    0 <= k /\ 0 <= j /\ E = e + k + j /\ canon m' (e + k) /\
    nearest_int m' (r * 2 ^ j) N (D * 2 ^ k).

Definition rounded (N D e : Z) (z : spec_float) : Prop :=
  match z with
  | S754_zero _ => rounded_to N D e 0 emin
  | S754_finite _ p E => rounded_to N D e (Zpos p) E
  | S754_infinity _ =>
      exists k, 0 <= k /\
        (emax - prec <= e + k /\ (2 ^ (prec + 1) - 1) * (D * 2 ^ k) <= 2 * N \/
         emax - prec + 1 <= e + k /\ 2 ^ prec * (D * 2 ^ k) <= 2 * N)
  | S754_nan => False
  end.

Lemma binary_round_aux_rounded (s : bool) (m e : Z) (l : location) (N D : Z) :
  0 < D -> good m e -> located m N D l -> emin <= emax - prec ->
  rounded N D e (binary_round_aux prec emax s m e l).
Proof using prec_pos.
  intros HD G HL Hmin.
  destruct (binary_round_aux_stages s m e l N D HD G HL)
    as (k & m' & l' & j & m'' & Hk & HL' & C1 & Hj & Er & C2 & ->).
  assert (HD' : 0 < D * 2 ^ k) by (pose proof (Z.pow_pos_nonneg 2 k); nia).
  pose proof (round_nearest_int m' N _ l' HD' HL') as Hn. rewrite Er in Hn.
  destruct m'' as [|p|p].
  - exists k, j, m'. refine (conj Hk (conj Hj (conj _ (conj C1 Hn)))).
    destruct C2 as [_ C2]. unfold SpecFloat.fexp in C2. simpl in C2. lia.
  - destruct (Z.leb_spec (e + k + j) (emax - prec)) as [Hle|Hgt].
    + exists k, j, m'. exact (conj Hk (conj Hj (conj eq_refl (conj C1 Hn)))).
    + exists k. split; [assumption|].
      apply (round_overflow m' l' N _ (e + k) j p); auto.
  - pose proof (Z.pow_pos_nonneg 2 j). destruct C1 as [Hm' _].
    destruct Hn as (_ & Hr & _). nia.
Qed.

(** The division of two mantissas and the rounding of its result: the
    quotient [m1 / m2 * 2 ^ (e1 - e2)] correctly rounded. *)
Lemma SFdiv_core_rounded (s : bool) (m1 m2 : positive) (e1 e2 : Z) :
  emin <= emax - prec ->
  let '(mz, ez, lz) := SFdiv_core_binary prec emax (Zpos m1) e1 (Zpos m2) e2 in
  exists t, 0 <= t /\ ez = e1 - e2 - t /\
    rounded (Zpos m1 * 2 ^ t) (Zpos m2) ez (binary_round_aux prec emax s mz ez lz).
Proof using prec_pos.
  intros Hmin. pose proof (SFdiv_core_good prec emax prec_pos m1 m2 e1 e2) as G.
  destruct (SFdiv_core_eq prec emax m1 m2 e1 e2) as [Hs E]. rewrite E in *.
  cbn [fst snd] in G. eexists. split; [exact Hs|]. split; [lia|].
  apply binary_round_aux_rounded; auto; [reflexivity|].
  apply new_location_located; [reflexivity|now apply Z.mod_pos_bound|].
  match goal with |- ?a = _ => pose proof (Z.div_mod a (Zpos m2)) end. lia.
Qed.
End Round.
