(* ===== verification/FloatError.v ===== *)
(** * FloatError: the reciprocal is correctly rounded

    The value of [1 / entry.real()] (DiagReciprocal.hpp, line 30) as a
    rational number: the IEEE division of [Scalar.ieee_scalar] returns the
    representable number nearest to the exact quotient.  [magnitude] gives
    a finite float its rational value; [rounds_to q z] states that [z] is
    a correct rounding of the magnitude [q]: a finite or zero result is
    within half a unit of its last place of [q], no valid number of the
    format is nearer ([nearest]), and a tie goes to the even mantissa; an
    infinity stands for a quotient of at least the overflow [threshold],
    the largest finite number plus half a unit.  The integer inequalities
    of [FloatRound.rounded] are divided out here; the last sections give
    the range of the results: the overflow threshold, no underflow to
    zero, and which quotients give a normal result.  The error relative to
    the quotient is in [FloatModel]. *)

From Stdlib Require Import ZArith QArith Qpower Qabs Lqa Lia Morphisms.
From Stdlib Require Import Floats.SpecFloat.
From S2P Require Import Prelude Scalar FloatValid FloatRound.

#[local] Open Scope Q_scope.

(** ** Rational arithmetic *)

Section Rational.

Lemma Qscale_le (c x y : Q) : 0 < c -> x <= y -> c * x <= c * y.
Proof. intros Hc H. now apply Qmult_le_l. Qed.

Lemma Qscale_lt (c x y : Q) : 0 < c -> x < y -> c * x < c * y.
Proof. intros Hc H. now apply Qmult_lt_l. Qed.

Lemma Qquot_pos (a d : Q) : 0 < a -> 0 < d -> 0 < a / d.
Proof. intros Ha Hd. apply Qlt_shift_div_l; lra. Qed.

(** Bounds on a numerator, divided out: with [n] against [c * (d * k)],
    the quotient [n / d] at scale [a] against [c] at scale [a * k]. *)
Lemma quot_ge (a d k n c : Q) :
  0 < a -> 0 < d -> c * (d * k) <= n -> c * (a * k) <= n / d * a.
Proof.
  intros Ha Hd H. pose proof (Qquot_pos a d Ha Hd) as Hc.
  apply (Qscale_le (a / d)) in H; [|exact Hc].
  assert (a / d * n == n / d * a) by (field; lra).
  assert (a / d * (c * (d * k)) == c * (a * k)) by (field; lra).
  lra.
Qed.

Lemma quot_le (a d k n c : Q) :
  0 < a -> 0 < d -> n <= c * (d * k) -> n / d * a <= c * (a * k).
Proof.
  intros Ha Hd H. pose proof (Qquot_pos a d Ha Hd) as Hc.
  apply (Qscale_le (a / d)) in H; [|exact Hc].
  assert (a / d * n == n / d * a) by (field; lra).
  assert (a / d * (c * (d * k)) == c * (a * k)) by (field; lra).
  lra.
Qed.

Lemma quot_lt (a d k n c : Q) :
  0 < a -> 0 < d -> n < c * (d * k) -> n / d * a < c * (a * k).
Proof.
  intros Ha Hd H. pose proof (Qquot_pos a d Ha Hd) as Hc.
  apply (Qscale_lt (a / d)) in H; [|exact Hc].
  assert (a / d * n == n / d * a) by (field; lra).
  assert (a / d * (c * (d * k)) == c * (a * k)) by (field; lra).
  lra.
Qed.

(** A numerator within half a denominator of [r] gives a quotient within
    a half of [r], at any positive scale [a]. *)
Lemma half_ulp_bound (a d k r n : Q) :
  0 < a -> 0 < d ->
  - (d * k) <= 2 * (r * (d * k) - n) <= d * k ->
  Qabs (r * (a * k) - n / d * a) <= (1 # 2) * (a * k).
Proof.
  intros Ha Hd [H1 H2]. apply Qabs_Qle_condition. split.
  - pose proof (quot_le a d k n (r + (1 # 2)) Ha Hd). lra.
  - pose proof (quot_ge a d k n (r - (1 # 2)) Ha Hd). lra.
Qed.

(** At the half exactly, so is the numerator. *)
Lemma half_ulp_tie (a d k r n : Q) :
  0 < a -> 0 < d ->
  Qabs (r * (a * k) - n / d * a) == (1 # 2) * (a * k) ->
  2 * Qabs (r * (d * k) - n) == d * k.
Proof.
  intros Ha Hd H.
  assert (E : r * (a * k) - n / d * a == a / d * (r * (d * k) - n)) by (field; lra).
  rewrite E, Qabs_Qmult, (Qabs_pos (a / d)) in H
    by (apply Qlt_le_weak, Qquot_pos; assumption).
  set (X := Qabs (r * (d * k) - n)) in *.
  assert (EX : X == d / a * (a / d * X)) by (field; lra).
  rewrite EX, H. field. lra.
Qed.

(** The reciprocal reverses the order. *)
Lemma recip_range (x lo hi : Q) :
  0 < lo -> lo <= x <= hi -> 1 / hi <= 1 / x <= 1 / lo.
Proof.
  intros Hlo [H1 H2]. split.
  - apply Qle_shift_div_l; [lra|].
    assert (E : 1 / hi * x == x / hi) by (field; lra). rewrite E.
    apply Qle_shift_div_r; lra.
  - apply Qle_shift_div_l; [lra|].
    assert (E : 1 / x * lo == lo / x) by (field; lra). rewrite E.
    apply Qle_shift_div_r; lra.
Qed.

(** Between two consecutive multiples of [u], the one within half of [u]
    of [x] is at least as near to [x] as anything outside the interval. *)
Lemma nearest_between (u m x v w : Q) :
  m * u <= x -> x < (m + 1) * u ->
  v == m * u \/ v == (m + 1) * u ->
  Qabs (v - x) <= (1 # 2) * u ->
  w <= m * u \/ (m + 1) * u <= w ->
  Qabs (v - x) <= Qabs (w - x).
Proof.
  intros H1 H2 Hv Hh Hw. apply Qabs_Qle_condition in Hh.
  destruct Hw as [Hw|Hw].
  - rewrite (Qabs_neg (w - x)) by lra. apply Qabs_Qle_condition.
    destruct Hv as [E|E]; rewrite E in *; split; lra.
  - rewrite (Qabs_pos (w - x)) by lra. apply Qabs_Qle_condition.
    destruct Hv as [E|E]; rewrite E in *; split; lra.
Qed.
End Rational.

(** ** Powers of two *)

Section Pow2.

Definition pow2 (e : Z) : Q := 2 ^ e.

Lemma pow2_pos (e : Z) : 0 < pow2 e.
Proof. now apply Qpower_0_lt. Qed.

Lemma pow2_add (a b : Z) : pow2 (a + b) == pow2 a * pow2 b.
Proof. apply Qpower_plus. discriminate. Qed.

Lemma pow2_le (a b : Z) : (a <= b)%Z -> pow2 a <= pow2 b.
Proof. intros H. apply Qpower_le_compat_l; [assumption|discriminate]. Qed.

Lemma pow2_inject (k : Z) : (0 <= k)%Z -> inject_Z (2 ^ k) == pow2 k.
Proof. intros H. now apply Zpower_Qpower. Qed.

(** The power at [a], from the power at [b] and the difference. *)
Lemma pow2_split (a b : Z) : pow2 a == pow2 (a - b) * pow2 b.
Proof. rewrite <- pow2_add. now replace (a - b + b)%Z with a by lia. Qed.
End Pow2.

(** ** From integers to rationals *)

Section Inject.

Lemma inject_le (x y : Z) : (x <= y)%Z -> inject_Z x <= inject_Z y.
Proof. now rewrite <- Zle_Qle. Qed.

Lemma inject_lt (x y : Z) : (x < y)%Z -> inject_Z x < inject_Z y.
Proof. now rewrite <- Zlt_Qlt. Qed.

Lemma inject_pos (x : Z) : (0 < x)%Z -> 0 < inject_Z x.
Proof. apply (inject_lt 0). Qed.

Lemma inject_sub (x y : Z) : inject_Z (x - y) = inject_Z x - inject_Z y.
Proof. unfold Z.sub. now rewrite inject_Z_plus, inject_Z_opp. Qed.

Lemma inject_abs_eq (x y : Z) :
  2 * Qabs (inject_Z x) == inject_Z y -> (2 * Z.abs x = y)%Z.
Proof.
  intros H. change (Qabs (inject_Z x)) with (inject_Z (Z.abs x)) in H.
  change 2 with (inject_Z 2) in H. rewrite <- inject_Z_mult in H.
  now apply inject_Z_injective.
Qed.
End Inject.

#[local] Ltac push_inject H :=
  repeat (progress rewrite ?inject_Z_mult, ?inject_sub, ?inject_Z_plus,
            ?inject_Z_opp in H);
  rewrite ?pow2_inject in H by assumption.

#[local] Ltac to_Q H :=
  first [apply inject_le in H | apply inject_lt in H]; push_inject H.

(** ** Correct rounding *)

Section Error.
Variables prec emax : Z.
Hypothesis prec_pos : (0 < prec)%Z.

#[local] Abbreviation emin := (emin prec emax).
#[local] Abbreviation canon := (canon prec emax).
#[local] Abbreviation rounded := (rounded prec emax).
#[local] Abbreviation rounded_to := (rounded_to prec emax).

(** The magnitude of a finite float; zero for the others. *)
Definition magnitude (x : spec_float) : Q :=
  match x with
  | S754_finite _ m e => inject_Z (Zpos m) * pow2 e
  | _ => 0
  end.

(** Its mantissa. *)
Definition mantissa (x : spec_float) : Z :=
  match x with
  | S754_finite _ m _ => Zpos m
  | _ => 0%Z
  end.

(** The unit in the last place of a finite float; of a zero, the smallest
    positive number. *)
Definition ulp (x : spec_float) : Q :=
  match x with
  | S754_finite _ _ e => pow2 e
  | _ => pow2 emin
  end.

(** The numbers of the format that have a value: the valid zeros and
    finite numbers. *)
Definition representable (w : spec_float) : Prop :=
  valid_binary prec emax w = true /\
  match w with S754_zero _ | S754_finite _ _ _ => True | _ => False end.

(** No number of the format is nearer to [q] than [z] is. *)
Definition nearest (q : Q) (z : spec_float) : Prop :=
  forall w, representable w ->
    Qabs (magnitude z - q) <= Qabs (magnitude w - q).

(** The overflow threshold: the largest finite number plus half a unit
    of its last place. *)
Definition threshold : Q := (pow2 prec - (1 # 2)) * pow2 (emax - prec).

(** [z] is a correct rounding of the magnitude [q], to nearest, ties to
    even. *)
Definition rounds_to (q : Q) (z : spec_float) : Prop :=
  match z with
  | S754_zero _ | S754_finite _ _ _ =>
      Qabs (magnitude z - q) <= (1 # 2) * ulp z /\ nearest q z /\
      (Qabs (magnitude z - q) == (1 # 2) * ulp z -> Z.even (mantissa z) = true)
  | S754_infinity _ => threshold <= q
  | S754_nan => False
  end.

Lemma rounds_to_eq (q q' : Q) (z : spec_float) :
  q == q' -> rounds_to q z -> rounds_to q' z.
Proof.
  intros E. unfold rounds_to, nearest.
  destruct z as [sz|sz| |sz m e]; [|now rewrite E|tauto|];
    (intros (H1 & H2 & H3); split; [now rewrite <- E|]);
    (split; [intros w Hw|]); rewrite <- E; auto.
Qed.

#[local] Instance rounds_to_proper : Proper (Qeq ==> eq ==> iff) rounds_to.
Proof.
  intros q q' E z _ <-. split; apply rounds_to_eq; [exact E|now symmetry].
Qed.

(** *** The gaps of the format *)

(** No number of the format lies strictly between two consecutive
    mantissas at a canonical exponent. *)
Lemma float_gap (w : spec_float) (m e : Z) :
  representable w -> canon m e ->
  magnitude w <= inject_Z m * pow2 e \/
  (inject_Z m + 1) * pow2 e <= magnitude w.
Proof using prec_pos.
  intros [Hv Hw] [Hm He]. pose proof (pow2_pos e) as Hp.
  assert (H0 : 0 <= inject_Z m * pow2 e).
  { apply inject_le in Hm. apply Qmult_le_0_compat; [exact Hm|lra]. }
  destruct w as [sw|sw| |sw p ew]; try contradiction; [now left|].
  cbn [magnitude]. destruct (Z_lt_le_dec ew e) as [Hlt|Hge].
  - left. destruct (valid_finite prec emax sw p ew Hv) as [[_ Cw] _].
    assert (Ed : Zdigits2 m = prec) by (unfold SpecFloat.fexp in *; lia).
    assert (0 < m)%Z by (destruct m; simpl in Ed; lia).
    pose proof (Zdigits2_bounds m ltac:(lia)) as [Hlo _]. rewrite Ed in Hlo.
    pose proof (valid_mantissa prec emax prec_pos sw p ew Hv) as Hp2.
    apply Z.lt_le_incl in Hp2.
    assert (Hp0 : (0 <= prec - 1)%Z) by lia.
    assert (Hp1 : (0 <= prec)%Z) by lia. to_Q Hlo. to_Q Hp2.
    apply Qle_trans with (pow2 prec * pow2 (e - 1)).
    + apply Qmult_le_compat_nonneg; split; auto using pow2_le with zarith;
        try apply Qlt_le_weak, pow2_pos. apply Qlt_le_weak. now apply inject_pos.
    + assert (E : pow2 prec * pow2 (e - 1) == pow2 (prec - 1) * pow2 e).
      { rewrite <- !pow2_add.
        now replace (prec + (e - 1))%Z with (prec - 1 + e)%Z by lia. }
      rewrite E. apply Qmult_le_compat_r; [exact Hlo|lra].
  - rewrite (pow2_split ew e), Qmult_assoc, <- pow2_inject, <- inject_Z_mult by lia.
    change 1 with (inject_Z 1). rewrite <- inject_Z_plus.
    destruct (Z_le_gt_dec (Zpos p * 2 ^ (ew - e)) m) as [Hle|Hgt]; [left|right];
      (apply Qmult_le_compat_r; [apply inject_le; lia|lra]).
Qed.

(** *** From the integer inequalities to the rational ones *)

(** A rounding to nearest, divided out: the quotient between two
    consecutive mantissas at a canonical exponent, and the result the
    nearer of the two. *)
Lemma rounded_to_bracket (N D e r E : Z) :
  (0 < D)%Z -> rounded_to N D e r E ->
  let q := inject_Z N / inject_Z D * pow2 e in
  let v := inject_Z r * pow2 E in
  exists m' e',
    canon m' e' /\ (e' <= E)%Z /\
    inject_Z m' * pow2 e' <= q /\ q < (inject_Z m' + 1) * pow2 e' /\
    (v == inject_Z m' * pow2 e' \/ v == (inject_Z m' + 1) * pow2 e') /\
    Qabs (v - q) <= (1 # 2) * pow2 e' /\
    (Qabs (v - q) == (1 # 2) * pow2 E -> Z.even r = true).
Proof.
  intros HD (k & j & m' & Hk & Hj & -> & C & [Hlo Hhi] & HR & [H1 H2] & Hev) q v.
  pose proof (pow2_pos e) as He. pose proof (inject_pos D HD) as Hd.
  assert (ER : inject_Z r * pow2 j == inject_Z (r * 2 ^ j))
    by now rewrite inject_Z_mult, pow2_inject.
  assert (Ev : v == inject_Z r * pow2 j * (pow2 e * pow2 k))
    by (unfold v; rewrite !pow2_add; ring).
  to_Q Hlo. to_Q Hhi. to_Q H1. to_Q H2. change (inject_Z 1) with 1 in Hhi.
  exists m', (e + k)%Z. rewrite Ev, pow2_add.
  split; [exact C|]. split; [lia|].
  split; [now apply quot_ge|]. split; [now apply quot_lt|].
  split; [rewrite ER; destruct HR as [->| ->]; [left|right];
          rewrite ?inject_Z_plus; reflexivity|].
  pose proof (half_ulp_bound (pow2 e) _ (pow2 k) _ _ He Hd (conj H1 H2)) as Hh.
  split; [exact Hh|]. intros T. destruct (Z.eq_dec j 0) as [->|Hj0].
  - rewrite Z.mul_1_r in Hev. apply Hev, inject_abs_eq. push_inject Hev.
    rewrite inject_sub, !inject_Z_mult, pow2_inject by assumption.
    rewrite Z.add_0_r, pow2_add in T. change (pow2 0) with 1 in T.
    rewrite Qmult_1_r in T. now apply (half_ulp_tie (pow2 e)).
  - pose proof (pow2_le 1 j ltac:(lia)) as Hj1. change (pow2 1) with 2 in Hj1.
    pose proof (pow2_pos k) as Hpk.
    assert (Hlt : pow2 e * pow2 k * 2 <= pow2 e * pow2 k * pow2 j)
      by (apply Qscale_le; [apply Qmult_lt_0_compat|]; assumption).
    assert (0 < pow2 e * pow2 k) by (apply Qmult_lt_0_compat; assumption).
    rewrite !pow2_add in T. unfold q in T. lra.
Qed.

(** A zero or a finite number that is such a rounding is a correct
    rounding. *)
Lemma rounded_to_rounds_to (N D e r E : Z) (z : spec_float) :
  (0 < D)%Z -> rounded_to N D e r E ->
  magnitude z == inject_Z r * pow2 E -> ulp z == pow2 E -> mantissa z = r ->
  let q := inject_Z N / inject_Z D * pow2 e in
  Qabs (magnitude z - q) <= (1 # 2) * ulp z /\ nearest q z /\
  (Qabs (magnitude z - q) == (1 # 2) * ulp z -> Z.even (mantissa z) = true).
Proof using prec_pos.
  intros HD H Ez Eu Em q.
  destruct (rounded_to_bracket N D e r E HD H)
    as (m' & e' & C & He & Hlo & Hhi & Hv & Hh & Ht).
  fold q in Hlo, Hhi, Hv, Hh, Ht. rewrite <- Ez in Hv, Hh, Ht.
  rewrite <- Eu, <- Em in Ht. split; [|split; [|exact Ht]].
  - rewrite Eu. apply pow2_le in He. lra.
  - intros w Hw. apply (nearest_between (pow2 e') (inject_Z m')); auto.
    now apply float_gap.
Qed.

(** The same for an infinity: the quotient is at least [c / 2] units at
    an exponent [e0]. *)
Lemma rounded_lower (N D e k c e0 : Z) :
  (0 < D)%Z -> (0 <= k)%Z -> (0 <= c)%Z -> (e0 <= e + k)%Z ->
  (c * (D * 2 ^ k) <= 2 * N)%Z ->
  (1 # 2) * inject_Z c * pow2 e0 <= inject_Z N / inject_Z D * pow2 e.
Proof.
  intros HD Hk Hc He H. to_Q H. change (inject_Z 2) with 2 in H.
  apply Qle_trans with ((1 # 2) * inject_Z c * (pow2 e * pow2 k)).
  - rewrite <- pow2_add, !(Qmult_comm ((1 # 2) * inject_Z c)).
    apply inject_le in Hc. change (inject_Z 0) with 0 in Hc.
    apply Qmult_le_compat_r; [now apply pow2_le|lra].
  - apply quot_ge; [apply pow2_pos|now apply inject_pos|lra].
Qed.

Lemma threshold_eq :
  threshold == (1 # 2) * inject_Z (2 ^ (prec + 1) - 1) * pow2 (emax - prec).
Proof using prec_pos.
  unfold threshold. rewrite inject_sub, pow2_inject, pow2_add by lia.
  change (pow2 1) with 2. change (inject_Z 1) with 1. ring.
Qed.

Lemma threshold_le :
  threshold <= (1 # 2) * inject_Z (2 ^ prec) * pow2 (emax - prec + 1).
Proof using prec_pos.
  unfold threshold. rewrite pow2_inject, pow2_add by lia. change (pow2 1) with 2.
  pose proof (pow2_pos (emax - prec)). pose proof (pow2_pos prec).
  set (a := pow2 prec) in *. set (b := pow2 (emax - prec)) in *.
  assert (E : (1 # 2) * a * (b * 2) == (a - (1 # 2)) * b + (1 # 2) * b) by ring.
  rewrite E. lra.
Qed.

(** The integer inequalities of a rounding, divided out. *)
Lemma rounded_rounds_to (N D e : Z) (z : spec_float) :
  (0 < D)%Z -> rounded N D e z ->
  rounds_to (inject_Z N / inject_Z D * pow2 e) z.
Proof using prec_pos.
  intros HD H. destruct z as [sz|sz| |sz p E]; cbn [rounds_to FloatRound.rounded] in *.
  - apply (rounded_to_rounds_to N D e 0 emin); auto; try reflexivity.
  - destruct H as (k & Hk & [[He H]|[He H]]).
    + rewrite threshold_eq.
      apply (rounded_lower N D e k); auto. pose proof (Z.pow_pos_nonneg 2 (prec + 1)). lia.
    + eapply Qle_trans; [apply threshold_le|].
      apply (rounded_lower N D e k); auto. apply Z.pow_nonneg. lia.
  - assumption.
  - apply (rounded_to_rounds_to N D e (Zpos p) E); auto; reflexivity.
Qed.

(** The division of two finite numbers returns a correct rounding of the
    quotient of their magnitudes. *)
Lemma SFdiv_rounds_to (sx sy : bool) (mx my : positive) (ex ey : Z) :
  (emin <= emax - prec)%Z ->
  rounds_to (magnitude (S754_finite sx mx ex) / magnitude (S754_finite sy my ey))
            (SFdiv prec emax (S754_finite sx mx ex) (S754_finite sy my ey)).
Proof using prec_pos.
  intros Hmin. cbn [SFdiv magnitude].
  pose proof (SFdiv_core_rounded prec emax prec_pos (xorb sx sy) mx my ex ey Hmin) as H.
  destruct (SFdiv_core_binary prec emax (Zpos mx) ex (Zpos my) ey) as [[mz ez] lz].
  destruct H as (t & Ht & -> & H). apply rounded_rounds_to in H; [|reflexivity].
  revert H. apply rounds_to_eq.
  rewrite inject_Z_mult, pow2_inject, (pow2_split ex ey), (pow2_split (ex - ey) t)
    by assumption.
  pose proof (pow2_pos ey). pose proof (inject_pos (Zpos my) eq_refl).
  field. split; lra.
Qed.

(** The literal [1] is converted exactly.  Checked by evaluation for the
    formats in use. *)
Definition one_is_exact : Prop :=
  exists m e, ieee_of_int prec emax 1 = S754_finite false m e /\
              magnitude (S754_finite false m e) == 1.

Lemma ieee_recip_rounds_to (s : bool) (m : positive) (e : Z) (im : spec_float) :
  one_is_exact -> (emin <= emax - prec)%Z ->
  rounds_to (1 / magnitude (S754_finite s m e))
            (ieee_recip prec emax (mkComplex (S754_finite s m e) im)).
Proof using prec_pos.
  intros (m1 & e1 & E1 & V1) Hmin. rewrite ieee_recip_unfold, E1. cbn [real].
  pose proof (SFdiv_rounds_to false s m1 m e1 e Hmin) as H.
  now rewrite V1 in H.
Qed.

(** [y] is the correctly rounded reciprocal of [x]: the sign of [x], and
    a correct rounding of the magnitude of [1 / x]. *)
Definition reciprocal_of (x y : spec_float) : Prop :=
  sign_of y = sign_of x /\ rounds_to (1 / magnitude x) y.

Lemma one_exact_finite : one_is_exact -> one_is_finite prec emax.
Proof. intros (m & e & H & _). now exists m, e. Qed.

Lemma ieee_recip_reciprocal (s : bool) (m : positive) (e : Z) (im : spec_float) :
  one_is_exact -> (emin <= emax - prec)%Z ->
  reciprocal_of (S754_finite s m e)
                (ieee_recip prec emax (mkComplex (S754_finite s m e) im)).
Proof using prec_pos.
  intros H1 Hmin. split; [|now apply ieee_recip_rounds_to].
  exact (ieee_recip_sign prec emax (one_exact_finite H1) _).
Qed.

(** A quotient of at least the smallest normal number rounds to a number
    with a full mantissa: the smallest normal number is itself a
    candidate. *)
Lemma rounds_to_normal (q : Q) (s : bool) (p : positive) (e : Z) :
  (emin <= emax - prec)%Z ->
  valid_binary prec emax (S754_finite s p e) = true ->
  rounds_to q (S754_finite s p e) -> pow2 (emin + prec - 1) <= q ->
  (2 ^ (prec - 1) <= Zpos p)%Z.
Proof using prec_pos.
  intros Hmin Hv (_ & Hn & _) Hq.
  destruct (Z_le_gt_dec (2 ^ (prec - 1)) (Zpos p)) as [|Hlt]; [assumption|exfalso].
  apply Z.gt_lt in Hlt. assert (Hp : (0 <= prec - 1)%Z) by lia.
  destruct (valid_finite prec emax s p e Hv) as [[_ Ce] _].
  destruct (valid_digits prec emax s p e Hv) as [_ Hfull].
  pose proof (Zdigits2_bounds (Zpos p) eq_refl) as [Hlo _].
  assert (e = emin) as ->.
  { destruct (Z_le_gt_dec e emin); [unfold SpecFloat.fexp in Ce; lia|].
    rewrite Hfull in Hlo by lia. lia. }
  specialize (Hn _ (conj (valid_min_normal prec emax prec_pos Hmin) I)).
  pose proof (Z.pow_pos_nonneg 2 (prec - 1) eq_refl Hp).
  cbn [magnitude] in Hn. rewrite Z2Pos.id, pow2_inject in Hn by lia.
  assert (E : pow2 (emin + prec - 1) == pow2 (prec - 1) * pow2 emin).
  { rewrite <- pow2_add. now replace (prec - 1 + emin)%Z with (emin + prec - 1)%Z by lia. }
  to_Q Hlt. apply (Qmult_lt_compat_r _ _ (pow2 emin) (pow2_pos emin)) in Hlt.
  rewrite E in Hq.
  rewrite (Qabs_neg (_ - q)), (Qabs_neg (pow2 _ * _ - q)) in Hn by lra. lra.
Qed.


(** ** The range of the results *)

Lemma magnitude_pos (s : bool) (p : positive) (e : Z) :
  0 < magnitude (S754_finite s p e).
Proof.
  cbn [magnitude]. apply Qmult_lt_0_compat; [now apply inject_pos|apply pow2_pos].
Qed.

(** A valid finite number is at most the largest finite number. *)
Lemma valid_magnitude (s : bool) (p : positive) (e : Z) :
  valid_binary prec emax (S754_finite s p e) = true ->
  magnitude (S754_finite s p e) <= (pow2 prec - 1) * pow2 (emax - prec).
Proof using prec_pos.
  intros H. destruct (valid_finite prec emax s p e H) as [_ He].
  assert (Hle : (Zpos p <= 2 ^ prec - 1)%Z)
    by (pose proof (valid_mantissa prec emax prec_pos s p e H); lia).
  apply inject_le in Hle. rewrite inject_sub, pow2_inject in Hle by lia.
  cbn [magnitude]. apply Qle_trans with ((pow2 prec - 1) * pow2 e).
  - apply Qmult_le_compat_r; [exact Hle|apply Qlt_le_weak, pow2_pos].
  - apply Qscale_le; [|now apply pow2_le].
    pose proof (pow2_le 1 prec ltac:(lia)) as H1. change (pow2 1) with 2 in H1. lra.
Qed.

(** A quotient that rounds to a valid finite number is at most the
    threshold. *)
Lemma finite_le_threshold (q : Q) (s : bool) (p : positive) (e : Z) :
  valid_binary prec emax (S754_finite s p e) = true ->
  rounds_to q (S754_finite s p e) -> q <= threshold.
Proof using prec_pos.
  intros Hv [H _]. pose proof (valid_magnitude s p e Hv) as Hm.
  destruct (valid_finite prec emax s p e Hv) as [_ He].
  apply pow2_le in He. cbn [magnitude ulp] in *.
  apply Qabs_Qle_condition in H. unfold threshold. lra.
Qed.

Lemma zero_lt_threshold :
  (emin <= emax - prec)%Z -> (1 # 2) * pow2 emin < threshold.
Proof using prec_pos.
  intros H. apply pow2_le in H. pose proof (pow2_pos emin).
  pose proof (pow2_le 1 prec ltac:(lia)) as H1. change (pow2 1) with 2 in H1.
  unfold threshold. apply Qle_lt_trans with ((1 # 2) * pow2 (emax - prec)); [lra|].
  apply Qmult_lt_compat_r; lra.
Qed.

(** ** Overflow and underflow of the reciprocal *)

(** A real part whose reciprocal is above the threshold gives an
    infinity. *)
Lemma ieee_recip_overflow (s : bool) (m : positive) (e : Z) (im : spec_float) :
  one_is_exact -> (emin <= emax - prec)%Z ->
  threshold * magnitude (S754_finite s m e) < 1 ->
  ieee_recip prec emax (mkComplex (S754_finite s m e) im) = S754_infinity s.
Proof using prec_pos.
  intros H1 Hmin Hlt. set (x := mkComplex (S754_finite s m e) im).
  pose proof (ieee_recip_rounds_to s m e im H1 Hmin) as Hr.
  pose proof (ieee_recip_sign prec emax (one_exact_finite H1) x) as Hs.
  pose proof (ieee_recip_valid prec emax x prec_pos) as Hv.
  apply Qlt_shift_div_l in Hlt; [|apply magnitude_pos].
  fold x in Hr. unfold ieee_recip in *.
  set (q := 1 / magnitude (S754_finite s m e)) in *.
  destruct (recip_real x) as [sz|sz| |sz p ez]; cbn [rounds_to sign_of real x] in *.
  - destruct Hr as [Hr _]. apply Qabs_Qle_condition in Hr.
    pose proof (zero_lt_threshold Hmin). cbn [magnitude ulp] in Hr. lra.
  - congruence.
  - contradiction.
  - pose proof (finite_le_threshold _ sz p ez Hv Hr). lra.
Qed.

(** An infinity is written only for a real part whose reciprocal is at
    least the threshold. *)
Lemma ieee_recip_infinite (s sz : bool) (m : positive) (e : Z) (im : spec_float) :
  one_is_exact -> (emin <= emax - prec)%Z ->
  ieee_recip prec emax (mkComplex (S754_finite s m e) im) = S754_infinity sz ->
  threshold * magnitude (S754_finite s m e) <= 1.
Proof using prec_pos.
  intros H1 Hmin E. pose proof (ieee_recip_rounds_to s m e im H1 Hmin) as Hr.
  rewrite E in Hr. cbn [rounds_to] in Hr.
  pose proof (magnitude_pos s m e) as Hp.
  set (x := magnitude (S754_finite s m e)) in *.
  apply (Qmult_le_compat_r _ _ x) in Hr; [|lra].
  assert (Hx : 1 / x * x == 1) by (field; lra). lra.
Qed.

(** The reciprocal of a valid finite number is not a zero: the format has
    more room below one than above. *)
Lemma ieee_recip_nonzero (s sz : bool) (m : positive) (e : Z) (im : spec_float) :
  one_is_exact -> (emin <= emax - prec)%Z -> (2 <= prec)%Z ->
  valid_binary prec emax (S754_finite s m e) = true ->
  ieee_recip prec emax (mkComplex (S754_finite s m e) im) <> S754_zero sz.
Proof using prec_pos.
  intros H1 Hmin Hp Hv E. pose proof (ieee_recip_rounds_to s m e im H1 Hmin) as Hr.
  rewrite E in Hr. destruct Hr as [Hr _]. apply Qabs_Qle_condition in Hr.
  pose proof (valid_magnitude s m e Hv) as Hm.
  pose proof (magnitude_pos s m e) as Hpos.
  set (x := magnitude (S754_finite s m e)) in *. cbn [magnitude ulp] in Hr.
  assert (Hx : x * (1 / x) == 1) by (field; lra).
  assert (H2 : (1 # 2) * pow2 emin <= pow2 (- emax)).
  { change (1 # 2) with (pow2 (-1)). rewrite <- pow2_add. apply pow2_le.
    unfold SpecFloat.emin. lia. }
  assert (H3 : x * (1 / x) <= x * pow2 (- emax)) by (apply Qscale_le; lra).
  assert (H4 : x * pow2 (- emax) < pow2 emax * pow2 (- emax)).
  { apply Qmult_lt_compat_r; [apply pow2_pos|].
    assert (E2 : pow2 emax == pow2 prec * pow2 (emax - prec)).
    { rewrite <- pow2_add. now replace (prec + (emax - prec))%Z with emax by lia. }
    pose proof (pow2_pos (emax - prec)). lra. }
  rewrite <- pow2_add, Z.add_opp_diag_r in H4. change (pow2 0) with 1 in H4. lra.
Qed.

(** ** Reciprocals in the normal range *)

(** A reciprocal between the smallest normal number and the threshold is
    written as a normal number of the sign of the real part. *)
Lemma ieee_recip_normal (s : bool) (m : positive) (e : Z) (im : spec_float) :
  one_is_exact -> (emin <= emax - prec)%Z ->
  let q := 1 / magnitude (S754_finite s m e) in
  pow2 (emin + prec - 1) <= q -> q < threshold ->
  exists p ez,
    ieee_recip prec emax (mkComplex (S754_finite s m e) im) = S754_finite s p ez /\
    (2 ^ (prec - 1) <= Zpos p)%Z.
Proof using prec_pos.
  intros H1 Hmin q Hlo Hhi. set (x := mkComplex (S754_finite s m e) im).
  destruct (ieee_recip_reciprocal s m e im H1 Hmin) as [Hs Hr].
  pose proof (ieee_recip_valid prec emax x prec_pos) as Hv.
  fold x q in Hs, Hr. unfold ieee_recip in *.
  destruct (recip_real x) as [sz|sz| |sz p ez]; cbn [rounds_to sign_of] in *.
  - destruct Hr as [Hr _]. apply Qabs_Qle_condition in Hr. cbn [magnitude ulp] in Hr.
    pose proof (pow2_le emin (emin + prec - 1) ltac:(lia)).
    pose proof (pow2_pos emin). lra.
  - lra.
  - contradiction.
  - injection Hs as ->. exists p, ez.
    split; [reflexivity|]. exact (rounds_to_normal q s p ez Hmin Hv Hr Hlo).
Qed.
End Error.

(** ** The formats in use *)

Lemma binary32_one_exact : one_is_exact 24 128.
Proof. exists 8388608%positive, (-23)%Z. split; reflexivity. Qed.

Lemma binary64_one_exact : one_is_exact 53 1024.
Proof. exists 4503599627370496%positive, (-52)%Z. split; reflexivity. Qed.

(** C19: The reciprocal is correctly rounded.  In single and in double
    precision, for a diagonal element whose real part [x] is finite and
    not zero, the value written has the sign of [x] and is a rounding to
    nearest of the exact quotient [1 / x]: a finite or zero result is within half a unit of its
    last place of the quotient, no valid number of the format is nearer
    to it, and at the half exactly its mantissa is even; an infinite
    result means that the quotient is at least the largest finite number
    plus half a unit; the result is never NaN. *)
Theorem recip_real_correctly_rounded (s : bool) (m : positive) (e : Z)
    (im : spec_float) :
  reciprocal_of 24 128 (S754_finite s m e)
    (@recip_real _ binary32 (mkComplex (S754_finite s m e) im)) /\
  reciprocal_of 53 1024 (S754_finite s m e)
    (@recip_real _ binary64 (mkComplex (S754_finite s m e) im)).
Proof.
  split.
  - apply (ieee_recip_reciprocal 24 128 eq_refl s m e im);
      [apply binary32_one_exact|discriminate].
  - apply (ieee_recip_reciprocal 53 1024 eq_refl s m e im);
      [apply binary64_one_exact|discriminate].
Qed.

(** C36: Which real parts are numerically singular.  In single precision,
    for a finite real part [x] other than zero: when the exact reciprocal
    exceeds the overflow threshold (the largest finite number plus half a
    unit of its last place) the value written is the infinity of the sign
    of [x]; an infinity is written only when the reciprocal is at least the
    threshold; and when [x] is a valid number of the format the value
    written is never a zero. *)
Theorem recip_real_overflow (s : bool) (m : positive) (e : Z) (im : spec_float) :
  let x := S754_finite s m e in
  let y := @recip_real _ binary32 (mkComplex x im) in
  (threshold 24 128 * magnitude x < 1 -> y = S754_infinity s) /\
  (forall sz, y = S754_infinity sz -> threshold 24 128 * magnitude x <= 1) /\
  (valid_binary 24 128 x = true -> forall sz, y <> S754_zero sz).
Proof.
  cbv zeta. repeat split.
  - apply (ieee_recip_overflow 24 128 eq_refl s m e im);
      [apply binary32_one_exact|discriminate].
  - intros sz. apply (ieee_recip_infinite 24 128 eq_refl s sz m e im);
      [apply binary32_one_exact|discriminate].
  - intros Hv sz. apply (ieee_recip_nonzero 24 128 eq_refl s sz m e im);
      [apply binary32_one_exact|discriminate|discriminate|exact Hv].
Qed.

(** The smallest positive number, [2 ^ -149]: its reciprocal overflows. *)
Lemma recip_real_overflow_witness :
  @recip_real _ binary32 (mkComplex (S754_finite false 1 (-149)) (S754_zero false))
  = S754_infinity false.
Proof.
  apply (recip_real_overflow false 1 (-149) (S754_zero false)).
  vm_compute. reflexivity.
Defined.
