(* ===== verification/FloatModel.v ===== *)
(** * FloatModel: the standard model of rounding, for the reciprocal

    Error analyses of floating-point programs assume the standard model:
    the computed result of an operation is the exact one times [1 + d]
    with [|d|] at most the unit roundoff, [2 ^ - prec].  This file proves
    it for [1 / entry.real()] (DiagReciprocal.hpp, line 30) from the
    correct rounding of [FloatError]: when the exact quotient is at least
    the smallest normal number and below the overflow threshold, the error
    of the value written is at most [2 ^ - prec] times the exact quotient.
    Half a unit of the last place is not enough for that when the result
    is a power of two and the quotient lies below it, in the binade of
    smaller spacing; there the bound comes from [nearest]: the largest
    number below the result is no nearer to the quotient. *)

From Stdlib Require Import ZArith QArith Qpower Qabs Lqa Lia.
From Stdlib Require Import Floats.SpecFloat.
From S2P Require Import Prelude Scalar FloatValid FloatRound FloatError.

#[local] Open Scope Q_scope.

(** ** The bound, on rationals *)

Section Bound.

(** [v] is a multiple of the spacing [2 * P] at or above the start
    [B * P] of its binade, within [P] of [q], and no further from [q] than
    the start of the binade and the number just below it are; [U] is the
    inverse of [B].  Then [v] is within [U * q] of [q]. *)
Lemma standard_model_bound (v q P B U : Q) :
  0 < P -> 0 < U -> U <= 1 # 2 -> U * B == 1 -> B * P <= v ->
  Qabs (v - q) <= P ->
  (q < B * P -> Qabs (v - q) <= Qabs (B * P - q) /\
                Qabs (v - q) <= Qabs ((B - 1) * P - q)) ->
  Qabs (v - q) <= U * q.
Proof.
  intros HP HU HU2 HUB Hv Hh Hn.
  assert (E : U * (B * P) == P) by (rewrite Qmult_assoc, HUB; ring).
  destruct (Qlt_le_dec q (B * P)) as [Hlt|Hge].
  - destruct (Hn Hlt) as [N1 N2]. rewrite (Qabs_pos (v - q)) in * by lra.
    rewrite (Qabs_pos (B * P - q)) in N1 by lra.
    destruct (Qlt_le_dec q ((B - 1) * P)) as [Hq|Hq].
    + rewrite Qabs_pos in N2 by lra. lra.
    + rewrite Qabs_neg in N2 by lra.
      pose proof (Qscale_le U _ _ HU Hq) as F1.
      assert (F2 : U * ((B - 1) * P) == U * (B * P) - U * P) by ring.
      rewrite E in F2.
      pose proof (Qmult_le_compat_r _ _ P HU2 (Qlt_le_weak _ _ HP)) as F3.
      lra.
  - pose proof (Qscale_le U _ _ HU Hge) as F. rewrite E in F. lra.
Qed.
End Bound.

(** ** The standard model *)

(** [y] is a normal number (a finite one with a mantissa of [prec]
    digits) of the sign of [x], within [2 ^ - prec] times the exact
    reciprocal of [x] of it. *)
Definition standard_model (prec : Z) (x y : spec_float) : Prop :=
  sign_of y = sign_of x /\ (2 ^ (prec - 1) <= mantissa y)%Z /\
  Qabs (magnitude y - 1 / magnitude x) <= pow2 (- prec) * (1 / magnitude x).

Section Model.
Variables prec emax : Z.
Hypothesis prec_pos : (0 < prec)%Z.

#[local] Abbreviation emin := (emin prec emax).

(** A nearest number is no further from the quotient than any positive
    mantissa at its canonical exponent. *)
Lemma nearest_candidate (q : Q) (z : spec_float) (m e : Z) :
  nearest prec emax q z ->
  (0 < m)%Z -> canon prec emax m e -> (e <= emax - prec)%Z ->
  Qabs (magnitude z - q) <= Qabs (inject_Z m * pow2 e - q).
Proof.
  intros Hn Hm Hc He.
  specialize (Hn (S754_finite false (Z.to_pos m) e)
                 (conj (canon_valid prec emax false m e Hm Hc He) I)).
  cbn [magnitude] in Hn. now rewrite Z2Pos.id in Hn by lia.
Qed.

(** A correct rounding of a quotient of at least the smallest normal
    number is within [2 ^ - prec] times the quotient of it. *)
Lemma rounds_to_standard (q : Q) (s : bool) (p : positive) (e : Z) :
  (emin <= emax - prec)%Z ->
  valid_binary prec emax (S754_finite s p e) = true ->
  rounds_to prec emax q (S754_finite s p e) ->
  pow2 (emin + prec - 1) <= q ->
  Qabs (magnitude (S754_finite s p e) - q) <= pow2 (- prec) * q.
Proof using prec_pos.
  intros Hmin Hv Hr Hq.
  pose proof (rounds_to_normal prec emax prec_pos q s p e Hmin Hv Hr Hq) as Hp.
  pose proof (valid_mantissa prec emax prec_pos s p e Hv) as Hp2.
  destruct (valid_finite prec emax s p e Hv) as [[_ Ce] He].
  assert (Hlo : (emin <= e)%Z) by (unfold SpecFloat.fexp in Ce; lia).
  assert (P1 : (2 ^ prec = 2 * 2 ^ (prec - 1))%Z)
    by (rewrite <- Z.pow_succ_r by lia; f_equal; lia).
  destruct Hr as (Hh & Hn & _). cbn [magnitude ulp] in *.
  assert (EB : pow2 prec * pow2 (e - 1) == pow2 (prec - 1) * pow2 e).
  { rewrite <- !pow2_add.
    now replace (prec + (e - 1))%Z with (prec - 1 + e)%Z by lia. }
  assert (EH : (1 # 2) * pow2 e == pow2 (e - 1)).
  { rewrite (pow2_split e (e - 1)).
    replace (e - (e - 1))%Z with 1%Z by lia. change (pow2 1) with 2. ring. }
  apply (standard_model_bound _ q (pow2 (e - 1)) (pow2 prec) (pow2 (- prec)));
    try apply pow2_pos.
  - apply (pow2_le (- prec) (-1)). lia.
  - rewrite <- pow2_add. now replace (- prec + prec)%Z with 0%Z by lia.
  - rewrite EB. apply Qmult_le_compat_r; [|apply Qlt_le_weak, pow2_pos].
    rewrite <- pow2_inject by lia. now apply inject_le.
  - now rewrite <- EH.
  - intros Hlt. split.
    + rewrite EB, <- (pow2_inject (prec - 1)) by lia.
      apply (nearest_candidate q _ _ e Hn); [lia | apply canon_full; lia | exact He].
    + destruct (Z.eq_dec e emin) as [->|Hne].
      * rewrite EB, <- pow2_add in Hlt.
        replace (prec - 1 + emin)%Z with (emin + prec - 1)%Z in Hlt by lia. lra.
      * rewrite <- (pow2_inject prec) by lia.
        change 1 with (inject_Z 1). rewrite <- inject_sub.
        apply (nearest_candidate q _ _ (e - 1) Hn);
          [lia | apply canon_full; lia | lia].
Qed.

(** A reciprocal between the smallest normal number and the threshold is
    written as a normal number of the sign of the real part, within
    [2 ^ - prec] times the exact quotient. *)
Lemma ieee_recip_model (s : bool) (m : positive) (e : Z) (im : spec_float) :
  one_is_exact prec emax -> (emin <= emax - prec)%Z ->
  let x := S754_finite s m e in
  pow2 (emin + prec - 1) <= 1 / magnitude x ->
  1 / magnitude x < threshold prec emax ->
  standard_model prec x (ieee_recip prec emax (mkComplex x im)).
Proof using prec_pos.
  intros H1 Hmin x Hlo Hhi.
  destruct (ieee_recip_normal prec emax prec_pos s m e im H1 Hmin Hlo Hhi)
    as (p & ez & E & Hp).
  pose proof (ieee_recip_valid prec emax (mkComplex x im) prec_pos) as Hv.
  destruct (ieee_recip_reciprocal prec emax prec_pos s m e im H1 Hmin)
    as [Hs Hr].
  fold x in E, Hs, Hr. unfold ieee_recip in *. rewrite E in *.
  split; [exact Hs|]. split; [exact Hp|]. now apply rounds_to_standard.
Qed.
End Model.

(** ** The formats in use *)

Lemma binary32_model (s : bool) (m : positive) (e : Z) (im : spec_float) :
  let x := S754_finite s m e in
  pow2 (-126) <= magnitude x <= pow2 126 ->
  standard_model 24 x (@recip_real _ binary32 (mkComplex x im)).
Proof.
  intros x H. apply recip_range in H; [|reflexivity]. destruct H as [H1 H2].
  apply (ieee_recip_model 24 128 eq_refl s m e im);
    [apply binary32_one_exact|discriminate|exact H1|].
  eapply Qle_lt_trans; [exact H2|reflexivity].
Qed.

Lemma binary64_model (s : bool) (m : positive) (e : Z) (im : spec_float) :
  let x := S754_finite s m e in
  pow2 (-1022) <= magnitude x <= pow2 1022 ->
  standard_model 53 x (@recip_real _ binary64 (mkComplex x im)).
Proof.
  intros x H. apply recip_range in H; [|reflexivity]. destruct H as [H1 H2].
  apply (ieee_recip_model 53 1024 eq_refl s m e im);
    [apply binary64_one_exact|discriminate|exact H1|].
  eapply Qle_lt_trans; [exact H2|reflexivity].
Qed.

(** ** Theorems *)

(** C20: The standard model holds for the reciprocal.  For a real part [x]
    of magnitude between [2 ^ -126] and [2 ^ 126] in single precision,
    between [2 ^ -1022] and [2 ^ 1022] in double precision, the value
    written is a normal number of the sign of [x] (neither overflow nor
    underflow) and its distance to the exact quotient [1 / x] is at most
    [2 ^ -24], respectively [2 ^ -53], times the exact quotient: the
    computed reciprocal is [(1 / x) * (1 + d)] with [|d|] at most the unit
    roundoff. *)
Theorem recip_real_relative_error (s : bool) (m : positive) (e : Z)
    (im : spec_float) :
  let x := S754_finite s m e in
  (pow2 (-126) <= magnitude x <= pow2 126 ->
   standard_model 24 x (@recip_real _ binary32 (mkComplex x im))) /\
  (pow2 (-1022) <= magnitude x <= pow2 1022 ->
   standard_model 53 x (@recip_real _ binary64 (mkComplex x im))).
Proof.
  split; [apply binary32_model | apply binary64_model].
Qed.

(** The reciprocal of seven: the element [(7, 3)] of the one-row example. *)
Lemma recip_real_relative_error_witness :
  standard_model 24 (S754_finite false 7 0)
    (@recip_real _ binary32
       (mkComplex (S754_finite false 7 0) (S754_finite false 3 0))).
Proof.
  apply (recip_real_relative_error false 7 0 (S754_finite false 3 0)).
  split; vm_compute; discriminate.
Defined.
