(* ===== verification/Pipe.v ===== *)
(** * Pipe: the channels of the kernel

    The kernel is a template over its two pipes, [RMatrixInPipe] and
    [RDiagRecipVectorOutPipe]; it uses [read()] of the first and [write(v)]
    of the second, both blocking.  The pipes themselves belong to the SYCL
    runtime and the FPGA, not to the sources: the class [Pipe] states what
    the kernel relies on.  A pipe has abstract [contents], the elements in
    transit, oldest first, and a [capacity] ([None] when unbounded).  A
    [read] that returns [None] is a read that blocks (the pipe is empty),
    a [write] that returns [None] is a write that blocks (the pipe is
    full).  Two instances: lists as unbounded FIFOs, and [bfifo], a FIFO
    with a capacity. *)

From Stdlib Require Import List Lia Bool Arith.
From Stdlib Require Import Relations Morphisms RelationClasses.
From S2P Require Import Prelude.
Import ListNotations.

(** ** The interface *)

Class Pipe (P A : Type) : Type := {
  contents : P -> list A;
  capacity : P -> option nat;
  read : P -> option (A * P);
  write : A -> P -> option P;

  (** a read blocks exactly on the empty pipe *)
  read_None : forall p, read p = None <-> contents p = [];
  (** a read takes the oldest element *)
  read_Some : forall p x p', read p = Some (x, p') ->
    contents p = x :: contents p' /\ capacity p' = capacity p;
  (** a write blocks exactly on the full pipe *)
  write_None : forall x p, write x p = None <->
    exists c, capacity p = Some c /\ c <= length (contents p);
  (** a write appends *)
  write_Some : forall x p p', write x p = Some p' ->
    contents p' = contents p ++ [x] /\ capacity p' = capacity p
}.

(** The number of elements a pipe accepts before a write blocks:
    [has_room p n] holds when [n] writes in a row succeed. *)
Definition has_room {P A} `{Pipe P A} (p : P) (n : nat) : Prop :=
  match capacity p with
  | None => True
  | Some c => length (contents p) + n <= c
  end.

Definition has_room_b {P A} `{Pipe P A} (p : P) (n : nat) : bool :=
  match capacity p with
  | None => true
  | Some c => length (contents p) + n <=? c
  end.

(** A pipe of depth at least one: every hardware pipe is. *)
Definition positive_depth {P A} `{Pipe P A} (p : P) : Prop :=
  forall c, capacity p = Some c -> 1 <= c.

(** ** Consequences of the laws *)

Section PipeFacts.
Context {P A : Type} `{Pipe P A}.

Lemma has_room_b_spec (p : P) (n : nat) :
  has_room_b p n = true <-> has_room p n.
Proof.
  unfold has_room_b, has_room. destruct (capacity p).
  - apply Nat.leb_le.
  - tauto.
Qed.

(** A read succeeds on a non-empty pipe, and returns its head. *)
Lemma read_cons (p : P) (x : A) (l : list A) :
  contents p = x :: l ->
  exists p', read p = Some (x, p') /\ contents p' = l /\
             capacity p' = capacity p.
Proof.
  intros Hc. destruct (read p) as [[y p']|] eqn:E.
  - destruct (read_Some _ _ _ E) as [Hy Hcap].
    rewrite Hc in Hy. injection Hy as -> ->. eauto.
  - apply read_None in E. congruence.
Qed.

(** A write succeeds when there is room, and appends. *)
Lemma write_room (p : P) (x : A) (n : nat) :
  has_room p (S n) ->
  exists p', write x p = Some p' /\ contents p' = contents p ++ [x] /\
             capacity p' = capacity p /\ has_room p' n.
Proof.
  intros Hr. destruct (write x p) as [p'|] eqn:E.
  - destruct (write_Some _ _ _ E) as [Hc Hcap].
    exists p'. repeat split; auto.
    unfold has_room in *. rewrite Hcap, Hc, length_app. simpl.
    destruct (capacity p); auto. lia.
  - apply write_None in E. destruct E as (c & Hc & Hle).
    unfold has_room in Hr. rewrite Hc in Hr. lia.
Qed.

(** A write blocks when there is no room. *)
Lemma write_full (p : P) (x : A) (c : nat) :
  capacity p = Some c -> c <= length (contents p) -> write x p = None.
Proof. intros Hc Hle. apply write_None. eauto. Qed.

(** A read frees one slot. *)
Lemma read_room (p p' : P) (x : A) (n : nat) :
  read p = Some (x, p') -> has_room p n -> has_room p' (S n).
Proof.
  intros E Hr. destruct (read_Some _ _ _ E) as [Hc Hcap].
  unfold has_room in *. rewrite Hcap. rewrite Hc in Hr. simpl in Hr.
  destruct (capacity p); auto. lia.
Qed.

(** A pipe never holds more than its depth: a read keeps it so, and a
    write that succeeds found a free slot. *)
Lemma read_within (p p' : P) (x : A) :
  read p = Some (x, p') -> has_room p 0 -> has_room p' 0.
Proof.
  intros E Hr. apply (read_room _ _ _ _ E) in Hr.
  unfold has_room in *. destruct (capacity p'); auto. lia.
Qed.

Lemma write_within (p p' : P) (x : A) :
  write x p = Some p' -> has_room p' 0.
Proof.
  intros E. destruct (write_Some _ _ _ E) as [Hc Hcap].
  unfold has_room. rewrite Hcap, Hc, length_app. cbn [length].
  destruct (capacity p) as [c|] eqn:Ec; auto.
  destruct (Nat.le_gt_cases c (length (contents p))) as [Hle|Hlt]; [|lia].
  rewrite (write_full p x c Ec Hle) in E. discriminate.
Qed.

(** A non-empty pipe can be read. *)
Lemma read_nonempty (p : P) :
  contents p <> [] -> exists x p', read p = Some (x, p').
Proof.
  intros Hne. destruct (read p) as [[x p']|] eqn:E; eauto.
  apply read_None in E. contradiction.
Qed.

(** A pipe of depth at least one accepts a write when it is empty. *)
Lemma write_empty (p : P) (x : A) :
  positive_depth p -> contents p = [] -> exists p', write x p = Some p'.
Proof.
  intros Hd Hc. destruct (write x p) as [p'|] eqn:E; eauto.
  apply write_None in E. destruct E as (c & Hcap & Hle).
  apply Hd in Hcap. rewrite Hc in Hle. simpl in Hle. lia.
Qed.

Lemma positive_depth_capacity (p q : P) :
  capacity p = capacity q -> positive_depth q -> positive_depth p.
Proof. unfold positive_depth. intros -> Hq. exact Hq. Qed.
End PipeFacts.

(** ** Pipes up to what they hold *)

(** The stages observe a pipe through [contents] and [capacity] only: two
    pipes that agree on both behave alike, whatever their representation. *)
Record pipe_equiv {P A : Type} `{Pipe P A} (p q : P) : Prop := mkPipeEquiv {
  equiv_contents : contents p = contents q;
  equiv_capacity : capacity p = capacity q
}.

Section PipeEquiv.
Context {P A : Type} `{Pipe P A}.

#[export] Instance pipe_equiv_equivalence : Equivalence (@pipe_equiv P A _).
Proof.
  split.
  - now split.
  - intros p q [Hc Hk]. now split.
  - intros p q r [Hc Hk] [Hc' Hk']. split; congruence.
Qed.

#[export] Instance contents_proper : Proper (pipe_equiv ==> eq) (@contents P A _).
Proof. intros p q E. apply E. Qed.

#[export] Instance capacity_proper : Proper (pipe_equiv ==> eq) (@capacity P A _).
Proof. intros p q E. apply E. Qed.

(** Equivalent pipes block together, and otherwise deliver the same
    element and stay equivalent. *)
#[export] Instance read_proper :
  Proper (pipe_equiv ==> option_rel (pair_rel eq pipe_equiv)) (@read P A _).
Proof.
  intros p q E. destruct (read p) as [[x p']|] eqn:R.
  - destruct (read_Some _ _ _ R) as [Hc Hk]. rewrite E in Hc, Hk.
    destruct (read_cons _ _ _ Hc) as (q' & -> & Hc' & Hk').
    constructor. split; [reflexivity|]. split; cbn; congruence.
  - apply read_None in R. rewrite E in R. apply read_None in R.
    rewrite R. constructor.
Qed.

#[export] Instance write_proper :
  Proper (eq ==> pipe_equiv ==> option_rel pipe_equiv) (@write P A _).
Proof.
  intros x _ <- p q [Ec Ek].
  destruct (write x p) as [p'|] eqn:W, (write x q) as [q'|] eqn:W';
    try constructor.
  - destruct (write_Some _ _ _ W) as [Hc Hk], (write_Some _ _ _ W') as [Hc' Hk'].
    split; congruence.
  - apply write_None in W'. rewrite <- Ec, <- Ek in W'. apply (write_None x) in W'.
    congruence.
  - apply write_None in W. rewrite Ec, Ek in W. apply (write_None x) in W.
    congruence.
Qed.

(** The two ends of a pipe do not interfere: when the writer and the
    reader can both move, each can still move after the other, and the
    two orders leave equivalent pipes. *)
Lemma write_read_commute (p p1 p2 : P) (x y : A) :
  read p = Some (x, p1) -> write y p = Some p2 ->
  exists p12 p21,
    write y p1 = Some p12 /\ read p2 = Some (x, p21) /\ pipe_equiv p12 p21.
Proof.
  intros R W. destruct (read_Some _ _ _ R) as [Hc Hk].
  destruct (write_Some _ _ _ W) as [Hc2 Hk2].
  destruct (write y p1) as [p12|] eqn:W1.
  - destruct (write_Some _ _ _ W1) as [Hc12 Hk12].
    rewrite Hc in Hc2.
    destruct (read_cons p2 x (contents p1 ++ [y]) Hc2) as (p21 & R2 & Hc21 & Hk21).
    exists p12, p21. repeat split; auto; congruence.
  - apply write_None in W1. destruct W1 as (c & Hcap & Hle).
    rewrite (write_full p y c) in W; [discriminate|congruence|].
    rewrite Hc. simpl. lia.
Qed.
End PipeEquiv.

(** ** Unbounded FIFO: a list, oldest element first *)

Section Fifo.
Context {A : Type}.

Definition fifo_read (p : list A) : option (A * list A) :=
  match p with
  | [] => None
  | x :: p' => Some (x, p')
  end.

Definition fifo_write (x : A) (p : list A) : option (list A) :=
  Some (p ++ [x]).

#[export, refine] Instance fifo_pipe : Pipe (list A) A :=
  {| contents := fun p => p;
     capacity := fun _ => None;
     read := fifo_read;
     write := fifo_write |}.
Proof.
  - intros [|x p]; simpl; split; congruence.
  - intros [|y p] x p'; simpl; intros E; inversion E; auto.
  - intros x p; simpl; split; [discriminate | intros (c & Hc & _); discriminate].
  - intros x p p'; simpl; intros E; inversion E; auto.
Defined.
End Fifo.

(** ** Bounded FIFO *)

Record bfifo (A : Type) : Type := mkBfifo {
  bf_cap : nat;          (** the depth of the pipe *)
  bf_buf : list A        (** the elements in transit, oldest first *)
}.

Arguments mkBfifo {A} _ _.
Arguments bf_cap {A} _.
Arguments bf_buf {A} _.

Section Bfifo.
Context {A : Type}.

Definition bfifo_empty (cap : nat) : bfifo A := mkBfifo cap [].

Definition bfifo_read (p : bfifo A) : option (A * bfifo A) :=
  match bf_buf p with
  | [] => None
  | x :: l => Some (x, mkBfifo (bf_cap p) l)
  end.

Definition bfifo_write (x : A) (p : bfifo A) : option (bfifo A) :=
  if length (bf_buf p) <? bf_cap p
  then Some (mkBfifo (bf_cap p) (bf_buf p ++ [x]))
  else None.

#[export, refine] Instance bfifo_pipe : Pipe (bfifo A) A :=
  {| contents := bf_buf;
     capacity := fun p => Some (bf_cap p);
     read := bfifo_read;
     write := bfifo_write |}.
Proof.
  - intros [c [|x l]]; unfold bfifo_read; simpl; split; congruence.
  - intros [c [|y l]] x p'; unfold bfifo_read; simpl; intros E;
      inversion E; subst; auto.
  - intros x [c l]; unfold bfifo_write; simpl.
    destruct (Nat.ltb_spec (length l) c); split; try discriminate; auto.
    + intros (c' & Hc & Hle). inversion Hc; subst. lia.
    + intros _. exists c. split; auto.
  - intros x [c l] p'; unfold bfifo_write; simpl.
    destruct (Nat.ltb_spec (length l) c); intros E; inversion E; auto.
Defined.

End Bfifo.
