(* ===== verification/TriIndex.v ===== *)
(** * TriIndex: the position tracker and the packed upper triangle

    The kernel never receives coordinates: it keeps the two [int] counters
    [row] and [col] and updates them after every read so that they are the
    coordinates of the next element of the packed stream.  This file holds
    the counters ([position], [pos_init]), the diagonal test ([on_diag]) and
    the update ([advance]) as the code writes them, and the reference they
    are compared with: [tri_indices n], the coordinates of the upper
    triangle of an [n] x [n] matrix in row-major order, and [rank], the
    index of a coordinate in that order.  The counters are proved exact
    for every [num_rows] below [int_max]: they count up to
    [num_rows + 1]. *)

From Stdlib Require Import ZArith List Lia Bool.
From S2P Require Import Prelude MachineInt.
Import ListNotations.

#[local] Open Scope Z_scope.

(** ** The counters *)

(** Lines 22-23: the locals [int row] and [int col]. *)
Record position : Type := mkPos {
  row : Z;
  col : Z
}.

(** Lines 22-23: [int row = 1; int col = 1;]. *)
Definition pos_init : position := mkPos 1 1.

(** Assignments to one counter. *)
Definition set_row (p : position) (v : Z) : position := mkPos v (col p).
Definition set_col (p : position) (v : Z) : position := mkPos (row p) v.

(** Line 29: the test [row == col] (both [int]). *)
Definition on_diag (p : position) : bool := row p =? col p.

(** Lines 33-38: the update of the counters.  [col] is converted to
    [size_t] for the comparison with [num_rows]; at the end of a row,
    [col = row+1] is executed before [row++]. *)
Definition advance (num_rows : Z) (p : position) : position :=
  if size_of_int (col p) =? num_rows then
    let p1 := set_col p (int_add (row p) 1) in
    set_row p1 (int_add (row p1) 1)
  else
    set_col p (int_add (col p) 1).

(** ** The reference enumeration *)

(** The coordinates of row [r] of the upper triangle: columns [r] to [n]. *)
Definition row_indices (n r : Z) : list position :=
  map (mkPos r) (zrange r (Z.to_nat (n - r + 1))).

(** The coordinates of the upper triangle, row by row. *)
Definition tri_indices (n : Z) : list position :=
  flat_map (row_indices n) (zrange 1 (Z.to_nat n)).

(** A coordinate of the upper triangle of an [n] x [n] matrix. *)
Definition in_triangle (n : Z) (p : position) : Prop :=
  1 <= row p <= col p /\ col p <= n.

Definition in_triangle_b (n : Z) (p : position) : bool :=
  (1 <=? row p) && (row p <=? col p) && (col p <=? n).

(** The value of the counters when the whole triangle has been visited. *)
Definition pos_end (n : Z) : position := mkPos (n + 1) (n + 1).

(** The index of the first element of row [r] in the packed stream:
    the rows above hold [n], [n-1], ..., [n-r+2] elements. *)
Definition row_base (n r : Z) : Z := (r - 1) * (2 * n - r + 2) / 2.

(** The index of a coordinate in the packed stream (from 0). *)
Definition rank (n : Z) (p : position) : Z :=
  row_base n (row p) + (col p - row p).

(** The coordinate at an index of the packed stream: the inverse of
    [rank], by search of the row. *)
Fixpoint unrank_from (n r : Z) (rows : nat) (k : Z) : position :=
  match rows with
  | O => mkPos r r
  | S rows' =>
      let len := n - r + 1 in
      if k <? len then mkPos r (r + k)
      else unrank_from n (r + 1) rows' (k - len)
  end.

Definition unrank (n k : Z) : position := unrank_from n 1 (Z.to_nat n) k.

(** Decidable equality of positions. *)
Definition position_eqb (p q : position) : bool :=
  (row p =? row q) && (col p =? col q).

Lemma position_eqb_spec (p q : position) :
  reflect (p = q) (position_eqb p q).
Proof.
  destruct p as [r c], q as [r' c']. unfold position_eqb; simpl.
  destruct (Z.eqb_spec r r'), (Z.eqb_spec c c'); constructor; congruence.
Qed.

Lemma position_eq_dec (p q : position) : {p = q} + {p <> q}.
Proof. decide equality; apply Z.eq_dec. Defined.

Lemma in_triangle_b_spec (n : Z) (p : position) :
  in_triangle_b n p = true <-> in_triangle n p.
Proof.
  unfold in_triangle_b, in_triangle. rewrite !andb_true_iff, !Z.leb_le. tauto.
Qed.

Lemma on_diag_spec (p : position) : on_diag p = true <-> row p = col p.
Proof. unfold on_diag. apply Z.eqb_eq. Qed.

(** ** The index of a row *)

(** The division in [row_base] is exact. *)
Lemma row_base_double (n r : Z) :
  2 * row_base n r = (r - 1) * (2 * n - r + 2).
Proof.
  unfold row_base. destruct (Z.Even_or_Odd r) as [[a ->]|[a ->]].
  - replace ((2 * a - 1) * (2 * n - 2 * a + 2))
      with ((2 * a - 1) * (n - a + 1) * 2) by ring.
    rewrite Z.div_mul by lia. ring.
  - replace ((2 * a + 1 - 1) * (2 * n - (2 * a + 1) + 2))
      with (a * (2 * n - 2 * a + 1) * 2) by ring.
    rewrite Z.div_mul by lia. ring.
Qed.

(** Row [r] holds [n - r + 1] elements. *)
Lemma row_base_succ (n r : Z) :
  row_base n (r + 1) = row_base n r + (n - r + 1).
Proof.
  pose proof (row_base_double n r). pose proof (row_base_double n (r + 1)).
  nia.
Qed.

Lemma row_base_1 (n : Z) : row_base n 1 = 0.
Proof. reflexivity. Qed.

(** The first row of a triangle of [m + 1] rows has [m + 1] elements, and
    what follows it is a triangle of [m] rows. *)
Lemma row_base_shift (m j : Z) :
  row_base (m + 1) (j + 2) = (m + 1) + row_base m (j + 1).
Proof.
  pose proof (row_base_double (m + 1) (j + 2)).
  pose proof (row_base_double m (j + 1)). nia.
Qed.

(** After the last row: the size of the triangle. *)
Lemma row_base_end (n : Z) : row_base n (n + 1) = n * (n + 1) / 2.
Proof. unfold row_base. f_equal. ring. Qed.

(** The head of the last row is the last element. *)
Lemma row_base_last (n : Z) : row_base n n = n * (n + 1) / 2 - 1.
Proof.
  pose proof (row_base_succ n n). rewrite row_base_end in *. lia.
Qed.

(** The rows of the triangle start at increasing indices. *)
Lemma row_base_lt (n r r' : Z) :
  1 <= r < r' -> r' <= n + 1 -> row_base n r < row_base n r'.
Proof.
  intros Hr Hr'.
  pose proof (row_base_double n r). pose proof (row_base_double n r').
  assert ((r' - 1) * (2 * n - r' + 2) - (r - 1) * (2 * n - r + 2)
          = (r' - r) * (2 * n + 3 - r - r')) by ring.
  nia.
Qed.

Lemma row_base_nonneg (n r : Z) : 1 <= r <= n + 1 -> 0 <= row_base n r.
Proof.
  intros H. destruct (Z.eq_dec r 1) as [->|Hne]; [now rewrite row_base_1|].
  pose proof (row_base_lt n 1 r). rewrite row_base_1 in *. lia.
Qed.

Lemma row_base_le_tri (n r : Z) :
  1 <= r <= n + 1 -> row_base n r <= n * (n + 1) / 2.
Proof.
  intros H. rewrite <- row_base_end.
  destruct (Z.eq_dec r (n + 1)) as [->|Hne]; [lia|].
  pose proof (row_base_lt n r (n + 1)). lia.
Qed.

(** ** The update, inside the range of [int] *)

(** The counters go up to [num_rows + 1]: everything below holds for
    every [num_rows < int_max], that is up to [2^31 - 2] rows. *)
Section Advance.
Variable n : Z.
Hypothesis n_range : 0 <= n < int_max.

(** The update as mathematics: no conversion, no wrap-around. *)
Definition advance_ideal (p : position) : position :=
  if col p =? n then mkPos (row p + 1) (row p + 1)
  else mkPos (row p) (col p + 1).

Lemma advance_exact (p : position) :
  in_triangle n p -> advance n p = advance_ideal p.
Proof using n_range.
  unfold in_triangle, advance, advance_ideal, set_row, set_col in *.
  destruct p as [r c]; simpl. intros H.
  destruct int_bounds as [Emin Emax]. rewrite Emax in n_range.
  rewrite size_of_int_small, !int_add_small;
    unfold in_int; rewrite ?Emin, ?Emax; try lia.
  reflexivity.
Qed.

(** The update stays in the triangle, or reaches its end. *)
Lemma advance_in_triangle (p : position) :
  in_triangle n p ->
  in_triangle n (advance n p) \/ advance n p = pos_end n.
Proof using n_range.
  intros H. rewrite advance_exact by assumption.
  unfold in_triangle, advance_ideal, pos_end in *. destruct p as [r c]; simpl in *.
  destruct (Z.eqb_spec c n); simpl.
  - destruct (Z.eq_dec r n); [right; congruence | left; lia].
  - left; lia.
Qed.

(** The update moves one step forward in the packed order. *)
Lemma rank_advance (p : position) :
  in_triangle n p -> rank n (advance n p) = rank n p + 1.
Proof using n_range.
  intros H. rewrite advance_exact by assumption.
  unfold in_triangle, advance_ideal, rank in *.
  destruct p as [r c]; simpl in *.
  destruct (Z.eqb_spec c n); simpl; [subst c | lia].
  rewrite row_base_succ. lia.
Qed.

(** *** One row *)

(** From column [c] of row [r], the update visits the rest of the row and
    stops at the head of the next one. *)
Lemma row_tail (k : nat) (r c : Z) :
  1 <= r <= c -> c + Z.of_nat k = n ->
  trajectory (advance n) (S k) (mkPos r c) = map (mkPos r) (zrange c (S k)) /\
  iter_n (advance n) (S k) (mkPos r c) = mkPos (r + 1) (r + 1).
Proof using n_range.
  revert c; induction k as [|k IH]; intros c Hr Hc.
  - assert (c = n) by lia; subst c.
    cbn [trajectory iter_n zrange map].
    rewrite advance_exact by (unfold in_triangle; simpl; lia).
    unfold advance_ideal; simpl. now rewrite Z.eqb_refl.
  - assert (Hstep : advance n (mkPos r c) = mkPos r (c + 1)).
    { rewrite advance_exact by (unfold in_triangle; simpl; lia).
      unfold advance_ideal; simpl.
      destruct (Z.eqb_spec c n); [lia | reflexivity]. }
    destruct (IH (c + 1)) as [IHt IHi]; [lia | lia |].
    split.
    + change (trajectory (advance n) (S (S k)) (mkPos r c))
        with (mkPos r c :: trajectory (advance n) (S k) (advance n (mkPos r c))).
      rewrite Hstep, IHt. reflexivity.
    + change (iter_n (advance n) (S (S k)) (mkPos r c))
        with (iter_n (advance n) (S k) (advance n (mkPos r c))).
      now rewrite Hstep.
Qed.

Lemma row_full (r : Z) :
  1 <= r <= n ->
  trajectory (advance n) (Z.to_nat (n - r + 1)) (mkPos r r) = row_indices n r /\
  iter_n (advance n) (Z.to_nat (n - r + 1)) (mkPos r r) = mkPos (r + 1) (r + 1).
Proof using n_range.
  intros Hr. unfold row_indices.
  replace (Z.to_nat (n - r + 1)) with (S (Z.to_nat (n - r))) by lia.
  apply row_tail; lia.
Qed.

(** *** All rows *)

(** From the head of row [r], with [m] rows left, the update visits the
    [tri m] coordinates of these rows and stops at [pos_end]. *)
Lemma rows_from (m : nat) (r : Z) :
  1 <= r -> r + Z.of_nat m = n + 1 ->
  trajectory (advance n) (tri m) (mkPos r r)
    = flat_map (row_indices n) (zrange r m) /\
  iter_n (advance n) (tri m) (mkPos r r) = pos_end n.
Proof using n_range.
  revert r; induction m as [|m IH]; intros r Hr Hm.
  - simpl. unfold pos_end. split; [reflexivity | f_equal; lia].
  - destruct (row_full r) as [Ht Hi]; [lia|].
    replace (Z.to_nat (n - r + 1)) with (S m) in Ht, Hi by lia.
    destruct (IH (r + 1)) as [IHt IHi]; [lia | lia |].
    cbn [tri zrange flat_map].
    rewrite trajectory_add, iter_n_add, Ht, Hi, IHt, IHi. auto.
Qed.

(** After [j] complete rows the counters are at the head of row [j+1]. *)
Lemma rows_prefix (j : nat) :
  Z.of_nat j <= n ->
  iter_n (advance n) (Z.to_nat (row_base n (Z.of_nat j + 1))) pos_init
    = mkPos (Z.of_nat j + 1) (Z.of_nat j + 1).
Proof using n_range.
  induction j as [|j IH]; intros Hj; [reflexivity|].
  replace (Z.of_nat (S j) + 1) with (Z.of_nat j + 1 + 1) by lia.
  rewrite row_base_succ, Z2Nat.inj_add, iter_n_add, IH
    by (try apply row_base_nonneg; lia).
  apply row_full. lia.
Qed.

(** The positions the kernel visits are the coordinates of the packed
    triangle, in order. *)
Lemma trajectory_tri_indices :
  trajectory (advance n) (tri (Z.to_nat n)) pos_init = tri_indices n.
Proof using n_range. apply rows_from; lia. Qed.

Lemma iter_advance_end :
  iter_n (advance n) (tri (Z.to_nat n)) pos_init = pos_end n.
Proof using n_range. apply rows_from; lia. Qed.

Lemma tri_indices_length : length (tri_indices n) = tri (Z.to_nat n).
Proof using n_range.
  rewrite <- trajectory_tri_indices. apply trajectory_length.
Qed.

(** The [k]-th position visited is the [k]-th coordinate of the triangle. *)
Lemma iter_advance_nth (k : nat) :
  (k < tri (Z.to_nat n))%nat ->
  nth_error (tri_indices n) k = Some (iter_n (advance n) k pos_init).
Proof using n_range.
  intros Hk. rewrite <- trajectory_tri_indices.
  now apply trajectory_nth_error.
Qed.
End Advance.

(** ** The enumeration *)

Lemma row_indices_In (n r : Z) (p : position) :
  In p (row_indices n r) <-> row p = r /\ r <= col p <= n.
Proof.
  unfold row_indices. rewrite in_map_iff. split.
  - intros (c & <- & Hc). apply zrange_In in Hc. simpl. lia.
  - intros [<- Hc]. exists (col p). split; [now destruct p|].
    apply zrange_In. lia.
Qed.

Lemma tri_indices_In (n : Z) (p : position) :
  In p (tri_indices n) <-> in_triangle n p.
Proof.
  unfold tri_indices, in_triangle. rewrite in_flat_map. split.
  - intros (r & Hr & Hp). apply zrange_In in Hr.
    apply row_indices_In in Hp. lia.
  - intros H. exists (row p). split.
    + apply zrange_In. lia.
    + apply row_indices_In. lia.
Qed.

(** The diagonal coordinate of a row is its first. *)
Lemma row_indices_diag (n r : Z) :
  r <= n -> filter on_diag (row_indices n r) = [mkPos r r].
Proof.
  intros Hr. unfold row_indices.
  replace (Z.to_nat (n - r + 1)) with (S (Z.to_nat (n - r))) by lia.
  cbn [zrange map filter]. unfold on_diag at 1; simpl. rewrite Z.eqb_refl.
  f_equal. apply filter_none. intros p Hp.
  apply in_map_iff in Hp. destruct Hp as (c & <- & Hc).
  apply zrange_In in Hc. unfold on_diag; simpl. apply Z.eqb_neq. lia.
Qed.

(** The diagonal coordinates of the triangle, in the order of the stream. *)
Lemma tri_indices_diag_from (n r : Z) (m : nat) :
  r + Z.of_nat m <= n + 1 ->
  filter on_diag (flat_map (row_indices n) (zrange r m))
    = map (fun d => mkPos d d) (zrange r m).
Proof.
  revert r; induction m as [|m IH]; intros r Hm; [reflexivity|].
  cbn [zrange flat_map map]. rewrite filter_app, row_indices_diag by lia.
  rewrite IH by lia. reflexivity.
Qed.

Lemma tri_indices_diag (n : Z) :
  filter on_diag (tri_indices n)
    = map (fun d => mkPos d d) (zrange 1 (Z.to_nat n)).
Proof.
  unfold tri_indices. destruct (Z.le_gt_cases 0 n).
  - apply tri_indices_diag_from. lia.
  - replace (Z.to_nat n) with O by lia. reflexivity.
Qed.

(** ** Rank and its inverse *)

Section Rank.
Variable n : Z.
Hypothesis n_nonneg : 0 <= n.

(** A coordinate of row [r] comes before the head of row [r + 1]. *)
Lemma rank_bounds (p : position) :
  in_triangle n p ->
  row_base n (row p) <= rank n p < row_base n (row p + 1).
Proof.
  unfold in_triangle, rank. intros H. rewrite row_base_succ. lia.
Qed.

Lemma rank_range (p : position) :
  in_triangle n p -> 0 <= rank n p < Z.of_nat (tri (Z.to_nat n)).
Proof using n_nonneg.
  intros H. pose proof (rank_bounds p H) as Hb.
  pose proof (row_base_nonneg n (row p) ltac:(unfold in_triangle in H; lia)).
  pose proof (row_base_le_tri n (row p + 1) ltac:(unfold in_triangle in H; lia)).
  rewrite tri_Z by lia. lia.
Qed.

(** Rows come in order: a lower row has the lower ranks. *)
Lemma rank_row_lt (p q : position) :
  in_triangle n p -> in_triangle n q -> row p < row q -> rank n p < rank n q.
Proof.
  intros Hp Hq Hlt.
  pose proof (rank_bounds p Hp). pose proof (rank_bounds q Hq).
  unfold in_triangle in *.
  destruct (Z.eq_dec (row p + 1) (row q)) as [E|E]; [rewrite E in *; lia|].
  pose proof (row_base_lt n (row p + 1) (row q) ltac:(lia) ltac:(lia)). lia.
Qed.

Lemma rank_inj (p q : position) :
  in_triangle n p -> in_triangle n q -> rank n p = rank n q -> p = q.
Proof.
  intros Hp Hq E.
  destruct (Z.lt_trichotomy (row p) (row q)) as [H|[H|H]].
  - pose proof (rank_row_lt p q Hp Hq H). lia.
  - destruct p as [r c], q as [r' c']. unfold rank in E. simpl in *.
    subst r'. f_equal. lia.
  - pose proof (rank_row_lt q p Hq Hp H). lia.
Qed.

(** The search of [unrank_from] finds the coordinate of a given offset. *)
Lemma unrank_from_spec (rows : nat) (r k : Z) :
  1 <= r -> r + Z.of_nat rows = n + 1 -> 0 <= k < Z.of_nat (tri rows) ->
  in_triangle n (unrank_from n r rows k) /\
  rank n (unrank_from n r rows k) = row_base n r + k.
Proof.
  revert r k; induction rows as [|rows IH]; intros r k Hr Hrows Hk.
  - simpl in Hk. lia.
  - cbn [unrank_from]. destruct (Z.ltb_spec k (n - r + 1)) as [Hlt|Hge].
    + unfold in_triangle, rank; simpl. split; lia.
    + destruct (IH (r + 1) (k - (n - r + 1))) as [IHt IHr];
        [lia | lia | cbn [tri] in Hk; lia |].
      split; [exact IHt|]. rewrite IHr, row_base_succ. lia.
Qed.

Lemma unrank_in_triangle (k : Z) :
  0 <= k < Z.of_nat (tri (Z.to_nat n)) -> in_triangle n (unrank n k).
Proof using n_nonneg. intros Hk. apply unrank_from_spec; lia. Qed.

Lemma rank_of_unrank (k : Z) :
  0 <= k < Z.of_nat (tri (Z.to_nat n)) -> rank n (unrank n k) = k.
Proof using n_nonneg.
  intros Hk. unfold unrank.
  destruct (unrank_from_spec (Z.to_nat n) 1 k) as [_ H]; try lia.
  now rewrite H, row_base_1.
Qed.

End Rank.

(** ** The counters and the rank *)

Section Visits.
Variable n : Z.
Hypothesis n_range : 0 <= n < int_max.

(** The positions the kernel visits stay in the triangle. *)
Lemma iter_advance_in_triangle (k : nat) :
  (k < tri (Z.to_nat n))%nat ->
  in_triangle n (iter_n (advance n) k pos_init).
Proof using n_range.
  intros Hk. apply tri_indices_In.
  eapply nth_error_In. now apply iter_advance_nth.
Qed.

(** The [k]-th position visited has rank [k]. *)
Lemma rank_iter_advance (k : nat) :
  (k <= tri (Z.to_nat n))%nat ->
  rank n (iter_n (advance n) k pos_init) = Z.of_nat k.
Proof using n_range.
  induction k as [|k IH]; intros Hk; [reflexivity|].
  rewrite iter_n_succ_r, rank_advance, IH; try lia.
  apply iter_advance_in_triangle. lia.
Qed.

(** An iteration the loop executes is an iteration inside the triangle:
    the loop bound never exceeds the size of the triangle. *)
Lemma executed_in_triangle (k : nat) :
  Z.of_nat k < total_reads n -> (k < tri (Z.to_nat n))%nat.
Proof using n_range.
  intros Hk. pose proof (total_reads_le n ltac:(lia)).
  pose proof (tri_Z n ltac:(lia)). lia.
Qed.

(** In an iteration the loop executes, the three increments [i++],
    [row+1] and [col++] stay in the range of [int]. *)
Lemma executed_no_overflow (k : nat) :
  Z.of_nat k < total_reads n ->
  let p := iter_n (advance n) k pos_init in
  in_int (Z.of_nat k + 1) /\ in_int (row p + 1) /\ in_int (col p + 1).
Proof using n_range.
  intros Hk p. assert (Hp : in_triangle n p)
    by (apply iter_advance_in_triangle; auto using executed_in_triangle).
  pose proof (total_reads_in_int n) as [_ Ht].
  unfold in_triangle in Hp. unfold in_int in *.
  destruct int_bounds as [Emin Emax]. rewrite Emin, Emax in *. lia.
Qed.
End Visits.

(** ** Theorems *)

(** C5: The positions the kernel visits.  For every [num_rows] below
    [int_max = 2^31 - 1], starting from [row = col = 1], the first
    [num_rows * (num_rows + 1) / 2] values of the counters are exactly the
    coordinates of the upper triangle in packed row-major order, and the
    counters then stand at [(num_rows + 1, num_rows + 1)].  At every
    iteration the counters satisfy [1 <= row <= col <= num_rows]; there
    the machine update ([int] additions that wrap, [col] converted to
    [size_t] for the comparison) computes the mathematical update, and it
    keeps the invariant or reaches the final position. *)
Theorem advance_visits_triangle (n : Z) :
  0 <= n < int_max ->
  trajectory (advance n) (tri (Z.to_nat n)) pos_init = tri_indices n /\
  iter_n (advance n) (tri (Z.to_nat n)) pos_init = pos_end n /\
  (forall k : nat, (k < tri (Z.to_nat n))%nat ->
     let p := iter_n (advance n) k pos_init in
     in_triangle n p /\ advance n p = advance_ideal n p /\
     (in_triangle n (advance n p) \/ advance n p = pos_end n)).
Proof.
  intros Hn. split; [now apply trajectory_tri_indices|].
  split; [now apply iter_advance_end|]. intros k Hk p.
  assert (Hp : in_triangle n p) by now apply iter_advance_in_triangle.
  auto using advance_exact, advance_in_triangle.
Qed.

(** C40: Rank and coordinates are inverse.  For every [num_rows],
    [unrank] maps an index of the packed stream to a coordinate of the
    triangle whose [rank] is that index, and [rank] followed by [unrank]
    is the identity on the triangle. *)
Theorem rank_unrank_inverse (n : Z) :
  0 <= n ->
  (forall k, 0 <= k < n * (n + 1) / 2 ->
     in_triangle n (unrank n k) /\ rank n (unrank n k) = k) /\
  (forall p, in_triangle n p ->
     0 <= rank n p < n * (n + 1) / 2 /\ unrank n (rank n p) = p).
Proof.
  intros Hn. rewrite <- tri_Z by lia. split.
  - intros k Hk. split; [now apply unrank_in_triangle | now apply rank_of_unrank].
  - intros p Hp. pose proof (rank_range n Hn p Hp) as Hr. split; [exact Hr|].
    apply (rank_inj n); auto using unrank_in_triangle, rank_of_unrank.
Qed.

(** The counters against the closed form.  For [num_rows] below [int_max]
    the value of the counters after [k] iterations is the coordinate of
    index [k] of the packed stream: the position tracker decodes the
    index. *)
Lemma advance_is_unrank (n : Z) (k : nat) :
  0 <= n < int_max -> (k < tri (Z.to_nat n))%nat ->
  iter_n (advance n) k pos_init = unrank n (Z.of_nat k) /\
  rank n (iter_n (advance n) k pos_init) = Z.of_nat k.
Proof.
  intros Hn Hk.
  assert (Hr : rank n (iter_n (advance n) k pos_init) = Z.of_nat k)
    by (apply rank_iter_advance; lia).
  split; [|exact Hr].
  apply (rank_inj n).
  - now apply iter_advance_in_triangle.
  - apply unrank_in_triangle; lia.
  - rewrite Hr, rank_of_unrank; lia.
Qed.

Lemma advance_visits_triangle_witness :
  trajectory (advance 3) (tri (Z.to_nat 3)) pos_init = tri_indices 3 /\
  iter_n (advance 3) (tri (Z.to_nat 3)) pos_init = pos_end 3 /\
  (forall k : nat, (k < tri (Z.to_nat 3))%nat ->
     let p := iter_n (advance 3) k pos_init in
     in_triangle 3 p /\ advance 3 p = advance_ideal 3 p /\
     (in_triangle 3 (advance 3 p) \/ advance 3 p = pos_end 3)).
Proof. apply (advance_visits_triangle 3). now split. Defined.

Lemma rank_unrank_inverse_witness :
  (forall k, 0 <= k < 3 * (3 + 1) / 2 ->
     in_triangle 3 (unrank 3 k) /\ rank 3 (unrank 3 k) = k) /\
  (forall p, in_triangle 3 p ->
     0 <= rank 3 p < 3 * (3 + 1) / 2 /\ unrank 3 (rank 3 p) = p).
Proof. apply (rank_unrank_inverse 3). lia. Defined.

