(* ===== verification/Overflow.v ===== *)
(** * Overflow: signed overflow in the loop, for every [num_rows]

    The locals [i], [row] and [col] are [int]; C++ leaves the overflow of
    a signed addition undefined.  [overflows] says that an iteration
    performs an increment whose result leaves the range of [int].  The
    file settles when that happens, for every value of the template
    argument [num_rows]: never below [int_max = 2^31 - 1] rows (whatever
    line 21 makes of the loop bound), and above exactly when the loop
    bound is [int_max], where [col++] overflows in the last iteration.
    Such a [num_rows] is exhibited. *)

From Stdlib Require Import ZArith List Lia Bool.
From S2P Require Import Prelude MachineInt TriIndex.
Import ListNotations.

#[local] Open Scope Z_scope.

(** Lines 25 and 33-38: the iteration with loop counter [i] and counters
    [p] performs a signed addition that overflows: [i++], or at the end of
    a row [row+1] (computed by [col = row+1] and by [row++]), or
    elsewhere [col++]. *)
Definition overflows (num_rows i : Z) (p : position) : bool :=
  negb (in_int_b (i + 1)) ||
  (if size_of_int (col p) =? num_rows then negb (in_int_b (row p + 1))
   else negb (in_int_b (col p + 1))).

(** A row count for which the loop bound is [int_max]. *)
Definition overflowing_rows : Z := 3461111898.

Lemma overflows_false (n i : Z) (p : position) :
  in_int (i + 1) -> in_int (row p + 1) -> in_int (col p + 1) ->
  overflows n i p = false.
Proof.
  intros Hi Hr Hc. unfold overflows.
  apply in_int_b_spec in Hi, Hr, Hc. rewrite Hi, Hr, Hc.
  now destruct (_ =? _).
Qed.

(** ** More rows than an [int] can count *)

Section FirstRow.
Variable n : Z.
Hypothesis n_large : int_max < n.

(** [col] never reaches [num_rows]: the counters stay in the first row. *)
Lemma first_row_step (c : Z) :
  1 <= c < int_max -> advance n (mkPos 1 c) = mkPos 1 (c + 1).
Proof using n_large.
  intros Hc. destruct int_bounds as [Emin Emax]. rewrite Emax in *.
  unfold advance, set_col; simpl.
  rewrite size_of_int_small, !int_add_small;
    unfold in_int; rewrite ?Emin, ?Emax; try lia.
  destruct (Z.eqb_spec c n); [lia | reflexivity].
Qed.

Lemma first_row (k : nat) :
  Z.of_nat k < int_max ->
  iter_n (advance n) k pos_init = mkPos 1 (1 + Z.of_nat k).
Proof using n_large.
  induction k as [|k IH]; intros Hk; [reflexivity|].
  rewrite iter_n_succ_r, IH, first_row_step by lia. f_equal. lia.
Qed.

(** In the first row only [col++] can overflow, and only in iteration
    [int_max - 1]. *)
Lemma first_row_overflows (k : nat) :
  Z.of_nat k < int_max ->
  overflows n (Z.of_nat k) (iter_n (advance n) k pos_init)
  = (int_max - 1 <=? Z.of_nat k).
Proof using n_large.
  intros Hk. rewrite first_row by assumption.
  destruct int_bounds as [Emin Emax]. unfold overflows, in_int_b.
  cbn [row col]. rewrite Emin, Emax in *.
  rewrite size_of_int_small by (unfold in_int; rewrite ?Emin, ?Emax; lia).
  destruct (Z.eqb_spec (1 + Z.of_nat k) n); [lia|].
  repeat match goal with
         | |- context [?a <=? ?b] => destruct (Z.leb_spec a b)
         end; try reflexivity; lia.
Qed.
End FirstRow.

(** ** Theorems *)

(** C33: When a signed addition overflows.  For every [num_rows], some
    iteration that the loop executes performs an [int] increment that
    overflows if and only if [num_rows] exceeds [int_max = 2^31 - 1] and
    the loop bound computed by line 21 is exactly [int_max]; the increment
    is then the [col++] of the last iteration.  Below [int_max] rows no
    increment ever overflows. *)
Theorem signed_overflow_iff (n : Z) :
  0 <= n ->
  (exists k : nat,
     Z.of_nat k < total_reads n /\
     overflows n (Z.of_nat k) (iter_n (advance n) k pos_init) = true)
  <-> int_max < n /\ total_reads n = int_max.
Proof.
  intros Hn. pose proof (total_reads_in_int n) as [_ Hmax]. split.
  - intros (k & Hk & Ho).
    destruct (Z.lt_trichotomy n int_max) as [Hlt|[->|Hgt]].
    + rewrite overflows_false in Ho; [discriminate| | |];
        apply (executed_no_overflow n (conj Hn Hlt) k Hk).
    + assert (total_reads int_max < 0) by now vm_compute. lia.
    + rewrite first_row_overflows in Ho by lia.
      apply Z.leb_le in Ho. lia.
  - intros [Hgt Ht]. exists (Z.to_nat (int_max - 1)).
    destruct int_bounds as [_ Emax]. rewrite Emax in *.
    rewrite first_row_overflows by (rewrite ?Emax; lia).
    rewrite Ht, Emax. split; [lia | now apply Z.leb_le; lia].
Qed.

Lemma signed_overflow_iff_witness :
  exists k : nat,
    Z.of_nat k < total_reads overflowing_rows /\
    overflows overflowing_rows (Z.of_nat k)
      (iter_n (advance overflowing_rows) k pos_init) = true.
Proof.
  apply (signed_overflow_iff overflowing_rows); [now vm_compute|].
  split; now vm_compute.
Defined.
