(* ===== verification/Packed.v ===== *)
(** * Packed: the diagonal of a packed triangular stream

    The input of the kernel is the packed upper triangle of a matrix: row
    1 (n elements), then row 2 (n-1 elements), and so on.  This file states
    what "the diagonal elements of the stream" are, in two ways that do not
    mention the counters of the kernel step by step: [diag_elems], the
    elements of a stream whose coordinates are diagonal, and [packed_diag],
    which takes the head of each row by counting.  It proves that the two
    agree on the coordinates of the triangle, and locates each diagonal
    element in the stream ([row_base]).  Everything is generic in the type
    of the elements. *)

From Stdlib Require Import ZArith List Lia Bool.
From S2P Require Import Prelude MachineInt TriIndex.
Import ListNotations.

#[local] Open Scope Z_scope.

Section Packed.
Context {A : Type}.

(** The elements of [xs] that sit at a diagonal coordinate, when the
    coordinates of the elements are [ps]. *)
Fixpoint diag_elems (ps : list position) (xs : list A) : list A :=
  match ps, xs with
  | p :: ps', x :: xs' =>
      if on_diag p then x :: diag_elems ps' xs' else diag_elems ps' xs'
  | _, _ => []
  end.

(** The heads of the rows of a packed triangle of [m] rows: the first
    element, then the heads of the triangle of [m-1] rows that follows the
    [m-1] other elements of the first row. *)
Fixpoint packed_diag (m : nat) (xs : list A) : list A :=
  match m, xs with
  | S m', x :: t => x :: packed_diag m' (skipn m' t)
  | _, _ => []
  end.

(** ** [diag_elems] *)

Lemma diag_elems_nil_r (ps : list position) : diag_elems ps [] = [].
Proof. now destruct ps. Qed.

(** A run of off-diagonal coordinates selects nothing. *)
Lemma diag_elems_skip (ps ps' : list position) (xs : list A) :
  Forall (fun p => on_diag p = false) ps ->
  diag_elems (ps ++ ps') xs = diag_elems ps' (skipn (length ps) xs).
Proof.
  intros H; revert xs; induction H as [|p ps Hp _ IH]; intros xs; [reflexivity|].
  destruct xs as [|x xs]; simpl.
  - now rewrite diag_elems_nil_r.
  - rewrite Hp. apply IH.
Qed.

(** Only as many coordinates as there are elements matter. *)
Lemma diag_elems_firstn (ps : list position) (xs : list A) :
  diag_elems ps xs = diag_elems (firstn (length xs) ps) xs.
Proof.
  revert xs; induction ps as [|p ps IH]; intros [|x xs]; simpl; auto.
  destruct (on_diag p); now rewrite <- IH.
Qed.

(** On a stream computed from its coordinates. *)
Lemma diag_elems_map (f : position -> A) (ps : list position) :
  diag_elems ps (map f ps) = map f (filter on_diag ps).
Proof.
  induction ps as [|p ps IH]; simpl; auto.
  destruct (on_diag p); simpl; now rewrite IH.
Qed.

(** ** The rows of the triangle *)

(** The coordinates of a row after the first are off the diagonal. *)
Lemma row_indices_cons (n r : Z) :
  r <= n ->
  row_indices n r
    = mkPos r r :: map (mkPos r) (zrange (r + 1) (Z.to_nat (n - r))).
Proof.
  intros H. unfold row_indices.
  replace (Z.to_nat (n - r + 1)) with (S (Z.to_nat (n - r))) by lia.
  reflexivity.
Qed.

Lemma row_tail_off_diag (r : Z) (k : nat) :
  Forall (fun p => on_diag p = false) (map (mkPos r) (zrange (r + 1) k)).
Proof.
  apply Forall_forall. intros p Hp. apply in_map_iff in Hp.
  destruct Hp as (c & <- & Hc). apply zrange_In in Hc.
  unfold on_diag; simpl. apply Z.eqb_neq. lia.
Qed.

(** On the coordinates of [m] rows, the diagonal elements are the heads of
    the rows. *)
Lemma diag_elems_rows (n : Z) (m : nat) (r : Z) (xs : list A) :
  r + Z.of_nat m = n + 1 ->
  diag_elems (flat_map (row_indices n) (zrange r m)) xs = packed_diag m xs.
Proof.
  revert r xs; induction m as [|m IH]; intros r xs Hm; [reflexivity|].
  cbn [zrange flat_map]. rewrite row_indices_cons by lia.
  destruct xs as [|x t]; [reflexivity|].
  cbn [app diag_elems packed_diag]. unfold on_diag at 1; simpl.
  rewrite Z.eqb_refl. f_equal.
  rewrite diag_elems_skip by apply row_tail_off_diag.
  rewrite length_map, zrange_length.
  replace (Z.to_nat (n - r)) with m by lia.
  apply IH. lia.
Qed.

Lemma diag_elems_tri_indices (n : Z) (xs : list A) :
  0 <= n -> diag_elems (tri_indices n) xs = packed_diag (Z.to_nat n) xs.
Proof. intros H. apply diag_elems_rows. lia. Qed.

(** ** [packed_diag] *)

Lemma packed_diag_nil (m : nat) : packed_diag m [] = [].
Proof. now destruct m. Qed.

Lemma packed_diag_length_le (m : nat) (xs : list A) :
  (length (packed_diag m xs) <= m)%nat.
Proof.
  revert xs; induction m as [|m IH]; intros [|x t]; simpl; try lia.
  specialize (IH (skipn m t)). lia.
Qed.

(** A complete triangle of [m] rows has [m] diagonal elements. *)
Lemma packed_diag_length (m : nat) (xs : list A) :
  (tri m <= length xs)%nat -> length (packed_diag m xs) = m.
Proof.
  revert xs; induction m as [|m IH]; intros xs H; [reflexivity|].
  destruct xs as [|x t]; simpl in *; [lia|].
  rewrite IH; [reflexivity|]. rewrite length_skipn. lia.
Qed.

(** What follows a complete triangle does not matter. *)
Lemma packed_diag_app (m : nat) (xs rest : list A) :
  length xs = tri m -> packed_diag m (xs ++ rest) = packed_diag m xs.
Proof.
  revert xs; induction m as [|m IH]; intros xs H.
  - destruct xs; [|discriminate]. now destruct rest.
  - destruct xs as [|x t]; simpl in *; [lia|]. f_equal.
    rewrite skipn_app.
    replace (m - length t)%nat with O by lia. simpl.
    apply IH. rewrite length_skipn. lia.
Qed.

(** A stream that stops where row [j + 1] would start has [j] diagonal
    elements. *)
Lemma packed_diag_length_rows (m j : nat) (xs : list A) :
  (j <= m)%nat ->
  Z.of_nat (length xs) = row_base (Z.of_nat m) (Z.of_nat j + 1) ->
  length (packed_diag m xs) = j.
Proof.
  revert m xs; induction j as [|j IH]; intros m xs Hj Hl.
  - rewrite row_base_1 in Hl. destruct xs; [|discriminate]. now destruct m.
  - destruct m as [|m]; [lia|].
    pose proof (row_base_nonneg (Z.of_nat m) (Z.of_nat j + 1) ltac:(lia)) as H0.
    replace (Z.of_nat (S m)) with (Z.of_nat m + 1) in Hl by lia.
    replace (Z.of_nat (S j) + 1) with (Z.of_nat j + 2) in Hl by lia.
    rewrite row_base_shift in Hl.
    destruct xs as [|x t]; simpl in *; [lia|]. f_equal.
    apply IH; [lia|]. rewrite length_skipn. lia.
Qed.

(** The [j]-th diagonal element of a triangle of [m] rows is the element of
    index [row_base m (j + 1)] of the stream. *)
Lemma packed_diag_nth_error (m j : nat) (xs : list A) :
  (j < m)%nat ->
  nth_error (packed_diag m xs) j
    = nth_error xs (Z.to_nat (row_base (Z.of_nat m) (Z.of_nat j + 1))).
Proof.
  revert m xs; induction j as [|j IH]; intros m xs Hj.
  - destruct m as [|m]; [lia|]. now destruct xs.
  - destruct m as [|m]; [lia|].
    pose proof (row_base_nonneg (Z.of_nat m) (Z.of_nat j + 1) ltac:(lia)) as H0.
    replace (Z.of_nat (S m)) with (Z.of_nat m + 1) by lia.
    replace (Z.of_nat (S j) + 1) with (Z.of_nat j + 2) by lia.
    rewrite row_base_shift.
    replace (Z.of_nat m + 1) with (Z.of_nat (S m)) by lia.
    rewrite Z2Nat.inj_add, Nat2Z.id by lia.
    destruct xs as [|x t]; cbn [packed_diag nth_error Nat.add].
    + now destruct (Z.to_nat (row_base (Z.of_nat m) (Z.of_nat j + 1))).
    + rewrite IH by lia. apply nth_error_skipn.
Qed.

(** A stream that stops before the head of the last row has fewer than
    [m] diagonal elements. *)
Lemma packed_diag_short (m : nat) (xs : list A) :
  (0 < m)%nat ->
  Z.of_nat (length xs) <= row_base (Z.of_nat m) (Z.of_nat m) ->
  (length (packed_diag m xs) < m)%nat.
Proof.
  intros Hm Hl.
  pose proof (packed_diag_nth_error m (m - 1) xs ltac:(lia)) as H.
  replace (Z.of_nat (m - 1) + 1) with (Z.of_nat m) in H by lia.
  rewrite (proj2 (nth_error_None xs _)), nth_error_None in H; lia.
Qed.

(** A stream with at most [j] diagonal elements stops before the head
    of row [j + 1]. *)
Lemma packed_diag_reads (m j : nat) (xs : list A) :
  (j < m)%nat -> (length (packed_diag m xs) <= j)%nat ->
  Z.of_nat (length xs) <= row_base (Z.of_nat m) (Z.of_nat j + 1).
Proof.
  intros Hj Hl. pose proof (packed_diag_nth_error m j xs Hj) as H.
  rewrite (proj2 (nth_error_None _ _)) in H by lia.
  symmetry in H. apply nth_error_None in H.
  pose proof (row_base_nonneg (Z.of_nat m) (Z.of_nat j + 1) ltac:(lia)). lia.
Qed.
End Packed.
