(* ===== verification/Blocking.v ===== *)
(** * Blocking: the monad of the kernel body

    The kernel body is straight-line code over a machine configuration (the
    locals and the two pipes) with two suspension points: the [read] of the
    input pipe and the [write] of the output pipe.  A computation of type
    [M S W A] takes a configuration of type [S] and either returns a value
    with the new configuration ([Ok]), or stops at a suspension point with
    the configuration it had there ([BlockedRead], [BlockedWrite] with the
    value it was about to write), or exhausts the fuel of its loop
    ([OutOfFuel]).  The notations live in [blocking_scope]. *)

From Stdlib Require Import List Morphisms Setoid.
From S2P Require Import Prelude.
Import ListNotations.

Declare Scope blocking_scope.
Delimit Scope blocking_scope with blocking.

(** ** Outcomes *)

Inductive result (S W A : Type) : Type :=
| Ok (a : A) (s : S)            (** returned [a] *)
| BlockedRead (s : S)           (** suspended on an empty input pipe *)
| BlockedWrite (w : W) (s : S)  (** suspended on a full output pipe *)
| OutOfFuel (s : S).            (** the loop had iterations left *)

Arguments Ok {S W A} _ _.
Arguments BlockedRead {S W A} _.
Arguments BlockedWrite {S W A} _ _.
Arguments OutOfFuel {S W A} _.

(** The configuration an outcome carries. *)
Definition final_state {S W A} (r : result S W A) : S :=
  match r with
  | Ok _ s | BlockedRead s | BlockedWrite _ s | OutOfFuel s => s
  end.

(** ** The monad *)

Definition M (S W A : Type) : Type := S -> result S W A.

Section Monad.
Context {S W : Type}.

Definition ret {A} (a : A) : M S W A := fun s => Ok a s.

Definition bind {A B} (c : M S W A) (k : A -> M S W B) : M S W B :=
  fun s =>
    match c s with
    | Ok a s' => k a s'
    | BlockedRead s' => BlockedRead s'
    | BlockedWrite w s' => BlockedWrite w s'
    | OutOfFuel s' => OutOfFuel s'
    end.

(** Read a component of the configuration. *)
Definition gets {A} (f : S -> A) : M S W A := fun s => Ok (f s) s.

(** Update the configuration. *)
Definition modify (f : S -> S) : M S W unit := fun s => Ok tt (f s).

(** Conditional statement without [else]. *)
Definition when (b : bool) (c : M S W unit) : M S W unit :=
  if b then c else ret tt.

(** Two computations are equal when they agree on every configuration. *)
Definition meq {A} (c1 c2 : M S W A) : Prop := forall s, c1 s = c2 s.

#[export] Instance meq_equiv {A} : Equivalence (@meq A).
Proof.
  split; unfold meq.
  - intros c s; reflexivity.
  - intros c1 c2 H s; symmetry; apply H.
  - intros c1 c2 c3 H1 H2 s; rewrite H1; apply H2.
Qed.

#[export] Instance bind_proper {A B} :
  Proper (meq ==> pointwise_relation A meq ==> meq) (@bind A B).
Proof.
  intros c1 c2 Hc k1 k2 Hk s. unfold bind. rewrite Hc.
  destruct (c2 s); auto. apply Hk.
Qed.

(** *** The laws *)

Lemma bind_ret_l {A B} (a : A) (k : A -> M S W B) : meq (bind (ret a) k) (k a).
Proof. intros s; reflexivity. Qed.

Lemma bind_ret_r {A} (c : M S W A) : meq (bind c ret) c.
Proof. intros s; unfold bind, ret. destruct (c s); reflexivity. Qed.

Lemma bind_assoc {A B C} (c : M S W A) (k : A -> M S W B) (h : B -> M S W C) :
  meq (bind (bind c k) h) (bind c (fun a => bind (k a) h)).
Proof. intros s; unfold bind. destruct (c s); reflexivity. Qed.

(** *** Running a bind *)

Lemma bind_Ok {A B} (c : M S W A) (k : A -> M S W B) (s s' : S) (a : A) :
  c s = Ok a s' -> bind c k s = k a s'.
Proof. intros E; unfold bind; now rewrite E. Qed.

Lemma bind_BlockedRead {A B} (c : M S W A) (k : A -> M S W B) (s s' : S) :
  c s = BlockedRead s' -> bind c k s = BlockedRead s'.
Proof. intros E; unfold bind; now rewrite E. Qed.

Lemma bind_BlockedWrite {A B} (c : M S W A) (k : A -> M S W B) (s s' : S) (w : W) :
  c s = BlockedWrite w s' -> bind c k s = BlockedWrite w s'.
Proof. intros E; unfold bind; now rewrite E. Qed.

End Monad.

Notation "x <- c1 ;; c2" := (bind c1 (fun x => c2))
  (at level 61, c1 at next level, right associativity) : blocking_scope.
Notation "c1 ;; c2" := (bind c1 (fun _ => c2))
  (at level 61, right associativity) : blocking_scope.
