(* ===== verification/Kernel.v ===== *)
(** * Kernel: the diagonal-reciprocal kernel

    The task that [SubmitDiagReciprocalKernel] submits (DiagReciprocal.hpp,
    lines 18-44), written in the monad of [Blocking] over a configuration
    that holds the locals [i], [row], [col] and the two pipes.  The pipes
    and the scalar type are the template parameters of the kernel: here,
    instances of the classes [Pipe] and [Scalar].  The [for] loop takes
    fuel; [SubmitDiagReciprocalKernel] supplies [total_reads] of it and the
    theorems show that it is never exhausted.  The file also names what
    the loop writes ([emit_at], [emitted], [written]) and the relation
    [after] between the configurations before and after some iterations. *)

From Stdlib Require Import ZArith List Lia Bool.
From S2P Require Import Prelude MachineInt Scalar Pipe TriIndex Blocking.
Import ListNotations.

#[local] Open Scope Z_scope.
#[local] Open Scope blocking_scope.

Section Kernel.
Context {F : Type} {SF : Scalar F}.
Context {Pin Pout : Type} {PI : Pipe Pin (ComplexType F)} {PO : Pipe Pout F}.

(** ** The configuration *)

(** The loop counter [i] (line 25), the counters [row] and [col]
    (lines 22-23), the input pipe and the output pipe. *)
Record config : Type := mkConfig {
  i : Z;
  pos : position;
  pin : Pin;
  pout : Pout
}.

Definition set_i (c : config) (v : Z) : config :=
  mkConfig v (pos c) (pin c) (pout c).
Definition set_pos (c : config) (p : position) : config :=
  mkConfig (i c) p (pin c) (pout c).
Definition set_pin (c : config) (p : Pin) : config :=
  mkConfig (i c) (pos c) p (pout c).
Definition set_pout (c : config) (p : Pout) : config :=
  mkConfig (i c) (pos c) (pin c) p.

Lemma config_eta (c : config) : mkConfig (i c) (pos c) (pin c) (pout c) = c.
Proof. now destruct c. Qed.

(** The monad of the kernel: configurations, values written of type [F]. *)
Definition K (A : Type) : Type := M config F A.

(** ** The statements *)

(** Line 27: [RMatrixInPipe::read()].  Blocks on the empty pipe. *)
Definition read_in : K (ComplexType F) :=
  fun c =>
    match read (pin c) with
    | Some (x, p') => Ok x (set_pin c p')
    | None => BlockedRead c
    end.

(** Line 30: [RDiagRecipVectorOutPipe::write(v)].  Blocks on the full pipe. *)
Definition write_out (v : F) : K unit :=
  fun c =>
    match write v (pout c) with
    | Some p' => Ok tt (set_pout c p')
    | None => BlockedWrite v c
    end.

(** Lines 27-38: the body of the loop. *)
Definition loop_body (num_rows : Z) : K unit :=
  entry <- read_in ;;
  p <- gets pos ;;
  when (on_diag p) (write_out (recip_real entry)) ;;
  modify (fun c => set_pos c (advance num_rows (pos c))).

(** Line 25: [i++]. *)
Definition incr_i : K unit :=
  modify (fun c => set_i c (int_add (i c) 1)).

(** Lines 25-39: [for (...; i < total_reads; i++) body].  The condition is
    tested before the fuel is. *)
Fixpoint kernel_loop (fuel : nat) (num_rows total : Z) : K unit :=
  fun c =>
    if i c <? total then
      match fuel with
      | O => OutOfFuel c
      | S fuel' =>
          (loop_body num_rows ;; incr_i ;; kernel_loop fuel' num_rows total) c
      end
    else Ok tt c.

(** Lines 22-25: the initial values of the locals. *)
Definition kernel_init (pin0 : Pin) (pout0 : Pout) : config :=
  mkConfig 0 pos_init pin0 pout0.

(** Lines 18-44: the task, run on the two pipes. *)
Definition SubmitDiagReciprocalKernel (num_rows : Z) (pin0 : Pin) (pout0 : Pout)
  : result config F unit :=
  let total := total_reads num_rows in
  kernel_loop (Z.to_nat total) num_rows total (kernel_init pin0 pout0).

(** What an invocation leaves behind: the two pipes.  The locals end with
    the invocation. *)
Definition pipes_of (r : result config F unit) : result (Pin * Pout) F unit :=
  match r with
  | Ok a c => Ok a (pin c, pout c)
  | BlockedRead c => BlockedRead (pin c, pout c)
  | BlockedWrite v c => BlockedWrite v (pin c, pout c)
  | OutOfFuel c => OutOfFuel (pin c, pout c)
  end.

(** ** What an iteration writes *)

(** Lines 29-31: the values written when [entry] is read at position [p]. *)
Definition emit_at (p : position) (entry : ComplexType F) : list F :=
  if on_diag p then [recip_real entry] else [].

(** The values written when the elements [xs] are read at the positions
    [ps]. *)
Fixpoint emitted (ps : list position) (xs : list (ComplexType F)) : list F :=
  match ps, xs with
  | p :: ps', x :: xs' => emit_at p x ++ emitted ps' xs'
  | _, _ => []
  end.

Lemma emitted_app (ps ps' : list position) (xs xs' : list (ComplexType F)) :
  length ps = length xs ->
  emitted (ps ++ ps') (xs ++ xs') = emitted ps xs ++ emitted ps' xs'.
Proof.
  revert xs; induction ps as [|p ps IH]; intros [|x xs] H;
    simpl in *; try discriminate; auto.
  rewrite IH by lia. apply app_assoc.
Qed.

(** What the first [k] iterations write when they read [xs], from the
    initial position. *)
Definition written (num_rows : Z) (xs : list (ComplexType F)) : list F :=
  emitted (trajectory (advance num_rows) (length xs) pos_init) xs.

(** One more element read: what the iteration at the current position
    emits is appended. *)
Lemma written_snoc (num_rows : Z) (xs : list (ComplexType F)) (x : ComplexType F) :
  written num_rows (xs ++ [x])
  = written num_rows xs
    ++ emit_at (iter_n (advance num_rows) (length xs) pos_init) x.
Proof.
  unfold written. rewrite length_app. cbn [length].
  rewrite trajectory_add, emitted_app by apply trajectory_length.
  simpl. now rewrite app_nil_r.
Qed.

(** What is written for a prefix of a stream is a prefix of what is written
    for the stream. *)
Lemma written_prefix (num_rows : Z) (xs ys : list (ComplexType F)) :
  exists zs, written num_rows (xs ++ ys) = written num_rows xs ++ zs.
Proof.
  induction ys as [|y ys [zs IH]] using rev_ind.
  - exists []. now rewrite !app_nil_r.
  - eexists. now rewrite app_assoc, written_snoc, IH, <- app_assoc.
Qed.

(** ** Relating configurations *)

(** [after c c' xs ys]: from [c] to [c'] the kernel has taken [xs] from the
    input pipe and appended [ys] to the output pipe. *)
Record after (c c' : config) (xs : list (ComplexType F)) (ys : list F) : Prop := {
  after_in : contents (pin c) = xs ++ contents (pin c');
  after_out : contents (pout c') = contents (pout c) ++ ys;
  after_cap_in : capacity (pin c') = capacity (pin c);
  after_cap_out : capacity (pout c') = capacity (pout c)
}.

Lemma after_refl (c : config) : after c c [] [].
Proof. split; auto. now rewrite app_nil_r. Qed.

Lemma after_trans (c1 c2 c3 : config) xs1 xs2 ys1 ys2 :
  after c1 c2 xs1 ys1 -> after c2 c3 xs2 ys2 ->
  after c1 c3 (xs1 ++ xs2) (ys1 ++ ys2).
Proof.
  intros [I1 O1 CI1 CO1] [I2 O2 CI2 CO2]. split.
  - now rewrite I1, I2, app_assoc.
  - now rewrite O2, O1, app_assoc.
  - congruence.
  - congruence.
Qed.

(** Assignments to the locals leave the pipes alone. *)
Lemma after_set_pos (c c' : config) (p : position) xs ys :
  after c c' xs ys -> after c (set_pos c' p) xs ys.
Proof. intros [? ? ? ?]; split; auto. Qed.

Lemma after_set_i (c c' : config) (v : Z) xs ys :
  after c c' xs ys -> after c (set_i c' v) xs ys.
Proof. intros [? ? ? ?]; split; auto. Qed.

(** ** One statement at a time *)

Lemma read_in_cons (c : config) x l :
  contents (pin c) = x :: l ->
  exists c', read_in c = Ok x c' /\ i c' = i c /\ pos c' = pos c /\
             pout c' = pout c /\ after c c' [x] [].
Proof.
  intros Hc. destruct (read_cons _ _ _ Hc) as (p' & Hr & Hl & Hcap).
  exists (set_pin c p'). unfold read_in. rewrite Hr.
  repeat split; simpl; auto. - now rewrite Hc, Hl. - now rewrite app_nil_r.
Qed.

Lemma read_in_empty (c : config) :
  contents (pin c) = [] -> read_in c = BlockedRead c.
Proof.
  intros Hc. unfold read_in. now rewrite (proj2 (read_None _) Hc).
Qed.

Lemma write_out_room (c : config) (v : F) (n : nat) :
  has_room (pout c) (S n) ->
  exists c', write_out v c = Ok tt c' /\ i c' = i c /\ pos c' = pos c /\
             pin c' = pin c /\ after c c' [] [v] /\ has_room (pout c') n.
Proof.
  intros Hr. destruct (write_room _ v _ Hr) as (p' & Hw & Hc & Hcap & Hr').
  exists (set_pout c p'). unfold write_out. rewrite Hw.
  repeat split; simpl; auto.
Qed.

Lemma write_out_full (c : config) (v : F) (cap : nat) :
  capacity (pout c) = Some cap -> (cap <= length (contents (pout c)))%nat ->
  write_out v c = BlockedWrite v c.
Proof.
  intros Hc Hle. unfold write_out. now rewrite (write_full _ v _ Hc Hle).
Qed.

(** ** One iteration *)

Lemma emit_at_length (p : position) (x : ComplexType F) :
  length (emit_at p x) = if on_diag p then 1%nat else 0%nat.
Proof. unfold emit_at. now destruct (on_diag p). Qed.

Lemma emit_at_diag (p : position) (x : ComplexType F) :
  on_diag p = true -> emit_at p x = [recip_real x].
Proof. unfold emit_at. now intros ->. Qed.

Lemma emit_at_off_diag (p : position) (x : ComplexType F) :
  on_diag p = false -> emit_at p x = [].
Proof. unfold emit_at. now intros ->. Qed.

(** The body with an element to read and room to write what it emits. *)
Lemma loop_body_ok (n : Z) (c : config) x l (room : nat) :
  contents (pin c) = x :: l ->
  has_room (pout c) (length (emit_at (pos c) x) + room) ->
  exists c', loop_body n c = Ok tt c' /\ i c' = i c /\
             pos c' = advance n (pos c) /\
             after c c' [x] (emit_at (pos c) x) /\ has_room (pout c') room.
Proof.
  intros Hc Hr.
  destruct (read_in_cons c x l Hc) as (c1 & E1 & Hi1 & Hp1 & Ho1 & A1).
  unfold loop_body. rewrite (bind_Ok _ _ _ _ _ E1). unfold gets at 1, bind at 1.
  unfold emit_at in *. rewrite Hp1. destruct (on_diag (pos c)); simpl in *.
  - rewrite <- Ho1 in Hr.
    destruct (write_out_room c1 (recip_real x) room Hr)
      as (c2 & E2 & Hi2 & Hp2 & Hin2 & A2 & Hr2).
    rewrite (bind_Ok _ _ _ _ _ E2). unfold modify.
    eexists; split; [reflexivity|]. simpl.
    refine (conj _ (conj _ (conj _ Hr2))); try congruence.
    apply after_set_pos. apply (after_trans _ _ _ _ _ _ _ A1 A2).
  - unfold ret, bind, modify.
    eexists; split; [reflexivity|]. simpl.
    refine (conj _ (conj _ (conj _ _)));
      try congruence; now apply after_set_pos.
Qed.

(** The body on the empty input pipe: the read suspends, nothing changed. *)
Lemma loop_body_blocked_read (n : Z) (c : config) :
  contents (pin c) = [] -> loop_body n c = BlockedRead c.
Proof.
  intros Hc. unfold loop_body.
  now rewrite (bind_BlockedRead _ _ _ _ (read_in_empty c Hc)).
Qed.

(** The body at a diagonal position with the output pipe full: the element is
    read, then the write suspends with the reciprocal in hand. *)
Lemma loop_body_blocked_write (n : Z) (c : config) x l (cap : nat) :
  contents (pin c) = x :: l -> on_diag (pos c) = true ->
  capacity (pout c) = Some cap -> (cap <= length (contents (pout c)))%nat ->
  exists c', loop_body n c = BlockedWrite (recip_real x) c' /\
             i c' = i c /\ pos c' = pos c /\ after c c' [x] [].
Proof.
  intros Hc Hd Hcap Hfull.
  destruct (read_in_cons c x l Hc) as (c1 & E1 & Hi1 & Hp1 & Ho1 & A1).
  exists c1. unfold loop_body. rewrite (bind_Ok _ _ _ _ _ E1).
  unfold gets at 1, bind at 1. rewrite Hp1, Hd. simpl.
  rewrite <- Ho1 in Hcap, Hfull.
  rewrite (bind_BlockedWrite _ _ _ _ _
             (write_out_full c1 (recip_real x) cap Hcap Hfull)).
  auto.
Qed.
End Kernel.

Arguments config : clear implicits.
Arguments K : clear implicits.
