(* ===== verification/KernelLoop.v ===== *)
(** * KernelLoop: the iterations of the kernel

    The lemmas that run the [for] loop of the kernel: one iteration, a
    number of iterations over a prefix of the input, and the three ways
    the loop ends: the counter reaches [total_reads], the input pipe runs
    dry, or the output pipe is full at a diagonal element.  Nothing here
    depends on the shape of the positions: the statements are in terms of
    the [trajectory] of [advance]. *)

From Stdlib Require Import ZArith List Lia Bool.
From S2P Require Import Prelude MachineInt Scalar Pipe TriIndex Blocking Kernel.
Import ListNotations.

#[local] Open Scope Z_scope.

Section Loop.
Context {F : Type} {SF : Scalar F}.
Context {Pin Pout : Type} {PI : Pipe Pin (ComplexType F)} {PO : Pipe Pout F}.

#[local] Abbreviation config := (config Pin Pout).

Variables num_rows total : Z.
Hypothesis total_in_int : in_int total.

(** [runs_to k c c']: [k] iterations of the loop lead from [c] to [c'],
    whatever fuel is left for the rest. *)
Definition runs_to (k : nat) (c c' : config) : Prop :=
  forall fuel,
    kernel_loop (k + fuel) num_rows total c = kernel_loop fuel num_rows total c'.

Lemma runs_to_refl (c : config) : runs_to 0 c c.
Proof. intros fuel; reflexivity. Qed.

Lemma runs_to_trans (k1 k2 : nat) (c1 c2 c3 : config) :
  runs_to k1 c1 c2 -> runs_to k2 c2 c3 -> runs_to (k1 + k2) c1 c3.
Proof.
  intros H1 H2 fuel. rewrite <- Nat.add_assoc, H1. apply H2.
Qed.

(** *** The ends of the loop *)

(** The counter has reached the bound: the loop returns. *)
Lemma kernel_loop_exit (fuel : nat) (c : config) :
  total <= i c -> kernel_loop fuel num_rows total c = Ok tt c.
Proof.
  intros H. destruct fuel; simpl; destruct (Z.ltb_spec (i c) total); auto; lia.
Qed.

(** The input pipe is empty: the loop suspends in its read. *)
Lemma kernel_loop_blocked_read (fuel : nat) (c : config) :
  i c < total -> contents (pin c) = [] ->
  kernel_loop (S fuel) num_rows total c = BlockedRead c.
Proof.
  intros Hi Hc. simpl. destruct (Z.ltb_spec (i c) total); [|lia].
  now rewrite (bind_BlockedRead _ _ _ _ (loop_body_blocked_read _ _ Hc)).
Qed.

(** The output pipe is full at a diagonal element: the loop suspends in its
    write, the element already taken from the input pipe. *)
Lemma kernel_loop_blocked_write (fuel : nat) (c : config) x l (cap : nat) :
  i c < total -> contents (pin c) = x :: l -> on_diag (pos c) = true ->
  capacity (pout c) = Some cap -> (cap <= length (contents (pout c)))%nat ->
  exists c', kernel_loop (S fuel) num_rows total c
               = BlockedWrite (recip_real x) c' /\
             i c' = i c /\ pos c' = pos c /\ after c c' [x] [].
Proof.
  intros Hi Hc Hd Hcap Hfull.
  destruct (loop_body_blocked_write num_rows c x l cap Hc Hd Hcap Hfull)
    as (c' & E & H').
  exists c'. split; [|exact H'].
  simpl. destruct (Z.ltb_spec (i c) total); [|lia].
  now rewrite (bind_BlockedWrite _ _ _ _ _ E).
Qed.

(** No fuel left with iterations to go. *)
Lemma kernel_loop_out_of_fuel (c : config) :
  i c < total -> kernel_loop 0 num_rows total c = OutOfFuel c.
Proof. intros H. simpl. destruct (Z.ltb_spec (i c) total); auto; lia. Qed.

(** *** One iteration *)

Lemma kernel_loop_step (c : config) x l (room : nat) :
  int_min <= i c < total -> contents (pin c) = x :: l ->
  has_room (pout c) (length (emit_at (pos c) x) + room) ->
  exists c', runs_to 1 c c' /\ i c' = i c + 1 /\
             pos c' = advance num_rows (pos c) /\
             after c c' [x] (emit_at (pos c) x) /\ has_room (pout c') room.
Proof using total_in_int.
  intros Hi Hc Hr.
  destruct (loop_body_ok num_rows c x l room Hc Hr)
    as (c1 & E & Hi1 & Hp1 & A1 & Hr1).
  exists (set_i c1 (int_add (i c1) 1)).
  refine (conj _ (conj _ (conj Hp1 (conj _ Hr1)))).
  - intros fuel. simpl. destruct (Z.ltb_spec (i c) total); [|lia].
    now rewrite (bind_Ok _ _ _ _ _ E).
  - simpl. rewrite Hi1. apply int_add_small.
    unfold in_int in *. lia.
  - now apply after_set_i.
Qed.

(** *** Several iterations *)

(** With the elements [xs] at the head of the input pipe, room for what
    they make the kernel write, and at least [length xs] iterations to go,
    the loop takes [xs], writes [emitted ... xs], and goes on. *)
Lemma kernel_loop_steps (xs : list (ComplexType F)) :
  forall (c : config) (rest : list (ComplexType F)) (room : nat),
    int_min <= i c -> i c + Z.of_nat (length xs) <= total ->
    contents (pin c) = xs ++ rest ->
    has_room (pout c)
      (length (emitted (trajectory (advance num_rows) (length xs) (pos c)) xs)
       + room) ->
    exists c',
      runs_to (length xs) c c' /\
      i c' = i c + Z.of_nat (length xs) /\
      pos c' = iter_n (advance num_rows) (length xs) (pos c) /\
      after c c' xs (emitted (trajectory (advance num_rows) (length xs) (pos c)) xs) /\
      contents (pin c') = rest /\
      has_room (pout c') room.
Proof using total_in_int.
  induction xs as [|x xs IH]; intros c rest room Hi Hle Hc Hr.
  - exists c. simpl in *. rewrite Z.add_0_r.
    repeat split; auto using runs_to_refl; try apply after_refl.
  - cbn [length trajectory emitted iter_n] in *.
    rewrite length_app, <- Nat.add_assoc in Hr.
    destruct (kernel_loop_step c x (xs ++ rest) _ ltac:(lia) Hc Hr)
      as (c1 & R1 & Hi1 & Hp1 & A1 & Hr1).
    assert (Hc1 : contents (pin c1) = xs ++ rest).
    { pose proof (after_in _ _ _ _ A1) as H. rewrite Hc in H.
      now injection H. }
    rewrite <- Hp1 in *.
    destruct (IH c1 rest room ltac:(lia) ltac:(lia) Hc1 Hr1)
      as (c2 & R2 & Hi2 & Hp2 & A2 & Hc2 & Hr2).
    exists c2.
    refine (conj _ (conj _ (conj Hp2 (conj _ (conj Hc2 Hr2))))).
    + apply (runs_to_trans 1 _ _ _ _ R1 R2).
    + lia.
    + apply (after_trans _ _ _ _ _ _ _ A1 A2).
Qed.
End Loop.
