(* ===== verification/Correctness.v ===== *)
(** * Correctness: the behaviour of an invocation

    The theorems on [SubmitDiagReciprocalKernel], for every instance of the
    scalar type and of the two pipes: what an invocation returns on a
    complete packed triangle, that it implements the abstract
    specification, how it suspends on a short input and on a full output
    pipe, that the output depends on the real parts of the diagonal only,
    and what happens beyond 65535 rows, where the loop bound no longer
    fits an [int].  Successive invocations are in [Frames]. *)

From Stdlib Require Import ZArith List Lia Bool Floats.SpecFloat.
From S2P Require Import Prelude MachineInt Scalar Pipe TriIndex Packed.
From S2P Require Import Blocking Kernel KernelLoop Spec.
Import ListNotations.

#[local] Open Scope Z_scope.

(** ** Example data: the 3 x 3 example of the specification *)

(** Real parts [2, 9, 9, 5, 9, 4]; the imaginary parts are arbitrary. *)
Definition example_input : list (ComplexType spec_float) :=
  let cx := @complex_of_int binary32 in
  [cx 2 1; cx 9 0; cx 9 (-3); cx 5 7; cx 9 2; cx 4 (-1)].

(** [0.5], [0.2] (rounded to nearest) and [0.25] in single precision. *)
Definition example_output : list spec_float :=
  [float32 8388608 (-24); float32 13421773 (-26); float32 8388608 (-25)].

(** The matrix of the example, by coordinates. *)
Definition example_matrix : @matrix spec_float :=
  unpack 3 (@complex_of_int binary32 0 0) example_input.

Section Correctness.
Context {F : Type} {SF : Scalar F}.
Context {Pin Pout : Type} {PI : Pipe Pin (ComplexType F)} {PO : Pipe Pout F}.

#[local] Abbreviation config := (config Pin Pout).

(** ** Shared steps *)

(** The loop after [k] iterations, with the fuel of the invocation. *)
Lemma submit_runs_to (n : Z) (pin0 : Pin) (pout0 : Pout) (k : nat) (c : config) :
  0 <= n <= max_rows -> (k <= tri (Z.to_nat n))%nat ->
  runs_to n (total_reads n) k (kernel_init pin0 pout0) c ->
  SubmitDiagReciprocalKernel n pin0 pout0
    = kernel_loop (tri (Z.to_nat n) - k) n (total_reads n) c.
Proof.
  intros Hn Hk R. unfold SubmitDiagReciprocalKernel. cbv zeta.
  rewrite <- R. f_equal. rewrite total_reads_tri by assumption. lia.
Qed.

(** A complete triangle at the head of the input pipe and room for one
    value per row: the invocation returns. *)
Lemma submit_complete (n : Z) (pin0 : Pin) (pout0 : Pout)
    (xs rest : list (ComplexType F)) (room : nat) :
  0 <= n <= max_rows -> length xs = tri (Z.to_nat n) ->
  contents pin0 = xs ++ rest -> has_room pout0 (Z.to_nat n + room) ->
  exists c : config,
    SubmitDiagReciprocalKernel n pin0 pout0 = Ok tt c /\
    i c = total_reads n /\ pos c = pos_end n /\
    after (kernel_init pin0 pout0) c xs (kernel_output n xs) /\
    contents (pin c) = rest /\ has_room (pout c) room.
Proof.
  intros Hn Hl Hc Hr.
  rewrite <- (kernel_output_length n xs) in Hr by lia.
  pose proof (total_reads_tri n Hn) as HT.
  destruct (kernel_run_prefix n pin0 pout0 xs rest room (rows_in_int n Hn)
              ltac:(lia) Hc Hr) as (c & R & Hi & Hp & A & Hrest & Hroom).
  exists c. rewrite (submit_runs_to n pin0 pout0 (length xs) c Hn ltac:(lia) R).
  rewrite Hl, iter_advance_end in Hp by auto with diag.
  rewrite kernel_loop_exit by lia.
  repeat split; auto; try apply A. lia.
Qed.

(** The same on the packing of a matrix [R]: the output is the one the
    specification states. *)
Lemma submit_pack (n : Z) (R : matrix) (pin0 : Pin) (pout0 : Pout)
    (rest : list (ComplexType F)) :
  0 <= n <= max_rows ->
  contents pin0 = pack n R ++ rest -> has_room pout0 (Z.to_nat n) ->
  exists c : config,
    SubmitDiagReciprocalKernel n pin0 pout0 = Ok tt c /\
    contents (pin c) = rest /\
    contents (pout c) = contents pout0 ++ spec_output n R.
Proof.
  intros Hn Hc Hr. rewrite <- (Nat.add_0_r (Z.to_nat n)) in Hr.
  destruct (submit_complete n pin0 pout0 (pack n R) rest 0 Hn
              (pack_length n R (rows_in_int n Hn)) Hc Hr)
    as (c & E & _ & _ & A & Hrest & _).
  exists c. rewrite <- kernel_output_pack by lia.
  repeat split; auto. apply A.
Qed.

(** The loop bound is not positive: the invocation returns at once. *)
Lemma submit_nothing (n : Z) (pin0 : Pin) (pout0 : Pout) :
  total_reads n <= 0 ->
  SubmitDiagReciprocalKernel n pin0 pout0 = Ok tt (kernel_init pin0 pout0).
Proof.
  intros H. unfold SubmitDiagReciprocalKernel. cbv zeta.
  apply kernel_loop_exit. simpl. lia.
Qed.

(** Every [num_rows] below [int_max]: with as many elements at the head of
    the input pipe as the loop bound says (none when it is negative) and
    room for what they make the kernel write, the invocation takes exactly
    these and returns, having treated them as the beginning of a packed
    triangle. *)
Lemma submit_total (n : Z) (pin0 : Pin) (pout0 : Pout)
    (xs rest : list (ComplexType F)) (room : nat) :
  0 <= n < int_max -> length xs = Z.to_nat (total_reads n) ->
  contents pin0 = xs ++ rest ->
  has_room pout0 (length (kernel_output n xs) + room) ->
  exists c : config,
    SubmitDiagReciprocalKernel n pin0 pout0 = Ok tt c /\
    after (kernel_init pin0 pout0) c xs (kernel_output n xs) /\
    contents (pin c) = rest /\ has_room (pout c) room.
Proof.
  intros Hn Hl Hc Hr. destruct (Z.le_gt_cases (total_reads n) 0) as [Hle|Hgt].
  - exists (kernel_init pin0 pout0).
    destruct xs; [|simpl in Hl; lia]. unfold kernel_output in *.
    rewrite packed_diag_nil in *.
    repeat split; auto using submit_nothing; now rewrite ?app_nil_r.
  - destruct (kernel_run_prefix n pin0 pout0 xs rest room Hn ltac:(lia) Hc Hr)
      as (c & R & Hi & _ & A & Hrest & Hroom).
    exists c. unfold SubmitDiagReciprocalKernel. cbv zeta.
    rewrite <- Hl, <- (Nat.add_0_r (length xs)), R, kernel_loop_exit by lia.
    auto.
Qed.

(** ** Theorems *)

(** C1: Refinement of the abstract specification.  For [num_rows] up to
    65535, when the input pipe holds the packing of an upper-triangular
    matrix [R] (followed by anything) and the output pipe has room for one
    value per row, the invocation returns, has taken exactly the packed
    matrix from the input pipe, and has appended to the output pipe the
    reciprocals of the real parts of the diagonal of [R], in row order. *)
Theorem kernel_refines_spec (n : Z) (R : matrix) (pin0 : Pin) (pout0 : Pout)
    (rest : list (ComplexType F)) :
  0 <= n <= max_rows ->
  contents pin0 = pack n R ++ rest ->
  has_room pout0 (Z.to_nat n) ->
  exists c : config,
    SubmitDiagReciprocalKernel n pin0 pout0 = Ok tt c /\
    contents (pin c) = rest /\
    contents (pout c) = contents pout0 ++ spec_output n R.
Proof.
  intros Hn Hc Hr. destruct (submit_pack n R pin0 pout0 rest Hn Hc Hr) as (c & H).
  now exists c.
Qed.

(** C2: Functional behaviour on a complete stream.  For [num_rows] up to
    65535, with [num_rows * (num_rows + 1) / 2] elements [xs] at the head
    of the input pipe and room for [num_rows] values in the output pipe, the
    invocation returns with [i = total_reads], the counters one past the
    last row, the elements [xs] taken and nothing else, and the reciprocals
    of the heads of the rows of [xs] appended to the output pipe. *)
Theorem kernel_returns (n : Z) (pin0 : Pin) (pout0 : Pout)
    (xs rest : list (ComplexType F)) :
  0 <= n <= max_rows ->
  length xs = tri (Z.to_nat n) ->
  contents pin0 = xs ++ rest ->
  has_room pout0 (Z.to_nat n) ->
  exists c : config,
    SubmitDiagReciprocalKernel n pin0 pout0 = Ok tt c /\
    i c = total_reads n /\ pos c = pos_end n /\
    contents (pin c) = rest /\
    contents (pout c) = contents pout0 ++ kernel_output n xs.
Proof.
  intros Hn Hl Hc Hr. rewrite <- (Nat.add_0_r (Z.to_nat n)) in Hr.
  destruct (submit_complete n pin0 pout0 xs rest 0 Hn Hl Hc Hr)
    as (c & E & Hi & Hp & A & Hrest & _).
  exists c. repeat split; auto. apply A.
Qed.

(** C3: Number of reads and writes.  For [num_rows] up to 65535, on an
    input pipe that holds at least [num_rows * (num_rows + 1) / 2] elements
    and an output pipe with room for [num_rows] values, the invocation
    returns having read exactly [num_rows * (num_rows + 1) / 2] elements and
    written exactly [num_rows] values. *)
Theorem kernel_read_write_count (n : Z) (pin0 : Pin) (pout0 : Pout) :
  0 <= n <= max_rows ->
  (tri (Z.to_nat n) <= length (contents pin0))%nat ->
  has_room pout0 (Z.to_nat n) ->
  exists (c : config) (xs : list (ComplexType F)) (ys : list F),
    SubmitDiagReciprocalKernel n pin0 pout0 = Ok tt c /\
    contents pin0 = xs ++ contents (pin c) /\
    contents (pout c) = contents pout0 ++ ys /\
    Z.of_nat (length xs) = n * (n + 1) / 2 /\
    Z.of_nat (length ys) = n.
Proof.
  intros Hn Hl Hr. rewrite <- (Nat.add_0_r (Z.to_nat n)) in Hr.
  destruct (list_split_at _ _ Hl) as (xs & rest & Hc & Hxs).
  destruct (submit_complete n pin0 pout0 xs rest 0 Hn Hxs Hc Hr)
    as (c & E & _ & _ & A & Hrest & _).
  exists c, xs, (kernel_output n xs). rewrite Hrest.
  repeat split; auto; try apply A.
  - rewrite Hxs. now apply tri_Z.
  - rewrite kernel_output_length by lia. lia.
Qed.

(** C4: The value of each output.  Under the hypotheses of
    [kernel_returns], the [r]-th value appended to the output pipe (rows
    from 1) is [1 / real e] where [e] is the element of index
    [row_base n r] of the input stream: the diagonal element of row [r]
    in the packed order. *)
Theorem kernel_output_at_row (n : Z) (pin0 : Pin) (pout0 : Pout)
    (xs rest : list (ComplexType F)) :
  0 <= n <= max_rows ->
  length xs = tri (Z.to_nat n) ->
  contents pin0 = xs ++ rest ->
  has_room pout0 (Z.to_nat n) ->
  exists c : config,
    SubmitDiagReciprocalKernel n pin0 pout0 = Ok tt c /\
    forall r, 1 <= r <= n ->
      nth_error (contents (pout c))
                (length (contents pout0) + Z.to_nat (r - 1))
      = option_map recip_real (nth_error xs (Z.to_nat (row_base n r))).
Proof.
  intros Hn Hl Hc Hr. rewrite <- (Nat.add_0_r (Z.to_nat n)) in Hr.
  destruct (submit_complete n pin0 pout0 xs rest 0 Hn Hl Hc Hr)
    as (c & E & _ & _ & A & _ & _).
  exists c. split; [exact E|]. intros r Hrow.
  rewrite (after_out _ _ _ _ A). simpl.
  rewrite nth_error_app2, Nat.add_comm, Nat.add_sub by lia.
  apply kernel_output_nth_error; lia.
Qed.

(** C21: Suspension on a short input.  For [num_rows] up to 65535, when the
    input pipe holds fewer than [num_rows * (num_rows + 1) / 2] elements,
    the invocation does not return: it suspends in the [read] of the
    iteration whose element is missing, with the input pipe empty, [i] the
    number of elements read, and the reciprocals of the heads of the rows
    read so far appended to the output pipe. *)
Theorem kernel_suspends_on_short_input (n : Z) (pin0 : Pin) (pout0 : Pout) :
  0 <= n <= max_rows ->
  (length (contents pin0) < tri (Z.to_nat n))%nat ->
  has_room pout0 (length (kernel_output n (contents pin0))) ->
  exists c : config,
    SubmitDiagReciprocalKernel n pin0 pout0 = BlockedRead c /\
    i c = Z.of_nat (length (contents pin0)) /\
    contents (pin c) = [] /\
    contents (pout c) = contents pout0 ++ kernel_output n (contents pin0).
Proof.
  intros Hn Hl Hr. rewrite <- (Nat.add_0_r (length _)) in Hr.
  pose proof (total_reads_tri n Hn) as HT.
  assert (Hle : Z.of_nat (length (contents pin0)) <= total_reads n) by lia.
  destruct (kernel_run_prefix n pin0 pout0 (contents pin0) [] 0
              (rows_in_int n Hn) Hle (eq_sym (app_nil_r _)) Hr)
    as (c & R & Hi & _ & A & Hrest & _).
  exists c.
  rewrite (submit_runs_to n pin0 pout0 (length (contents pin0)) c Hn ltac:(lia) R).
  replace (tri (Z.to_nat n) - length (contents pin0))%nat
    with (S (tri (Z.to_nat n) - length (contents pin0) - 1)) by lia.
  rewrite kernel_loop_blocked_read; auto.
  - repeat split; auto. apply A.
  - lia.
Qed.

(** C22: Suspension on a full output pipe (backpressure).  For [num_rows] up
    to 65535, when the input pipe holds the rows above row [r] and then the
    diagonal element [x] of row [r], and the output pipe has room for
    exactly [r - 1] values, the invocation suspends in the [write] of row
    [r]: the counters are at [(r, r)], [x] has been read, the output pipe
    holds the values of the rows above, and the value in hand is
    [1 / real x]. *)
Theorem kernel_suspends_on_full_output (n r : Z) (pin0 : Pin) (pout0 : Pout)
    (xs rest : list (ComplexType F)) (x : ComplexType F) (cap : nat) :
  0 <= n <= max_rows -> 1 <= r <= n ->
  Z.of_nat (length xs) = row_base n r ->
  contents pin0 = xs ++ x :: rest ->
  capacity pout0 = Some cap ->
  (length (contents pout0) + Z.to_nat (r - 1) = cap)%nat ->
  exists c : config,
    SubmitDiagReciprocalKernel n pin0 pout0 = BlockedWrite (recip_real x) c /\
    i c = row_base n r /\ pos c = mkPos r r /\
    contents (pin c) = rest /\
    contents (pout c) = contents pout0 ++ kernel_output n xs /\
    length (contents (pout c)) = cap.
Proof.
  intros Hn Hrow Hl Hc Hcap Hfull.
  assert (Hk : length (kernel_output n xs) = Z.to_nat (r - 1)).
  { unfold kernel_output. rewrite length_map.
    apply packed_diag_length_rows; [lia|].
    rewrite !Z2Nat.id by lia. now replace (r - 1 + 1) with r by lia. }
  pose proof (row_base_lt n r (n + 1) ltac:(lia) ltac:(lia)) as Hlt.
  rewrite row_base_end, <- tri_Z in Hlt by lia.
  pose proof (total_reads_tri n Hn) as HT.
  destruct (kernel_run_prefix n pin0 pout0 xs (x :: rest) 0 (rows_in_int n Hn)
              ltac:(lia) Hc) as (c & R & Hi & Hp & A & Hrest & _).
  { unfold has_room. rewrite Hcap. lia. }
  rewrite (submit_runs_to n pin0 pout0 (length xs) c Hn ltac:(lia) R).
  replace (tri (Z.to_nat n) - length xs)%nat
    with (S (tri (Z.to_nat n) - length xs - 1)) by lia.
  replace (length xs) with (Z.to_nat (row_base n (Z.of_nat (Z.to_nat (r - 1)) + 1)))
    in Hp by (rewrite Z2Nat.id by lia; replace (r - 1 + 1) with r by lia; lia).
  rewrite rows_prefix, Z2Nat.id in Hp by (auto with diag; lia).
  replace (r - 1 + 1) with r in Hp by lia.
  destruct (kernel_loop_blocked_write n (total_reads n)
              (tri (Z.to_nat n) - length xs - 1) c x rest cap)
    as (c' & E & Hi' & Hp' & A'); auto.
  - lia.
  - rewrite Hp. unfold on_diag; simpl. apply Z.eqb_refl.
  - rewrite (after_cap_out _ _ _ _ A). exact Hcap.
  - rewrite (after_out _ _ _ _ A), length_app. simpl. lia.
  - exists c'. pose proof (after_trans _ _ _ _ _ _ _ A A') as A2.
    rewrite app_nil_r in A2.
    assert (Hin : contents (pin c') = rest).
    { pose proof (after_in _ _ _ _ A') as H. rewrite Hrest in H. now injection H. }
    assert (Hout : contents (pout c') = contents pout0 ++ kernel_output n xs)
      by apply A2.
    repeat split; auto; try congruence.
    rewrite Hout, length_app. lia.
Qed.

(** C29: The output depends on the real parts of the diagonal only.  For
    [num_rows] up to 65535, two invocations on the packings of two
    matrices whose diagonals have the same real parts, whatever their
    other elements and the imaginary parts, leave the same values in the
    output pipe. *)
Theorem kernel_diagonal_only (n : Z) (R R' : matrix) (pin0 pin0' : Pin)
    (pout0 : Pout) (rest rest' : list (ComplexType F)) :
  0 <= n <= max_rows ->
  (forall d, 1 <= d <= n -> real (R d d) = real (R' d d)) ->
  contents pin0 = pack n R ++ rest ->
  contents pin0' = pack n R' ++ rest' ->
  has_room pout0 (Z.to_nat n) ->
  exists c c' : config,
    SubmitDiagReciprocalKernel n pin0 pout0 = Ok tt c /\
    SubmitDiagReciprocalKernel n pin0' pout0 = Ok tt c' /\
    contents (pout c) = contents (pout c').
Proof.
  intros Hn Hd Hc Hc' Hr.
  destruct (submit_pack n R pin0 pout0 rest Hn Hc Hr) as (c & E & _ & Ho).
  destruct (submit_pack n R' pin0' pout0 rest' Hn Hc' Hr) as (c' & E' & _ & Ho').
  exists c, c'. repeat split; auto. rewrite Ho, Ho'. f_equal.
  unfold spec_output, diagonal.
  rewrite !map_map. apply map_ext_in. intros d Hin. apply zrange_In in Hin.
  unfold recip_real. rewrite Hd by lia. reflexivity.
Qed.

(** From 65536 to 92681 rows the loop bound is negative. *)
Lemma total_reads_negative (n : Z) : max_rows < n <= 92681 -> total_reads n < 0.
Proof.
  intros Hn. rewrite (total_reads_wraps n ltac:(lia)).
  unfold max_rows in Hn. change (2 ^ 32) with 4294967296. zdiv.
Qed.

(** C32: Beyond the range of [int].  For [num_rows] from 65536 to 92681 the
    conversion of [num_rows * (num_rows + 1) / 2] to [int] is negative, the
    loop condition fails at once and the invocation returns without a read
    or a write, in place of the [num_rows] outputs the specification
    states.  From 92682 to 113511 the triangular number exceeds [2 ^ 32]
    and its conversion to [int] is the small positive number
    [num_rows * (num_rows + 1) / 2 - 2 ^ 32]: the invocation returns after
    taking that many elements only, fewer than the packed triangle holds,
    writes the reciprocals of the heads of the rows that begin among them,
    and leaves the others in the input pipe. *)
Theorem kernel_beyond_max_rows (n : Z) (pin0 : Pin) (pout0 : Pout)
    (xs rest : list (ComplexType F)) :
  (max_rows < n <= 92681 ->
   total_reads n < 0 /\
   SubmitDiagReciprocalKernel n pin0 pout0 = Ok tt (kernel_init pin0 pout0)) /\
  (92681 < n <= 113511 ->
   Z.of_nat (length xs) = n * (n + 1) / 2 - 2 ^ 32 ->
   contents pin0 = xs ++ rest -> has_room pout0 (length (kernel_output n xs)) ->
   exists c : config,
     SubmitDiagReciprocalKernel n pin0 pout0 = Ok tt c /\
     contents (pin c) = rest /\
     contents (pout c) = contents pout0 ++ kernel_output n xs /\
     0 <= total_reads n < n * (n + 1) / 2 - n).
Proof.
  split.
  - intros Hn. pose proof (total_reads_negative n Hn).
    split; [assumption|]. apply submit_nothing. lia.
  - intros Hn Hl Hc Hr.
    pose proof (total_reads_wraps n ltac:(unfold max_rows; lia)) as HT.
    pose proof (total_reads_short n ltac:(unfold max_rows; lia)).
    rewrite <- (Nat.add_0_r (length _)) in Hr.
    destruct (submit_total n pin0 pout0 xs rest 0) as (c & E & A & Hrest & _);
      auto; try lia.
    + destruct int_bounds as [_ ->]. lia.
    + exists c. repeat split; auto; try apply A; lia.
Qed.

(** C31: Every [num_rows] below [int_max = 2^31 - 1].  With as many elements
    in the input pipe as the loop bound of line 21 says (none when it is
    negative), the invocation returns having taken exactly these; it has
    treated them as the beginning of the packed triangle, and appended the
    reciprocals of the heads of the rows that begin among them.  Up to
    65535 rows that is the whole triangle; beyond, the elements taken
    never reach the last row and fewer than [num_rows] values are
    written. *)
Theorem kernel_any_rows (n : Z) (pin0 : Pin) (pout0 : Pout)
    (xs rest : list (ComplexType F)) :
  0 <= n < int_max ->
  length xs = Z.to_nat (total_reads n) ->
  contents pin0 = xs ++ rest -> has_room pout0 (length (kernel_output n xs)) ->
  exists c : config,
    SubmitDiagReciprocalKernel n pin0 pout0 = Ok tt c /\
    contents (pin c) = rest /\
    contents (pout c) = contents pout0 ++ kernel_output n xs /\
    (n <= max_rows -> Z.of_nat (length xs) = n * (n + 1) / 2 /\
                      Z.of_nat (length (kernel_output n xs)) = n) /\
    (max_rows < n -> Z.of_nat (length xs) < n * (n + 1) / 2 - n /\
                     Z.of_nat (length (kernel_output n xs)) < n).
Proof.
  intros Hn Hl Hc Hr. rewrite <- (Nat.add_0_r (length _)) in Hr.
  destruct (submit_total n pin0 pout0 xs rest 0 Hn Hl Hc Hr)
    as (c & E & A & Hrest & _).
  exists c. repeat split; auto; try apply A.
  - rewrite Hl, total_reads_small; zdiv.
  - rewrite kernel_output_length; rewrite ?Hl, ?total_reads_tri; lia.
  - pose proof (total_reads_short n H). unfold max_rows in H.
    pose proof (tri_minus_pos n ltac:(lia)). lia.
  - pose proof (total_reads_short n H). unfold max_rows in H.
    pose proof (tri_minus_pos n ltac:(lia)).
    unfold kernel_output. rewrite length_map.
    pose proof (packed_diag_short (Z.to_nat n) xs ltac:(lia)) as Hs.
    rewrite Z2Nat.id in Hs by lia. rewrite row_base_last in Hs. lia.
Qed.
End Correctness.

(** ** Singular diagonals in single precision *)

Section Singular.
Context {Pin Pout : Type}.
Context {PI : Pipe Pin (ComplexType spec_float)} {PO : Pipe Pout spec_float}.

(** C35: A zero on the diagonal.  In single precision, for [num_rows] up to
    65535 and a complete stream, when the real part of the diagonal
    element of row [r] is a zero the invocation neither traps nor stops:
    it returns, all [num_rows] values are written, and the value of row
    [r] is the infinity of the sign of that zero. *)
Theorem kernel_zero_diagonal (n r : Z) (pin0 : Pin) (pout0 : Pout)
    (xs rest : list (ComplexType spec_float)) (s : bool) (im : spec_float) :
  0 <= n <= max_rows ->
  length xs = tri (Z.to_nat n) ->
  contents pin0 = xs ++ rest ->
  has_room pout0 (Z.to_nat n) ->
  1 <= r <= n ->
  nth_error xs (Z.to_nat (row_base n r)) = Some (mkComplex (S754_zero s) im) ->
  exists c,
    @SubmitDiagReciprocalKernel _ binary32 _ _ PI PO n pin0 pout0 = Ok tt c /\
    nth_error (contents (pout c)) (length (contents pout0) + Z.to_nat (r - 1))
      = Some (S754_infinity s) /\
    length (contents (pout c)) = (length (contents pout0) + Z.to_nat n)%nat.
Proof.
  intros Hn Hl Hc Hr Hrow Hx. rewrite <- (Nat.add_0_r (Z.to_nat n)) in Hr.
  destruct (@submit_complete _ binary32 _ _ PI PO n pin0 pout0 xs rest 0
              Hn Hl Hc Hr) as (c & E & _ & _ & A & _ & _).
  exists c. split; [exact E|].
  rewrite (after_out _ _ _ _ A). simpl. split.
  - rewrite nth_error_app2, Nat.add_comm, Nat.add_sub by lia.
    rewrite kernel_output_nth_error, Hx by lia.
    cbn [option_map]. apply f_equal.
    exact (ieee_recip_zero 24 128 binary32_one_finite s im).
  - rewrite length_app, kernel_output_length; lia.
Qed.
End Singular.

(** ** The theorems at the example of the specification *)

(** The kernel in single precision over unbounded FIFOs. *)
Definition run32 (n : Z) (pin0 : list (ComplexType spec_float))
    (pout0 : list spec_float) :=
  @SubmitDiagReciprocalKernel spec_float binary32 _ _ fifo_pipe fifo_pipe
    n pin0 pout0.

(** The kernel in single precision with an output pipe of bounded depth. *)
Definition run32_bounded (n : Z) (pin0 : list (ComplexType spec_float))
    (pout0 : bfifo spec_float) :=
  @SubmitDiagReciprocalKernel spec_float binary32 _ _ fifo_pipe bfifo_pipe
    n pin0 pout0.

Lemma kernel_refines_spec_witness :
  exists c,
    run32 3 example_input [] = Ok tt c /\
    contents (pin c) = [] /\
    contents (pout c) = [] ++ @spec_output _ binary32 3 example_matrix.
Proof.
  apply (@kernel_refines_spec _ binary32 _ _ fifo_pipe fifo_pipe
           3 example_matrix example_input [] []).
  - unfold max_rows; lia.
  - reflexivity.
  - exact I.
Defined.

Lemma kernel_returns_witness :
  exists c,
    run32 3 (example_input ++ example_input) [] = Ok tt c /\
    i c = total_reads 3 /\ pos c = pos_end 3 /\
    contents (pin c) = example_input /\
    contents (pout c) = [] ++ @kernel_output _ binary32 3 example_input.
Proof.
  apply (@kernel_returns _ binary32 _ _ fifo_pipe fifo_pipe
           3 (example_input ++ example_input) [] example_input example_input).
  - unfold max_rows; lia.
  - reflexivity.
  - reflexivity.
  - exact I.
Defined.

Lemma kernel_read_write_count_witness :
  exists c xs ys,
    run32 3 example_input [] = Ok tt c /\
    contents example_input = xs ++ contents (pin c) /\
    contents (pout c) = [] ++ ys /\
    Z.of_nat (length xs) = 3 * (3 + 1) / 2 /\
    Z.of_nat (length ys) = 3.
Proof.
  apply (@kernel_read_write_count _ binary32 _ _ fifo_pipe fifo_pipe
           3 example_input []).
  - unfold max_rows; lia.
  - simpl; lia.
  - exact I.
Defined.

Lemma kernel_output_at_row_witness :
  exists c,
    run32 3 example_input [] = Ok tt c /\
    forall r, 1 <= r <= 3 ->
      nth_error (contents (pout c)) (0 + Z.to_nat (r - 1))
      = option_map (@recip_real _ binary32)
          (nth_error example_input (Z.to_nat (row_base 3 r))).
Proof.
  apply (@kernel_output_at_row _ binary32 _ _ fifo_pipe fifo_pipe
           3 example_input [] example_input []).
  - unfold max_rows; lia.
  - reflexivity.
  - reflexivity.
  - exact I.
Defined.

Lemma kernel_suspends_on_short_input_witness :
  exists c,
    run32 3 (firstn 4 example_input) [] = BlockedRead c /\
    i c = 4 /\ contents (pin c) = [] /\
    contents (pout c)
      = [] ++ @kernel_output _ binary32 3 (firstn 4 example_input).
Proof.
  apply (@kernel_suspends_on_short_input _ binary32 _ _ fifo_pipe fifo_pipe
           3 (firstn 4 example_input) []).
  - unfold max_rows; lia.
  - simpl; lia.
  - exact I.
Defined.

Lemma kernel_suspends_on_full_output_witness :
  exists c,
    run32_bounded 3 example_input (bfifo_empty 1)
      = BlockedWrite (@recip_real _ binary32 (@complex_of_int binary32 5 7)) c /\
    i c = row_base 3 2 /\ pos c = mkPos 2 2 /\
    contents (pin c) = skipn 4 example_input /\
    contents (pout c)
      = [] ++ @kernel_output _ binary32 3 (firstn 3 example_input) /\
    length (contents (pout c)) = 1%nat.
Proof.
  apply (@kernel_suspends_on_full_output _ binary32 _ _ fifo_pipe bfifo_pipe
           3 2 example_input (bfifo_empty 1) (firstn 3 example_input)
           (skipn 4 example_input) (@complex_of_int binary32 5 7) 1%nat).
  - unfold max_rows; lia.
  - lia.
  - reflexivity.
  - reflexivity.
  - reflexivity.
  - reflexivity.
Defined.

(** The examples of the specification, by evaluation.  With three
    rows the real parts [2, 9, 9, 5, 9, 4] give [0.5, 0.2, 0.25] in single
    precision, the six elements are read and the counters end one past the
    last row; with one row the element [(7, 3)] gives [1/7]; with no row
    the invocation returns at once, no read and no write. *)
Example example_run :
  run32 3 example_input []
  = Ok tt (mkConfig (total_reads 3) (pos_end 3) [] example_output) /\
  run32 1 [@complex_of_int binary32 7 3] []
  = Ok tt (mkConfig 1 (pos_end 1) [] [float32 9586981 (-26)]) /\
  run32 0 example_input [] = Ok tt (kernel_init example_input []).
Proof. repeat split; vm_compute; reflexivity. Qed.

(** A stream with a zero on the diagonal of row 2. *)
Definition singular_input : list (ComplexType spec_float) :=
  let cx := @complex_of_int binary32 in
  [cx 2 1; cx 9 0; cx 9 (-3); cx 0 7; cx 9 2; cx 4 (-1)].

Lemma kernel_zero_diagonal_witness :
  exists c,
    run32 3 singular_input [] = Ok tt c /\
    nth_error (contents (pout c)) (0 + Z.to_nat (2 - 1))
      = Some (S754_infinity false) /\
    length (contents (pout c)) = (0 + Z.to_nat 3)%nat.
Proof.
  apply (@kernel_zero_diagonal _ _ fifo_pipe fifo_pipe 3 2 singular_input []
           singular_input [] false (@of_int _ binary32 7)).
  - unfold max_rows; lia.
  - reflexivity.
  - now rewrite app_nil_r.
  - exact I.
  - lia.
  - reflexivity.
Defined.

(** A matrix with the diagonal of the example and other elements
    elsewhere. *)
Definition example_matrix' : @matrix spec_float :=
  let cx := @complex_of_int binary32 in
  unpack 3 (cx 0 0) [cx 2 0; cx 1 1; cx 7 7; cx 5 0; cx 0 0; cx 4 9].

Lemma kernel_diagonal_only_witness :
  exists c c',
    run32 3 (@pack _ 3 example_matrix) [] = Ok tt c /\
    run32 3 (@pack _ 3 example_matrix') [] = Ok tt c' /\
    contents (pout c) = contents (pout c').
Proof.
  apply (@kernel_diagonal_only _ binary32 _ _ fifo_pipe fifo_pipe 3
           example_matrix example_matrix' _ _ [] [] []).
  - unfold max_rows; lia.
  - intros d Hd. assert (d = 1 \/ d = 2 \/ d = 3) as [->|[->| ->]] by lia;
      reflexivity.
  - reflexivity.
  - reflexivity.
  - exact I.
Defined.

(** 92682 rows: the loop bound is 55607 in place of 4295022903. *)
Definition wrapped_input : list (ComplexType spec_float) :=
  repeat (@complex_of_int binary32 2 0) (Z.to_nat 55607).

(** 65536 rows, where nothing is read, and 92682 rows, where 55607
    elements are. *)
Lemma kernel_beyond_max_rows_witness :
  (total_reads 65536 < 0 /\
   run32 65536 example_input [] = Ok tt (kernel_init example_input [])) /\
  exists c,
    run32 92682 wrapped_input [] = Ok tt c /\
    contents (pin c) = [] /\
    contents (pout c) = [] ++ @kernel_output _ binary32 92682 wrapped_input /\
    0 <= total_reads 92682 < 92682 * (92682 + 1) / 2 - 92682.
Proof.
  split.
  - apply (@kernel_beyond_max_rows _ binary32 _ _ fifo_pipe fifo_pipe
             65536 example_input [] [] []).
    unfold max_rows; lia.
  - apply (@kernel_beyond_max_rows _ binary32 _ _ fifo_pipe fifo_pipe
             92682 wrapped_input [] wrapped_input []).
    + lia.
    + vm_compute. reflexivity.
    + symmetry. apply app_nil_r.
    + exact I.
Defined.

(** 65536 rows: the loop bound is negative, nothing is read. *)
Lemma kernel_any_rows_witness :
  exists c,
    run32 65536 example_input [] = Ok tt c /\
    contents (pin c) = example_input /\
    contents (pout c) = [] ++ @kernel_output _ binary32 65536 [] /\
    (65536 <= max_rows ->
     Z.of_nat (@length (ComplexType spec_float) []) = 65536 * (65536 + 1) / 2 /\
     Z.of_nat (length (@kernel_output _ binary32 65536 [])) = 65536) /\
    (max_rows < 65536 ->
     Z.of_nat (@length (ComplexType spec_float) []) < 65536 * (65536 + 1) / 2 - 65536 /\
     Z.of_nat (length (@kernel_output _ binary32 65536 [])) < 65536).
Proof.
  apply (@kernel_any_rows _ binary32 _ _ fifo_pipe fifo_pipe
           65536 example_input [] [] example_input).
  - now split.
  - reflexivity.
  - reflexivity.
  - exact I.
Defined.
