(* ===== verification/Frames.v ===== *)
(** * Frames: the stage re-invoked, one invocation per matrix

    The pipeline invokes the stage once per input frame; nothing but the
    two pipes survives an invocation.  [run_frames] chains invocations,
    each on the pipes the previous one left.  On a stream of complete
    frames the outputs of the frames follow one another in the output
    pipe; the frames are told apart by counting only, so the result
    depends on the stream and not on how it was cut: a frame that lost
    an element is completed with the first element of the next one
    ([kernel_takes_next_frame]). *)

From Stdlib Require Import ZArith List Lia Bool SpecFloat.
From S2P Require Import Prelude MachineInt Scalar Pipe TriIndex Packed.
From S2P Require Import Blocking Kernel KernelLoop Spec Correctness.
Import ListNotations.

#[local] Open Scope Z_scope.

Section Frames.
Context {F : Type} {SF : Scalar F}.
Context {Pin Pout : Type} {PI : Pipe Pin (ComplexType F)} {PO : Pipe Pout F}.

(** [m] invocations in a row; a suspended invocation suspends the chain. *)
Fixpoint run_frames (m : nat) (num_rows : Z) (pin0 : Pin) (pout0 : Pout)
  : result (Pin * Pout) F unit :=
  match m with
  | O => Ok tt (pin0, pout0)
  | S m' =>
      match SubmitDiagReciprocalKernel num_rows pin0 pout0 with
      | Ok _ c => run_frames m' num_rows (pin c) (pout c)
      | r => pipes_of r
      end
  end.

(** The specified output of a sequence of frames. *)
Definition frames_output (n : Z) (frames : list (list (ComplexType F)))
  : list F :=
  concat (map (kernel_output n) frames).

(** Complete frames at the head of the input pipe, room for one value per
    row and per frame: every invocation returns. *)
Lemma run_frames_complete (n : Z) (frames : list (list (ComplexType F))) :
  0 <= n <= max_rows ->
  Forall (fun xs => length xs = tri (Z.to_nat n)) frames ->
  forall (pin0 : Pin) (pout0 : Pout) (rest : list (ComplexType F)),
    contents pin0 = concat frames ++ rest ->
    has_room pout0 (length frames * Z.to_nat n) ->
    exists pin1 pout1,
      run_frames (length frames) n pin0 pout0 = Ok tt (pin1, pout1) /\
      contents pin1 = rest /\
      contents pout1 = contents pout0 ++ frames_output n frames.
Proof.
  intros Hn Hall. induction Hall as [|xs frames Hl _ IH];
    intros pin0 pout0 rest Hc Hr; cbn [length run_frames concat map] in *.
  - exists pin0, pout0. unfold frames_output. simpl. now rewrite app_nil_r.
  - rewrite <- app_assoc in Hc.
    destruct (submit_complete n pin0 pout0 xs _ _ Hn Hl Hc Hr)
      as (c & -> & _ & _ & A & Hrest & Hroom).
    destruct (IH _ _ rest Hrest Hroom) as (pin1 & pout1 & -> & Hin & Hout).
    exists pin1, pout1. repeat split; auto.
    rewrite Hout, (after_out _ _ _ _ A). unfold frames_output. simpl.
    now rewrite app_assoc.
Qed.

(** C28: One invocation per frame.  For [num_rows] up to 65535, with the
    packings of the matrices [Rs] one after the other in the input pipe
    and room for one value per row and per matrix in the output pipe, as
    many invocations as there are matrices all return; together they take
    exactly the packings from the input pipe and append, matrix after
    matrix, the reciprocals of the real parts of the diagonals.  In
    particular two invocations in succession on two matrices produce two
    independent outputs: the counters are fresh at each invocation. *)
Theorem kernel_frames (n : Z) (Rs : list matrix) (pin0 : Pin) (pout0 : Pout)
    (rest : list (ComplexType F)) :
  0 <= n <= max_rows ->
  contents pin0 = concat (map (pack n) Rs) ++ rest ->
  has_room pout0 (length Rs * Z.to_nat n) ->
  exists pin1 pout1,
    run_frames (length Rs) n pin0 pout0 = Ok tt (pin1, pout1) /\
    contents pin1 = rest /\
    contents pout1 = contents pout0 ++ concat (map (spec_output n) Rs).
Proof.
  intros Hn Hc Hr.
  replace (map (spec_output n) Rs) with (map (kernel_output n) (map (pack n) Rs))
    by (rewrite map_map; apply map_ext; intros R; apply kernel_output_pack; lia).
  rewrite <- (length_map (pack n) Rs) in *.
  apply run_frames_complete; auto.
  apply Forall_forall. intros xs Hxs. apply in_map_iff in Hxs.
  destruct Hxs as (R & <- & _). apply pack_length. auto with diag.
Qed.

(** ** A frame that lost an element *)

(** The packing of a matrix of one row or more starts with its first
    diagonal element. *)
Lemma pack_cons (n : Z) (R : @matrix F) :
  1 <= n < int_max -> exists tail, pack n R = R 1 1 :: tail.
Proof.
  intros Hn. pose proof (pack_row_head n 1 R ltac:(lia)) as H.
  rewrite row_base_1 in H. destruct (pack n R) as [|x tail]; [discriminate|].
  injection H as ->. now exists tail.
Qed.

(** C37: Frames are told apart by count only.  For [num_rows] from 1 to 65535,
    when the packing of [R1] arrives without its last element (the
    diagonal element of the last row) and is followed by the packing of
    [R2], the invocation does not notice: it returns, having taken the
    first element of [R2] in place of the missing one, and the value it
    writes for the last row is the reciprocal of the first diagonal
    element of [R2]; the values of the rows above are those of [R1].  The
    next invocation starts one element into the frame of [R2]. *)
Theorem kernel_takes_next_frame (n : Z) (R1 R2 : matrix) (pin0 : Pin)
    (pout0 : Pout) (rest : list (ComplexType F)) :
  1 <= n <= max_rows ->
  contents pin0 = removelast (pack n R1) ++ pack n R2 ++ rest ->
  has_room pout0 (Z.to_nat n) ->
  exists (c : config Pin Pout) tail,
    SubmitDiagReciprocalKernel n pin0 pout0 = Ok tt c /\
    pack n R2 = R2 1 1 :: tail /\ contents (pin c) = tail ++ rest /\
    forall r, 1 <= r <= n ->
      nth_error (contents (pout c)) (length (contents pout0) + Z.to_nat (r - 1))
      = Some (recip_real (if r <? n then R1 r r else R2 1 1)).
Proof.
  intros Hn Hc Hr. assert (Hi : 0 <= n < int_max) by (apply rows_in_int; lia).
  destruct (pack_cons n R2 ltac:(lia)) as [tail E2].
  pose proof (pack_length n R1 Hi) as L1.
  pose proof (length_removelast (pack n R1)) as L1'.
  pose proof (tri_Z n ltac:(lia)) as HT. pose proof (row_base_last n) as HB.
  assert (0 < n * (n + 1) / 2) by (unfold max_rows in Hn; zdiv).
  set (xs := removelast (pack n R1) ++ [R2 1 1]).
  assert (Hl : length xs = tri (Z.to_nat n))
    by (unfold xs; rewrite length_app; simpl; lia).
  assert (Hc' : contents pin0 = xs ++ tail ++ rest)
    by (rewrite Hc, E2; unfold xs; now rewrite <- !app_assoc).
  rewrite <- (Nat.add_0_r (Z.to_nat n)) in Hr.
  destruct (submit_complete n pin0 pout0 xs (tail ++ rest) 0 ltac:(lia) Hl Hc' Hr)
    as (c & E & _ & _ & A & Hrest & _).
  exists c, tail. repeat split; auto. intros r Hrow.
  rewrite (after_out _ _ _ _ A). simpl.
  rewrite nth_error_app2, Nat.add_comm, Nat.add_sub by lia.
  rewrite kernel_output_nth_error by lia.
  destruct (Z.ltb_spec r n) as [Hlt|Hge].
  - pose proof (row_base_lt n r n ltac:(lia) ltac:(lia)).
    pose proof (row_base_nonneg n r ltac:(lia)).
    unfold xs.
    rewrite nth_error_app1, nth_error_removelast, pack_row_head by lia.
    reflexivity.
  - assert (r = n) as -> by lia. unfold xs.
    rewrite nth_error_app2 by lia.
    replace (Z.to_nat (row_base n n) - _)%nat with O by lia. reflexivity.
Qed.

End Frames.

Lemma kernel_frames_witness :
  exists pin1 pout1,
    @run_frames _ binary32 _ _ fifo_pipe fifo_pipe 2 3
      (example_input ++ example_input) [] = Ok tt (pin1, pout1) /\
    contents pin1 = [] /\
    contents pout1
      = [] ++ concat (map (@spec_output _ binary32 3)
                       [example_matrix; example_matrix]).
Proof.
  apply (@kernel_frames _ binary32 _ _ fifo_pipe fifo_pipe 3
           [example_matrix; example_matrix]
           (example_input ++ example_input) [] []).
  - unfold max_rows; lia.
  - reflexivity.
  - exact I.
Defined.

(** The packing of the example matrix without its last element, then the
    packing of a second matrix: the third value written is the reciprocal
    of the first diagonal element of the second matrix. *)
Lemma kernel_takes_next_frame_witness :
  exists (c : config (list (ComplexType spec_float)) (list spec_float)) tail,
    @SubmitDiagReciprocalKernel _ binary32 _ _ fifo_pipe fifo_pipe 3
      (removelast (pack 3 example_matrix) ++ pack 3 example_matrix' ++ []) []
    = Ok tt c /\
    pack 3 example_matrix' = example_matrix' 1 1 :: tail /\
    contents (pin c) = tail ++ [] /\
    forall r, 1 <= r <= 3 ->
      nth_error (contents (pout c)) (length (@nil spec_float) + Z.to_nat (r - 1))
      = Some (@recip_real _ binary32
                (if r <? 3 then example_matrix r r else example_matrix' 1 1)).
Proof.
  apply (@kernel_takes_next_frame _ binary32 _ _ fifo_pipe fifo_pipe 3
           example_matrix example_matrix'
           (removelast (pack 3 example_matrix) ++ pack 3 example_matrix' ++ [])
           [] []).
  - unfold max_rows; lia.
  - reflexivity.
  - exact I.
Defined.
