(* ===== verification/Safety.v ===== *)
(** * Safety: what every invocation does, whatever the pipes hold

    The theorems of [Correctness] start from a well-formed input.  Here
    nothing is assumed of [num_rows], of the contents of the input pipe or
    of the room in the output pipe: the file characterises every outcome of
    the loop body ([body_post]) and of the loop ([loop_post]) by inversion
    of the definitions, and derives that an invocation never runs out of
    fuel, never reads more than [total_reads] elements and reads exactly
    that many when it returns. *)

From Stdlib Require Import ZArith List Lia Bool Floats.SpecFloat.
From S2P Require Import Prelude MachineInt Scalar Pipe TriIndex Blocking Kernel.
From S2P Require Import KernelLoop Spec Correctness.
Import ListNotations.

#[local] Open Scope Z_scope.

Section Safety.
Context {F : Type} {SF : Scalar F}.
Context {Pin Pout : Type} {PI : Pipe Pin (ComplexType F)} {PO : Pipe Pout F}.

#[local] Abbreviation config := (config Pin Pout).
#[local] Abbreviation outcome := (result config F unit).

Variables num_rows total : Z.
Hypothesis total_in_int : in_int total.

(** The output pipe of [c] accepts no more value. *)
Definition out_full (c : config) : Prop :=
  exists cap, capacity (pout c) = Some cap /\
              (cap <= length (contents (pout c)))%nat.

(** ** The outcomes of the body *)

Definition body_post (c : config) (r : outcome) : Prop :=
  match r with
  | Ok _ c' =>
      exists x, after c c' [x] (emit_at (pos c) x) /\
                i c' = i c /\ pos c' = advance num_rows (pos c)
  | BlockedRead c' => c' = c /\ contents (pin c) = []
  | BlockedWrite w c' =>
      exists x, after c c' [x] [] /\ on_diag (pos c) = true /\
                w = recip_real x /\ i c' = i c /\ pos c' = pos c /\
                out_full c'
  | OutOfFuel _ => False
  end.

Lemma loop_body_post (c : config) : body_post c (loop_body num_rows c).
Proof.
  unfold loop_body, bind, read_in, gets, when, write_out, modify, ret.
  destruct (read (pin c)) as [[x p']|] eqn:R.
  - destruct (read_Some _ _ _ R) as [Hc Hcap]. cbn [pos set_pin].
    destruct (on_diag (pos c)) eqn:D; cbn [pout set_pin].
    + destruct (write (recip_real x) (pout c)) as [q|] eqn:W.
      * destruct (write_Some _ _ _ W) as [Hq Hqcap]. simpl.
        exists x. rewrite (emit_at_diag _ _ D). repeat split; auto.
      * apply write_None in W. simpl.
        exists x. repeat split; auto. now rewrite app_nil_r.
    + simpl. exists x. rewrite (emit_at_off_diag _ _ D).
      repeat split; auto. now rewrite app_nil_r.
  - simpl. split; [reflexivity | now apply read_None].
Qed.

(** ** The outcomes of the loop *)

(** After [k] complete iterations that took [xs] from the input pipe:
    the counters, and what the output pipe received. *)
Definition ran (c c' : config) (k : nat) (xs : list (ComplexType F)) : Prop :=
  length xs = k /\
  i c' = i c + Z.of_nat k /\
  pos c' = iter_n (advance num_rows) k (pos c) /\
  capacity (pin c') = capacity (pin c) /\
  capacity (pout c') = capacity (pout c) /\
  contents (pout c')
    = contents (pout c) ++ emitted (trajectory (advance num_rows) k (pos c)) xs.

Definition loop_post (fuel : nat) (c : config) (r : outcome) : Prop :=
  exists (k : nat) (xs : list (ComplexType F)),
    (k <= fuel)%nat /\ ran c (final_state r) k xs /\
    match r with
    | Ok _ c' => contents (pin c) = xs ++ contents (pin c') /\ total <= i c'
    | BlockedRead c' =>
        contents (pin c) = xs ++ contents (pin c') /\
        contents (pin c') = [] /\ i c' < total
    | BlockedWrite w c' =>
        exists x, contents (pin c) = xs ++ x :: contents (pin c') /\
                  on_diag (pos c') = true /\ w = recip_real x /\
                  out_full c' /\ i c' < total
    | OutOfFuel c' =>
        contents (pin c) = xs ++ contents (pin c') /\ k = fuel /\ i c' < total
    end.

Lemma ran_refl (c : config) : ran c c 0 [].
Proof.
  unfold ran; simpl. rewrite Z.add_0_r, app_nil_r. repeat split; auto.
Qed.

(** One more iteration in front. *)
Lemma ran_step (c c1 c2 c' : config) (x : ComplexType F) k xs :
  after c c1 [x] (emit_at (pos c) x) -> i c1 = i c ->
  pos c1 = advance num_rows (pos c) ->
  i c2 = i c1 + 1 -> pos c2 = pos c1 -> pin c2 = pin c1 -> pout c2 = pout c1 ->
  ran c2 c' k xs -> ran c c' (S k) (x :: xs).
Proof.
  intros A Hi1 Hp1 Hi2 Hp2 Hin2 Hout2 (Hl & Hi & Hp & Hci & Hco & Ho).
  unfold ran. cbn [length trajectory emitted iter_n].
  rewrite Hin2 in Hci. rewrite Hout2 in Hco, Ho. rewrite Hp2, Hp1 in Hp, Ho.
  rewrite (after_out _ _ _ _ A), <- app_assoc in Ho.
  rewrite (after_cap_in _ _ _ _ A) in Hci.
  rewrite (after_cap_out _ _ _ _ A) in Hco.
  repeat split; auto; lia.
Qed.

Lemma kernel_loop_post (fuel : nat) :
  forall c : config, int_min <= i c ->
    loop_post fuel c (kernel_loop fuel num_rows total c).
Proof using total_in_int.
  induction fuel as [|fuel IH]; intros c Hi; cbn [kernel_loop];
    destruct (Z.ltb_spec (i c) total) as [Hlt|Hge];
    try (exists O, []; simpl; solve [auto 6 using ran_refl with arith]).
  pose proof (loop_body_post c) as B. unfold bind at 1.
  destruct (loop_body num_rows c) as [[] c1|c1|w c1|c1]; cbn [body_post] in B.
  - destruct B as (x & A & Hi1 & Hp1).
    unfold bind at 1, incr_i, modify.
    set (c2 := set_i c1 (int_add (i c1) 1)).
    assert (Hi2 : i c2 = i c1 + 1).
    { subst c2; simpl. apply int_add_small. unfold in_int in *. lia. }
    assert (H2 : pos c2 = pos c1 /\ pin c2 = pin c1 /\ pout c2 = pout c1)
      by (subst c2; auto).
    destruct H2 as (Hp2 & Hin2 & Hout2). clearbody c2.
    specialize (IH c2 ltac:(lia)).
    assert (Hin : contents (pin c) = x :: contents (pin c2))
      by (rewrite Hin2; apply (after_in _ _ _ _ A)).
    destruct IH as (k & xs & Hk & R & IH). exists (S k), (x :: xs).
    split; [lia|].
    split; [now apply (ran_step c c1 c2 _ x k xs)|].
    destruct (kernel_loop fuel num_rows total c2) as [[] c3|c3|w c3|c3];
      cbn [final_state] in *; rewrite Hin; simpl.
    + destruct IH as [-> ?]. auto.
    + destruct IH as (-> & ? & ?). auto.
    + destruct IH as (y & -> & ?). exists y. auto.
    + destruct IH as (-> & ? & ?). repeat split; auto.
  - destruct B as [-> Hc]. exists O, []. simpl.
    refine (conj _ (conj (ran_refl c) _)); [lia | auto].
  - destruct B as (x & A & Hd & -> & Hi1 & Hp1 & Hfull).
    exists O, []. simpl. split; [lia|]. split.
    + unfold ran; simpl. rewrite Z.add_0_r.
      pose proof (after_out _ _ _ _ A) as Ho.
      repeat split; auto; apply A.
    + exists x. rewrite Hp1, Hi1. repeat split; auto. apply (after_in _ _ _ _ A).
  - contradiction.
Qed.

(** ** Fuel *)

(** An outcome other than [OutOfFuel] does not depend on the fuel left. *)
Lemma kernel_loop_more_fuel (fuel extra : nat) :
  forall c : config,
    (forall c', kernel_loop fuel num_rows total c <> OutOfFuel c') ->
    kernel_loop (fuel + extra) num_rows total c
      = kernel_loop fuel num_rows total c.
Proof.
  induction fuel as [|fuel IH]; intros c H.
  - simpl in H. cbn [Nat.add]. destruct extra; simpl;
      destruct (i c <? total); auto; now elim (H c).
  - cbn [Nat.add kernel_loop] in *. destruct (i c <? total); auto.
    unfold bind in *. destruct (loop_body num_rows c); auto.
    destruct (incr_i s); auto.
Qed.
End Safety.

Section Invocation.
Context {F : Type} {SF : Scalar F}.
Context {Pin Pout : Type} {PI : Pipe Pin (ComplexType F)} {PO : Pipe Pout F}.

#[local] Abbreviation config := (config Pin Pout).

(** The outcome of an invocation, by inversion. *)
Lemma submit_post (n : Z) (pin0 : Pin) (pout0 : Pout) :
  loop_post n (total_reads n) (Z.to_nat (total_reads n))
    (kernel_init pin0 pout0) (SubmitDiagReciprocalKernel n pin0 pout0).
Proof.
  apply kernel_loop_post; [apply total_reads_in_int|].
  simpl. destruct int_bounds as [-> _]. lia.
Qed.

(** The fuel of an invocation is never exhausted. *)
Lemma submit_not_out_of_fuel (n : Z) (pin0 : Pin) (pout0 : Pout) (c : config) :
  SubmitDiagReciprocalKernel n pin0 pout0 <> OutOfFuel c.
Proof.
  intros E. pose proof (submit_post n pin0 pout0) as P. rewrite E in P.
  destruct P as (k & xs & _ & (_ & Hi & _) & _ & -> & Hlt).
  simpl in Hi. lia.
Qed.

(** What an iteration writes is at most one value. *)
Lemma emitted_length_le (ps : list position) (xs : list (ComplexType F)) :
  (length (emitted ps xs) <= length xs)%nat.
Proof.
  revert xs; induction ps as [|p ps IH]; intros [|x xs]; simpl; try lia.
  rewrite length_app, emit_at_length. specialize (IH xs).
  destruct (on_diag p); lia.
Qed.

(** ** Theorems *)

(** C10: Termination.  Whatever [num_rows] and whatever the pipes hold, the
    fuel that the invocation gives its loop, [total_reads], is enough: the
    outcome is a return or a suspension, never an exhausted loop, and more
    fuel yields the same outcome. *)
Theorem kernel_terminates (n : Z) (pin0 : Pin) (pout0 : Pout) :
  (forall c, SubmitDiagReciprocalKernel n pin0 pout0 <> OutOfFuel c) /\
  forall extra,
    kernel_loop (Z.to_nat (total_reads n) + extra) n (total_reads n)
      (kernel_init pin0 pout0)
    = SubmitDiagReciprocalKernel n pin0 pout0.
Proof.
  pose proof (submit_not_out_of_fuel n pin0 pout0) as H.
  split; [exact H|]. intros extra. now apply kernel_loop_more_fuel.
Qed.

(** C9: Exactly [total_reads] reads.  Whatever [num_rows] and the pipes,
    an invocation that returns has taken exactly [max 0 total_reads]
    elements from the head of the input pipe, has left the rest in place,
    and has appended to the output pipe what these elements emit along
    the positions of the counters. *)
Theorem kernel_reads_exactly (n : Z) (pin0 : Pin) (pout0 : Pout) (c : config) :
  SubmitDiagReciprocalKernel n pin0 pout0 = Ok tt c ->
  exists xs,
    contents pin0 = xs ++ contents (pin c) /\
    Z.of_nat (length xs) = Z.max 0 (total_reads n) /\
    i c = Z.max 0 (total_reads n) /\
    contents (pout c)
      = contents pout0
        ++ emitted (trajectory (advance n) (length xs) pos_init) xs.
Proof.
  intros E. pose proof (submit_post n pin0 pout0) as P. rewrite E in P.
  destruct P as (k & xs & Hk & (Hl & Hi & _ & _ & _ & Ho) & Hin & Hge).
  simpl in *. exists xs. rewrite Hl. repeat split; auto; lia.
Qed.

(** C34: Never more than [total_reads] reads.  Whatever [num_rows], the
    pipes and the outcome (return or suspension), the invocation has taken
    a prefix of the input pipe of at most [total_reads] elements, has only
    appended to the output pipe, and has written at most one value per
    element read. *)
Theorem kernel_never_overreads (n : Z) (pin0 : Pin) (pout0 : Pout) :
  let c := final_state (SubmitDiagReciprocalKernel n pin0 pout0) in
  exists xs ys,
    contents pin0 = xs ++ contents (pin c) /\
    contents (pout c) = contents pout0 ++ ys /\
    Z.of_nat (length xs) <= Z.max 0 (total_reads n) /\
    (length ys <= length xs)%nat.
Proof.
  intros c. pose proof (submit_post n pin0 pout0) as P. subst c.
  destruct P as (k & xs & Hk & (Hl & Hi & _ & _ & _ & Ho) & P).
  pose proof (emitted_length_le
                (trajectory (advance n) k pos_init) xs) as He.
  destruct (SubmitDiagReciprocalKernel n pin0 pout0) as [[] c|c|w c|c];
    simpl in *.
  - destruct P as [Hin _]. exists xs, (emitted (trajectory (advance n) k pos_init) xs).
    repeat split; auto; lia.
  - destruct P as (Hin & _ & _).
    exists xs, (emitted (trajectory (advance n) k pos_init) xs).
    repeat split; auto; lia.
  - destruct P as (x & Hin & _ & _ & _ & Hlt).
    exists (xs ++ [x]), (emitted (trajectory (advance n) k pos_init) xs).
    rewrite <- app_assoc, length_app. simpl. repeat split; auto; lia.
  - destruct P as (Hin & _ & _).
    exists xs, (emitted (trajectory (advance n) k pos_init) xs).
    repeat split; auto; lia.
Qed.
End Invocation.

Lemma kernel_reads_exactly_witness :
  exists xs,
    contents example_input = xs ++ [] /\
    Z.of_nat (length xs) = Z.max 0 (total_reads 3) /\
    total_reads 3 = Z.max 0 (total_reads 3) /\
    example_output
      = [] ++ @emitted _ binary32
                (trajectory (advance 3) (length xs) pos_init) xs.
Proof.
  apply (@kernel_reads_exactly _ binary32 _ _ fifo_pipe fifo_pipe
           3 example_input []
           (mkConfig (total_reads 3) (pos_end 3) [] example_output)).
  vm_compute. reflexivity.
Defined.
