(* ===== verification/Pipeline.v ===== *)
(** * Pipeline: the kernel among its neighbours

    The kernel runs concurrently with the stage that produces the matrix
    and the stage that consumes the reciprocals; the three communicate
    through two pipes of bounded depth and synchronise only by blocking.
    This file models the kernel as a thread with program points
    ([kthread]: about to read, about to write, done) that performs one
    pipe operation per step ([kstep]), and the pipeline as a transition
    system ([step]) in which the producer, the kernel and the consumer
    interleave freely; [sys_step] is the same system as a function of the
    component that moves, and [run_schedule] runs a list of moves.  It
    proves that the thread refines the kernel of [Kernel], and that every
    reachable state satisfies the invariant [inv], which relates what the
    kernel has read with what has left it, and that no step fills a pipe
    beyond its depth ([within_depth]).  The invariant is stated for an
    invocation that starts on pipes which earlier invocations have used:
    [past] is what these have written, and [inv_entry] establishes it
    when an invocation starts, whatever the pipes hold.  The theorems on
    the schedules are in [Schedule], the invocations one after the other
    in [Stream]. *)

From Stdlib Require Import ZArith List Lia Bool Relations.
From S2P Require Import Prelude MachineInt Scalar Pipe TriIndex Packed.
From S2P Require Import Blocking Kernel KernelLoop Spec Safety.
Import ListNotations.

#[local] Open Scope Z_scope.

Section Pipeline.
Context {F : Type} {SF : Scalar F}.
Context {Pin Pout : Type} {PI : Pipe Pin (ComplexType F)} {PO : Pipe Pout F}.

Variables num_rows total : Z.

(** ** The kernel as a thread *)

(** The locals of the kernel: [i], and [row], [col]. *)
Record locals : Type := mkLocals {
  l_i : Z;
  l_pos : position
}.

(** The program points at which the kernel can be observed. *)
Inductive kthread : Type :=
| KRead (l : locals)              (** line 27: about to read *)
| KWrite (l : locals) (v : F)     (** line 30: about to write [v] *)
| KDone (l : locals).             (** line 39: the loop is over *)

(** Lines 33-38 then line 25: update the counters, increment [i], test the
    loop condition. *)
Definition next_iteration (l : locals) : kthread :=
  let l' := mkLocals (int_add (l_i l) 1) (advance num_rows (l_pos l)) in
  if l_i l' <? total then KRead l' else KDone l'.

(** Lines 22-25: the entry of the loop. *)
Definition kthread_init : kthread :=
  let l := mkLocals 0 pos_init in
  if l_i l <? total then KRead l else KDone l.

(** One pipe operation of the kernel; [None] when the thread is suspended
    or done. *)
Definition kstep (k : kthread) (pin : Pin) (pout : Pout)
  : option (kthread * Pin * Pout) :=
  match k with
  | KRead l =>
      match read pin with
      | Some (entry, pin') =>
          if on_diag (l_pos l)
          then Some (KWrite l (recip_real entry), pin', pout)
          else Some (next_iteration l, pin', pout)
      | None => None
      end
  | KWrite l v =>
      match write v pout with
      | Some pout' => Some (next_iteration l, pin, pout')
      | None => None
      end
  | KDone _ => None
  end.

(** The thread run on its own, for at most [fuel] pipe operations. *)
Fixpoint krun (fuel : nat) (k : kthread) (pin : Pin) (pout : Pout)
  : kthread * Pin * Pout :=
  match fuel with
  | O => (k, pin, pout)
  | S fuel' =>
      match kstep k pin pout with
      | Some (k', pin', pout') => krun fuel' k' pin' pout'
      | None => (k, pin, pout)
      end
  end.

(** The outcome of [Kernel] that a state of the thread stands for. *)
Definition outcome_of (s : kthread * Pin * Pout) : result (config Pin Pout) F unit :=
  match s with
  | (KRead l, pin, pout) => BlockedRead (mkConfig (l_i l) (l_pos l) pin pout)
  | (KWrite l v, pin, pout) => BlockedWrite v (mkConfig (l_i l) (l_pos l) pin pout)
  | (KDone l, pin, pout) => Ok tt (mkConfig (l_i l) (l_pos l) pin pout)
  end.

(** The thread at the head of the loop, for a configuration of [Kernel]. *)
Definition kthread_at (c : config Pin Pout) : kthread :=
  let l := mkLocals (i c) (pos c) in
  if i c <? total then KRead l else KDone l.

(** ** The thread refines the kernel *)

Lemma krun_stuck (fuel : nat) (k : kthread) (pin : Pin) (pout : Pout) :
  kstep k pin pout = None -> krun fuel k pin pout = (k, pin, pout).
Proof. intros H. destruct fuel; simpl; now rewrite ?H. Qed.

Lemma next_iteration_at (c : config Pin Pout) (p : Pin) (q : Pout) :
  next_iteration (mkLocals (i c) (pos c))
  = kthread_at (mkConfig (int_add (i c) 1) (advance num_rows (pos c)) p q).
Proof. reflexivity. Qed.

(** The thread, run from the head of the loop for twice the fuel of the
    loop, stops where the loop stops. *)
Lemma krun_kernel_loop (fuel : nat) :
  in_int total ->
  forall (c : config Pin Pout) (g : nat),
    int_min <= i c -> (2 * fuel <= g)%nat ->
    (forall c', kernel_loop fuel num_rows total c <> OutOfFuel c') ->
    outcome_of (krun g (kthread_at c) (pin c) (pout c))
      = kernel_loop fuel num_rows total c.
Proof.
  intros HT. induction fuel as [|fuel IH]; intros c g Hi Hg Hfuel;
    cbn [kernel_loop] in *; unfold kthread_at;
    destruct (Z.ltb_spec (i c) total) as [Hlt|Hge];
    try (rewrite krun_stuck by reflexivity; simpl; now rewrite config_eta);
    [now elim (Hfuel c)|].
  assert (Hi' : int_min <= int_add (i c) 1)
    by (rewrite int_add_small; unfold in_int in *; lia).
  destruct g as [|g]; [lia|]. cbn [krun kstep l_pos l_i].
  unfold loop_body, incr_i, bind, read_in, gets, when, write_out, modify, ret in *.
  destruct (read (pin c)) as [[x p']|] eqn:R; [|simpl; now rewrite config_eta].
  cbv beta iota in *.
  change (pos (set_pin c p')) with (pos c) in *.
  destruct (on_diag (pos c)) eqn:D; cbv beta iota in *;
    change (pout (set_pin c p')) with (pout c) in *.
  - destruct g as [|g]; [lia|]. cbn [krun kstep].
    destruct (write (recip_real x) (pout c)) as [q|] eqn:W; [|reflexivity].
    rewrite next_iteration_at with (p := p') (q := q).
    apply (IH (mkConfig _ _ p' q) g); auto. lia.
  - rewrite next_iteration_at with (p := p') (q := pout c).
    apply (IH (mkConfig _ _ p' (pout c)) g); auto. lia.
Qed.

(** ** The pipeline *)

(** The producer has [to_send] left to write; the consumer has [received]
    so far. *)
Record sys : Type := mkSys {
  to_send : list (ComplexType F);
  inp : Pin;
  kern : kthread;
  outp : Pout;
  received : list F
}.

Inductive step : sys -> sys -> Prop :=
| step_produce (s : sys) x rest p' :
    to_send s = x :: rest -> write x (inp s) = Some p' ->
    step s (mkSys rest p' (kern s) (outp s) (received s))
| step_kernel (s : sys) k' pin' pout' :
    kstep (kern s) (inp s) (outp s) = Some (k', pin', pout') ->
    step s (mkSys (to_send s) pin' k' pout' (received s))
| step_consume (s : sys) v p' :
    read (outp s) = Some (v, p') ->
    step s (mkSys (to_send s) (inp s) (kern s) p' (received s ++ [v])).

(** The same transitions as a function of the component that is scheduled:
    [None] when that component cannot move. *)
Inductive component : Type := Producer | Kernel | Consumer.

Definition sys_step (c : component) (s : sys) : option sys :=
  match c with
  | Producer =>
      match to_send s with
      | x :: rest =>
          option_map (fun p' => mkSys rest p' (kern s) (outp s) (received s))
                     (write x (inp s))
      | [] => None
      end
  | Kernel =>
      option_map (fun r => match r with
                           | (k', pin', pout') =>
                               mkSys (to_send s) pin' k' pout' (received s)
                           end)
                 (kstep (kern s) (inp s) (outp s))
  | Consumer =>
      option_map (fun r => mkSys (to_send s) (inp s) (kern s) (snd r)
                                 (received s ++ [fst r]))
                 (read (outp s))
  end.

(** A schedule: the components in the order in which they move. *)
Fixpoint run_schedule (cs : list component) (s : sys) : option sys :=
  match cs with
  | [] => Some s
  | c :: cs' =>
      match sys_step c s with
      | Some s' => run_schedule cs' s'
      | None => None
      end
  end.

(** Executions: zero or more steps. *)
Definition steps : sys -> sys -> Prop := clos_refl_trans_1n sys step.

(** A state from which no component can move. *)
Definition stuck (s : sys) : Prop := forall s', ~ step s s'.

(** The pipeline before the first step: the producer holds the stream, the
    pipes are empty. *)
Definition sys_init (xs : list (ComplexType F)) (pin0 : Pin) (pout0 : Pout) : sys :=
  mkSys xs pin0 kthread_init pout0 [].

(** Everything has been produced, processed and consumed. *)
Definition finished (s : sys) : Prop :=
  to_send s = [] /\ contents (inp s) = [] /\
  (exists l, kern s = KDone l) /\ contents (outp s) = [].

(** The kernel waits for an element that nobody will send. *)
Definition stalled (s : sys) : Prop :=
  to_send s = [] /\ contents (inp s) = [] /\
  (exists l, kern s = KRead l /\ l_i l < total) /\ contents (outp s) = [].

(** Executions of a given number of steps. *)
Inductive nsteps : nat -> sys -> sys -> Prop :=
| nsteps_O (s : sys) : nsteps 0 s s
| nsteps_S (k : nat) (s1 s2 s3 : sys) :
    step s1 s2 -> nsteps k s2 s3 -> nsteps (S k) s1 s3.

(** ** Bounded buffering *)

(** Neither pipe holds more than its depth. *)
Definition within_depth (s : sys) : Prop :=
  has_room (inp s) 0 /\ has_room (outp s) 0.

Lemma kstep_within (k k' : kthread) (pin pin' : Pin) (pout pout' : Pout) :
  kstep k pin pout = Some (k', pin', pout') ->
  has_room pin 0 -> has_room pout 0 -> has_room pin' 0 /\ has_room pout' 0.
Proof.
  intros E Hi Ho. destruct k as [l|l v|l]; cbn [kstep] in E; [| |discriminate].
  - destruct (read pin) as [[x p]|] eqn:R; [|discriminate].
    apply read_within in R; [|exact Hi].
    destruct (on_diag (l_pos l)); injection E as <- <- <-; auto.
  - destruct (write v pout) as [q|] eqn:W; [|discriminate].
    apply write_within in W. injection E as <- <- <-. auto.
Qed.

Lemma step_within_depth (s s' : sys) :
  step s s' -> within_depth s -> within_depth s'.
Proof.
  intros St [Hi Ho]. destruct St as [s x rest p' _ W|s k' pin' pout' K|s v p' R];
    unfold within_depth; cbn [inp outp].
  - split; [exact (write_within _ _ _ W)|exact Ho].
  - exact (kstep_within _ _ _ _ _ _ K Hi Ho).
  - split; [exact Hi|exact (read_within _ _ _ R Ho)].
Qed.

Lemma steps_within_depth (s s' : sys) :
  steps s s' -> within_depth s -> within_depth s'.
Proof.
  induction 1 as [|s1 s2 s3 St _ IH]; intros H; [exact H|].
  apply IH. exact (step_within_depth _ _ St H).
Qed.

(** ** Schedules and the step relation *)

Lemma sys_step_sound (c : component) (s s' : sys) :
  sys_step c s = Some s' -> step s s'.
Proof.
  destruct c; simpl.
  - destruct (to_send s) as [|x rest] eqn:Et; [discriminate|].
    destruct (write x (inp s)) as [p'|] eqn:W; [|discriminate].
    intros [= <-]. now apply step_produce with (x := x).
  - destruct (kstep (kern s) (inp s) (outp s)) as [[[k' pin'] pout']|] eqn:K;
      [|discriminate].
    intros [= <-]. now apply step_kernel.
  - destruct (read (outp s)) as [[v p']|] eqn:R; [|discriminate].
    intros [= <-]. now apply step_consume.
Qed.

Lemma sys_step_complete (s s' : sys) :
  step s s' -> exists c, sys_step c s = Some s'.
Proof.
  intros [s0 x rest p' Et W|s0 k' pin' pout' K|s0 v p' R].
  - exists Producer. simpl. now rewrite Et, W.
  - exists Kernel. simpl. now rewrite K.
  - exists Consumer. simpl. now rewrite R.
Qed.

Lemma run_schedule_nsteps (cs : list component) (s s' : sys) :
  run_schedule cs s = Some s' -> nsteps (length cs) s s'.
Proof.
  revert s; induction cs as [|c cs IH]; simpl; intros s.
  - intros [= ->]. constructor.
  - destruct (sys_step c s) as [s1|] eqn:E; [|discriminate].
    intros H. econstructor; eauto using sys_step_sound.
Qed.

Lemma nsteps_steps (k : nat) (s s' : sys) : nsteps k s s' -> steps s s'.
Proof. induction 1; econstructor; eauto. Qed.

(** Nothing moves exactly when no component can be scheduled. *)
Lemma stuck_iff (s : sys) : stuck s <-> forall c, sys_step c s = None.
Proof.
  split.
  - intros Hs c. destruct (sys_step c s) as [s'|] eqn:E; auto.
    elim (Hs s'). eauto using sys_step_sound.
  - intros Hn s' St. destruct (sys_step_complete _ _ St) as [c E].
    rewrite Hn in E. discriminate.
Qed.

(** ** The invariant *)

Section Invariant.
Hypothesis total_in_int : in_int total.

(** The stream the producer sends to the invocation, the values that
    earlier invocations have written, and the two pipes before the first
    step. *)
Variable xs : list (ComplexType F).
Variable past : list F.
Variables (pin0 : Pin) (pout0 : Pout).

#[local] Abbreviation adv := (advance num_rows).

(** The state of the thread when the kernel has read [done] and the
    values [outs] have left it. *)
Definition kernel_view (k : kthread) (done : list (ComplexType F))
    (outs : list F) : Prop :=
  match k with
  | KRead l =>
      l_i l = Z.of_nat (length done) /\ l_i l < total /\
      l_pos l = iter_n adv (length done) pos_init /\
      outs = written num_rows done
  | KWrite l v =>
      exists done' x,
        done = done' ++ [x] /\
        l_i l = Z.of_nat (length done') /\ l_i l < total /\
        l_pos l = iter_n adv (length done') pos_init /\
        on_diag (l_pos l) = true /\ v = recip_real x /\
        outs = written num_rows done'
  | KDone l =>
      l_i l = Z.of_nat (length done) /\ l_i l = Z.max 0 total /\
      l_pos l = iter_n adv (length done) pos_init /\
      outs = written num_rows done
  end.

(** The invariant of the pipeline: the stream is what the kernel has read,
    then what is in the input pipe, then what the producer still holds;
    what the consumer has received followed by what is in the output pipe
    is what earlier invocations have written, then what the kernel has
    written; the depths of the pipes are those of the start. *)
Inductive inv (s : sys) : Prop :=
| mkInv (done : list (ComplexType F)) (outs : list F)
    (inv_stream : xs = done ++ contents (inp s) ++ to_send s)
    (inv_kernel : kernel_view (kern s) done outs)
    (inv_out : received s ++ contents (outp s) = past ++ outs)
    (inv_cap_in : capacity (inp s) = capacity pin0)
    (inv_cap_out : capacity (outp s) = capacity pout0).

(** The thread after an iteration that started with [done] read and ends
    with [done ++ [x]] read. *)
Lemma next_iteration_view (l : locals) (done : list (ComplexType F))
    (x : ComplexType F) (outs : list F) :
  l_i l = Z.of_nat (length done) -> l_i l < total ->
  l_pos l = iter_n adv (length done) pos_init ->
  outs = written num_rows (done ++ [x]) ->
  kernel_view (next_iteration l) (done ++ [x]) outs.
Proof using total_in_int.
  intros Hi Hlt Hp Ho. unfold next_iteration. cbn [l_i].
  assert (Hs : int_add (l_i l) 1 = l_i l + 1)
    by (apply int_add_small; destruct int_bounds; unfold in_int in *; lia).
  assert (Hi' : int_add (l_i l) 1 = Z.of_nat (length (done ++ [x])))
    by (rewrite Hs, length_app; simpl; lia).
  assert (Hp' : adv (l_pos l) = iter_n adv (length (done ++ [x])) pos_init).
  { rewrite length_app, Nat.add_comm. cbn [length Nat.add].
    now rewrite iter_n_succ_r, Hp. }
  destruct (Z.ltb_spec (int_add (l_i l) 1) total); simpl;
    repeat split; auto; lia.
Qed.

(** The thread at the entry of the loop has read and written nothing. *)
Lemma kthread_init_view : kernel_view kthread_init [] [].
Proof.
  unfold kthread_init. cbn [l_i].
  destruct (Z.ltb_spec 0 total); simpl; repeat split; auto; lia.
Qed.

(** The invariant holds when an invocation starts: the stream is what
    the input pipe and the producer hold, and what the consumer and the
    output pipe hold is what earlier invocations have written. *)
Lemma inv_entry (s : sys) :
  kern s = kthread_init -> xs = contents (inp s) ++ to_send s ->
  received s ++ contents (outp s) = past ->
  capacity (inp s) = capacity pin0 -> capacity (outp s) = capacity pout0 ->
  inv s.
Proof.
  intros Ek Hs Ho Hci Hco. apply (mkInv _ [] []); auto.
  - rewrite Ek. apply kthread_init_view.
  - now rewrite app_nil_r.
Qed.

Lemma inv_step (s s' : sys) : inv s -> step s s' -> inv s'.
Proof using total_in_int.
  intros [done outs Hs Hk Ho Hci Hco] St.
  destruct St as [s x rest p' Hts W|s k' pin' pout' K|s v p' R].
  - destruct (write_Some _ _ _ W) as [Hc Hcap].
    apply (mkInv _ done outs); simpl; auto; try congruence.
    now rewrite Hs, Hts, Hc, <- app_assoc.
  - destruct (kern s) as [l|l v|l] eqn:Ek; simpl in K; try discriminate.
    + destruct (read (inp s)) as [[x p']|] eqn:R; [|discriminate].
      destruct (read_Some _ _ _ R) as [Hc Hcap].
      destruct Hk as (Hi & Hlt & Hp & Hw).
      assert (Hs' : xs = (done ++ [x]) ++ contents p' ++ to_send s)
        by (rewrite Hs, Hc, <- app_assoc; reflexivity).
      destruct (on_diag (l_pos l)) eqn:D; inversion K; subst; clear K;
        apply (mkInv _ (done ++ [x]) (written num_rows done));
        simpl; auto; try congruence.
      * exists done, x. repeat split; auto.
      * apply next_iteration_view; auto.
        now rewrite written_snoc, <- Hp, emit_at_off_diag, app_nil_r.
    + destruct (write v (outp s)) as [q|] eqn:W; [|discriminate].
      destruct (write_Some _ _ _ W) as [Hc Hcap].
      destruct Hk as (done' & x & -> & Hi & Hlt & Hp & Hd & -> & ->).
      inversion K; subst; clear K.
      apply (mkInv _ (done' ++ [x]) (written num_rows (done' ++ [x])));
        simpl; auto; try congruence.
      * apply next_iteration_view; auto.
      * rewrite written_snoc, <- Hp, emit_at_diag, Hc by assumption.
        now rewrite !app_assoc, Ho.
  - destruct (read_Some _ _ _ R) as [Hc Hcap].
    apply (mkInv _ done outs); simpl; auto; try congruence.
    rewrite Hc in Ho. now rewrite <- app_assoc.
Qed.

Lemma inv_steps (s s' : sys) : inv s -> steps s s' -> inv s'.
Proof using total_in_int.
  intros Hi St. induction St as [|s1 s2 s3 S12 _ IH]; eauto using inv_step.
Qed.

(** What has left the kernel is what it writes for a prefix of the
    stream. *)
Lemma kernel_view_written (k : kthread) (done : list (ComplexType F))
    (outs : list F) :
  kernel_view k done outs ->
  exists done' ys, done = done' ++ ys /\ outs = written num_rows done'.
Proof.
  destruct k; simpl.
  - intros (_ & _ & _ & ->). exists done, []. now rewrite app_nil_r.
  - intros (done' & x & -> & _ & _ & _ & _ & _ & ->). now exists done', [x].
  - intros (_ & _ & _ & ->). exists done, []. now rewrite app_nil_r.
Qed.

(** What the consumer holds is a prefix of what earlier invocations have
    written followed by what the kernel writes for the whole stream. *)
Lemma inv_received (s : sys) :
  inv s -> exists rest, past ++ written num_rows xs = received s ++ rest.
Proof.
  intros [done outs Hs Hk Ho Hci Hco].
  destruct (kernel_view_written _ _ _ Hk) as (done' & ys & -> & ->).
  rewrite Hs, <- !app_assoc.
  destruct (written_prefix num_rows done' (ys ++ contents (inp s) ++ to_send s))
    as [zs ->].
  rewrite app_assoc, <- Ho, <- app_assoc. eauto.
Qed.
End Invariant.

(** Before the first step of the first invocation. *)
Lemma inv_init (xs : list (ComplexType F)) (pin0 : Pin) (pout0 : Pout) :
  contents pin0 = [] -> contents pout0 = [] ->
  inv xs [] pin0 pout0 (sys_init xs pin0 pout0).
Proof.
  intros Hin Hout. apply inv_entry; simpl; auto. now rewrite Hin.
Qed.
End Pipeline.

Section Refinement.
Context {F : Type} {SF : Scalar F}.
Context {Pin Pout : Type} {PI : Pipe Pin (ComplexType F)} {PO : Pipe Pout F}.

(** C11: The thread refines the kernel.  For every [num_rows] and all
    pipes, the thread of program points, run on its own for two pipe
    operations per iteration, stops at the program point and in the state
    in which the invocation of [SubmitDiagReciprocalKernel] ends: done
    where it returns, about to read where it suspends on the empty input
    pipe, about to write the same value where it suspends on the full
    output pipe. *)
Theorem kthread_refines_kernel (n : Z) (pin0 : Pin) (pout0 : Pout) :
  outcome_of (krun n (total_reads n) (2 * Z.to_nat (total_reads n))
                (kthread_init (total_reads n)) pin0 pout0)
  = SubmitDiagReciprocalKernel n pin0 pout0.
Proof.
  apply (krun_kernel_loop n (total_reads n) (Z.to_nat (total_reads n))
           (total_reads_in_int n) (kernel_init pin0 pout0)).
  - simpl. destruct int_bounds. lia.
  - lia.
  - intros c. apply submit_not_out_of_fuel.
Qed.
End Refinement.

Arguments kthread : clear implicits.
Arguments sys : clear implicits.
