(* ===== verification/Schedule.v ===== *)
(** * Schedule: every interleaving of the pipeline ends well

    For the transition system of [Pipeline], with pipes of depth at least
    one: a state of the invariant is at rest or can move ([rest_or_step]),
    and every step decreases a measure, so no schedule runs forever and
    none is longer than six steps per element; every step is one pipe
    operation, so the length of a run is read off its last state
    ([nsteps_account]); no pipe ever holds more than its depth.  What is at rest depends on the length of the stream
    only.  The lemmas hold of an invocation that starts on pipes that
    earlier invocations have used ([past] is what these have written);
    the theorems are those of the first invocation, and [Stream] has
    those of the invocations that follow.  When the producer sends exactly
    the elements the kernel reads, the state at rest is the finished one
    (no deadlock) and the consumer holds the specified output; what it
    holds before is a prefix of it.  When the stream is too short the
    kernel is left waiting in its read; when it is too long the elements
    in excess are left in the input pipe. *)

From Stdlib Require Import ZArith List Lia Bool Relations SpecFloat.
From S2P Require Import Prelude MachineInt Scalar Pipe TriIndex Packed.
From S2P Require Import Blocking Kernel KernelLoop Spec Correctness Safety Pipeline.
Import ListNotations.

#[local] Open Scope Z_scope.

Section Schedule.
Context {F : Type} {SF : Scalar F}.
Context {Pin Pout : Type} {PI : Pipe Pin (ComplexType F)} {PO : Pipe Pout F}.

Variables num_rows total : Z.
Hypothesis total_in_int : in_int total.

Variable xs : list (ComplexType F).
Variable past : list F.
Variables (pin0 : Pin) (pout0 : Pout).

#[local] Abbreviation kthread := (kthread F).
#[local] Abbreviation sys := (sys F Pin Pout).
#[local] Abbreviation step := (@step F SF Pin Pout PI PO num_rows total).
#[local] Abbreviation steps := (@steps F SF Pin Pout PI PO num_rows total).
#[local] Abbreviation nsteps := (@nsteps F SF Pin Pout PI PO num_rows total).
#[local] Abbreviation inv :=
  (@inv F SF Pin Pout PI PO num_rows total xs past pin0 pout0).
#[local] Abbreviation next_iteration := (next_iteration num_rows total).

(** ** The measure *)

(** Pipe operations the thread still has to perform, counted generously:
    four per remaining iteration, two less once the read is done. *)
Definition kmeasure (k : kthread) : nat :=
  match k with
  | KRead l => 4 * Z.to_nat (total - l_i l)
  | KWrite l _ => 4 * Z.to_nat (total - l_i l) - 2
  | KDone _ => 0
  end.

Definition measure (s : sys) : nat :=
  2 * length (to_send s) + length (contents (inp s))
  + kmeasure (kern s) + length (contents (outp s)).

Lemma kmeasure_next (l : locals) :
  0 <= l_i l < total ->
  (kmeasure (next_iteration l) + 4 <= kmeasure (KRead l))%nat.
Proof using total_in_int.
  intros Hi. unfold Pipeline.next_iteration. cbn [l_i].
  rewrite int_add_small by (destruct int_bounds; unfold in_int in *; lia).
  destruct (Z.ltb_spec (l_i l + 1) total); cbn [kmeasure l_i]; lia.
Qed.

(** ** Every step decreases the measure *)

Lemma step_measure (s s' : sys) :
  inv s -> step s s' -> (measure s' < measure s)%nat.
Proof using total_in_int.
  intros [done outs Hs Hk Ho Hci Hco] St.
  destruct St as [s x rest p' Hts W|s k' pin' pout' K|s v p' R];
    unfold measure; cbn [to_send inp kern outp received].
  - destruct (write_Some _ _ _ W) as [Hc _].
    rewrite Hts, Hc, length_app. simpl. lia.
  - destruct (kern s) as [l|l v|l] eqn:Ek; simpl in K, Hk; try discriminate.
    + destruct (read (inp s)) as [[x p']|] eqn:R; [|discriminate].
      destruct (read_Some _ _ _ R) as [Hc _]. rewrite Hc.
      destruct Hk as (Hi & Hlt & _).
      pose proof (kmeasure_next l ltac:(lia)) as Hm. cbn [kmeasure] in Hm.
      destruct (on_diag (l_pos l)); injection K as <- <- <-;
        cbn [kmeasure length]; lia.
    + destruct (write v (outp s)) as [q|] eqn:W; [|discriminate].
      destruct (write_Some _ _ _ W) as [Hc _].
      destruct Hk as (done' & x & _ & Hi & Hlt & _).
      pose proof (kmeasure_next l ltac:(lia)) as Hm. cbn [kmeasure] in Hm.
      injection K as <- <- <-. rewrite Hc, length_app.
      cbn [kmeasure length]. lia.
  - destruct (read_Some _ _ _ R) as [Hc _]. rewrite Hc. simpl. lia.
Qed.

(** A schedule of [k] steps has used up [k] units of the measure. *)
Lemma nsteps_measure (k : nat) (s s' : sys) :
  inv s -> nsteps k s s' -> (k + measure s' <= measure s)%nat /\ inv s'.
Proof using total_in_int.
  intros Hi St. induction St as [|k s1 s2 s3 S12 _ IH]; [auto|].
  pose proof (step_measure _ _ Hi S12).
  destruct IH as [IH1 IH2]; [eapply inv_step; eauto|]. split; [lia|auto].
Qed.

(** ** The pipe operations of a run *)

(** What has still to enter the kernel, counted in pipe operations (a
    write of the producer and a read of the kernel for an element still
    to be sent, a read for an element in the input pipe), and what has
    left it (a write of the kernel and a read of the consumer for a value
    received, a write for a value in the output pipe). *)
Definition upstream (s : sys) : nat :=
  2 * length (to_send s) + length (contents (inp s)).

Definition downstream (s : sys) : nat :=
  2 * length (received s) + length (contents (outp s)).

(** Every step is one pipe operation: it lowers [upstream] or raises
    [downstream] by one. *)
Lemma step_account (s s' : sys) :
  step s s' -> (S (upstream s' + downstream s) = upstream s + downstream s')%nat.
Proof.
  intros St.
  destruct St as [s x rest p' Hts W|s k' pin' pout' K|s v p' R];
    unfold upstream, downstream; cbn [to_send inp kern outp received].
  - destruct (write_Some _ _ _ W) as [Hc _]. rewrite Hts, Hc, length_app.
    simpl. lia.
  - destruct (kern s) as [l|l v|l]; cbn [kstep] in K; [| |discriminate].
    + destruct (read (inp s)) as [[x p]|] eqn:R; [|discriminate].
      destruct (read_Some _ _ _ R) as [Hc _]. rewrite Hc.
      destruct (on_diag (l_pos l)); injection K as <- <- <-; simpl; lia.
    + destruct (write v (outp s)) as [q|] eqn:W; [|discriminate].
      destruct (write_Some _ _ _ W) as [Hc _]. injection K as <- <- <-.
      rewrite Hc, length_app. simpl. lia.
  - destruct (read_Some _ _ _ R) as [Hc _]. rewrite Hc, length_app. simpl. lia.
Qed.

Lemma nsteps_account (k : nat) (s s' : sys) :
  nsteps k s s' ->
  (k + upstream s' + downstream s = upstream s + downstream s')%nat.
Proof.
  induction 1 as [|k s1 s2 s3 S12 _ IH]; [lia|].
  pose proof (step_account _ _ S12). lia.
Qed.

(** ** Progress *)

Lemma kstep_read (l : locals) (pin pin' : Pin) (pout : Pout) (x : ComplexType F) :
  read pin = Some (x, pin') ->
  exists k', kstep num_rows total (KRead l) pin pout = Some (k', pin', pout).
Proof. intros R. simpl. rewrite R. destruct (on_diag (l_pos l)); eauto. Qed.

(** Once the loop is over, the whole stream has been read. *)
Lemma done_all (s : sys) (l : locals) (done : list (ComplexType F)) :
  length xs = Z.to_nat total ->
  xs = done ++ contents (inp s) ++ to_send s ->
  l_i l = Z.of_nat (length done) -> total <= l_i l ->
  contents (inp s) = [] /\ to_send s = [] /\ done = xs.
Proof.
  intros Hlen Hs Hi Hge.
  assert (Hl : length (contents (inp s) ++ to_send s) = 0%nat).
  { apply (f_equal (@length _)) in Hs. rewrite length_app in Hs. lia. }
  apply length_zero_iff_nil in Hl. rewrite Hl, app_nil_r in Hs.
  apply app_eq_nil in Hl. destruct Hl. auto.
Qed.

Hypothesis depth_in : positive_depth pin0.
Hypothesis depth_out : positive_depth pout0.

(** A state at rest: the output is drained, and the kernel is done, or
    waits for an element while none is on the way. *)
Definition at_rest (s : sys) : Prop :=
  contents (outp s) = [] /\
  match kern s with
  | KRead _ => contents (inp s) = [] /\ to_send s = []
  | KWrite _ _ => False
  | KDone _ => True
  end.

(** A state of the invariant is at rest or can move: the consumer takes
    what the output pipe holds, the kernel writes into the empty output
    pipe and reads from the input pipe, the producer writes into the empty
    input pipe. *)
Lemma rest_or_step (s : sys) : inv s -> at_rest s \/ exists s', step s s'.
Proof using depth_in depth_out.
  intros [done outs Hs Hk Ho Hci Hco]. unfold at_rest.
  destruct (contents (outp s)) as [|y q] eqn:Eo.
  2:{ right. destruct (read_cons _ _ _ Eo) as (p' & R & _).
      eexists. eapply step_consume; eauto. }
  destruct (kern s) as [l|l v|l] eqn:Ek; [|right|now left].
  - destruct (contents (inp s)) as [|x q] eqn:Ec.
    + destruct (to_send s) as [|x rest] eqn:Et; [now left|right].
      destruct (write_empty (inp s) x) as [p' W]; auto.
      { eapply positive_depth_capacity; eauto. }
      eexists. eapply step_produce; eauto.
    + right. destruct (read_cons _ _ _ Ec) as (p' & R & _).
      destruct (kstep_read l _ _ (outp s) _ R) as [k' K].
      eexists. apply step_kernel. rewrite Ek. exact K.
  - destruct (write_empty (outp s) v) as [p' W]; auto.
    { eapply positive_depth_capacity; eauto. }
    eexists. apply step_kernel. rewrite Ek. simpl. rewrite W. reflexivity.
Qed.

(** What is at rest, by the length of the stream: the kernel waits when
    the stream is shorter than the loop, and is done otherwise. *)
Lemma at_rest_read (s : sys) (l : locals) :
  inv s -> at_rest s -> kern s = KRead l ->
  (length xs < Z.to_nat total)%nat /\ stalled total s /\
  received s = past ++ written num_rows xs.
Proof.
  intros [done outs Hs Hk Ho Hci Hco] [He Hr] Ek. rewrite Ek in Hk, Hr.
  destruct Hr as [Hin Hts]. destruct Hk as (Hi & Hlt & _ & ->).
  rewrite Hin, Hts, app_nil_r in Hs. subst done.
  rewrite He, app_nil_r in Ho. unfold stalled. rewrite Ek.
  repeat split; eauto. lia.
Qed.

Lemma at_rest_done (s : sys) (l : locals) :
  inv s -> at_rest s -> kern s = KDone l ->
  (Z.to_nat total <= length xs)%nat /\
  received s = past ++ written num_rows (firstn (Z.to_nat total) xs) /\
  contents (inp s) ++ to_send s = skipn (Z.to_nat total) xs.
Proof.
  intros [done outs Hs Hk Ho Hci Hco] [He _] Ek. rewrite Ek in Hk.
  destruct Hk as (Hi & Hmax & _ & ->). rewrite He, app_nil_r in Ho.
  assert (Hl : length done = Z.to_nat total) by lia.
  rewrite Hs, <- Hl, firstn_app, skipn_app, firstn_all, skipn_all, Nat.sub_diag.
  rewrite length_app. simpl. rewrite app_nil_r. repeat split; auto. lia.
Qed.

Hypothesis stream_length : length xs = Z.to_nat total.

(** No deadlock: a state of the invariant is finished or can move. *)
Lemma progress (s : sys) : inv s -> finished s \/ exists s', step s s'.
Proof using depth_in depth_out stream_length.
  intros Hi. destruct (rest_or_step s Hi) as [Hr|]; [left|now right].
  destruct (kern s) as [l|l v|l] eqn:Ek.
  - destruct (at_rest_read s l Hi Hr Ek). lia.
  - destruct Hr as [_ Hr]. now rewrite Ek in Hr.
  - destruct (at_rest_done s l Hi Hr Ek) as (_ & _ & Hrest).
    rewrite <- stream_length, skipn_all in Hrest. apply app_eq_nil in Hrest.
    unfold finished. rewrite Ek. destruct Hr, Hrest. eauto.
Qed.

(** In the finished state the consumer holds what the kernel writes for
    the whole stream. *)
Lemma finished_received (s : sys) :
  inv s -> finished s -> received s = past ++ written num_rows xs.
Proof using stream_length.
  intros [done outs Hs Hk Ho Hci Hco] (Hts & Hin & [l Ek] & Hout).
  rewrite Ek in Hk. rewrite Hout, app_nil_r in Ho.
  destruct Hk as (Hi & Hge & _ & ->).
  now destruct (done_all s l done stream_length Hs Hi ltac:(lia)) as (_ & _ & <-).
Qed.

End Schedule.

(** ** The pipeline of an invocation *)

Section Results.
Context {F : Type} {SF : Scalar F}.
Context {Pin Pout : Type} {PI : Pipe Pin (ComplexType F)} {PO : Pipe Pout F}.

Variable n : Z.
Variables (pin0 : Pin) (pout0 : Pout).

(** Both pipes are empty before the first step. *)
Hypothesis empty_in : contents pin0 = [].
Hypothesis empty_out : contents pout0 = [].

#[local] Abbreviation T := (total_reads n).
#[local] Abbreviation init xs := (sys_init T xs pin0 pout0).
#[local] Abbreviation inv xs := (inv n T xs [] pin0 pout0).

Lemma reachable_inv (xs : list (ComplexType F)) (s : sys F Pin Pout) :
  steps n T (init xs) s -> inv xs s.
Proof using empty_in empty_out.
  apply inv_steps; [apply total_reads_in_int|now apply inv_init].
Qed.

Lemma measure_init (xs : list (ComplexType F)) :
  measure T (init xs) = (2 * length xs + 4 * Z.to_nat T)%nat.
Proof using empty_in empty_out.
  unfold measure, sys_init, kthread_init. cbn [to_send inp kern outp l_i].
  rewrite empty_in, empty_out.
  destruct (Z.ltb_spec 0 T); cbn [kmeasure length l_i]; lia.
Qed.

(** C14: Every schedule terminates.  For every [num_rows] and every stream,
    a run of the pipeline from empty pipes, whatever the order in which
    the producer, the kernel and the consumer move, has at most two steps
    per element of the stream and four per iteration of the loop; and its
    length is the number of pipe operations it has performed: two for
    every element that has left the producer, less one for those still in
    the input pipe, and two for every value that the consumer holds, plus
    one for those in the output pipe. *)
Theorem pipeline_terminates (xs : list (ComplexType F)) (k : nat)
    (s : sys F Pin Pout) :
  nsteps n T k (init xs) s ->
  (k <= 2 * length xs + 4 * Z.to_nat T)%nat /\
  (k + 2 * length (to_send s) + length (contents (inp s))
   = 2 * length xs + 2 * length (received s) + length (contents (outp s)))%nat.
Proof using empty_in empty_out.
  intros St. split.
  - rewrite <- measure_init.
    destruct (nsteps_measure n T (total_reads_in_int n) xs [] pin0 pout0 k _ _
                (inv_init _ _ xs _ _ empty_in empty_out) St) as [Hm _].
    lia.
  - pose proof (nsteps_account n T k _ _ St) as H.
    unfold upstream, downstream, sys_init in H.
    cbn [to_send inp outp received] in H.
    rewrite empty_in, empty_out in H. simpl in H. lia.
Qed.

(** C26: What the consumer has received is always a prefix of the
    specified output.  For every [num_rows] below [int_max = 2^31 - 1] and
    a stream of at most [num_rows * (num_rows + 1) / 2] elements, in every
    reachable state of the pipeline the values received so far are the
    first values of [kernel_output]: none is wrong, out of order or
    duplicated. *)
Theorem pipeline_received_prefix (xs : list (ComplexType F))
    (s : sys F Pin Pout) :
  0 <= n < int_max -> (length xs <= tri (Z.to_nat n))%nat ->
  steps n T (init xs) s ->
  exists rest, kernel_output n xs = received s ++ rest.
Proof using empty_in empty_out.
  intros Hn Hl St. rewrite <- emitted_trajectory by assumption.
  exact (inv_received n T xs [] pin0 pout0 s (reachable_inv xs s St)).
Qed.

(** From empty pipes, no reachable state holds more than the depth of a
    pipe in it. *)
Lemma reachable_depths (xs : list (ComplexType F)) (s : sys F Pin Pout)
    (din dout : nat) :
  capacity pin0 = Some din -> capacity pout0 = Some dout ->
  steps n T (init xs) s ->
  (length (contents (inp s)) <= din)%nat /\
  (length (contents (outp s)) <= dout)%nat.
Proof using empty_in empty_out.
  intros Hi Ho St. destruct (reachable_inv xs s St) as [done outs _ _ _ Ci Co].
  assert (H0 : within_depth (init xs)).
  { unfold within_depth, has_room. cbn [sys_init inp outp].
    rewrite Hi, Ho, empty_in, empty_out. simpl. lia. }
  destruct (steps_within_depth n T _ _ St H0) as [Wi Wo].
  unfold has_room in Wi, Wo. rewrite Ci, Hi in Wi. rewrite Co, Ho in Wo. lia.
Qed.

(** Both pipes have depth at least one; the producer sends one element per
    iteration of the loop. *)
Hypothesis depth_in : positive_depth pin0.
Hypothesis depth_out : positive_depth pout0.

(** C12: No deadlock.  For every [num_rows], with pipes of depth at least
    one and a producer that sends exactly [total_reads] elements, every
    reachable state of the pipeline is the finished one or has a component
    that can move. *)
Theorem pipeline_deadlock_free (xs : list (ComplexType F))
    (s : sys F Pin Pout) :
  length xs = Z.to_nat T ->
  steps n T (init xs) s ->
  finished s \/ exists s', step n T s s'.
Proof using empty_in empty_out depth_in depth_out.
  intros Hl St. apply (progress n T xs [] pin0 pout0); auto using reachable_inv.
Qed.

(** C23: A short stream stalls the pipeline in the read.  For [num_rows]
    up to 65535, with pipes of depth at least one and a producer that
    sends fewer than [num_rows * (num_rows + 1) / 2] elements, a reachable
    state in which no component can move has the kernel waiting in its
    read with both pipes empty, and the consumer has received the
    reciprocals of the rows started so far; the pipeline never finishes
    and never delivers a wrong value. *)
Theorem pipeline_stalls_on_short_stream (xs : list (ComplexType F))
    (s : sys F Pin Pout) :
  0 <= n <= max_rows -> (length xs < tri (Z.to_nat n))%nat ->
  steps n T (init xs) s -> stuck n T s ->
  stalled T s /\ ~ finished s /\ received s = kernel_output n xs.
Proof using empty_in empty_out depth_in depth_out.
  intros Hn Hl St Hs. rewrite <- emitted_trajectory by (auto with diag; lia).
  pose proof (total_reads_tri n Hn) as HT.
  pose proof (reachable_inv xs s St) as Hi.
  destruct (rest_or_step n T xs [] pin0 pout0 depth_in depth_out s Hi)
    as [Hr|[s' S']]; [|elim (Hs s' S')].
  destruct (kern s) as [l|l v|l] eqn:Ek.
  - destruct (at_rest_read n T xs [] pin0 pout0 s l Hi Hr Ek) as (_ & Hst & Hw).
    split; [exact Hst|split; [|exact Hw]].
    intros (_ & _ & [l' E'] & _). congruence.
  - destruct Hr as [_ Hr]. now rewrite Ek in Hr.
  - destruct (at_rest_done n T xs [] pin0 pout0 s l Hi Hr Ek). lia.
Qed.

(** C38: A long stream leaves its excess behind.  For [num_rows] up to
    65535, with pipes of depth at least one and a producer that holds more
    than [num_rows * (num_rows + 1) / 2] elements, a reachable state in
    which no component can move has the kernel done and the output pipe
    drained; the consumer has received the output of the first
    [num_rows * (num_rows + 1) / 2] elements, and the elements in excess
    are in the input pipe or with the producer, in order, where the next
    invocation finds them. *)
Theorem pipeline_leaves_excess (xs : list (ComplexType F))
    (s : sys F Pin Pout) :
  0 <= n <= max_rows -> (tri (Z.to_nat n) < length xs)%nat ->
  steps n T (init xs) s -> stuck n T s ->
  (exists l, kern s = KDone l) /\ contents (outp s) = [] /\
  received s = kernel_output n (firstn (tri (Z.to_nat n)) xs) /\
  contents (inp s) ++ to_send s = skipn (tri (Z.to_nat n)) xs.
Proof using empty_in empty_out depth_in depth_out.
  intros Hn Hl St Hs. pose proof (reachable_inv xs s St) as Hi.
  assert (HT : Z.to_nat T = tri (Z.to_nat n))
    by (rewrite total_reads_tri by assumption; lia).
  destruct (rest_or_step n T xs [] pin0 pout0 depth_in depth_out s Hi)
    as [Hr|[s' S']]; [|elim (Hs s' S')].
  destruct (kern s) as [l|l v|l] eqn:Ek.
  - destruct (at_rest_read n T xs [] pin0 pout0 s l Hi Hr Ek). lia.
  - destruct Hr as [_ Hr]. now rewrite Ek in Hr.
  - destruct (at_rest_done n T xs [] pin0 pout0 s l Hi Hr Ek) as (_ & Hw & Hrest).
    rewrite HT in *. rewrite <- emitted_trajectory
      by (rewrite ?length_firstn; auto with diag; lia).
    destruct Hr. eauto.
Qed.

Variable R : @matrix F.
Hypothesis n_small : 0 <= n <= max_rows.

Lemma pack_stream_length : length (pack n R) = Z.to_nat T.
Proof using n_small.
  rewrite pack_length, total_reads_tri by auto with diag. lia.
Qed.

Lemma finished_spec (s : sys F Pin Pout) :
  inv (pack n R) s -> finished s -> received s = spec_output n R.
Proof using n_small.
  intros Hi Hf.
  rewrite (finished_received n T _ [] pin0 pout0 pack_stream_length s Hi Hf).
  apply written_pack. auto with diag.
Qed.

(** C6: Every schedule ends with the specified output.  For [num_rows] up
    to 65535, with pipes of depth at least one and a producer that sends
    the packing of [R], a reachable state in which no component can move
    is the finished state; there the consumer has received the
    reciprocals of the real parts of the diagonal of [R], in row order;
    and the run that led there, whatever its order, has exactly
    [num_rows * (num_rows + 1) + 2 * num_rows] steps: a write and a read
    for each element of the triangle and for each reciprocal. *)
Theorem pipeline_schedule_independent (k : nat) (s : sys F Pin Pout) :
  nsteps n T k (init (pack n R)) s -> stuck n T s ->
  finished s /\ received s = spec_output n R /\
  Z.of_nat k = n * (n + 1) + 2 * n.
Proof using empty_in empty_out depth_in depth_out n_small.
  intros St Hs. pose proof (reachable_inv _ _ (nsteps_steps _ _ _ _ _ St)) as Hi.
  destruct (progress n T _ [] pin0 pout0 depth_in depth_out pack_stream_length
              s Hi) as [Hf|[s' S']]; [|elim (Hs s' S')].
  pose proof (finished_spec s Hi Hf) as Hr.
  split; [exact Hf|]. split; [exact Hr|].
  pose proof (nsteps_account n T k _ _ St) as H.
  destruct Hf as (Hts & Hin & _ & Hout).
  unfold upstream, downstream, sys_init in H.
  cbn [to_send inp outp received] in H.
  rewrite Hts, Hin, Hout, Hr, empty_in, empty_out, pack_length in H
    by auto with diag.
  unfold spec_output, diagonal in H. autorewrite with list_len in H.
  pose proof (tri_double (Z.to_nat n)). simpl in H. nia.
Qed.

End Results.

(** ** The example of the specification, scheduled

    The 3 x 3 example in single precision, through pipes of depth one. *)

Definition pipe1 (A : Type) : bfifo A := bfifo_empty 1.

Definition sys32 : Type :=
  sys spec_float (bfifo (ComplexType spec_float)) (bfifo spec_float).

Definition example_init : sys32 :=
  sys_init (total_reads 3) (@pack _ 3 example_matrix) (pipe1 _) (pipe1 _).

(** One schedule among many: each element is produced and read at once,
    each reciprocal consumed as soon as it is written. *)
Definition example_schedule : list component :=
  [Producer; Kernel; Kernel; Consumer;
   Producer; Kernel; Producer; Kernel;
   Producer; Kernel; Kernel; Consumer;
   Producer; Kernel;
   Producer; Kernel; Kernel; Consumer].

Definition example_final : sys32 :=
  mkSys [] (pipe1 _) (KDone (mkLocals 6 (pos_end 3))) (pipe1 _) example_output.

Lemma pipe1_depth (A : Type) : positive_depth (pipe1 A).
Proof. intros c [= <-]. apply le_n. Qed.

Lemma example_schedule_runs :
  @run_schedule _ binary32 _ _ bfifo_pipe bfifo_pipe 3 (total_reads 3)
    example_schedule example_init = Some example_final.
Proof. vm_compute. reflexivity. Qed.

Lemma example_final_stuck :
  @stuck _ binary32 _ _ bfifo_pipe bfifo_pipe 3 (total_reads 3) example_final.
Proof. apply stuck_iff. intros []; reflexivity. Qed.

(** The same run when the last element is never sent. *)
Definition example_short : list (ComplexType spec_float) :=
  firstn 5 example_input.

Definition example_stalled : sys32 :=
  mkSys [] (pipe1 _) (KRead (mkLocals 5 (mkPos 3 3))) (pipe1 _)
        (firstn 2 example_output).

Lemma example_short_runs :
  @run_schedule _ binary32 _ _ bfifo_pipe bfifo_pipe 3 (total_reads 3)
    (firstn 14 example_schedule)
    (sys_init (total_reads 3) example_short (pipe1 _) (pipe1 _))
  = Some example_stalled.
Proof. vm_compute. reflexivity. Qed.

Lemma example_stalled_stuck :
  @stuck _ binary32 _ _ bfifo_pipe bfifo_pipe 3 (total_reads 3) example_stalled.
Proof. apply stuck_iff. intros []; reflexivity. Qed.

Lemma pipeline_stalls_on_short_stream_witness :
  stalled (total_reads 3) example_stalled /\ ~ finished example_stalled /\
  received example_stalled = @kernel_output _ binary32 3 example_short.
Proof.
  apply (@pipeline_stalls_on_short_stream _ binary32 _ _ bfifo_pipe bfifo_pipe
           3 (pipe1 _) (pipe1 _) eq_refl eq_refl
           (pipe1_depth _) (pipe1_depth _)).
  - unfold max_rows; lia.
  - apply Nat.lt_succ_diag_r.
  - eapply nsteps_steps, run_schedule_nsteps, example_short_runs.
  - exact example_stalled_stuck.
Defined.

(** The same run when the producer holds one element too many. *)
Definition example_long : list (ComplexType spec_float) :=
  example_input ++ [@complex_of_int binary32 7 7].

Definition example_excess : sys32 :=
  mkSys [] (mkBfifo 1 [@complex_of_int binary32 7 7])
        (KDone (mkLocals 6 (pos_end 3))) (pipe1 _) example_output.

Lemma example_long_runs :
  @run_schedule _ binary32 _ _ bfifo_pipe bfifo_pipe 3 (total_reads 3)
    (example_schedule ++ [Producer])
    (sys_init (total_reads 3) example_long (pipe1 _) (pipe1 _))
  = Some example_excess.
Proof. vm_compute. reflexivity. Qed.

Lemma example_excess_stuck :
  @stuck _ binary32 _ _ bfifo_pipe bfifo_pipe 3 (total_reads 3) example_excess.
Proof. apply stuck_iff. intros []; reflexivity. Qed.

Lemma pipeline_leaves_excess_witness :
  (exists l, kern example_excess = KDone l) /\
  contents (outp example_excess) = [] /\
  received example_excess
    = @kernel_output _ binary32 3 (firstn (tri (Z.to_nat 3)) example_long) /\
  contents (inp example_excess) ++ to_send example_excess
    = skipn (tri (Z.to_nat 3)) example_long.
Proof.
  apply (@pipeline_leaves_excess _ binary32 _ _ bfifo_pipe bfifo_pipe
           3 (pipe1 _) (pipe1 _) eq_refl eq_refl
           (pipe1_depth _) (pipe1_depth _)).
  - unfold max_rows; lia.
  - apply Nat.lt_succ_diag_r.
  - eapply nsteps_steps, run_schedule_nsteps, example_long_runs.
  - exact example_excess_stuck.
Defined.

Lemma pipeline_terminates_witness :
  (length example_schedule
   <= 2 * length (@pack _ 3 example_matrix) + 4 * Z.to_nat (total_reads 3))%nat /\
  (length example_schedule + 2 * length (to_send example_final)
     + length (contents (inp example_final))
   = 2 * length (@pack _ 3 example_matrix) + 2 * length (received example_final)
     + length (contents (outp example_final)))%nat.
Proof.
  apply (@pipeline_terminates _ binary32 _ _ bfifo_pipe bfifo_pipe 3
           (pipe1 _) (pipe1 _) eq_refl eq_refl _ _ example_final).
  apply run_schedule_nsteps, example_schedule_runs.
Defined.

(** The state after the producer has sent two elements and the kernel has
    read one: the second waits in the input pipe, the kernel is about to
    write [0.5]. *)
Definition example_middle : sys32 :=
  mkSys (skipn 2 (@pack _ 3 example_matrix))
        (mkBfifo 1 [@complex_of_int binary32 9 0])
        (KWrite (mkLocals 0 pos_init) (float32 8388608 (-24)))
        (pipe1 _) [].

Lemma example_middle_runs :
  @run_schedule _ binary32 _ _ bfifo_pipe bfifo_pipe 3 (total_reads 3)
    [Producer; Kernel; Producer] example_init = Some example_middle.
Proof. vm_compute. reflexivity. Qed.

Lemma pipeline_received_prefix_witness :
  exists rest,
    @kernel_output _ binary32 3 (@pack _ 3 example_matrix)
    = received example_final ++ rest.
Proof.
  apply (@pipeline_received_prefix _ binary32 _ _ bfifo_pipe bfifo_pipe 3
           (pipe1 _) (pipe1 _) eq_refl eq_refl).
  - now split.
  - apply Nat.le_refl.
  - eapply nsteps_steps, run_schedule_nsteps, example_schedule_runs.
Defined.

Lemma pipeline_deadlock_free_witness :
  finished example_middle \/
  exists s', @step _ binary32 _ _ bfifo_pipe bfifo_pipe 3 (total_reads 3)
               example_middle s'.
Proof.
  apply (@pipeline_deadlock_free _ binary32 _ _ bfifo_pipe bfifo_pipe 3
           (pipe1 _) (pipe1 _) eq_refl eq_refl
           (pipe1_depth _) (pipe1_depth _)
           (@pack _ 3 example_matrix) example_middle).
  - reflexivity.
  - eapply nsteps_steps, run_schedule_nsteps, example_middle_runs.
Defined.

Lemma pipeline_schedule_independent_witness :
  finished example_final /\
  received example_final = @spec_output _ binary32 3 example_matrix /\
  Z.of_nat (length example_schedule) = 3 * (3 + 1) + 2 * 3.
Proof.
  apply (@pipeline_schedule_independent _ binary32 _ _ bfifo_pipe bfifo_pipe 3
           (pipe1 _) (pipe1 _) eq_refl eq_refl
           (pipe1_depth _) (pipe1_depth _) example_matrix).
  - unfold max_rows; lia.
  - apply run_schedule_nsteps, example_schedule_runs.
  - exact example_final_stuck.
Defined.
