(* ===== verification/Determinacy.v ===== *)
(** * Determinacy: the order of the moves does not matter

    The producer, the kernel and the consumer share nothing but the two
    pipes, and each pipe has one writer and one reader.  So two different
    components that can both move do not disable each other, and the two
    orders lead to the same contents of the pipes ([step_diamond]).  The
    pipes are abstract: the two orders need not lead to the same
    representation, only to pipes that hold the same elements and have the
    same depth.  States are therefore compared up to [sys_equiv], the
    equivalence of the pipes of [Pipe] lifted to the pipeline; the
    operations of the pipeline respect it ([Proper] instances) and
    equivalent states are bisimilar ([step_sim]).  The pipeline is then
    confluent up to this equivalence, for every [num_rows], every stream
    and every pipe: two schedules from one state can always be continued
    to equivalent states, and the state in which a schedule ends does not
    depend on the schedule. *)

From Stdlib Require Import ZArith List Lia Bool SpecFloat.
From Stdlib Require Import Relations Morphisms RelationClasses.
From Stdlib Require Relations_3_facts.
From S2P Require Import Prelude MachineInt Scalar Pipe TriIndex Packed.
From S2P Require Import Blocking Kernel KernelLoop Spec Correctness Safety.
From S2P Require Import Pipeline Schedule.
Import ListNotations.

#[local] Open Scope Z_scope.

(** ** Confluence up to an equivalence *)

(** A relation [R] of which the equivalence [E] is a bisimulation, and
    whose one-step divergences are closed by at most one step on each
    side, up to [E]. *)
Section Modulo.
Context {A : Type} (R E : relation A) `{!Equivalence E}.

Hypothesis sim : forall s t s', E s t -> R s s' -> exists t', R t t' /\ E s' t'.
Hypothesis diamond : forall s s1 s2, R s s1 -> R s s2 ->
  E s1 s2 \/ exists t1 t2, R s1 t1 /\ R s2 t2 /\ E t1 t2.

#[local] Abbreviation star := (clos_refl_trans_1n A R).

(** At most one step, up to [E]. *)
Definition step_mod (s t : A) : Prop := E s t \/ exists s', R s s' /\ E s' t.

Lemma step_mod_equiv_l (s s' t : A) : E s s' -> step_mod s t -> step_mod s' t.
Proof using sim Equivalence0.
  intros Hs [H|(u & Hu & H)].
  - left. now rewrite <- Hs.
  - destruct (sim _ _ _ Hs Hu) as (u' & Hu' & He).
    right. exists u'. split; [exact Hu'|]. now rewrite <- He.
Qed.

Lemma step_mod_strongly_confluent : Relations_2.Strongly_confluent A step_mod.
Proof using sim diamond Equivalence0.
  intros s s1 s2 [H1|(u1 & R1 & H1)] H2.
  - exists s2. split; [|now left]. exact (step_mod_equiv_l _ _ _ H1 H2).
  - destruct H2 as [H2|(u2 & R2 & H2)].
    + exists s1. split; [now left|].
      apply (step_mod_equiv_l s); [exact H2|]. right. eauto.
    + destruct (diamond _ _ _ R1 R2) as [He|(t1 & t2 & T1 & T2 & He)].
      * exists s1. split; left; [reflexivity|].
        now rewrite <- H2, <- He, H1.
      * exists t1. split.
        -- apply (step_mod_equiv_l u1); [exact H1|]. right. exists t1.
           split; [exact T1|reflexivity].
        -- apply (step_mod_equiv_l u2); [exact H2|]. right. exists t2.
           split; [exact T2|now symmetry].
Qed.

(** Equivalent states have equivalent runs. *)
Lemma star_sim (s t s' : A) :
  E s t -> star s s' -> exists t', star t t' /\ E s' t'.
Proof using sim.
  intros He St. revert t He.
  induction St as [s|s1 s2 s3 S12 _ IH]; intros t He.
  - exists t. split; [constructor|exact He].
  - destruct (sim _ _ _ He S12) as (t2 & T12 & He2).
    destruct (IH _ He2) as (t3 & T23 & He3).
    exists t3. split; [econstructor; eauto|exact He3].
Qed.

Lemma star_step_mod (s t : A) : star s t -> Relations_2.Rstar A step_mod s t.
Proof using Equivalence0.
  induction 1 as [s|s1 s2 s3 S12 _ IH]; [constructor|].
  apply Relations_2.Rstar_n with s2; [|exact IH]. right. exists s2. split; [exact S12|reflexivity].
Qed.

Lemma step_mod_star (s t : A) :
  Relations_2.Rstar A step_mod s t -> exists t', star s t' /\ E t' t.
Proof using sim Equivalence0.
  induction 1 as [s|s1 s2 s3 [He|(u & S1 & He)] _ (t' & St & Ht)].
  - exists s. split; [constructor|reflexivity].
  - destruct (star_sim s2 s1 t' (symmetry He) St) as (t1 & St1 & He1).
    exists t1. split; [exact St1|]. now rewrite <- He1.
  - destruct (star_sim s2 u t' (symmetry He) St) as (t1 & St1 & He1).
    exists t1. split; [econstructor; eauto|]. now rewrite <- He1.
Qed.

(** Two runs from one state can be continued to equivalent states. *)
Lemma confluent_modulo (s s1 s2 : A) :
  star s s1 -> star s s2 ->
  exists t1 t2, star s1 t1 /\ star s2 t2 /\ E t1 t2.
Proof using sim diamond Equivalence0.
  intros S1 S2.
  destruct (Relations_3_facts.Strong_confluence A step_mod step_mod_strongly_confluent s s1 s2
              (star_step_mod _ _ S1) (star_step_mod _ _ S2)) as (t & T1 & T2).
  destruct (step_mod_star _ _ T1) as (t1 & St1 & He1).
  destruct (step_mod_star _ _ T2) as (t2 & St2 & He2).
  exists t1, t2. repeat split; auto. now rewrite He1, He2.
Qed.

(** Two runs from one state that both end where nothing can move end in
    equivalent states. *)
Lemma normal_form_modulo (s s1 s2 : A) :
  star s s1 -> star s s2 ->
  (forall t, ~ R s1 t) -> (forall t, ~ R s2 t) -> E s1 s2.
Proof using sim diamond Equivalence0.
  intros S1 S2 N1 N2.
  destruct (confluent_modulo s s1 s2 S1 S2) as (t1 & t2 & T1 & T2 & He).
  destruct T1 as [|u1 ? U1 _]; [|elim (N1 _ U1)].
  destruct T2 as [|u2 ? U2 _]; [|elim (N2 _ U2)].
  exact He.
Qed.
End Modulo.

(** ** The pipeline up to its pipes *)

Section Determinacy.
Context {F : Type} {SF : Scalar F}.
Context {Pin Pout : Type} {PI : Pipe Pin (ComplexType F)} {PO : Pipe Pout F}.

Variables num_rows total : Z.

#[local] Abbreviation kthread := (kthread F).
#[local] Abbreviation sys := (sys F Pin Pout).
#[local] Abbreviation kstep := (@kstep F SF Pin Pout PI PO num_rows total).
#[local] Abbreviation step := (@step F SF Pin Pout PI PO num_rows total).
#[local] Abbreviation steps := (@steps F SF Pin Pout PI PO num_rows total).
#[local] Abbreviation stuck := (@stuck F SF Pin Pout PI PO num_rows total).
#[local] Abbreviation sys_step := (@sys_step F SF Pin Pout PI PO num_rows total).

(** Two states of the pipeline with the same producer, kernel and
    consumer, and pipes that hold the same elements. *)
Record sys_equiv (s t : sys) : Prop := mkSysEquiv {
  equiv_to_send : to_send s = to_send t;
  equiv_inp : pipe_equiv (inp s) (inp t);
  equiv_kern : kern s = kern t;
  equiv_outp : pipe_equiv (outp s) (outp t);
  equiv_received : received s = received t
}.

#[export] Instance sys_equiv_equivalence : Equivalence sys_equiv.
Proof.
  split.
  - intros s. split; reflexivity.
  - intros s t [? ? ? ? ?]. split; now symmetry.
  - intros s t u [? ? ? ? ?] [? ? ? ? ?]. split; etransitivity; eauto.
Qed.

(** *** The operations respect the equivalence *)

#[export] Instance kstep_proper :
  Proper (eq ==> pipe_equiv ==> pipe_equiv
          ==> option_rel (pair_rel (pair_rel eq pipe_equiv) pipe_equiv)) kstep.
Proof.
  intros k _ <- pin pin' Ei pout pout' Eo.
  destruct k as [l|l v|l]; cbn [Pipeline.kstep]; [| |constructor].
  - destruct (read_proper _ _ Ei) as [[x p] [y q] [Hx Hp]|]; [|constructor].
    cbn in Hx, Hp. subst y.
    destruct (on_diag (l_pos l)); constructor; (split; [split|]); auto.
  - destruct (write_proper v v eq_refl _ _ Eo) as [p q Hp|]; constructor.
    split; [split|]; auto.
Qed.

#[export] Instance sys_step_proper :
  Proper (eq ==> sys_equiv ==> option_rel sys_equiv) sys_step.
Proof.
  intros c _ <- s t [Ets Ei Ek Eo Er]. destruct c; cbn [Pipeline.sys_step].
  - rewrite <- Ets. destruct (to_send s) as [|x rest]; [constructor|].
    apply (option_map_rel pipe_equiv); [|now apply write_proper].
    intros p q Hp. split; cbn; auto.
  - rewrite <- Ek.
    apply (option_map_rel (pair_rel (pair_rel eq pipe_equiv) pipe_equiv));
      [|now apply kstep_proper].
    intros [[k p] q] [[k' p'] q'] [[Hk Hp] Hq]. cbn in Hk, Hp, Hq.
    split; cbn; auto.
  - apply (option_map_rel (pair_rel eq pipe_equiv)); [|now apply read_proper].
    intros [v p] [v' p'] [Hv Hp]. cbn in Hv, Hp. split; cbn; auto. congruence.
Qed.

#[export] Instance finished_proper : Proper (sys_equiv ==> iff) finished.
Proof.
  intros s t [Ets Ei Ek Eo Er]. unfold finished.
  now rewrite Ets, Ei, Ek, Eo.
Qed.

#[export] Instance stalled_proper : Proper (sys_equiv ==> iff) (stalled total).
Proof.
  intros s t [Ets Ei Ek Eo Er]. unfold stalled.
  now rewrite Ets, Ei, Ek, Eo.
Qed.

(** Equivalent states are bisimilar. *)
Lemma step_sim (s t s' : sys) :
  sys_equiv s t -> step s s' -> exists t', step t t' /\ sys_equiv s' t'.
Proof.
  intros He St. destruct (sys_step_complete _ _ _ _ St) as [c Hc].
  pose proof (sys_step_proper c c eq_refl s t He) as Hr. rewrite Hc in Hr.
  apply option_rel_Some_l in Hr. destruct Hr as (t' & Ht & He').
  eauto using sys_step_sound.
Qed.

#[export] Instance stuck_proper : Proper (sys_equiv ==> iff) stuck.
Proof.
  assert (H : forall s t, sys_equiv s t -> stuck s -> stuck t).
  { intros s t He Hs t' St.
    destruct (step_sim t s t' (symmetry He) St) as (s' & Ss & _).
    exact (Hs s' Ss). }
  intros s t He. split; apply H; [exact He|now symmetry].
Qed.

(** *** Different components commute *)

(** The kernel and the writer of its input pipe. *)
Lemma kstep_write_in (k k' : kthread) (pin pin1 pin2 : Pin) (pout pout1 : Pout)
    (y : ComplexType F) :
  kstep k pin pout = Some (k', pin1, pout1) -> write y pin = Some pin2 ->
  exists pin12 pin21,
    write y pin1 = Some pin12 /\
    kstep k pin2 pout = Some (k', pin21, pout1) /\ pipe_equiv pin12 pin21.
Proof.
  intros K W. destruct k as [l|l v|l]; cbn [Pipeline.kstep] in *; [| |discriminate].
  - destruct (read pin) as [[x p]|] eqn:R; [|discriminate].
    destruct (write_read_commute _ _ _ _ _ R W) as (p12 & p21 & W1 & -> & He).
    exists p12, p21.
    destruct (on_diag (l_pos l)); injection K as <- <- <-; auto.
  - destruct (write v pout) as [q|]; [|discriminate]. injection K as <- <- <-.
    exists pin2, pin2. repeat split; auto.
Qed.

(** The kernel and the reader of its output pipe. *)
Lemma kstep_read_out (k k' : kthread) (pin pin1 : Pin) (pout pout1 pout2 : Pout)
    (v : F) :
  kstep k pin pout = Some (k', pin1, pout1) -> read pout = Some (v, pout2) ->
  exists pout12 pout21,
    kstep k pin pout2 = Some (k', pin1, pout12) /\
    read pout1 = Some (v, pout21) /\ pipe_equiv pout12 pout21.
Proof.
  intros K R. destruct k as [l|l w|l]; cbn [Pipeline.kstep] in *; [| |discriminate].
  - destruct (read pin) as [[x p]|]; [|discriminate].
    exists pout2, pout2.
    destruct (on_diag (l_pos l)); injection K as <- <- <-; repeat split; auto.
  - destruct (write w pout) as [q|] eqn:W; [|discriminate]. injection K as <- <- <-.
    destruct (write_read_commute _ _ _ _ _ R W) as (p12 & p21 & -> & R2 & He).
    eauto.
Qed.

(** Two states from which one step each leads to equivalent states. *)
Definition joins (s1 s2 : sys) : Prop :=
  exists t1 t2, step s1 t1 /\ step s2 t2 /\ sys_equiv t1 t2.

#[export] Instance joins_symmetric : Symmetric joins.
Proof.
  intros s1 s2 (t1 & t2 & T1 & T2 & He). exists t2, t1.
  split; [|split]; auto. now symmetry.
Qed.

Lemma produce_kernel_commute (s : sys) x rest p' k' pin' pout' :
  to_send s = x :: rest -> write x (inp s) = Some p' ->
  kstep (kern s) (inp s) (outp s) = Some (k', pin', pout') ->
  joins (mkSys rest p' (kern s) (outp s) (received s))
        (mkSys (to_send s) pin' k' pout' (received s)).
Proof.
  intros Et W K.
  destruct (kstep_write_in _ _ _ _ _ _ _ _ K W) as (p12 & p21 & W1 & K2 & He).
  exists (mkSys rest p21 k' pout' (received s)),
         (mkSys rest p12 k' pout' (received s)).
  split; [|split].
  - now apply (step_kernel _ _ (mkSys rest p' (kern s) (outp s) (received s))).
  - now apply (step_produce _ _ (mkSys (to_send s) pin' k' pout' (received s)) x).
  - split; cbn; auto; [now symmetry|reflexivity].
Qed.

Lemma kernel_consume_commute (s : sys) k' pin' pout' v q' :
  kstep (kern s) (inp s) (outp s) = Some (k', pin', pout') ->
  read (outp s) = Some (v, q') ->
  joins (mkSys (to_send s) pin' k' pout' (received s))
        (mkSys (to_send s) (inp s) (kern s) q' (received s ++ [v])).
Proof.
  intros K R.
  destruct (kstep_read_out _ _ _ _ _ _ _ _ K R) as (q12 & q21 & K2 & R1 & He).
  exists (mkSys (to_send s) pin' k' q21 (received s ++ [v])),
         (mkSys (to_send s) pin' k' q12 (received s ++ [v])).
  split; [|split].
  - now apply (step_consume _ _ (mkSys (to_send s) pin' k' pout' (received s))).
  - now apply (step_kernel _ _
                 (mkSys (to_send s) (inp s) (kern s) q' (received s ++ [v]))).
  - split; cbn; auto; [reflexivity|now symmetry].
Qed.

Lemma produce_consume_commute (s : sys) x rest p' v q' :
  to_send s = x :: rest -> write x (inp s) = Some p' ->
  read (outp s) = Some (v, q') ->
  joins (mkSys rest p' (kern s) (outp s) (received s))
        (mkSys (to_send s) (inp s) (kern s) q' (received s ++ [v])).
Proof.
  intros Et W R.
  exists (mkSys rest p' (kern s) q' (received s ++ [v])),
         (mkSys rest p' (kern s) q' (received s ++ [v])).
  split; [|split; [|reflexivity]].
  - now apply (step_consume _ _ (mkSys rest p' (kern s) (outp s) (received s))).
  - now apply (step_produce _ _
                 (mkSys (to_send s) (inp s) (kern s) q' (received s ++ [v])) x).
Qed.

(** Two moves from one state: the same move, or two moves that commute. *)
Lemma step_diamond (s s1 s2 : sys) :
  step s s1 -> step s s2 -> sys_equiv s1 s2 \/ joins s1 s2.
Proof.
  intros S1 S2.
  destruct S1 as [s x rest p' Et W|s k' pin' pout' K|s v p' R];
    destruct S2 as [s y rest2 p2 Et2 W2|s k2 pin2 pout2 K2|s v2 p2 R2].
  - left. rewrite Et in Et2. injection Et2 as <- <-.
    rewrite W in W2. injection W2 as <-. reflexivity.
  - right. eauto using produce_kernel_commute.
  - right. eauto using produce_consume_commute.
  - right. symmetry. eauto using produce_kernel_commute.
  - left. rewrite K in K2. injection K2 as <- <- <-. reflexivity.
  - right. eauto using kernel_consume_commute.
  - right. symmetry. eauto using produce_consume_commute.
  - right. symmetry. eauto using kernel_consume_commute.
  - left. rewrite R in R2. injection R2 as <- <-. reflexivity.
Qed.

(** What a run that cannot be continued has delivered, and whether it
    has finished or stalled, is the same for every such run. *)
Corollary outcome_unique (s s1 s2 : sys) :
  steps s s1 -> steps s s2 -> stuck s1 -> stuck s2 ->
  received s1 = received s2 /\
  (finished s1 <-> finished s2) /\ (stalled total s1 <-> stalled total s2).
Proof.
  intros S1 S2 N1 N2.
  pose proof (normal_form_modulo _ _ step_sim step_diamond s s1 s2 S1 S2 N1 N2)
    as He.
  split; [apply He|]. now rewrite He.
Qed.

(** ** Theorems *)

(** C13: The pipeline is determinate.  For every [num_rows], every stream
    and every pair of pipes, in every state: two schedules can always be
    continued so that they meet, in states with the same producer,
    kernel and consumer and pipes that hold the same elements; and two
    schedules that run until nothing can move end in such states.  The
    elements received, the elements left in the pipes and the point at
    which the kernel stands at the end do not depend on the order in
    which the producer, the kernel and the consumer were scheduled. *)
Theorem pipeline_confluent (s s1 s2 : sys) :
  steps s s1 -> steps s s2 ->
  (exists t1 t2, steps s1 t1 /\ steps s2 t2 /\ sys_equiv t1 t2) /\
  (stuck s1 -> stuck s2 -> sys_equiv s1 s2).
Proof.
  intros S1 S2. split.
  - exact (confluent_modulo _ _ step_sim step_diamond s s1 s2 S1 S2).
  - exact (normal_form_modulo _ _ step_sim step_diamond s s1 s2 S1 S2).
Qed.
End Determinacy.

(** ** Two schedules of the example *)

(** The state after the first element has been produced and read, and its
    reciprocal written and consumed. *)
Definition example_served : sys32 :=
  mkSys (skipn 1 (@pack _ 3 example_matrix)) (pipe1 _)
        (KRead (mkLocals 1 (mkPos 1 2))) (pipe1 _) [float32 8388608 (-24)].

Lemma example_served_runs :
  @run_schedule _ binary32 _ _ bfifo_pipe bfifo_pipe 3 (total_reads 3)
    [Producer; Kernel; Kernel; Consumer] example_init = Some example_served.
Proof. vm_compute. reflexivity. Qed.

(** A schedule in which the producer has run ahead and one in which the
    consumer has been served first can be continued so that they meet. *)
Lemma pipeline_confluent_witness :
  (exists t1 t2,
     @steps _ binary32 _ _ bfifo_pipe bfifo_pipe 3 (total_reads 3)
       example_middle t1 /\
     @steps _ binary32 _ _ bfifo_pipe bfifo_pipe 3 (total_reads 3)
       example_served t2 /\
     sys_equiv t1 t2) /\
  (@stuck _ binary32 _ _ bfifo_pipe bfifo_pipe 3 (total_reads 3) example_middle ->
   @stuck _ binary32 _ _ bfifo_pipe bfifo_pipe 3 (total_reads 3) example_served ->
   sys_equiv example_middle example_served).
Proof.
  apply (@pipeline_confluent _ binary32 _ _ bfifo_pipe bfifo_pipe 3
           (total_reads 3) example_init);
    eapply nsteps_steps, run_schedule_nsteps;
    [apply example_middle_runs | apply example_served_runs].
Defined.
