(* ===== verification/Backpressure.v ===== *)
(** * Backpressure: a slow consumer holds the producer back

    The pipes are the only flow control of the pipeline.  A consumer that
    has taken [c] values leaves room for [dout] more in the output pipe;
    the kernel then suspends in the write of the next one, which it
    attempts as soon as it has read the head of row [c + dout + 1], and
    reads nothing more; the producer fills the input pipe and waits in
    turn.  So the number of elements that have left the producer is
    bounded by a function of the number of values that the consumer has
    taken, in every reachable state and whatever the schedule; the
    example shows that the bound is attained. *)

From Stdlib Require Import ZArith List Lia Bool Relations SpecFloat.
From S2P Require Import Prelude MachineInt Scalar Pipe TriIndex Packed.
From S2P Require Import Blocking Kernel KernelLoop Spec Correctness Safety.
From S2P Require Import Pipeline Schedule.
Import ListNotations.

#[local] Open Scope Z_scope.

Section Backpressure.
Context {F : Type} {SF : Scalar F}.
Context {Pin Pout : Type} {PI : Pipe Pin (ComplexType F)} {PO : Pipe Pout F}.

Variable n : Z.
Hypothesis n_range : 0 <= n < int_max.

#[local] Abbreviation T := (total_reads n).

(** What the kernel has read when at most [j] values have left it: the
    first [j] rows at most, and the head of the next when it stands before
    the write of its reciprocal. *)
Lemma kernel_view_reads (k : kthread F) (done : list (ComplexType F))
    (outs : list F) (j : nat) :
  kernel_view n T k done outs -> (length outs <= j)%nat -> Z.of_nat j < n ->
  Z.of_nat (length done) <= row_base n (Z.of_nat j + 1) + 1.
Proof using n_range.
  intros Hk Hj Hn. destruct k as [l|l v|l]; cbn [kernel_view] in Hk.
  - destruct Hk as (Hi & Hlt & _ & ->).
    pose proof (written_reads n done j n_range ltac:(lia) Hn Hj). lia.
  - destruct Hk as (done' & x & -> & Hi & Hlt & _ & _ & _ & ->).
    pose proof (written_reads n done' j n_range ltac:(lia) Hn Hj).
    rewrite length_app. simpl. lia.
  - destruct Hk as (Hi & Hmax & _ & ->).
    pose proof (written_reads n done j n_range ltac:(lia) Hn Hj). lia.
Qed.

Variables (pin0 : Pin) (pout0 : Pout).
Hypothesis empty_in : contents pin0 = [].
Hypothesis empty_out : contents pout0 = [].

(** What has left the producer, when the consumer has taken few values. *)
Lemma reachable_sent (xs : list (ComplexType F)) (s : sys F Pin Pout)
    (din dout : nat) :
  capacity pin0 = Some din -> capacity pout0 = Some dout ->
  steps n T (sys_init T xs pin0 pout0) s ->
  let j := (length (received s) + dout)%nat in
  Z.of_nat j < n ->
  exists done,
    xs = done ++ contents (inp s) ++ to_send s /\
    Z.of_nat (length done) <= row_base n (Z.of_nat j + 1) + 1 /\
    Z.of_nat (length xs - length (to_send s))
    <= row_base n (Z.of_nat j + 1) + 1 + Z.of_nat din.
Proof using n_range empty_in empty_out.
  intros Ci Co St j Hj.
  destruct (reachable_depths n pin0 pout0 empty_in empty_out xs s din dout Ci Co St)
    as [Hin Hout].
  destruct (reachable_inv n pin0 pout0 empty_in empty_out xs s St)
    as [done outs Hs Hk Ho _ _].
  assert (Hd : Z.of_nat (length done) <= row_base n (Z.of_nat j + 1) + 1).
  { apply (kernel_view_reads (kern s) done outs); auto.
    simpl in Ho. rewrite <- Ho, length_app. unfold j. lia. }
  exists done. split; [exact Hs|]. split; [exact Hd|].
  rewrite Hs at 1. rewrite !length_app. lia.
Qed.
End Backpressure.

(** ** Theorems *)

Section Results.
Context {F : Type} {SF : Scalar F}.
Context {Pin Pout : Type} {PI : Pipe Pin (ComplexType F)} {PO : Pipe Pout F}.

Variable n : Z.
Variables (pin0 : Pin) (pout0 : Pout).
Hypothesis empty_in : contents pin0 = [].
Hypothesis empty_out : contents pout0 = [].

#[local] Abbreviation T := (total_reads n).

(** C25: Flow control.  Whatever [num_rows], the stream and the order in
    which the stages move, from empty pipes of depths [din] and [dout] no
    reachable state holds more than [din] elements in the input pipe or
    more than [dout] values in the output pipe: a stage that finds its
    pipe full waits.  And the wait propagates upstream: for [num_rows]
    below [int_max = 2^31 - 1], in a reachable state in which the consumer
    has taken [c] values, with [c + dout < num_rows], the kernel has read
    at most the elements up to the head of row [c + dout + 1], and at most
    [din] more have left the producer.  A consumer that stops stops the
    producer. *)
Theorem pipeline_backpressure (xs : list (ComplexType F)) (s : sys F Pin Pout)
    (din dout : nat) :
  capacity pin0 = Some din -> capacity pout0 = Some dout ->
  steps n T (sys_init T xs pin0 pout0) s ->
  (length (contents (inp s)) <= din)%nat /\
  (length (contents (outp s)) <= dout)%nat /\
  let j := (length (received s) + dout)%nat in
  (0 <= n < int_max -> Z.of_nat j < n ->
   exists done,
     xs = done ++ contents (inp s) ++ to_send s /\
     Z.of_nat (length done) <= row_base n (Z.of_nat j + 1) + 1 /\
     Z.of_nat (length xs - length (to_send s))
     <= row_base n (Z.of_nat j + 1) + 1 + Z.of_nat din).
Proof using empty_in empty_out.
  intros Ci Co St.
  destruct (reachable_depths n pin0 pout0 empty_in empty_out xs s din dout Ci Co St)
    as [Hin Hout].
  split; [exact Hin|]. split; [exact Hout|].
  intros j Hn Hj. now apply (reachable_sent n Hn pin0 pout0).
Qed.
End Results.

(** ** The example with a consumer that does not move *)

(** The producer and the kernel move as long as they can. *)
Definition example_unserved : list component :=
  [Producer; Kernel; Producer; Kernel; Kernel; Producer; Kernel;
   Producer; Kernel; Producer].

(** Where they stop: the output pipe holds [0.5], the kernel has read row
    1 and the head of row 2 and waits to write [0.2], the fifth element
    waits in the input pipe and the producer holds the sixth. *)
Definition example_blocked : sys32 :=
  mkSys (skipn 5 (@pack _ 3 example_matrix))
        (mkBfifo 1 [@complex_of_int binary32 9 2])
        (KWrite (mkLocals 3 (mkPos 2 2)) (float32 13421773 (-26)))
        (mkBfifo 1 [float32 8388608 (-24)]) [].

Lemma example_unserved_runs :
  @run_schedule _ binary32 _ _ bfifo_pipe bfifo_pipe 3 (total_reads 3)
    example_unserved example_init = Some example_blocked.
Proof. vm_compute. reflexivity. Qed.

(** Only the consumer can move, and the bound is attained: the kernel has
    read [row_base 3 2 + 1 = 4] elements and [5] have left the producer. *)
Example example_blocked_waits :
  @sys_step _ binary32 _ _ bfifo_pipe bfifo_pipe 3 (total_reads 3)
    Producer example_blocked = None /\
  @sys_step _ binary32 _ _ bfifo_pipe bfifo_pipe 3 (total_reads 3)
    Kernel example_blocked = None /\
  row_base 3 2 + 1 + 1
  = Z.of_nat (length (@pack _ 3 example_matrix) - length (to_send example_blocked)).
Proof. repeat split. Qed.

Lemma pipeline_backpressure_witness :
  (length (contents (inp example_blocked)) <= 1)%nat /\
  (length (contents (outp example_blocked)) <= 1)%nat /\
  exists done,
    @pack _ 3 example_matrix
    = done ++ contents (inp example_blocked) ++ to_send example_blocked /\
    Z.of_nat (length done) <= row_base 3 (Z.of_nat 1 + 1) + 1 /\
    Z.of_nat (length (@pack _ 3 example_matrix)
              - length (to_send example_blocked))
    <= row_base 3 (Z.of_nat 1 + 1) + 1 + Z.of_nat 1.
Proof.
  destruct (@pipeline_backpressure _ binary32 _ _ bfifo_pipe bfifo_pipe 3
              (pipe1 _) (pipe1 _) eq_refl eq_refl
              (@pack _ 3 example_matrix) example_blocked 1%nat 1%nat
              eq_refl eq_refl) as (Hin & Hout & H).
  - eapply nsteps_steps, run_schedule_nsteps, example_unserved_runs.
  - split; [exact Hin|]. split; [exact Hout|]. apply H; [now split|reflexivity].
Defined.
