(* ===== verification/Stream.v ===== *)
(** * Stream: the stage re-invoked while the pipeline runs

    The pipeline processes one matrix after the other: the producer sends
    the packings back to back, and the stage is submitted again each time
    its previous invocation has returned, with fresh counters and on the
    pipes as they are.  Nothing separates two frames in the pipes: the
    producer may be several elements into the next frame, and the
    consumer may still have values of the previous one to take, when the
    next invocation starts.  [stream] adds to the pipeline of [Pipeline]
    the number of invocations still to come; [sstep] adds to its steps the
    submission of the next invocation; [stream_step] is the same as a
    function of the move.  The invariant [sinv] cuts the stream into the
    frames of the invocations that have returned and the rest, of which
    the invariant of [Pipeline] holds.  With pipes of depth at least one
    and a whole number of frames, no schedule deadlocks or runs forever,
    and every schedule delivers the outputs of the frames, in order; with
    any other stream a schedule ends with the elements in excess left
    behind, or inside a partial frame with the kernel in its read
    ([stream_outcome]).  A
    submission commutes with the moves of the producer and of the
    consumer, so the stream is confluent up to its pipes, as the pipeline
    is ([Determinacy]). *)

From Stdlib Require Import ZArith List Lia Bool Relations SpecFloat.
From Stdlib Require Import Morphisms RelationClasses.
From S2P Require Import Prelude MachineInt Scalar Pipe TriIndex Packed.
From S2P Require Import Blocking Kernel KernelLoop Spec Correctness Safety.
From S2P Require Import Pipeline Schedule Determinacy.
Import ListNotations.

#[local] Open Scope Z_scope.

Section Stream.
Context {F : Type} {SF : Scalar F}.
Context {Pin Pout : Type} {PI : Pipe Pin (ComplexType F)} {PO : Pipe Pout F}.

Variables num_rows total : Z.

#[local] Abbreviation sys := (sys F Pin Pout).
#[local] Abbreviation step := (@step F SF Pin Pout PI PO num_rows total).
#[local] Abbreviation frame_length := (Z.to_nat total).

(** ** The transition system *)

(** The pipeline, and the number of invocations to submit after the
    current one. *)
Record stream : Type := mkStream {
  line : sys;
  pending : nat
}.

(** The stage is submitted again: the locals are fresh, the pipes and
    the neighbours are as they are. *)
Definition invoke (s : sys) : sys :=
  mkSys (to_send s) (inp s) (kthread_init total) (outp s) (received s).

Inductive sstep : stream -> stream -> Prop :=
| sstep_move (s s' : sys) (m : nat) :
    step s s' -> sstep (mkStream s m) (mkStream s' m)
| sstep_invoke (s : sys) (l : locals) (m : nat) :
    kern s = KDone l -> sstep (mkStream s (S m)) (mkStream (invoke s) m).

(** The same as a function of the move: a component of the pipeline, or
    the host that submits the next invocation. *)
Inductive move : Type := Move (c : component) | Invoke.

Definition stream_step (mv : move) (t : stream) : option stream :=
  match mv with
  | Move c =>
      option_map (fun s' => mkStream s' (pending t))
                 (sys_step num_rows total c (line t))
  | Invoke =>
      match kern (line t), pending t with
      | KDone _, S m => Some (mkStream (invoke (line t)) m)
      | _, _ => None
      end
  end.

Fixpoint run_moves (mvs : list move) (t : stream) : option stream :=
  match mvs with
  | [] => Some t
  | mv :: mvs' =>
      match stream_step mv t with
      | Some t' => run_moves mvs' t'
      | None => None
      end
  end.

Definition ssteps : stream -> stream -> Prop := clos_refl_trans_1n stream sstep.

Inductive nssteps : nat -> stream -> stream -> Prop :=
| nssteps_O (t : stream) : nssteps 0 t t
| nssteps_S (k : nat) (t1 t2 t3 : stream) :
    sstep t1 t2 -> nssteps k t2 t3 -> nssteps (S k) t1 t3.

Definition sstuck (t : stream) : Prop := forall t', ~ sstep t t'.

(** The first invocation submitted, [m] more to come. *)
Definition stream_init (xs : list (ComplexType F)) (m : nat)
    (pin0 : Pin) (pout0 : Pout) : stream :=
  mkStream (sys_init total xs pin0 pout0) m.

(** Every invocation has returned and everything has been consumed. *)
Definition sfinished (t : stream) : Prop :=
  pending t = 0%nat /\ finished (line t).

(** ** Moves and steps *)

Lemma stream_step_sound (mv : move) (t t' : stream) :
  stream_step mv t = Some t' -> sstep t t'.
Proof.
  destruct t as [s m], mv as [c|]; simpl.
  - destruct (sys_step num_rows total c s) as [s'|] eqn:E; [|discriminate].
    intros [= <-]. apply sstep_move. eauto using sys_step_sound.
  - destruct (kern s) as [| |l] eqn:Ek, m as [|m]; try discriminate.
    intros [= <-]. eauto using sstep_invoke.
Qed.

Lemma stream_step_complete (t t' : stream) :
  sstep t t' -> exists mv, stream_step mv t = Some t'.
Proof.
  intros [s s' m St|s l m Ek].
  - destruct (sys_step_complete _ _ _ _ St) as [c E].
    exists (Move c). simpl. now rewrite E.
  - exists Invoke. simpl. now rewrite Ek.
Qed.

Lemma sstuck_iff (t : stream) :
  sstuck t <-> forall mv, stream_step mv t = None.
Proof.
  split.
  - intros Hs mv. destruct (stream_step mv t) as [t'|] eqn:E; auto.
    elim (Hs t'). eauto using stream_step_sound.
  - intros Hn t' St. destruct (stream_step_complete _ _ St) as [mv E].
    rewrite Hn in E. discriminate.
Qed.

Lemma run_moves_nssteps (mvs : list move) (t t' : stream) :
  run_moves mvs t = Some t' -> nssteps (length mvs) t t'.
Proof.
  revert t; induction mvs as [|mv mvs IH]; simpl; intros t.
  - intros [= ->]. constructor.
  - destruct (stream_step mv t) as [t1|] eqn:E; [|discriminate].
    intros H. econstructor; eauto using stream_step_sound.
Qed.

Lemma nssteps_ssteps (k : nat) (t t' : stream) : nssteps k t t' -> ssteps t t'.
Proof. induction 1; econstructor; eauto. Qed.

(** ** The invariant *)

Section Invariant.
Hypothesis total_in_int : in_int total.

(** The stream of all the frames, the number of invocations after the
    first, and the pipes before the first step. *)
Variable xs : list (ComplexType F).
Variable more : nat.
Variables (pin0 : Pin) (pout0 : Pout).

(** The stream is the frames of the invocations that have returned, then
    the stream of the current invocation, of which the invariant of the
    pipeline holds with the outputs of these frames before its own. *)
Inductive sinv (t : stream) : Prop :=
| mkSinv (past : list (list (ComplexType F))) (cur : list (ComplexType F))
    (sinv_stream : xs = concat past ++ cur)
    (sinv_past : Forall (fun f => length f = frame_length) past)
    (sinv_count : (length past + pending t = more)%nat)
    (sinv_line : inv num_rows total cur (concat (map (written num_rows) past))
                     pin0 pout0 (line t)).

Lemma sinv_init :
  contents pin0 = [] -> contents pout0 = [] ->
  sinv (stream_init xs more pin0 pout0).
Proof.
  intros Hin Hout. apply (mkSinv _ [] xs); simpl; auto.
  now apply inv_init.
Qed.

(** A returned invocation has taken a frame, which joins the past. *)
Lemma inv_invoke (s : sys) (l : locals) (cur : list (ComplexType F))
    (past : list (list (ComplexType F))) :
  kern s = KDone l ->
  inv num_rows total cur (concat (map (written num_rows) past)) pin0 pout0 s ->
  exists frame rest,
    cur = frame ++ rest /\ length frame = frame_length /\
    inv num_rows total rest
        (concat (map (written num_rows) (past ++ [frame]))) pin0 pout0 (invoke s).
Proof.
  intros Ek [done outs Hs Hk Ho Hci Hco]. rewrite Ek in Hk.
  destruct Hk as (Hi & Hmax & _ & ->).
  exists done, (contents (inp s) ++ to_send s).
  split; [exact Hs|]. split; [lia|].
  apply inv_entry; auto.
  rewrite map_app, concat_app. simpl. now rewrite app_nil_r.
Qed.

Lemma sinv_step (t t' : stream) : sinv t -> sstep t t' -> sinv t'.
Proof using total_in_int.
  intros Hi St.
  destruct St as [s s' m St|s l m Ek], Hi as [past cur Hs Hp Hc Hl]; simpl in *.
  - apply (mkSinv _ past cur); auto. eapply inv_step; eauto.
  - destruct (inv_invoke s l cur past Ek Hl) as (frame & rest & -> & Hf & Hi).
    apply (mkSinv _ (past ++ [frame]) rest); simpl; auto.
    + rewrite concat_app. simpl. now rewrite app_nil_r, <- app_assoc.
    + apply Forall_app. auto.
    + rewrite length_app. simpl. lia.
Qed.

Lemma sinv_steps (t t' : stream) : sinv t -> ssteps t t' -> sinv t'.
Proof using total_in_int.
  intros Hi St. induction St as [|t1 t2 t3 S12 _ IH]; eauto using sinv_step.
Qed.

(** ** The measure *)

(** The measure of the pipeline, and for each invocation to come the
    pipe operations of its loop and its submission. *)
Definition smeasure (t : stream) : nat :=
  measure total (line t) + pending t * (4 * frame_length + 1).

Lemma kmeasure_init :
  (kmeasure total (@kthread_init F total) <= 4 * frame_length)%nat.
Proof.
  unfold kthread_init. cbn [l_i].
  destruct (Z.ltb_spec 0 total); cbn [kmeasure l_i]; lia.
Qed.

Lemma sstep_measure (t t' : stream) :
  sinv t -> sstep t t' -> (smeasure t' < smeasure t)%nat.
Proof using total_in_int.
  intros Hi St.
  destruct St as [s s' m St|s l m Ek], Hi as [past cur Hs Hp Hc Hl];
    unfold smeasure; simpl in *.
  - pose proof (step_measure _ _ total_in_int _ _ _ _ _ _ Hl St). lia.
  - pose proof kmeasure_init. unfold measure, invoke. rewrite Ek.
    cbn [to_send inp kern outp kmeasure]. lia.
Qed.

Lemma nssteps_measure (k : nat) (t t' : stream) :
  sinv t -> nssteps k t t' -> (k + smeasure t' <= smeasure t)%nat.
Proof using total_in_int.
  intros Hi St. induction St as [|k t1 t2 t3 S12 _ IH]; [lia|].
  pose proof (sstep_measure _ _ Hi S12).
  specialize (IH (sinv_step _ _ Hi S12)). lia.
Qed.

(** ** Progress *)

Hypothesis depth_in : positive_depth pin0.
Hypothesis depth_out : positive_depth pout0.

(** Where a schedule ends, whatever the stream: the invocations have cut
    it into frames and the consumer holds what the kernel writes for each.
    Either every submission has been served, each with a whole frame, and
    what is left of the stream stays with the producer and in the input
    pipe; or the stream has ended in the middle of a frame, and the
    invocation that took its beginning waits in its read. *)
Lemma sstuck_outcome (t : stream) :
  sinv t -> sstuck t ->
  exists fs leftover,
    xs = concat fs ++ leftover /\
    received (line t) = concat (map (written num_rows) fs) /\
    contents (outp (line t)) = [] /\
    ((exists l, kern (line t) = KDone l) /\ pending t = 0%nat /\
     length fs = (more + 1)%nat /\
     Forall (fun f => length f = frame_length) fs /\
     contents (inp (line t)) ++ to_send (line t) = leftover
     \/
     stalled total (line t) /\ leftover = [] /\
     exists full partial,
       fs = full ++ [partial] /\
       Forall (fun f => length f = frame_length) full /\
       (length full + pending t = more)%nat /\
       (length partial < frame_length)%nat).
Proof using depth_in depth_out.
  intros [past cur Hs Hp Hc Hl] Hst. destruct t as [s m]; simpl in *.
  destruct (rest_or_step _ _ _ _ _ _ depth_in depth_out s Hl)
    as [Hr|[s' S']]; [|exfalso; exact (Hst _ (sstep_move s s' m S'))].
  destruct (kern s) as [l|l v|l] eqn:Ek.
  - destruct (at_rest_read _ _ _ _ _ _ s l Hl Hr Ek) as (Hlt & Hstall & Hrec).
    exists (past ++ [cur]), []. rewrite map_app, !concat_app. simpl.
    rewrite !app_nil_r. destruct Hr as [Ho _].
    split; [exact Hs|]. split; [exact Hrec|]. split; [exact Ho|]. right.
    split; [exact Hstall|]. split; [reflexivity|].
    exists past, cur. auto.
  - destruct Hr as [_ Hr]. now rewrite Ek in Hr.
  - destruct m as [|m]; [|exfalso; exact (Hst _ (sstep_invoke s l m Ek))].
    destruct (at_rest_done _ _ _ _ _ _ s l Hl Hr Ek) as (Hle & Hrec & Hrest).
    exists (past ++ [firstn frame_length cur]), (skipn frame_length cur).
    rewrite map_app, !concat_app, length_app. simpl. rewrite !app_nil_r.
    rewrite <- app_assoc, firstn_skipn. destruct Hr as [Ho _].
    split; [exact Hs|]. split; [exact Hrec|]. split; [exact Ho|]. left.
    split; [eauto|]. split; [reflexivity|]. split; [lia|]. split; [|exact Hrest].
    apply Forall_app. split; [exact Hp|].
    constructor; [rewrite length_firstn; lia|constructor].
Qed.

(** The producer sends a whole number of frames. *)
Hypothesis stream_length : length xs = ((more + 1) * frame_length)%nat.

(** No deadlock: a state of the invariant is finished, or a component of
    the pipeline can move, or the next invocation can be submitted. *)
Lemma sprogress (t : stream) : sinv t -> sfinished t \/ exists t', sstep t t'.
Proof using depth_in depth_out stream_length.
  intros [past cur Hs Hp Hc Hl]. destruct t as [s m]; simpl in *.
  assert (Hcur : length cur = ((m + 1) * frame_length)%nat).
  { apply (f_equal (@length _)) in Hs.
    rewrite length_app, (length_concat_const _ _ Hp), stream_length in Hs. nia. }
  destruct (rest_or_step _ _ _ _ _ _ depth_in depth_out s Hl)
    as [Hr|[s' S']]; [|right; eauto using sstep_move].
  destruct (kern s) as [l|l v|l] eqn:Ek.
  - destruct (at_rest_read _ _ _ _ _ _ s l Hl Hr Ek). nia.
  - destruct Hr as [_ Hr]. now rewrite Ek in Hr.
  - destruct m as [|m]; [left|right; eauto using sstep_invoke].
    destruct (at_rest_done _ _ _ _ _ _ s l Hl Hr Ek) as (_ & _ & Hrest).
    rewrite skipn_all2 in Hrest by lia. apply app_eq_nil in Hrest.
    split; [reflexivity|]. unfold finished. simpl. rewrite Ek.
    destruct Hr, Hrest. eauto.
Qed.

(** From every state of the invariant some schedule reaches the finished
    state. *)
Lemma scompletes (t : stream) : sinv t -> exists t', ssteps t t' /\ sfinished t'.
Proof using total_in_int depth_in depth_out stream_length.
  remember (smeasure t) as k eqn:Hk. revert t Hk.
  induction k as [k IH] using lt_wf_ind. intros t -> Hi.
  destruct (sprogress t Hi) as [Hf|[t1 S1]].
  - exists t. split; [constructor|assumption].
  - destruct (IH _ (sstep_measure _ _ Hi S1) t1 eq_refl) as (t' & St & Hf);
      eauto using sinv_step.
    exists t'. split; [econstructor; eauto|assumption].
Qed.

(** In the finished state the stream has been cut into its frames, and
    the consumer holds what the kernel writes for each, in order. *)
Lemma sfinished_received (t : stream) :
  sinv t -> sfinished t ->
  exists frames,
    xs = concat frames /\ Forall (fun f => length f = frame_length) frames /\
    length frames = (more + 1)%nat /\
    received (line t) = concat (map (written num_rows) frames).
Proof using stream_length.
  intros [past cur Hs Hp Hc Hl] [Hm Hf]. rewrite Hm, Nat.add_0_r in Hc.
  assert (Hcur : length cur = frame_length).
  { apply (f_equal (@length _)) in Hs.
    rewrite length_app, (length_concat_const _ _ Hp), stream_length in Hs. nia. }
  exists (past ++ [cur]). rewrite map_app, !concat_app, length_app. simpl.
  rewrite !app_nil_r. repeat split; auto; [apply Forall_app; auto|].
  now apply (finished_received num_rows total cur _ pin0 pout0).
Qed.
End Invariant.

(** ** The order of the moves does not matter *)

(** Streams up to their pipes. *)
Record stream_equiv (t u : stream) : Prop := mkStreamEquiv {
  equiv_line : sys_equiv (line t) (line u);
  equiv_pending : pending t = pending u
}.

#[export] Instance stream_equiv_equivalence : Equivalence stream_equiv.
Proof.
  split.
  - intros t. split; reflexivity.
  - intros t u [? ?]. split; now symmetry.
  - intros t u v [? ?] [? ?]. split; etransitivity; eauto.
Qed.

#[export] Instance invoke_proper : Proper (sys_equiv ==> sys_equiv) invoke.
Proof. intros s t [? ? ? ? ?]. split; cbn; auto. Qed.

(** Equivalent streams are bisimilar. *)
Lemma sstep_sim (t u t' : stream) :
  stream_equiv t u -> sstep t t' -> exists u', sstep u u' /\ stream_equiv t' u'.
Proof.
  intros [El Ep] St. destruct u as [su mu]. cbn in El, Ep.
  destruct St as [s s' m St|s l m Ek]; cbn in El, Ep; subst mu.
  - destruct (step_sim _ _ _ _ _ El St) as (su' & Su & Eu).
    exists (mkStream su' m). split; [now constructor|now split].
  - exists (mkStream (invoke su) m). split.
    + apply (sstep_invoke su l). now rewrite <- (equiv_kern _ _ El).
    + split; cbn; [now apply invoke_proper|reflexivity].
Qed.

(** A submission and a move of the producer or of the consumer commute;
    the kernel that has returned does not move. *)
Lemma step_invoke_commute (s s' : sys) (l : locals) :
  kern s = KDone l -> step s s' ->
  kern s' = KDone l /\ step (invoke s) (invoke s').
Proof.
  intros Ek St. destruct St as [s x rest p' Et W|s k' pin' pout' K|s v p' R].
  - split; [exact Ek|]. now apply (step_produce _ _ (invoke s) x).
  - rewrite Ek in K. discriminate.
  - split; [exact Ek|]. now apply (step_consume _ _ (invoke s)).
Qed.

Lemma sstep_inv (s : sys) (m : nat) (t' : stream) :
  sstep (mkStream s m) t' ->
  (exists s', step s s' /\ t' = mkStream s' m) \/
  (exists l m', kern s = KDone l /\ m = S m' /\ t' = mkStream (invoke s) m').
Proof. intros St. inversion St; subst; eauto 6. Qed.

Lemma sstep_diamond (t t1 t2 : stream) :
  sstep t t1 -> sstep t t2 ->
  stream_equiv t1 t2 \/
  exists u1 u2, sstep t1 u1 /\ sstep t2 u2 /\ stream_equiv u1 u2.
Proof.
  destruct t as [s m]. intros S1 S2. apply sstep_inv in S1, S2.
  destruct S1 as [(s1 & St1 & ->)|(l1 & m1 & Ek1 & -> & ->)];
    destruct S2 as [(s2 & St2 & ->)|(l2 & m2 & Ek2 & E & ->)].
  - destruct (step_diamond _ _ _ _ _ St1 St2) as [He|(u1 & u2 & U1 & U2 & He)].
    + left. now split.
    + right. exists (mkStream u1 m), (mkStream u2 m).
      split; [now constructor|]. split; [now constructor|now split].
  - right. subst m. destruct (step_invoke_commute _ _ _ Ek2 St1) as [Ek' Si].
    exists (mkStream (invoke s1) m2), (mkStream (invoke s1) m2).
    split; [now apply (sstep_invoke s1 l2)|].
    split; [now constructor|reflexivity].
  - right. destruct (step_invoke_commute _ _ _ Ek1 St2) as [Ek' Si].
    exists (mkStream (invoke s2) m1), (mkStream (invoke s2) m1).
    split; [now constructor|].
    split; [now apply (sstep_invoke s2 l1)|reflexivity].
  - left. injection E as <-. reflexivity.
Qed.

(** Two schedules of a stream, submissions included, can be continued
    until they meet, and end in the same state up to the pipes. *)
Theorem stream_confluent (t t1 t2 : stream) :
  ssteps t t1 -> ssteps t t2 ->
  (exists u1 u2, ssteps t1 u1 /\ ssteps t2 u2 /\ stream_equiv u1 u2) /\
  (sstuck t1 -> sstuck t2 -> stream_equiv t1 t2).
Proof.
  intros S1 S2. split.
  - exact (confluent_modulo _ _ sstep_sim sstep_diamond t t1 t2 S1 S2).
  - exact (normal_form_modulo _ _ sstep_sim sstep_diamond t t1 t2 S1 S2).
Qed.
End Stream.

Arguments stream : clear implicits.

(** ** The stream of the packings of a list of matrices *)

Section Results.
Context {F : Type} {SF : Scalar F}.
Context {Pin Pout : Type} {PI : Pipe Pin (ComplexType F)} {PO : Pipe Pout F}.

Variable n : Z.
Variables (pin0 : Pin) (pout0 : Pout).
Hypothesis empty_in : contents pin0 = [].
Hypothesis empty_out : contents pout0 = [].
Hypothesis depth_in : positive_depth pin0.
Hypothesis depth_out : positive_depth pout0.
Hypothesis n_small : 0 <= n <= max_rows.

(** The matrices: a first one, and those that follow. *)
Variable R : @matrix F.
Variable Rs : list (@matrix F).

#[local] Abbreviation T := (total_reads n).
#[local] Abbreviation frames := (map (pack n) (R :: Rs)).
#[local] Abbreviation init := (stream_init T (concat frames) (length Rs) pin0 pout0).
#[local] Abbreviation sinv :=
  (sinv n T (concat frames) (length Rs) pin0 pout0).

Lemma frames_length : Forall (fun f => length f = Z.to_nat T) frames.
Proof using n_small.
  apply Forall_forall. intros f (R' & <- & _)%in_map_iff.
  now apply pack_stream_length.
Qed.

Lemma frames_stream_length :
  length (concat frames) = ((length Rs + 1) * Z.to_nat T)%nat.
Proof using n_small.
  rewrite (length_concat_const _ _ frames_length), length_map. simpl. lia.
Qed.

Lemma reachable_sinv (t : stream F Pin Pout) : ssteps n T init t -> sinv t.
Proof using empty_in empty_out.
  apply sinv_steps; [apply total_reads_in_int|now apply sinv_init].
Qed.

(** The finished state holds the specified outputs of the matrices. *)
Lemma sfinished_spec (t : stream F Pin Pout) :
  sinv t -> sfinished t ->
  received (line t) = concat (map (spec_output n) (R :: Rs)).
Proof using n_small.
  intros Hi Hf.
  destruct (sfinished_received n T (concat frames) (length Rs) pin0 pout0
              frames_stream_length t Hi Hf)
    as (fs & E & Hl & Hn & ->).
  rewrite (concat_inj_const _ fs frames Hl frames_length) by
    (rewrite ?length_map; simpl; auto; lia).
  rewrite map_map. f_equal. apply map_ext. intros R'.
  apply written_pack. auto with diag.
Qed.

(** C7: Streaming, frame after frame.  For [num_rows] up to 65535, with
    pipes of depth at least one, a producer that sends the packings of
    the matrices [R :: Rs] back to back and a stage that is submitted
    again each time it has returned: whatever the order in which the
    producer, the kernel, the consumer and the submissions move, and
    however far the producer runs ahead into the next frames, from every
    reachable state some schedule reaches the finished state, and a
    reachable state in which nothing can move is the finished state,
    where the consumer holds the reciprocals of the diagonals of the
    matrices, matrix after matrix, in row order. *)
Theorem stream_delivers_frames (t : stream F Pin Pout) :
  ssteps n T init t ->
  (exists t', ssteps n T t t' /\ sfinished t') /\
  (sstuck n T t ->
   sfinished t /\ received (line t) = concat (map (spec_output n) (R :: Rs))).
Proof using empty_in empty_out depth_in depth_out n_small.
  intros St. pose proof (reachable_sinv t St) as Hi. split.
  - apply (scompletes n T (total_reads_in_int n) (concat frames) (length Rs)
             pin0 pout0);
      auto using frames_stream_length.
  - intros Hs.
    destruct (sprogress n T (concat frames) (length Rs) pin0 pout0 depth_in depth_out
                frames_stream_length t Hi) as [Hf|[t' S']]; [|elim (Hs t' S')].
    auto using sfinished_spec.
Qed.

(** No schedule runs forever: at most two steps per element, and four
    per iteration and one per submission of each invocation. *)
Theorem stream_terminates (k : nat) (t : stream F Pin Pout) :
  nssteps n T k init t ->
  (k <= 2 * length (concat frames) + (length Rs + 1) * (4 * Z.to_nat T + 1))%nat.
Proof using empty_in empty_out.
  intros St.
  pose proof (nssteps_measure n T (total_reads_in_int n) _ _ pin0 pout0 k _ _
                (sinv_init n T (concat frames) (length Rs) pin0 pout0
                   empty_in empty_out) St)
    as H.
  unfold smeasure in H. cbn [stream_init line pending] in H.
  rewrite (measure_init n pin0 pout0 empty_in empty_out) in H. lia.
Qed.

(** What the loop writes for frames that fit the triangle is the
    specified output of each. *)
Lemma written_frames (fs : list (list (ComplexType F))) :
  Forall (fun f => (length f <= Z.to_nat T)%nat) fs ->
  map (written n) fs = map (kernel_output n) fs.
Proof using n_small.
  intros Hf. apply map_ext_Forall. eapply Forall_impl; [|exact Hf].
  intros f Hl. apply emitted_trajectory; [auto with diag|].
  rewrite total_reads_tri in Hl by assumption. lia.
Qed.

(** C24: Where a stream ends, whatever it holds.  For [num_rows] up to
    65535, with pipes of depth at least one, a producer that holds any
    stream [xs] and a stage submitted [more + 1] times: a reachable state
    in which nothing can move has cut the stream into frames, and the
    consumer holds the reciprocals of the diagonal elements of each, frame
    after frame, with the output pipe drained.  Either every submission
    has returned, each having taken [num_rows * (num_rows + 1) / 2]
    elements, and the rest of the stream is in the input pipe and with the
    producer, in order; or the stream has ended inside a frame, the
    invocation that took its beginning waits in its read, and the
    submissions after it are never made. *)
Theorem stream_outcome (xs : list (ComplexType F)) (more : nat)
    (t : stream F Pin Pout) :
  ssteps n T (stream_init T xs more pin0 pout0) t -> sstuck n T t ->
  exists fs leftover,
    xs = concat fs ++ leftover /\
    received (line t) = concat (map (kernel_output n) fs) /\
    contents (outp (line t)) = [] /\
    ((exists l, kern (line t) = KDone l) /\ pending t = 0%nat /\
     length fs = (more + 1)%nat /\
     Forall (fun f => length f = Z.to_nat T) fs /\
     contents (inp (line t)) ++ to_send (line t) = leftover
     \/
     stalled T (line t) /\ leftover = [] /\
     exists full partial,
       fs = full ++ [partial] /\
       Forall (fun f => length f = Z.to_nat T) full /\
       (length full + pending t = more)%nat /\
       (length partial < Z.to_nat T)%nat).
Proof using empty_in empty_out depth_in depth_out n_small.
  intros St Hs.
  destruct (sstuck_outcome n T xs more pin0 pout0 depth_in depth_out t)
    as (fs & leftover & E & Hr & Ho & H); auto.
  { eapply sinv_steps; eauto using total_reads_in_int, sinv_init. }
  exists fs, leftover. rewrite <- written_frames; [auto|].
  destruct H as [(_ & _ & _ & Hf & _)|(_ & _ & full & partial & -> & Hf & _ & Hp)].
  - eapply Forall_impl; [|exact Hf]. intros f ->. apply le_n.
  - apply Forall_app. split; [|constructor; [lia|constructor]].
    eapply Forall_impl; [|exact Hf]. intros f ->. apply le_n.
Qed.
End Results.

(** ** Two matrices through pipes of depth one *)

Definition stream32 : Type :=
  stream spec_float (bfifo (ComplexType spec_float)) (bfifo spec_float).

Definition stream_example_init : stream32 :=
  stream_init (total_reads 3)
    (concat (map (@pack _ 3) [example_matrix; example_matrix']))
    1 (pipe1 _) (pipe1 _).

(** The producer runs one element ahead into the second frame before the
    first invocation returns; the second invocation is submitted while
    that element waits in the input pipe. *)
Definition stream_example_schedule : list move :=
  map Move (firstn 16 example_schedule)
  ++ [Move Producer; Move Kernel; Move Consumer; Invoke]
  ++ map Move (tl example_schedule).

Definition stream_example_final : stream32 :=
  mkStream
    (mkSys [] (pipe1 _) (KDone (mkLocals 6 (pos_end 3))) (pipe1 _)
           (example_output ++ example_output))
    0.

Lemma stream_example_runs :
  @run_moves _ binary32 _ _ bfifo_pipe bfifo_pipe 3 (total_reads 3)
    stream_example_schedule stream_example_init = Some stream_example_final.
Proof. vm_compute. reflexivity. Qed.

Lemma stream_example_stuck :
  @sstuck _ binary32 _ _ bfifo_pipe bfifo_pipe 3 (total_reads 3)
    stream_example_final.
Proof. apply sstuck_iff. intros [[]|]; reflexivity. Qed.

Lemma stream_delivers_frames_witness :
  sfinished stream_example_final /\
  received (line stream_example_final)
  = concat (map (@spec_output _ binary32 3) [example_matrix; example_matrix']).
Proof.
  apply (@stream_delivers_frames _ binary32 _ _ bfifo_pipe bfifo_pipe 3
           (pipe1 _) (pipe1 _) eq_refl eq_refl (pipe1_depth _) (pipe1_depth _)).
  - unfold max_rows; lia.
  - eapply nssteps_ssteps, run_moves_nssteps, stream_example_runs.
  - exact stream_example_stuck.
Defined.

(** The second matrix loses its last element: the first invocation
    returns, the second waits in its read for ever. *)
Definition stream_example_short : list (ComplexType spec_float) :=
  example_input ++ example_short.

Definition stream_example_stalled : stream32 :=
  mkStream
    (mkSys [] (pipe1 _) (KRead (mkLocals 5 (mkPos 3 3))) (pipe1 _)
           (example_output ++ firstn 2 example_output))
    0.

Lemma stream_example_short_runs :
  @run_moves _ binary32 _ _ bfifo_pipe bfifo_pipe 3 (total_reads 3)
    (map Move example_schedule ++ [Invoke]
     ++ map Move (firstn 14 example_schedule))
    (stream_init (total_reads 3) stream_example_short 1 (pipe1 _) (pipe1 _))
  = Some stream_example_stalled.
Proof. vm_compute. reflexivity. Qed.

Lemma stream_example_stalled_stuck :
  @sstuck _ binary32 _ _ bfifo_pipe bfifo_pipe 3 (total_reads 3)
    stream_example_stalled.
Proof. apply sstuck_iff. intros [[]|]; reflexivity. Qed.

Lemma stream_outcome_witness :
  exists fs leftover,
    stream_example_short = concat fs ++ leftover /\
    received (line stream_example_stalled)
    = concat (map (@kernel_output _ binary32 3) fs) /\
    contents (outp (line stream_example_stalled)) = [] /\
    ((exists l, kern (line stream_example_stalled) = KDone l) /\
     pending stream_example_stalled = 0%nat /\
     length fs = 2%nat /\
     Forall (fun f => length f = Z.to_nat (total_reads 3)) fs /\
     contents (inp (line stream_example_stalled))
       ++ to_send (line stream_example_stalled) = leftover
     \/
     stalled (total_reads 3) (line stream_example_stalled) /\ leftover = [] /\
     exists full partial,
       fs = full ++ [partial] /\
       Forall (fun f => length f = Z.to_nat (total_reads 3)) full /\
       (length full + pending stream_example_stalled = 1)%nat /\
       (length partial < Z.to_nat (total_reads 3))%nat).
Proof.
  apply (@stream_outcome _ binary32 _ _ bfifo_pipe bfifo_pipe 3
           (pipe1 _) (pipe1 _) eq_refl eq_refl (pipe1_depth _) (pipe1_depth _)
           ltac:(unfold max_rows; lia)
           stream_example_short 1 stream_example_stalled).
  - eapply nssteps_ssteps, run_moves_nssteps, stream_example_short_runs.
  - exact stream_example_stalled_stuck.
Defined.
