(* ===== verification/Events.v ===== *)
(** * Events: what the host learns when a submission has completed

    [SubmitDiagReciprocalKernel] hands the task to the queue and returns
    the event of the submission (lines 19 and 43); the task runs while
    the host goes on, and the host learns that it has ended from the
    event.  In [Stream] the submissions are queued ([pending]) and start
    one after the other; the event of a submission is complete when its
    invocation has returned.  This file states what a complete event
    tells: the kernel has taken the frames of the submission and of those
    before it entirely, and has written all their reciprocals, which are
    in the output pipe or with the consumer, in order. *)

From Stdlib Require Import ZArith List Lia Bool Relations SpecFloat.
From S2P Require Import Prelude MachineInt Scalar Pipe TriIndex Packed.
From S2P Require Import Blocking Kernel KernelLoop Spec Correctness Safety.
From S2P Require Import Pipeline Schedule Determinacy Stream.
Import ListNotations.

#[local] Open Scope Z_scope.

Section Events.
Context {F : Type} {SF : Scalar F}.
Context {Pin Pout : Type} {PI : Pipe Pin (ComplexType F)} {PO : Pipe Pout F}.

Variables num_rows total : Z.

#[local] Abbreviation stream := (stream F Pin Pout).

(** Of [count] submissions, those whose invocation has returned: they are
    neither queued nor running (one invocation runs, unless the last one
    started has returned). *)
Definition returned (count : nat) (t : stream) : nat :=
  (count - pending t
   - match kern (line t) with KDone _ => 0 | _ => 1 end)%nat.

(** Line 43: the event of the submission number [k] (from 0) of [count]:
    it is complete when the invocation has returned. *)
Definition event_complete (count k : nat) (t : stream) : bool :=
  (k <? returned count t)%nat.

(** The stream of all the frames, the number of submissions after the
    first, and the pipes before the first step. *)
Variable xs : list (ComplexType F).
Variable more : nat.
Variables (pin0 : Pin) (pout0 : Pout).

(** The invocations that have returned have each taken one frame, and
    what these frames make the kernel write has left the kernel. *)
Lemma sinv_returned (t : stream) :
  sinv num_rows total xs more pin0 pout0 t ->
  exists fs rest later,
    xs = concat fs ++ rest /\
    Forall (fun f => length f = Z.to_nat total) fs /\
    length fs = returned (more + 1) t /\
    rest = later ++ contents (inp (line t)) ++ to_send (line t) /\
    exists outs,
      received (line t) ++ contents (outp (line t))
      = concat (map (written num_rows) fs) ++ outs.
Proof.
  intros [past cur Hs Hp Hc [done outs Hd Hk Ho _ _]].
  unfold returned. destruct (kern (line t)) as [l|l v|l] eqn:Ek.
  1,2: exists past, cur, done; repeat split; auto; [lia|eauto].
  destruct Hk as (Hi & Hmax & _ & ->).
  exists (past ++ [done]), (contents (inp (line t)) ++ to_send (line t)), [].
  rewrite map_app, !concat_app, length_app. simpl. rewrite !app_nil_r.
  repeat split; auto.
  - now rewrite <- app_assoc, <- Hd.
  - apply Forall_app. split; [exact Hp|]. constructor; [lia|constructor].
  - lia.
  - exists []. now rewrite app_nil_r.
Qed.
End Events.

(** ** The events of the stream of a list of matrices *)

Section Results.
Context {F : Type} {SF : Scalar F}.
Context {Pin Pout : Type} {PI : Pipe Pin (ComplexType F)} {PO : Pipe Pout F}.

Variable n : Z.
Variables (pin0 : Pin) (pout0 : Pout).
Hypothesis empty_in : contents pin0 = [].
Hypothesis empty_out : contents pout0 = [].
Hypothesis n_small : 0 <= n <= max_rows.

Variable R : @matrix F.
Variable Rs : list (@matrix F).

#[local] Abbreviation T := (total_reads n).
#[local] Abbreviation count := (length Rs + 1)%nat.
#[local] Abbreviation frames := (map (pack n) (R :: Rs)).
#[local] Abbreviation init := (stream_init T (concat frames) (length Rs) pin0 pout0).

(** The frames that the returned invocations have taken are the packings
    of the first matrices. *)
Lemma returned_frames (t : stream F Pin Pout) :
  ssteps n T init t ->
  exists later outs,
    concat frames
    = concat (firstn (returned count t) frames)
      ++ later ++ contents (inp (line t)) ++ to_send (line t) /\
    received (line t) ++ contents (outp (line t))
    = concat (map (spec_output n) (firstn (returned count t) (R :: Rs))) ++ outs.
Proof using empty_in empty_out n_small.
  intros St.
  destruct (sinv_returned n T _ _ pin0 pout0 t
              (reachable_sinv n pin0 pout0 empty_in empty_out R Rs t St))
    as (fs & rest & later & Hs & Hl & Hn & -> & outs & Ho).
  assert (Hf : fs = firstn (returned count t) frames).
  { rewrite <- Hn.
    eapply concat_prefix_const;
      [exact Hl | now apply frames_length | | symmetry; exact Hs].
    rewrite Hn, length_map. unfold returned. simpl. lia. }
  exists later, outs. split; [now rewrite <- Hf|].
  rewrite Ho, Hf, <- !firstn_map, !map_map. do 3 f_equal.
  apply map_ext. intros R'. apply written_pack. auto with diag.
Qed.

(** C27: What a complete event tells.  For [num_rows] up to 65535, a
    producer that sends the packings of the matrices [R :: Rs] back to
    back and as many submissions as matrices, whatever the schedule: in
    a reachable state in which the event of submission [k] is complete,
    the kernel has taken the first [k + 1] packings entirely (they are
    neither with the producer nor in the input pipe), and the reciprocals
    of the diagonals of the first [k + 1] matrices, in order, are the
    first values that have left it, received or in the output pipe.  In
    the finished state every event is complete. *)
Theorem event_complete_delivers (t : stream F Pin Pout) (k : nat) :
  ssteps n T init t ->
  (event_complete count k t = true ->
   exists later outs,
     concat frames
     = concat (firstn (k + 1) frames)
       ++ later ++ contents (inp (line t)) ++ to_send (line t) /\
     received (line t) ++ contents (outp (line t))
     = concat (map (spec_output n) (firstn (k + 1) (R :: Rs))) ++ outs) /\
  (sfinished t -> (k < count)%nat -> event_complete count k t = true).
Proof using empty_in empty_out n_small.
  intros St. split.
  - intros Hk. apply Nat.ltb_lt in Hk.
    destruct (returned_frames t St) as (later & outs & Hs & Ho).
    set (r := returned count t) in *.
    exists (concat (skipn (k + 1) (firstn r frames)) ++ later),
           (concat (map (spec_output n) (skipn (k + 1) (firstn r (R :: Rs))))
            ++ outs).
    rewrite !app_assoc, <- !concat_app, <- map_app.
    rewrite <- (firstn_firstn_le frames (k + 1) r) by lia.
    rewrite <- (firstn_firstn_le (R :: Rs) (k + 1) r) by lia.
    rewrite !firstn_skipn. rewrite <- !app_assoc. now split.
  - intros [Hp (_ & _ & [l Ek] & _)] Hk. apply Nat.ltb_lt.
    unfold returned. rewrite Hp, Ek. lia.
Qed.
End Results.

(** ** The event of the first of two submissions *)

(** The first invocation has returned: its last reciprocal is still in
    the output pipe, the first element of the second frame is already in
    the input pipe, and the second submission has not started. *)
Definition stream_example_returned : stream32 :=
  mkStream
    (mkSys (skipn 1 (@pack _ 3 example_matrix'))
           (mkBfifo 1 (firstn 1 (@pack _ 3 example_matrix')))
           (KDone (mkLocals 6 (pos_end 3)))
           (mkBfifo 1 [float32 8388608 (-25)])
           [float32 8388608 (-24); float32 13421773 (-26)])
    1.

Lemma stream_example_returned_runs :
  @run_moves _ binary32 _ _ bfifo_pipe bfifo_pipe 3 (total_reads 3)
    (map Move (firstn 16 example_schedule) ++ [Move Producer; Move Kernel])
    stream_example_init
  = Some stream_example_returned.
Proof. vm_compute. reflexivity. Qed.

Lemma event_complete_delivers_witness :
  exists later outs,
    concat (map (@pack _ 3) [example_matrix; example_matrix'])
    = concat (firstn (0 + 1) (map (@pack _ 3) [example_matrix; example_matrix']))
      ++ later ++ contents (inp (line stream_example_returned))
      ++ to_send (line stream_example_returned) /\
    received (line stream_example_returned)
    ++ contents (outp (line stream_example_returned))
    = concat (map (@spec_output _ binary32 3)
                (firstn (0 + 1) [example_matrix; example_matrix'])) ++ outs.
Proof.
  apply (@event_complete_delivers _ binary32 _ _ bfifo_pipe bfifo_pipe 3
           (pipe1 _) (pipe1 _) eq_refl eq_refl ltac:(unfold max_rows; lia)
           example_matrix [example_matrix'] stream_example_returned 0%nat).
  - eapply nssteps_ssteps, run_moves_nssteps, stream_example_returned_runs.
  - reflexivity.
Defined.
