(* ===== verification/Accuracy.v ===== *)
(** * Accuracy: the values written are the correctly rounded reciprocals

    The composition of the halves of the development: the invocation
    writes [1 / entry.real()] for the diagonal of the matrix
    ([Correctness]), every schedule of the pipeline delivers these values
    to the consumer ([Schedule]), and the division of the base type
    returns the correctly rounded quotient ([FloatError], [FloatModel]).
    Together: in single precision, on a matrix whose diagonal has finite
    real parts other than zero, every value the kernel writes, and every
    value the consumer receives, has the sign of the diagonal element and
    is a rounding to nearest of its exact reciprocal, with a relative
    error of at most [2 ^ -24] when the diagonal element is in the normal
    range. *)

From Stdlib Require Import ZArith QArith List Lia Floats.SpecFloat.
From S2P Require Import Prelude MachineInt Scalar FloatValid FloatRound FloatError.
From S2P Require Import FloatModel.
From S2P Require Import Pipe TriIndex Packed Blocking Kernel KernelLoop Spec Correctness.
From S2P Require Import Pipeline Schedule.
Import ListNotations.

#[local] Open Scope Z_scope.

Section Accuracy.
Context {Pin Pout : Type}.
Context {PI : Pipe Pin (ComplexType spec_float)} {PO : Pipe Pout spec_float}.

(** A finite number other than zero. *)
Definition finite_nonzero (x : spec_float) : bool :=
  match x with S754_finite _ _ _ => true | _ => false end.

(** A magnitude whose reciprocal is in the range of the normal numbers of
    single precision. *)
Definition normal_range (x : spec_float) : Prop :=
  (pow2 (-126) <= magnitude x <= pow2 126)%Q.

(** [y] is the single-precision reciprocal of the real part of [d]: the
    correct rounding of the exact reciprocal, and within [2 ^ -24] times
    the exact reciprocal of it when that is in the normal range. *)
Definition accurate32 (d : ComplexType spec_float) (y : spec_float) : Prop :=
  reciprocal_of 24 128 (real d) y /\
  (normal_range (real d) -> standard_model 24 (real d) y).

Lemma recip32_accurate (d : ComplexType spec_float) :
  finite_nonzero (real d) = true -> accurate32 d (@recip_real _ binary32 d).
Proof.
  destruct d as [[| | |s m e] im]; try discriminate. intros _. split.
  - apply (ieee_recip_reciprocal 24 128 eq_refl s m e im);
      [apply binary32_one_exact|discriminate].
  - apply binary32_model.
Qed.

(** The specified output of a matrix with a finite diagonal. *)
Lemma diagonal_accurate (n : Z) (R : matrix) :
  (forall r, 1 <= r <= n -> finite_nonzero (real (R r r)) = true) ->
  Forall2 accurate32 (diagonal n R) (@spec_output _ binary32 n R).
Proof.
  intros Hfin. unfold spec_output, diagonal. rewrite map_map. apply Forall2_map.
  intros d Hd%zrange_In. apply recip32_accurate, Hfin. lia.
Qed.

(** C8: End to end accuracy.  In single precision, for [num_rows] up to
    65535, on the packing of a matrix [R] whose diagonal has finite real
    parts other than zero, the invocation returns and the value written
    for each row has the sign of the diagonal element of the row and is a
    rounding to nearest of its exact reciprocal: within half a unit of the
    last place and no valid number of the format nearer, or an infinity
    when the reciprocal is at least the overflow threshold; for a diagonal
    element of magnitude between [2 ^ -126] and [2 ^ 126] the value is a
    normal number within [2 ^ -24] times the exact reciprocal of it. *)
Theorem kernel_outputs_correctly_rounded (n : Z) (R : matrix) (pin0 : Pin)
    (pout0 : Pout) (rest : list (ComplexType spec_float)) :
  0 <= n <= max_rows ->
  contents pin0 = pack n R ++ rest ->
  has_room pout0 (Z.to_nat n) ->
  (forall r, 1 <= r <= n -> finite_nonzero (real (R r r)) = true) ->
  exists c ys,
    @SubmitDiagReciprocalKernel _ binary32 _ _ PI PO n pin0 pout0 = Ok tt c /\
    contents (pout c) = contents pout0 ++ ys /\
    Forall2 accurate32 (diagonal n R) ys.
Proof.
  intros Hn Hc Hr Hfin.
  destruct (@submit_pack _ binary32 _ _ PI PO n R pin0 pout0 rest Hn Hc Hr)
    as (c & E & _ & Ho).
  exists c, (@spec_output _ binary32 n R). repeat split; auto.
  now apply diagonal_accurate.
Qed.

(** ** The pipeline *)

Variables (pin0 : Pin) (pout0 : Pout).
Hypothesis empty_in : contents pin0 = [].
Hypothesis empty_out : contents pout0 = [].
Hypothesis depth_in : positive_depth pin0.
Hypothesis depth_out : positive_depth pout0.

(** C16: End to end, through the pipeline.  In single precision, for
    [num_rows] up to 65535, with pipes of depth at least one and a producer
    that sends the packing of a matrix [R] whose diagonal has finite real
    parts other than zero: whatever the order in which the producer, the
    kernel and the consumer move, when no stage can move any more the
    pipeline is finished and the consumer holds, in row order, one value
    per row, each of the sign of the diagonal element of its row and a
    rounding to nearest of its exact reciprocal, with a relative error of
    at most [2 ^ -24] when the diagonal element has a magnitude between
    [2 ^ -126] and [2 ^ 126]. *)
Theorem pipeline_delivers_rounded (n : Z) (R : matrix)
    (s : sys spec_float Pin Pout) :
  0 <= n <= max_rows ->
  (forall r, 1 <= r <= n -> finite_nonzero (real (R r r)) = true) ->
  @steps _ binary32 _ _ PI PO n (total_reads n)
    (sys_init (total_reads n) (pack n R) pin0 pout0) s ->
  @stuck _ binary32 _ _ PI PO n (total_reads n) s ->
  finished s /\ Forall2 accurate32 (diagonal n R) (received s).
Proof using empty_in empty_out depth_in depth_out.
  intros Hn Hfin St Hs.
  pose proof (@reachable_inv _ binary32 _ _ PI PO n pin0 pout0 empty_in empty_out
                _ _ St) as Hi.
  destruct (@progress _ binary32 _ _ PI PO n (total_reads n) _ [] pin0 pout0
              depth_in depth_out (pack_stream_length n R Hn) s Hi)
    as [Hf|[s' S']]; [|elim (Hs s' S')].
  split; [exact Hf|].
  rewrite (@finished_spec _ binary32 _ _ PI PO n pin0 pout0 R Hn s Hi Hf).
  now apply diagonal_accurate.
Qed.
End Accuracy.

(** The 3 x 3 example: the reciprocals of 2, 5 and 4. *)
Lemma kernel_outputs_correctly_rounded_witness :
  exists c ys,
    run32 3 example_input [] = Ok tt c /\
    contents (pout c) = [] ++ ys /\
    Forall2 accurate32 (diagonal 3 example_matrix) ys.
Proof.
  apply (@kernel_outputs_correctly_rounded _ _ fifo_pipe fifo_pipe
           3 example_matrix example_input [] []).
  - unfold max_rows; lia.
  - reflexivity.
  - exact I.
  - intros r Hr.
    assert (r = 1 \/ r = 2 \/ r = 3) as [->|[->| ->]] by lia; reflexivity.
Defined.

(** The scheduled run of the 3 x 3 example, through pipes of depth one. *)
Lemma pipeline_delivers_rounded_witness :
  finished example_final /\
  Forall2 accurate32 (diagonal 3 example_matrix) (received example_final).
Proof.
  apply (@pipeline_delivers_rounded _ _ bfifo_pipe bfifo_pipe (pipe1 _) (pipe1 _)
           eq_refl eq_refl (pipe1_depth _) (pipe1_depth _) 3 example_matrix).
  - unfold max_rows; lia.
  - intros r Hr.
    assert (r = 1 \/ r = 2 \/ r = 3) as [->|[->| ->]] by lia; reflexivity.
  - eapply nsteps_steps, run_schedule_nsteps, example_schedule_runs.
  - exact example_final_stuck.
Defined.
