(* ===== verification/Ideal.v ===== *)
(** * Ideal: the kernel over the rationals

    The kernel is written against the class [Scalar]: the same code runs
    on any base type.  [exact] is the base type of the mathematics, the
    rational numbers with their exact division; the invocation over
    [exact] writes the exact reciprocals of the diagonal.  This file
    relates the two runs of the one program: on a matrix whose diagonal
    has real parts in the normal range, the single-precision invocation
    and the exact invocation both return, and each value of the first is
    within [2 ^ -24] times the exact value of it. *)

From Stdlib Require Import ZArith QArith Qabs Lqa List Lia Floats.SpecFloat.
From S2P Require Import Prelude MachineInt Scalar FloatValid FloatRound FloatError.
From S2P Require Import FloatModel.
From S2P Require Import Pipe TriIndex Packed Blocking Kernel KernelLoop Spec Correctness.
From S2P Require Import Accuracy.
Import ListNotations.

#[local] Open Scope Z_scope.

(** ** The exact base type *)

(** The rationals: integer literals are exact, division is exact. *)
Definition exact : Scalar Q := {| of_int := inject_Z; fdiv := Qdiv |}.

(** The rational number a finite float stands for; zero for the others. *)
Definition value (x : spec_float) : Q :=
  match x with
  | S754_finite true _ _ => (- magnitude x)%Q
  | _ => magnitude x
  end.

(** An element, and a matrix, read exactly. *)
Definition exact_of (d : ComplexType spec_float) : ComplexType Q :=
  mkComplex (value (real d)) (value (imag d)).

Definition ideal (R : @matrix spec_float) : @matrix Q :=
  fun r c => exact_of (R r c).

(** [y] is within the unit roundoff of single precision, relative to
    [q], of the rational [q]. *)
Definition approximates (y : spec_float) (q : Q) : Prop :=
  (Qabs (value y - q) <= pow2 (-24) * Qabs q)%Q.

(** The exact reciprocal of the real part. *)
Definition exact_recip (d : ComplexType spec_float) : Q :=
  @recip_real _ exact (exact_of d).

(** ** The standard model, with signs *)

(** A number that satisfies the standard model for [x] approximates the
    exact reciprocal of [x], sign included. *)
Lemma standard_model_approximates (s : bool) (m : positive) (e : Z)
    (y : spec_float) :
  standard_model 24 (S754_finite s m e) y ->
  approximates y (1 / value (S754_finite s m e)).
Proof.
  intros (Hs & Hm & Hb). pose proof (magnitude_pos s m e) as Hx.
  pose proof (Qquot_pos 1 _ ltac:(lra) Hx) as Hq.
  destruct y as [sy|sy| |sy p ey]; cbn [mantissa] in Hm; try lia.
  injection Hs as ->. unfold approximates.
  destruct s; cbn [value].
  - assert (E : (1 / - magnitude (S754_finite true m e)
                 == - (1 / magnitude (S754_finite true m e)))%Q)
      by (field; lra).
    rewrite E, Qabs_opp, (Qabs_pos (1 / _)) by lra.
    setoid_replace (- magnitude (S754_finite true p ey)
                    - - (1 / magnitude (S754_finite true m e)))%Q
      with (- (magnitude (S754_finite true p ey)
               - 1 / magnitude (S754_finite true m e)))%Q by ring.
    now rewrite Qabs_opp.
  - now rewrite (Qabs_pos (1 / _)) by lra.
Qed.

Lemma recip32_approximates (d : ComplexType spec_float) :
  normal_range (real d) ->
  approximates (@recip_real _ binary32 d) (exact_recip d).
Proof.
  intros Hn. destruct d as [[sx|sx| |s m e] im];
    try (destruct Hn as [Hn _]; now vm_compute in Hn).
  apply standard_model_approximates. now apply binary32_model.
Qed.

(** The specified outputs of the two base types, side by side. *)
Lemma spec_output_approximates (n : Z) (R : @matrix spec_float) :
  (forall r, 1 <= r <= n -> normal_range (real (R r r))) ->
  Forall2 approximates (@spec_output _ binary32 n R)
                       (@spec_output _ exact n (ideal R)).
Proof.
  intros Hn. unfold spec_output, diagonal. rewrite !map_map.
  apply Forall2_map. intros r Hr%zrange_In.
  apply recip32_approximates, Hn. lia.
Qed.

(** ** Theorems *)

Section Ideal.
Context {Pin Pout : Type}.
Context {PI : Pipe Pin (ComplexType spec_float)} {PO : Pipe Pout spec_float}.
Context {Qin Qout : Type}.
Context {QI : Pipe Qin (ComplexType Q)} {QO : Pipe Qout Q}.

(** C15: The floating-point kernel approximates the exact one.  For
    [num_rows] up to 65535 and a matrix [R] whose diagonal has real parts
    of magnitude between [2 ^ -126] and [2 ^ 126]: the invocation in
    single precision on the packing of [R] and the invocation over the
    rationals on the same packing read exactly both return; the second
    writes the exact reciprocals [1 / real (R r r)], and the first
    writes, row by row, a value within [2 ^ -24] times the exact
    reciprocal of it. *)
Theorem kernel_approximates_ideal (n : Z) (R : @matrix spec_float)
    (pin0 : Pin) (pout0 : Pout) (qin0 : Qin) (qout0 : Qout) :
  0 <= n <= max_rows ->
  contents pin0 = pack n R -> contents qin0 = pack n (ideal R) ->
  has_room pout0 (Z.to_nat n) -> has_room qout0 (Z.to_nat n) ->
  (forall r, 1 <= r <= n -> normal_range (real (R r r))) ->
  exists c cq ys qs,
    @SubmitDiagReciprocalKernel _ binary32 _ _ PI PO n pin0 pout0 = Ok tt c /\
    @SubmitDiagReciprocalKernel _ exact _ _ QI QO n qin0 qout0 = Ok tt cq /\
    contents (pout c) = contents pout0 ++ ys /\
    contents (pout cq) = contents qout0 ++ qs /\
    qs = map exact_recip (diagonal n R) /\
    Forall2 approximates ys qs.
Proof.
  intros Hn Hc Hq Hr Hrq Hnorm.
  rewrite <- (app_nil_r (pack n R)) in Hc.
  rewrite <- (app_nil_r (pack n (ideal R))) in Hq.
  destruct (@submit_pack _ binary32 _ _ PI PO n R pin0 pout0 [] Hn Hc Hr)
    as (c & E & _ & Ho).
  destruct (@submit_pack _ exact _ _ QI QO n (ideal R) qin0 qout0 [] Hn Hq Hrq)
    as (cq & Eq & _ & Hoq).
  exists c, cq, (@spec_output _ binary32 n R), (@spec_output _ exact n (ideal R)).
  repeat split; auto using spec_output_approximates.
  unfold spec_output, diagonal. now rewrite !map_map.
Qed.
End Ideal.

(** The 3 x 3 example: [1/2], [1/5] and [1/4], and their roundings. *)
Lemma kernel_approximates_ideal_witness :
  exists c cq ys qs,
    run32 3 example_input [] = Ok tt c /\
    @SubmitDiagReciprocalKernel _ exact _ _ fifo_pipe fifo_pipe 3
      (pack 3 (ideal example_matrix)) [] = Ok tt cq /\
    contents (pout c) = [] ++ ys /\
    contents (pout cq) = [] ++ qs /\
    qs = map exact_recip (diagonal 3 example_matrix) /\
    Forall2 approximates ys qs.
Proof.
  apply (@kernel_approximates_ideal _ _ fifo_pipe fifo_pipe _ _ fifo_pipe
           fifo_pipe 3 example_matrix example_input []
           (pack 3 (ideal example_matrix)) []).
  - unfold max_rows; lia.
  - reflexivity.
  - reflexivity.
  - exact I.
  - exact I.
  - intros r Hr.
    assert (r = 1 \/ r = 2 \/ r = 3) as [->|[->| ->]] by lia;
      split; vm_compute; discriminate.
Defined.
