(* ===== verification/KernelTree.v ===== *)
(** * KernelTree: the kernel as an interaction tree

    The kernel is an interactive program: it does nothing but exchange
    values with its two pipes.  This file gives it as an interaction tree
    over the events [ReadIn] and [WriteOut], with the [for] loop as the
    library's [ITree.iter], so without fuel.  Two results tie it to the
    rest of the development.  Up to silent steps the tree is the program
    that needs no counters: for each row, read the diagonal element, write
    its reciprocal, read and drop the rest of the row ([rows_tree]).  And
    the tree, run against two pipes by the interpreter [run_tree], ends as
    [SubmitDiagReciprocalKernel] of [Kernel] does. *)

From Stdlib Require Import ZArith List Lia Bool Morphisms SpecFloat.
From S2P Require Import Prelude MachineInt Scalar Pipe TriIndex Packed.
From S2P Require Import Blocking Kernel KernelLoop Spec Correctness Safety.
From ITree Require Import ITree ITreeFacts.
Import ITreeNotations.
Import ListNotations.

#[local] Open Scope Z_scope.
#[local] Open Scope itree_scope.

(** Equal up to silent steps after the same first computation. *)
Ltac bind_step :=
  apply eutt_clo_bind with (UU := eq); [reflexivity | intros ? ? <-].

Section Tree.
Context {F : Type} {SF : Scalar F}.

(** ** The events and the program *)

(** The two calls of the kernel on its pipes. *)
Inductive pipeE : Type -> Type :=
| ReadIn : pipeE (ComplexType F)      (** line 27: [RMatrixInPipe::read()] *)
| WriteOut (v : F) : pipeE unit.      (** line 30: [RDiagRecipVectorOutPipe::write(v)] *)

(** Lines 29-31: the conditional write. *)
Definition emit_tree (p : position) (entry : ComplexType F) : itree pipeE unit :=
  if on_diag p then trigger (WriteOut (recip_real entry)) else Ret tt.

(** Lines 27-38: the body of the loop, from the counters before to the
    counters after. *)
Definition body_tree (num_rows : Z) (p : position) : itree pipeE position :=
  entry <- trigger ReadIn ;;
  emit_tree p entry ;;
  Ret (advance num_rows p).

(** Lines 25-39: one turn of the [for] loop, on the pair of [i] and the
    counters: [inl] to go on, [inr] to leave. *)
Definition turn_tree (num_rows total : Z) (s : Z * position)
  : itree pipeE (Z * position + unit) :=
  if fst s <? total then
    p' <- body_tree num_rows (snd s) ;;
    Ret (inl (int_add (fst s) 1, p'))
  else Ret (inr tt).

Definition loop_tree (num_rows total : Z) : Z * position -> itree pipeE unit :=
  ITree.iter (turn_tree num_rows total).

(** Lines 21-39: the submitted task. *)
Definition kernel_tree (num_rows : Z) : itree pipeE unit :=
  loop_tree num_rows (total_reads num_rows) (0, pos_init).

(** ** Reference programs *)

(** The program that is handed the coordinates instead of computing
    them. *)
Fixpoint pos_tree (ps : list position) : itree pipeE unit :=
  match ps with
  | [] => Ret tt
  | p :: ps' =>
      entry <- trigger ReadIn ;; emit_tree p entry ;; pos_tree ps'
  end.

(** Read and drop [k] elements. *)
Fixpoint skip_tree (k : nat) : itree pipeE unit :=
  match k with
  | O => Ret tt
  | S k' => trigger ReadIn ;; skip_tree k'
  end.

(** A row with [k] elements after its diagonal element. *)
Definition row_tree (k : nat) : itree pipeE unit :=
  entry <- trigger ReadIn ;;
  trigger (WriteOut (recip_real entry)) ;;
  skip_tree k.

(** The rows of an [m] x [m] upper triangle, longest first. *)
Fixpoint rows_tree (m : nat) : itree pipeE unit :=
  match m with
  | O => Ret tt
  | S m' => row_tree m' ;; rows_tree m'
  end.

(** ** The interpreter *)

Context {Pin Pout : Type} {PI : Pipe Pin (ComplexType F)} {PO : Pipe Pout F}.

(** The outcome of a run: the two pipes, returned or at a suspension. *)
Definition tree_outcome : Type := result (Pin * Pout) F unit.

(** One event against the pipes: the continuation applied to the answer,
    or the suspension. *)
Definition handle {X : Type} (e : pipeE X) (pin : Pin) (pout : Pout)
  : (X * Pin * Pout) + tree_outcome :=
  match e in pipeE X return (X * Pin * Pout) + tree_outcome with
  | ReadIn =>
      match read pin with
      | Some (x, pin') => inl (x, pin', pout)
      | None => inr (BlockedRead (pin, pout))
      end
  | WriteOut v =>
      match write v pout with
      | Some pout' => inl (tt, pin, pout')
      | None => inr (BlockedWrite v (pin, pout))
      end
  end.

(** Run a tree against the pipes, for at most [fuel] nodes. *)
Fixpoint run_tree (fuel : nat) (t : itree pipeE unit) (pin : Pin) (pout : Pout)
  : tree_outcome :=
  match fuel with
  | O => OutOfFuel (pin, pout)
  | S fuel' =>
      match observe t with
      | RetF _ => Ok tt (pin, pout)
      | TauF t' => run_tree fuel' t' pin pout
      | VisF e k =>
          match handle e pin pout with
          | inl (x, pin', pout') => run_tree fuel' (k x) pin' pout'
          | inr r => r
          end
      end
  end.

(** ** The loop and the program without counters *)

Section Unroll.
Variables num_rows total : Z.
Hypothesis total_in_int : in_int total.

Lemma loop_tree_exit_eq (i : Z) (p : position) :
  total <= i -> loop_tree num_rows total (i, p) ≅ Ret tt.
Proof.
  intros H. unfold loop_tree. rewrite unfold_iter. unfold turn_tree.
  cbn [fst snd]. destruct (Z.ltb_spec i total); [lia|].
  rewrite bind_ret_l. reflexivity.
Qed.

(** One turn of the loop: the read, the conditional write, and the silent
    step back to the head of the loop. *)
Lemma loop_tree_turn (i : Z) (p : position) :
  i < total ->
  loop_tree num_rows total (i, p)
  ≅ (entry <- trigger ReadIn ;;
     emit_tree p entry ;;
     Tau (loop_tree num_rows total (int_add i 1, advance num_rows p))).
Proof.
  intros Hlt. unfold loop_tree. rewrite unfold_iter. unfold turn_tree, body_tree.
  cbn [fst snd]. destruct (Z.ltb_spec i total); [|lia].
  rewrite !bind_bind. apply eqit_bind; [reflexivity|]. intros entry.
  rewrite bind_bind. apply eqit_bind; [reflexivity|]. intros [].
  now rewrite !bind_ret_l.
Qed.

(** With [k] turns left the loop is the program of the next [k]
    positions. *)
Lemma loop_tree_unroll (k : nat) (i : Z) (p : position) :
  int_min <= i -> i + Z.of_nat k = total ->
  loop_tree num_rows total (i, p)
  ≈ pos_tree (trajectory (advance num_rows) k p).
Proof using total_in_int.
  revert i p. induction k as [|k IH]; intros i p Hi Hk.
  - rewrite loop_tree_exit_eq by lia. reflexivity.
  - rewrite loop_tree_turn by lia. cbn [trajectory pos_tree].
    do 2 bind_step. rewrite tau_eutt.
    assert (Hs : int_add i 1 = i + 1)
      by (apply int_add_small; destruct int_bounds; unfold in_int in *; lia).
    rewrite Hs. apply IH; lia.
Qed.
End Unroll.

(** ** From positions to rows *)

Lemma pos_tree_app (ps qs : list position) :
  pos_tree (ps ++ qs) ≈ pos_tree ps ;; pos_tree qs.
Proof.
  induction ps as [|p ps IH]; cbn [app pos_tree].
  - now rewrite bind_ret_l.
  - rewrite !bind_bind. setoid_rewrite bind_bind. now setoid_rewrite IH.
Qed.

(** Off the diagonal nothing is written. *)
Lemma pos_tree_off_diag (ps : list position) :
  Forall (fun p => on_diag p = false) ps ->
  pos_tree ps ≈ skip_tree (length ps).
Proof.
  induction 1 as [|p ps Hp _ IH]; cbn [pos_tree skip_tree length].
  - reflexivity.
  - unfold emit_tree. rewrite Hp. setoid_rewrite bind_ret_l.
    now setoid_rewrite IH.
Qed.

Lemma pos_tree_row (n r : Z) :
  r <= n -> pos_tree (row_indices n r) ≈ row_tree (Z.to_nat (n - r)).
Proof.
  intros H. rewrite row_indices_cons by assumption.
  cbn [pos_tree]. unfold row_tree, emit_tree, on_diag. cbn [row col].
  rewrite Z.eqb_refl. do 2 bind_step.
  rewrite pos_tree_off_diag by apply row_tail_off_diag.
  now rewrite length_map, zrange_length.
Qed.

(** The last [m] rows of the triangle. *)
Lemma pos_tree_rows (n : Z) (m : nat) (r : Z) :
  r + Z.of_nat m = n + 1 ->
  pos_tree (flat_map (row_indices n) (zrange r m)) ≈ rows_tree m.
Proof.
  revert r. induction m as [|m IH]; intros r Hr; cbn [zrange flat_map rows_tree].
  - reflexivity.
  - rewrite pos_tree_app, pos_tree_row by lia.
    replace (Z.to_nat (n - r)) with m by lia.
    bind_step. apply IH. lia.
Qed.

(** C17: The loop with its counters is the program of the rows.  For
    [num_rows] up to 65535 the kernel, as an interaction tree, is equal up
    to silent steps to the program that has no counter and no test: for
    each row, longest first, read an element and write the reciprocal of
    its real part, then read and drop the rest of the row. *)
Theorem kernel_tree_rows (n : Z) :
  0 <= n <= max_rows -> kernel_tree n ≈ rows_tree (Z.to_nat n).
Proof.
  intros Hn. unfold kernel_tree.
  rewrite (loop_tree_unroll n _ (total_reads_in_int n) (tri (Z.to_nat n)))
    by (rewrite ?total_reads_tri by assumption; destruct int_bounds; lia).
  rewrite trajectory_tri_indices by auto with diag.
  apply pos_tree_rows. lia.
Qed.

(** ** The interpreter and the kernel of [Kernel] *)

(** Trees that differ in their representation only run alike. *)
Lemma run_tree_eq_itree (fuel : nat) (t1 t2 : itree pipeE unit)
    (pin : Pin) (pout : Pout) :
  t1 ≅ t2 -> run_tree fuel t1 pin pout = run_tree fuel t2 pin pout.
Proof.
  revert t1 t2 pin pout. induction fuel as [|fuel IH]; intros t1 t2 pin pout H;
    [reflexivity|].
  apply eqit_inv in H. cbn [run_tree]. unfold observe.
  destruct (_observe t1) as [[]|t1'|X1 e1 k1], (_observe t2) as [[]|t2'|X2 e2 k2];
    cbn in H; try contradiction; try discriminate; auto.
  destruct H as (Heq & He & Hk). destruct Heq. cbn in He, Hk. subst e2.
  destruct (handle e1 pin pout) as [[[x pin'] pout']|r]; auto.
  apply IH, Hk.
Qed.

#[export] Instance run_tree_proper (fuel : nat) :
  Proper (eq_itree eq ==> eq ==> eq ==> eq) (run_tree fuel).
Proof. intros t1 t2 H ? pin -> ? pout ->. now apply run_tree_eq_itree. Qed.

(** The interpreter on the shapes the kernel is made of. *)
Lemma run_tree_read (fuel : nat) (k : ComplexType F -> itree pipeE unit)
    (pin : Pin) (pout : Pout) :
  run_tree (S fuel) (entry <- trigger ReadIn ;; k entry) pin pout
  = match read pin with
    | Some (x, pin') => run_tree fuel (k x) pin' pout
    | None => BlockedRead (pin, pout)
    end.
Proof.
  rewrite bind_trigger. cbn. now destruct (read pin) as [[x pin']|].
Qed.

Lemma run_tree_write (fuel : nat) (v : F) (t : itree pipeE unit)
    (pin : Pin) (pout : Pout) :
  run_tree (S fuel) (trigger (WriteOut v) ;; t) pin pout
  = match write v pout with
    | Some pout' => run_tree fuel t pin pout'
    | None => BlockedWrite v (pin, pout)
    end.
Proof.
  rewrite bind_trigger. cbn. now destruct (write v pout).
Qed.

Section Run.
Variables num_rows total : Z.
Hypothesis total_in_int : in_int total.

(** The tree, run from the head of the loop for three nodes per iteration
    and one for the exit, ends as the loop of [Kernel] ends. *)
Lemma run_tree_loop (fuel : nat) (c : config Pin Pout) (g : nat) :
  int_min <= i c -> (3 * fuel + 1 <= g)%nat ->
  (forall c', kernel_loop fuel num_rows total c <> OutOfFuel c') ->
  run_tree g (loop_tree num_rows total (i c, pos c)) (pin c) (pout c)
  = pipes_of (kernel_loop fuel num_rows total c).
Proof using total_in_int.
  revert c g. induction fuel as [|fuel IH]; intros c g Hi Hg Hfuel;
    (destruct g as [|g]; [lia|]); cbn [kernel_loop] in *;
    destruct (Z.ltb_spec (i c) total) as [Hlt|Hge];
    try (rewrite loop_tree_exit_eq by assumption; reflexivity);
    [now elim (Hfuel c)|].
  assert (Hi' : int_min <= int_add (i c) 1)
    by (rewrite int_add_small; destruct int_bounds; unfold in_int in *; lia).
  rewrite loop_tree_turn, run_tree_read by assumption.
  unfold loop_body, incr_i, Blocking.bind, read_in, gets, when, write_out,
    modify, Blocking.ret in *.
  destruct (read (pin c)) as [[x p']|] eqn:R; [|reflexivity].
  cbv beta iota in *. change (pos (set_pin c p')) with (pos c) in *.
  unfold emit_tree.
  destruct (on_diag (pos c)) eqn:D; cbv beta iota in *;
    change (pout (set_pin c p')) with (pout c) in *.
  - destruct g as [|g]; [lia|]. rewrite run_tree_write.
    destruct (write (recip_real x) (pout c)) as [q|] eqn:W; [|reflexivity].
    destruct g as [|g]; [lia|]. cbn [run_tree observe _observe].
    apply (IH (mkConfig _ _ p' q) g); auto. lia.
  - rewrite bind_ret_l. destruct g as [|g]; [lia|].
    cbn [run_tree observe _observe].
    apply (IH (mkConfig _ _ p' (pout c)) g); auto. lia.
Qed.
End Run.

(** C18: The tree under the interpreter is the kernel.  For every
    [num_rows] and all pipes, the interaction tree of the kernel, run
    against the pipes for at least three nodes per iteration and one
    more, ends as the invocation of [SubmitDiagReciprocalKernel] ends:
    returned, suspended in its read or suspended in its write with the
    same value, and with the same contents in both pipes. *)
Theorem run_tree_kernel (n : Z) (pin0 : Pin) (pout0 : Pout) (g : nat) :
  (3 * Z.to_nat (total_reads n) + 1 <= g)%nat ->
  run_tree g (kernel_tree n) pin0 pout0
  = pipes_of (SubmitDiagReciprocalKernel n pin0 pout0).
Proof.
  intros Hg.
  apply (run_tree_loop n (total_reads n) (total_reads_in_int n)
           (Z.to_nat (total_reads n)) (kernel_init pin0 pout0) g); auto.
  - simpl. destruct int_bounds. lia.
  - intros c. apply submit_not_out_of_fuel.
Qed.

End Tree.

(** ** The example of the specification *)

(** The tree in single precision, run against unbounded FIFOs. *)
Definition run_tree32 (g : nat) (n : Z)
    (pin0 : list (ComplexType spec_float)) (pout0 : list spec_float) :=
  @run_tree spec_float _ _ fifo_pipe fifo_pipe g (@kernel_tree _ binary32 n)
    pin0 pout0.

Example run_tree_example :
  run_tree32 19 3 example_input [] = Ok tt ([], example_output).
Proof. vm_compute. reflexivity. Qed.

Lemma kernel_tree_rows_witness :
  @kernel_tree _ binary32 3 ≈ @rows_tree _ binary32 3.
Proof. apply (@kernel_tree_rows _ binary32 3). unfold max_rows; lia. Defined.

Lemma run_tree_kernel_witness :
  run_tree32 19 3 example_input [] = pipes_of (run32 3 example_input []).
Proof.
  apply (@run_tree_kernel _ binary32 _ _ fifo_pipe fifo_pipe 3
           example_input [] 19).
  apply Nat.le_refl.
Defined.
